(** * Lyrics translator backend: rate limiter, fallback dispatch, pipeline

    A shallow embedding of the TypeScript services
    (rateLimiter.ts, freeAudioRecognition.ts, freeLyricsService.ts,
    freeTranslationService.ts, lyricsTranslatorService.ts,
    freeApiConfig.ts, environment.ts, useLyricsTranslator.ts) and the
    properties of the specification that are
    checked against them.

    Conventions of the embedding:
    - JavaScript numbers that hold counts and epoch milliseconds are [Z];
      the only non-finite value that the code can produce, [Math.min()] of
      an empty argument list, is [Infinity] of type [Num].
    - Strings are [string] (8-bit characters); [length] counts characters.
    - [Date.now()] is an explicit argument [now] of the rate limiter
      methods; the services read it from the clock of the [World].  The
      clock advances where the code awaits: by the latency of a [fetch]
      and by the delay of a timer.
    - The external services are a [Network]: for each endpoint, what
      the [n]-th [fetch] of the process settles to.  The requests that
      the adapters build (URLs, form data, headers) are not represented;
      whatever a service answers to them is one of the networks over
      which the statements range.  Building a URL can throw, though:
      [encodeURIComponent] is a function of the host that returns or
      throws, called where the adapter calls it.
    - An [async] method is a computation [M A] over the world that
      returns normally or throws; the state written before a throw
      stays written.  Arguments have their declared TypeScript types.
    - [console.log]/[warn]/[error] have no effect on the modelled state
      and are left out. *)

From Stdlib Require Import ZArith QArith Lia Lqa Ascii.
From stdpp Require Import gmap strings list fin_maps pretty.

Local Open Scope string_scope.
Local Open Scope Z_scope.
Local Open Scope list_scope.

(** ** types/index.ts *)

Record RateLimit := mkRateLimit {
  requests : Z;
  window : Z (* in milliseconds *)
}.

Record ServiceConfig := mkServiceConfig {
  apiKey : string;
  accessKey : string;
  accessSecret : string;
  baseUrl : string;
  rateLimit : RateLimit;
  retryAttempts : Z;
  timeout : Z
}.

(** A JavaScript number as the rate limiter uses it: an integer, or the
    [Infinity] that [Math.min(...[])] evaluates to. *)
Inductive Num :=
| Fin (z : Z)
| Infinity.

Record RateLimitInfo := mkRateLimitInfo {
  remaining : Z;
  resetTime : Num;
  lastRequest : Z
}.

#[global] Instance Num_eq_dec : EqDecision Num.
Proof. solve_decision. Defined.

Module JsNum.

(** [Math.min(...l)] *)
Definition min_list (l : list Z) : Num :=
  foldr (fun t acc => match acc with
                      | Infinity => Fin t
                      | Fin m => Fin (Z.min t m)
                      end) Infinity l.

(** [a + z] *)
Definition add (a : Num) (z : Z) : Num :=
  match a with
  | Fin x => Fin (x + z)
  | Infinity => Infinity
  end.

(** [Math.max(0, a - z)] *)
Definition max0_sub (a : Num) (z : Z) : Num :=
  match a with
  | Fin x => Fin (Z.max 0 (x - z))
  | Infinity => Infinity
  end.

End JsNum.

(** ** services/rateLimiter.ts *)

Record RateLimiter := mkRateLimiter {
  limits : gmap string RateLimitInfo;
  requestCounts : gmap string (list Z)
}.

Module RL.

Definition empty : RateLimiter :=
  {| limits := ∅; requestCounts := ∅ |}.

(** The timestamps that [filter(timestamp => now - timestamp < window)]
    keeps. *)
Definition prune (now win : Z) (l : list Z) : list Z :=
  filter (fun timestamp => now - timestamp < win) l.

Definition isAllowed (now : Z) (serviceName : string) (config : ServiceConfig)
    (rl : RateLimiter) : bool * RateLimiter :=
  let key := serviceName in
  (* Get or create rate limit info *)
  let '(limitInfo, rl) :=
    match limits rl !! key with
    | Some limitInfo => (limitInfo, rl)
    | None =>
        let limitInfo :=
          {| remaining := requests (rateLimit config);
             resetTime := Fin (now + window (rateLimit config));
             lastRequest := 0 |} in
        (limitInfo,
         {| limits := <[key := limitInfo]> (limits rl);
            requestCounts := <[key := []]> (requestCounts rl) |})
    end in
  (* Clean old requests outside the time window *)
  let requests_ := default [] (requestCounts rl !! key) in
  let validRequests := prune now (window (rateLimit config)) requests_ in
  (* Check if we've exceeded the limit *)
  if decide (requests (rateLimit config) <= Z.of_nat (length validRequests)) then
    let oldestRequest := JsNum.min_list validRequests in
    let limitInfo :=
      {| remaining := 0;
         resetTime := JsNum.add oldestRequest (window (rateLimit config));
         lastRequest := lastRequest limitInfo |} in
    (false,
     {| limits := <[key := limitInfo]> (limits rl);
        requestCounts := <[key := validRequests]> (requestCounts rl) |})
  else
    (* Update counters *)
    let limitInfo :=
      {| remaining :=
           requests (rateLimit config) - Z.of_nat (length validRequests) - 1;
         resetTime := resetTime limitInfo;
         lastRequest := now |} in
    (* Add this request *)
    (true,
     {| limits := <[key := limitInfo]> (limits rl);
        requestCounts := <[key := validRequests ++ [now]]> (requestCounts rl) |}).

Definition recordRequest (now : Z) (serviceName : string) (rl : RateLimiter)
    : RateLimiter :=
  let key := serviceName in
  match limits rl !! key with
  | Some limitInfo =>
      if decide (0 < remaining limitInfo) then
        {| limits :=
             <[key := {| remaining := remaining limitInfo - 1;
                         resetTime := resetTime limitInfo;
                         lastRequest := now |}]> (limits rl);
           requestCounts := requestCounts rl |}
      else rl
  | None => rl
  end.

Definition getRemainingRequests (serviceName : string) (rl : RateLimiter) : Z :=
  match limits rl !! serviceName with
  | Some limitInfo => remaining limitInfo
  | None => 0
  end.

Definition getResetTime (now : Z) (serviceName : string) (rl : RateLimiter) : Num :=
  match limits rl !! serviceName with
  | Some limitInfo => resetTime limitInfo
  | None => Fin now
  end.

(** Force reset for testing or manual override *)
Definition reset (serviceName : string) (rl : RateLimiter) : RateLimiter :=
  {| limits := delete serviceName (limits rl);
     requestCounts := delete serviceName (requestCounts rl) |}.

(** Get time until next allowed request *)
Definition getRetryAfter (now : Z) (serviceName : string) (config : ServiceConfig)
    (rl : RateLimiter) : Num :=
  let requests_ := default [] (requestCounts rl !! serviceName) in
  if decide (Z.of_nat (length requests_) < requests (rateLimit config)) then Fin 0
  else
    let oldestRequest := JsNum.min_list requests_ in
    let resetTime := JsNum.add oldestRequest (window (rateLimit config)) in
    JsNum.max0_sub resetTime now.

(** The recorded window of a key ([[]] for an unseen key). *)
Definition recorded (serviceName : string) (rl : RateLimiter) : list Z :=
  default [] (requestCounts rl !! serviceName).

(** The window that [isAllowed] counts: the recorded timestamps of a
    known key, pruned at [now]. *)
Definition surviving (now : Z) (key : string) (config : ServiceConfig)
    (rl : RateLimiter) : list Z :=
  prune now (window (rateLimit config))
    (match limits rl !! key with
     | Some _ => recorded key rl
     | None => []
     end).

(** *** Runs of the rate limiter

    A run is the sequence of calls that the dispatchers make on the
    process-wide limiter: every key is always consulted with its own
    configuration [cfg key], each call reads the clock once. *)
Inductive Call :=
| CallIsAllowed (now : Z) (key : string)
| CallRecordRequest (now : Z) (key : string).

Definition call_time (c : Call) : Z :=
  match c with
  | CallIsAllowed now _ | CallRecordRequest now _ => now
  end.

Definition step (cfg : string -> ServiceConfig) (rl : RateLimiter) (c : Call)
    : RateLimiter :=
  match c with
  | CallIsAllowed now key => snd (isAllowed now key (cfg key) rl)
  | CallRecordRequest now key => recordRequest now key rl
  end.

Definition run (cfg : string -> ServiceConfig) (calls : list Call)
    (rl : RateLimiter) : RateLimiter :=
  fold_left (step cfg) calls rl.

(** The timestamps of the calls of a run that [isAllowed] admitted for
    [key], oldest first. *)
Fixpoint admitted (cfg : string -> ServiceConfig) (calls : list Call)
    (key : string) (rl : RateLimiter) : list Z :=
  match calls with
  | [] => []
  | c :: calls =>
      match c with
      | CallIsAllowed now key' =>
          if decide (key' = key) then
            if fst (isAllowed now key (cfg key) rl) then [now] else []
          else []
      | CallRecordRequest _ _ => []
      end ++ admitted cfg calls key (step cfg rl c)
  end.

(** The clock never runs backwards during a run: the readings are
    non-decreasing and none is later than [now]. *)
Fixpoint monotone_until (now : Z) (times : list Z) : Prop :=
  match times with
  | [] => True
  | t :: times => t <= now /\ Forall (fun t' => t <= t') times /\ monotone_until now times
  end.

(** What a run from a state whose window for [key] agrees with the
    history [h] of admitted timestamps maintains; [T] bounds the clock
    readings so far. *)
Definition window_inv (key : string) (config : ServiceConfig)
    (rl : RateLimiter) (h : list Z) (T : Z) : Prop :=
  (limits rl !! key = None -> recorded key rl = [])
  /\ Forall (fun t => t <= T) h
  /\ (forall now, T <= now ->
        prune now (window (rateLimit config)) (recorded key rl)
        = prune now (window (rateLimit config)) h)
  /\ (recorded key rl = []
       \/ Z.of_nat (length (recorded key rl)) <= requests (rateLimit config)).

End RL.

(** ** JavaScript values and control flow *)

Module Js.

(** ECMAScript white space and line terminators among the 8-bit
    characters. *)
Definition isWhiteSpace (c : ascii) : bool :=
  let n := nat_of_ascii c in
  bool_decide (n = 9 \/ n = 10 \/ n = 11 \/ n = 12 \/ n = 13 \/ n = 32 \/ n = 160)%nat.

Fixpoint trimStart (s : string) : string :=
  match s with
  | EmptyString => EmptyString
  | String c s' => if isWhiteSpace c then trimStart s' else s
  end.

Fixpoint trimEnd (s : string) : string :=
  match s with
  | EmptyString => EmptyString
  | String c s' =>
      match trimEnd s' with
      | EmptyString => if isWhiteSpace c then EmptyString else String c EmptyString
      | t => String c t
      end
  end.

(** [s.trim()] *)
Definition trim (s : string) : string := trimEnd (trimStart s).

(** [s.length] *)
Definition length (s : string) : Z := Z.of_nat (String.length s).

(** Truthiness of a string: [!!s]. *)
Definition truthy (s : string) : bool := negb (String.eqb s "").

(** [a || b] on strings *)
Definition or (a b : string) : string := if truthy a then a else b.

(** [a || b] where [a] may be [undefined] *)
Definition orUndefined (a : option string) (b : string) : string :=
  match a with
  | Some a => or a b
  | None => b
  end.

(** [l.join(sep)] *)
Fixpoint join (sep : string) (l : list string) : string :=
  match l with
  | [] => ""
  | [s] => s
  | s :: l => s +:+ sep +:+ join sep l
  end.

(** [s.split(sep)] for a non-empty string [sep]: [current] is the piece
    being read, [skip] the number of characters of a matched separator
    still to pass over. *)
Fixpoint splitFrom (sep : string) (skip : nat) (s current : string) : list string :=
  match s with
  | EmptyString => [current]
  | String c s' =>
      match skip with
      | S skip => splitFrom sep skip s' current
      | O =>
          if String.prefix sep s
          then current :: splitFrom sep (String.length sep - 1) s' ""
          else splitFrom sep 0 s' (current +:+ String c "")
      end
  end.

Definition split (sep s : string) : list string := splitFrom sep 0 s "".


(** [c.toLowerCase()] for an 8-bit character: the letters A-Z and the
    capital letters of Latin-1 (U+00C0-U+00DE without the multiplication
    sign U+00D7) move up by 32. *)
Definition toLowerCaseChar (c : ascii) : ascii :=
  let n := nat_of_ascii c in
  if bool_decide ((65 <= n <= 90) \/ (192 <= n <= 214) \/ (216 <= n <= 222))%nat
  then ascii_of_nat (n + 32) else c.

(** [s.toLowerCase()] *)
Fixpoint toLowerCase (s : string) : string :=
  match s with
  | EmptyString => EmptyString
  | String c s => String (toLowerCaseChar c) (toLowerCase s)
  end.

(** [s.includes(sub)] *)
Fixpoint includes (s sub : string) : bool :=
  String.prefix sub s
  || match s with
     | EmptyString => false
     | String _ s' => includes s' sub
     end.

(** [Math.min(a, b)], [Math.max(a, b)] and [a < b] on numbers that are
    fractions *)
Definition mathMin (a b : Q) : Q := if Qle_bool a b then a else b.
Definition mathMax (a b : Q) : Q := if Qle_bool a b then b else a.
Definition lessThan (a b : Q) : bool := negb (Qle_bool b a).

(** A thrown value: an [Error] instance with its message, or any other
    value. *)
Inductive Exn :=
| Error (message : string)
| NotAnError.

(** [error instanceof Error ? error.message : fallback] *)
Definition messageOr (fallback : string) (error : Exn) : string :=
  match error with
  | Error message => message
  | NotAnError => fallback
  end.

(** How the evaluation of a function body or of an awaited promise
    ends. *)
Inductive Completion (A : Type) :=
| Normal (a : A)
| Thrown (e : Exn).
Arguments Normal {A} a.
Arguments Thrown {A} e.

End Js.

Export Js (Exn, Error, NotAnError, Completion, Normal, Thrown).

(** Computations over a mutable state [S] that may throw; the state
    changes made before a throw persist, as in JavaScript. *)
Definition SE (S A : Type) : Type := S -> Completion A * S.

#[global] Instance SE_ret {S} : MRet (SE S) := fun A a s => (Normal a, s).

#[global] Instance SE_bind {S} : MBind (SE S) := fun A B f m s =>
  match m s with
  | (Normal a, s') => f a s'
  | (Thrown e, s') => (Thrown e, s')
  end.

Definition throw {S A} (e : Exn) : SE S A := fun s => (Thrown e, s).

(** [try { body } catch (error) { handler }] *)
Definition try_catch {S A} (body : SE S A) (handler : Exn -> SE S A) : SE S A :=
  fun s =>
    match body s with
    | (Normal a, s') => (Normal a, s')
    | (Thrown e, s') => handler e s'
    end.

Definition gets {S A} (f : S -> A) : SE S A := fun s => (Normal (f s), s).

Definition modify {S} (f : S -> S) : SE S unit := fun s => (Normal tt, f s).

(** Run [p], which uses a local variable of type [L] besides the state,
    from the initial value [init] of that variable. *)
Definition withLocal {S L A} (init : L) (p : SE (L * S) A) : SE S A :=
  fun s => let '(c, (_, s')) := p (init, s) in (c, s').

Definition liftS {S L A} (m : SE S A) : SE (L * S) A :=
  fun '(l, s) => let '(c, s') := m s in (c, (l, s')).

Definition getLocal {S L} : SE (L * S) L := gets fst.

Definition modifyLocal {S L} (f : L -> L) : SE (L * S) unit :=
  modify (fun '(l, s) => (f l, s)).

(** ** types/index.ts (results) *)

Module AudioRecognitionResult.
Record t := mk {
  title : option string;
  artist : option string;
  album : option string;
  duration : option Q;
  confidence : option Q;
  source : string
}.
End AudioRecognitionResult.

Module LyricsResult.
Record t := mk {
  lyrics : string;
  title : string;
  artist : string;
  source : string
}.
End LyricsResult.

Module TranslationResult.
Record t := mk {
  translatedText : string;
  sourceLanguage : string;
  targetLanguage : string;
  source : string
}.
End TranslationResult.

Module ServiceError.
Record t := mk {
  service : string;
  error : string;
  code : option string;
  retryAfter : option Num
}.
End ServiceError.

(** ** Responses of the external services

    The shapes are the response interfaces that the services declare. *)

Module ACRCloud.
Record Music := mkMusic {
  title : string;
  artists : list string; (* the [name] of each artist *)
  album : option string; (* [album?.name] *)
  duration_ms : Z;
  score : Z
}.
Record Result := mkResult {
  status_msg : string;
  status_code : Z;
  metadata : option (option (list Music)) (* [metadata?.music] *)
}.
End ACRCloud.

Module AudD.
Record Song := mkSong {
  title : string;
  artist : string;
  album : option string
}.
Record Result := mkResult {
  status : string;
  result : option Song
}.
End AudD.

Module LyricsOvh.
Record Response := mkResponse {
  lyrics : option string;
  error : option string
}.
End LyricsOvh.

Module Musixmatch.
Record Track := mkTrack {
  track_id : Z;
  track_name : string;
  artist_name : string
}.
(** [searchData.message?.body?.track_list?.[0]?.track] *)
Record Search := mkSearch {
  track : option Track
}.
Record Response := mkResponse {
  status_code : Z;
  lyrics_body : option string (* [message.body.lyrics], then [.lyrics_body] *)
}.
End Musixmatch.

Module LyricsApi.
Record Response := mkResponse {
  lyrics : option string (* [response?.lyrics] *)
}.
End LyricsApi.

Module LibreTranslate.
Record Response := mkResponse {
  translatedText : string;
  detectedLanguage : option string (* [detectedLanguage?.language] *)
}.
End LibreTranslate.

Module MyMemory.
Record Response := mkResponse {
  translatedText : option string; (* [responseData?.translatedText] *)
  responseStatus : Z;
  responseDetails : option string
}.
End MyMemory.

Module GoogleTranslate.
Record Response := mkResponse {
  sentences : option (list (list string)); (* [data[0]], when it is an array *)
  detected : option string (* [data[2]] *)
}.
End GoogleTranslate.

(** ** The world: clock, network, and the module-level singletons *)

(** An HTTP response: [ok], [status], and what [response.json()]
    resolves to or rejects with. *)
Record Response (A : Type) := mkResponse {
  ok : bool;
  status : Z;
  json : Completion A
}.
Arguments mkResponse {A}.
Arguments ok {A}.
Arguments status {A}.
Arguments json {A}.

(** What the promise of the [n]-th [fetch] of the process settles to at
    each endpoint, and how long it takes.  A rejection covers network
    failures and the [AbortSignal.timeout] of the provider. *)
Record Network := mkNetwork {
  acrCloudNet : nat -> Completion (Response ACRCloud.Result);
  auddIoNet : nat -> Completion (Response AudD.Result);
  lyricsOvhNet : nat -> Completion (Response LyricsOvh.Response);
  musixmatchSearchNet : nat -> Completion (Response Musixmatch.Search);
  musixmatchLyricsNet : nat -> Completion (Response Musixmatch.Response);
  lyricsApiNet : nat -> Completion (Response LyricsApi.Response);
  myMemoryNet : nat -> Completion (Response MyMemory.Response);
  libreTranslateNet : nat -> Completion (Response LibreTranslate.Response);
  googleTranslateNet : nat -> Completion (Response GoogleTranslate.Response);
  latency : nat -> Z
}.

Record World := mkWorld {
  clock : Z;                                (* [Date.now()] *)
  rateLimiter : RateLimiter;                (* [rateLimiter] singleton *)
  audioErrors : list ServiceError.t;        (* [freeAudioRecognitionService.errors] *)
  lyricsErrors : list ServiceError.t;       (* [freeLyricsService.errors] *)
  translationErrors : list ServiceError.t;  (* [freeTranslationService.errors] *)
  net : Network;
  fetches : nat;                            (* number of [fetch] calls so far *)
  invoked : list string                     (* ghost: provider keys whose adapter was called *)
}.

Abbreviation M := (SE World).

Definition set_clock (f : Z -> Z) (w : World) : World :=
  mkWorld (f (clock w)) (rateLimiter w) (audioErrors w) (lyricsErrors w)
    (translationErrors w) (net w) (fetches w) (invoked w).

Definition set_rateLimiter (f : RateLimiter -> RateLimiter) (w : World) : World :=
  mkWorld (clock w) (f (rateLimiter w)) (audioErrors w) (lyricsErrors w)
    (translationErrors w) (net w) (fetches w) (invoked w).

Definition set_audioErrors (f : list ServiceError.t -> list ServiceError.t)
    (w : World) : World :=
  mkWorld (clock w) (rateLimiter w) (f (audioErrors w)) (lyricsErrors w)
    (translationErrors w) (net w) (fetches w) (invoked w).

Definition set_lyricsErrors (f : list ServiceError.t -> list ServiceError.t)
    (w : World) : World :=
  mkWorld (clock w) (rateLimiter w) (audioErrors w) (f (lyricsErrors w))
    (translationErrors w) (net w) (fetches w) (invoked w).

Definition set_translationErrors (f : list ServiceError.t -> list ServiceError.t)
    (w : World) : World :=
  mkWorld (clock w) (rateLimiter w) (audioErrors w) (lyricsErrors w)
    (f (translationErrors w)) (net w) (fetches w) (invoked w).

Definition set_fetches (f : nat -> nat) (w : World) : World :=
  mkWorld (clock w) (rateLimiter w) (audioErrors w) (lyricsErrors w)
    (translationErrors w) (net w) (f (fetches w)) (invoked w).

Definition set_invoked (f : list string -> list string) (w : World) : World :=
  mkWorld (clock w) (rateLimiter w) (audioErrors w) (lyricsErrors w)
    (translationErrors w) (net w) (fetches w) (f (invoked w)).

(** [Date.now()] *)
Definition dateNow : M Z := gets clock.

(** [await new Promise(resolve => setTimeout(resolve, ms))] *)
Definition sleep (ms : Z) : M unit := modify (set_clock (fun t => t + ms)).

(** [await fetch(...)] against one endpoint: the next scripted reply of
    the network, after its latency. *)
Definition fetch {A} (endpoint : Network -> nat -> Completion (Response A))
    : M (Response A) :=
  fun w =>
    let n := fetches w in
    (endpoint (net w) n,
     set_fetches S (set_clock (fun t => t + latency (net w) n) w)).

(** [await response.json()] *)
Definition responseJson {S A} (response : Response A) : SE S A :=
  fun s => (json response, s).

(** A call of a function of the host that returns or throws and touches
    no state. *)
Definition evaluate {S A} (c : Completion A) : SE S A := fun s => (c, s).

(** The rate limiter singleton, called with the current clock. *)
Definition isAllowed (serviceName : string) (config : ServiceConfig) : M bool :=
  fun w =>
    let '(allowed, rl) := RL.isAllowed (clock w) serviceName config (rateLimiter w) in
    (Normal allowed, set_rateLimiter (fun _ => rl) w).

Definition recordRequest (serviceName : string) : M unit :=
  fun w => (Normal tt, set_rateLimiter (RL.recordRequest (clock w) serviceName) w).

Definition getRetryAfter (serviceName : string) (config : ServiceConfig) : M Num :=
  fun w => (Normal (RL.getRetryAfter (clock w) serviceName config (rateLimiter w)), w).

Definition getRemainingRequests (serviceName : string) : M Z :=
  gets (fun w => RL.getRemainingRequests serviceName (rateLimiter w)).

Definition getResetTime (serviceName : string) : M Num :=
  gets (fun w => RL.getResetTime (clock w) serviceName (rateLimiter w)).

(** Ghost: note that the adapter of the provider [key] is entered. *)
Definition noteInvoked (key : string) : M unit :=
  modify (set_invoked (fun l => l ++ [key])).

(** ** config/freeApiConfig.ts *)

(** [process.env.X || ''] for the keys that the configuration reads. *)
Record Env := mkEnv {
  ACRCLOUD_API_KEY : string;
  ACRCLOUD_ACCESS_KEY : string;
  ACRCLOUD_ACCESS_SECRET : string;
  AUDD_API_KEY : string;
  MUSIXMATCH_API_KEY : string
}.

(** What the model takes from its host: the environment, and the three
    helpers of the services that are written with regular expressions
    ([cleanSearchTerm], the removal of the Musixmatch watermark,
    [detectLanguage]); their results are only sent to providers and
    copied into results.  [encodeURIComponent] is the host's too: it
    throws a [URIError] on a string with an unpaired surrogate, which
    the 8-bit characters of the model do not show, so the host tells
    for which strings it throws; what it returns only goes into the
    URL of a request. *)
Record Host := mkHost {
  env : Env;
  cleanSearchTerm : string -> string;
  removeWatermark : string -> string;
  detectLanguage : string -> string;
  encodeURIComponent : string -> Completion string
}.

Inductive AudioService := acrCloud | auddIo.
Inductive LyricsService := lyricsOvh | musixmatch | lyricsApi.
Inductive TranslationService := myMemory | libreTranslate | googleTranslateFree.

#[global] Instance AudioService_eq_dec : EqDecision AudioService.
Proof. solve_decision. Defined.
#[global] Instance LyricsService_eq_dec : EqDecision LyricsService.
Proof. solve_decision. Defined.
#[global] Instance TranslationService_eq_dec : EqDecision TranslationService.
Proof. solve_decision. Defined.

Definition audioServiceName (s : AudioService) : string :=
  match s with
  | acrCloud => "acrCloud"
  | auddIo => "auddIo"
  end.

Definition lyricsServiceName (s : LyricsService) : string :=
  match s with
  | lyricsOvh => "lyricsOvh"
  | musixmatch => "musixmatch"
  | lyricsApi => "lyricsApi"
  end.

Definition translationServiceName (s : TranslationService) : string :=
  match s with
  | myMemory => "myMemory"
  | libreTranslate => "libreTranslate"
  | googleTranslateFree => "googleTranslateFree"
  end.

Module FREE_API_CONFIGS.

Definition days (n : Z) : Z := n * 24 * 60 * 60 * 1000.

Definition audioRecognition (e : Env) (s : AudioService) : ServiceConfig :=
  match s with
  | acrCloud =>
      {| apiKey := ACRCLOUD_API_KEY e;
         accessKey := ACRCLOUD_ACCESS_KEY e;
         accessSecret := ACRCLOUD_ACCESS_SECRET e;
         baseUrl := "https://identify-eu-west-1.acrcloud.com/v1/identify";
         rateLimit := {| requests := 500; window := days 30 |};
         retryAttempts := 2;
         timeout := 10000 |}
  | auddIo =>
      {| apiKey := AUDD_API_KEY e;
         accessKey := "";
         accessSecret := "";
         baseUrl := "https://api.audd.io/recognize";
         rateLimit := {| requests := 1000; window := days 30 |};
         retryAttempts := 2;
         timeout := 10000 |}
  end.

Definition lyrics (e : Env) (s : LyricsService) : ServiceConfig :=
  match s with
  | lyricsOvh =>
      {| apiKey := ""; accessKey := ""; accessSecret := "";
         baseUrl := "https://api.lyrics.ovh/v1";
         rateLimit := {| requests := 1000; window := days 1 |};
         retryAttempts := 3;
         timeout := 8000 |}
  | musixmatch =>
      {| apiKey := MUSIXMATCH_API_KEY e; accessKey := ""; accessSecret := "";
         baseUrl := "https://api.musixmatch.com/ws/1.1";
         rateLimit := {| requests := 2000; window := days 1 |};
         retryAttempts := 3;
         timeout := 8000 |}
  | lyricsApi =>
      {| apiKey := ""; accessKey := ""; accessSecret := "";
         baseUrl := "https://api.lyrics.com/lyric";
         rateLimit := {| requests := 500; window := days 1 |};
         retryAttempts := 2;
         timeout := 8000 |}
  end.

Definition translation (s : TranslationService) : ServiceConfig :=
  match s with
  | libreTranslate =>
      {| apiKey := ""; accessKey := ""; accessSecret := "";
         baseUrl := "https://libretranslate.de/translate";
         rateLimit := {| requests := 20; window := days 1 |};
         retryAttempts := 2;
         timeout := 15000 |}
  | myMemory =>
      {| apiKey := ""; accessKey := ""; accessSecret := "";
         baseUrl := "https://api.mymemory.translated.net/get";
         rateLimit := {| requests := 1000; window := days 1 |};
         retryAttempts := 2;
         timeout := 10000 |}
  | googleTranslateFree =>
      {| apiKey := ""; accessKey := ""; accessSecret := "";
         baseUrl := "https://translate.googleapis.com/translate_a/single";
         rateLimit := {| requests := 100; window := 60 * 60 * 1000 |};
         retryAttempts := 1;
         timeout := 8000 |}
  end.

End FREE_API_CONFIGS.

Module SUPPORTED_LANGUAGES.

(** [(code, name)] *)
Definition translation : list (string * string) :=
  [ ("en", "English"); ("es", "Spanish"); ("fr", "French"); ("de", "German");
    ("it", "Italian"); ("pt", "Portuguese"); ("ru", "Russian");
    ("ja", "Japanese"); ("ko", "Korean"); ("zh", "Chinese"); ("ar", "Arabic");
    ("hi", "Hindi"); ("nl", "Dutch"); ("pl", "Polish"); ("sv", "Swedish") ].

End SUPPORTED_LANGUAGES.

Module ApiKeys.
Record t := mk {
  acrCloud : bool;
  auddIo : bool;
  musixmatch : bool;
  lyricsOvh : bool;
  libreTranslate : bool;
  myMemory : bool;
  googleTranslateFree : bool
}.
End ApiKeys.

(** Environment variable validation *)
Definition validateApiKeys (e : Env) : ApiKeys.t :=
  {| ApiKeys.acrCloud :=
       Js.truthy (ACRCLOUD_API_KEY e) && Js.truthy (ACRCLOUD_ACCESS_KEY e)
       && Js.truthy (ACRCLOUD_ACCESS_SECRET e);
     ApiKeys.auddIo := Js.truthy (AUDD_API_KEY e);
     ApiKeys.musixmatch := Js.truthy (MUSIXMATCH_API_KEY e);
     (* Note: Other services work without API keys but with rate limits *)
     ApiKeys.lyricsOvh := true;
     ApiKeys.libreTranslate := true;
     ApiKeys.myMemory := true;
     ApiKeys.googleTranslateFree := true |}.

(** ** config/environment.ts *)

(** [process.env]: a variable is a string or [undefined]. *)
Module ProcessEnv.
Record t := mk {
  ACRCLOUD_API_KEY : option string;
  ACRCLOUD_ACCESS_KEY : option string;
  ACRCLOUD_ACCESS_SECRET : option string;
  AUDD_API_KEY : option string;
  MUSIXMATCH_API_KEY : option string
}.

(** The environment as [FREE_API_CONFIGS] reads it: [process.env.X || '']. *)
Definition toEnv (p : t) : Env :=
  mkEnv (Js.orUndefined (ACRCLOUD_API_KEY p) "")
    (Js.orUndefined (ACRCLOUD_ACCESS_KEY p) "")
    (Js.orUndefined (ACRCLOUD_ACCESS_SECRET p) "")
    (Js.orUndefined (AUDD_API_KEY p) "")
    (Js.orUndefined (MUSIXMATCH_API_KEY p) "").
End ProcessEnv.

(** The values that [validateEnvironment] computes with: [undefined], a
    boolean, or a string. *)
Module JsValue.
Inductive t :=
| undefined
| boolean (b : bool)
| str (s : string).

Definition ofVariable (v : option string) : t :=
  match v with
  | Some s => str s
  | None => undefined
  end.

Definition truthy (v : t) : bool :=
  match v with
  | undefined => false
  | boolean b => b
  | str s => Js.truthy s
  end.

(** [a && b] *)
Definition and (a b : t) : t := if truthy a then b else a.

(** [a || b] *)
Definition or (a b : t) : t := if truthy a then a else b.
End JsValue.

Module EnvironmentReport.
Record t := mk {
  valid : JsValue.t;
  warnings : list string;
  recommendations : list string
}.
End EnvironmentReport.

Definition validateEnvironment (p : ProcessEnv.t) : EnvironmentReport.t :=
  let ACRCLOUD_API_KEY := JsValue.ofVariable (ProcessEnv.ACRCLOUD_API_KEY p) in
  let ACRCLOUD_ACCESS_KEY := JsValue.ofVariable (ProcessEnv.ACRCLOUD_ACCESS_KEY p) in
  let ACRCLOUD_ACCESS_SECRET := JsValue.ofVariable (ProcessEnv.ACRCLOUD_ACCESS_SECRET p) in
  let AUDD_API_KEY := JsValue.ofVariable (ProcessEnv.AUDD_API_KEY p) in
  let MUSIXMATCH_API_KEY := JsValue.ofVariable (ProcessEnv.MUSIXMATCH_API_KEY p) in
  let warnings : list string := [] in
  let recommendations : list string := [] in
  (* Check for ACRCloud credentials *)
  let '(warnings, recommendations) :=
    if negb (JsValue.truthy ACRCLOUD_API_KEY) || negb (JsValue.truthy ACRCLOUD_ACCESS_KEY)
       || negb (JsValue.truthy ACRCLOUD_ACCESS_SECRET)
    then (warnings ++ ["ACRCloud credentials not found - audio recognition will be limited to AudD.io only"],
          recommendations ++ ["Sign up for ACRCloud free account at https://console.acrcloud.com/signup"])
    else (warnings, recommendations) in
  (* Check for AudD.io API key *)
  let '(warnings, recommendations) :=
    if negb (JsValue.truthy AUDD_API_KEY)
    then (warnings ++ ["AudD.io API key not found - audio recognition will be limited to ACRCloud only"],
          recommendations ++ ["Get free AudD.io API key at https://dashboard.audd.io/"])
    else (warnings, recommendations) in
  (* Check for Musixmatch API key *)
  let '(warnings, recommendations) :=
    if negb (JsValue.truthy MUSIXMATCH_API_KEY)
    then (warnings ++ ["Musixmatch API key not found - lyrics fetching will be limited to Lyrics.ovh only"],
          recommendations ++ ["Sign up for Musixmatch developer account at https://developer.musixmatch.com/signup"])
    else (warnings, recommendations) in
  (* At least one audio recognition service should be available *)
  let hasAudioRecognition :=
    JsValue.or
      (JsValue.and (JsValue.and ACRCLOUD_API_KEY ACRCLOUD_ACCESS_KEY) ACRCLOUD_ACCESS_SECRET)
      AUDD_API_KEY in
  let warnings :=
    if negb (JsValue.truthy hasAudioRecognition)
    then warnings ++ ["No audio recognition services configured - only manual song input will work"]
    else warnings in
  {| EnvironmentReport.valid :=
       (* Consider valid if at least audio recognition works *)
       JsValue.or (JsValue.boolean (bool_decide (length warnings = 0%nat)))
         hasAudioRecognition;
     EnvironmentReport.warnings := warnings;
     EnvironmentReport.recommendations := recommendations |}.

(** ** The fallback loop shared by the three services

    [for (const serviceName of this.services) { try { ... } catch { ... } }]
    as written in [recognizeAudio], [getLyrics] and, per chunk, in
    [translateText]: the rate-limit check, the [switch] that calls the
    adapter, and the success test.  [attempt] is one iteration; its
    value [Some r] is the [return result] (or [break]) that leaves the
    loop, [None] goes on to the next provider. *)
Section Dispatch.

Context {N R : Type}.
Variable nameOf : N -> string.
Variable prefix : string.
Variable configOf : N -> ServiceConfig.
Variable adapter : N -> M (option R).
Variable populated : R -> bool.
Variable pushError : ServiceError.t -> M unit.

Definition attempt (serviceName : N) : M (option R) :=
  try_catch
    (let config := configOf serviceName in
     let key := prefix +:+ nameOf serviceName in
     allowed ← isAllowed key config;
     if negb allowed then
       retryAfter ← getRetryAfter key config;
       pushError {| ServiceError.service := nameOf serviceName;
                    ServiceError.error := "Rate limit exceeded";
                    ServiceError.code := None;
                    ServiceError.retryAfter := Some retryAfter |};;
       mret None
     else
       noteInvoked key;;
       result ← adapter serviceName;
       match result with
       | Some r =>
           if populated r then
             recordRequest key;;
             mret (Some r)
           else mret None
       | None => mret None
       end)
    (fun error =>
       pushError {| ServiceError.service := nameOf serviceName;
                    ServiceError.error := Js.messageOr "Unknown error" error;
                    ServiceError.code := None;
                    ServiceError.retryAfter := None |};;
       mret None).

Fixpoint dispatch (services : list N) : M (option R) :=
  match services with
  | [] => mret None
  | serviceName :: services =>
      r ← attempt serviceName;
      match r with
      | Some r => mret (Some r)
      | None => dispatch services
      end
  end.

(** [this.services.some(serviceName => rateLimiter.isAllowed(key, config))] *)
Fixpoint someAllowed (services : list N) : M bool :=
  match services with
  | [] => mret false
  | serviceName :: services =>
      allowed ← isAllowed (prefix +:+ nameOf serviceName) (configOf serviceName);
      if allowed : bool then mret true : M bool else someAllowed services
  end.

End Dispatch.

(** ** The status report shared by the three services *)

Module RateLimitStatus.
Record t := mk {
  remaining : Z;
  resetTime : Num
}.
End RateLimitStatus.

Section Status.

Context {N : Type}.
Variable nameOf : N -> string.
Variable prefix : string.

(** The [for (const serviceName of this.services)] loop of
    [getRateLimitStatus]; [status] is the object built so far, as the
    list of its properties in insertion order (the service names are
    distinct, no property is overwritten). *)
Fixpoint rateLimitStatus (services : list N)
    (status : list (string * RateLimitStatus.t))
    : M (list (string * RateLimitStatus.t)) :=
  match services with
  | [] => mret status
  | serviceName :: services =>
      remaining ← getRemainingRequests (prefix +:+ nameOf serviceName);
      resetTime ← getResetTime (prefix +:+ nameOf serviceName);
      rateLimitStatus services
        (status ++ [(nameOf serviceName,
                     {| RateLimitStatus.remaining := remaining;
                        RateLimitStatus.resetTime := resetTime |})])
  end.

End Status.

(** ** The batch loop shared by the three services

    The [for] loop of [batchRecognize], [batchGetLyrics] and the
    translation service's [batchTranslate]: a delay before every item
    but the first ([later] is [i > 0]), then the stage inside a [try]
    whose [catch] pushes [null]. *)
Section ServiceBatch.

Context {A R : Type}.
Variable stage : A -> M (option R).
Variable delay : Z.

Fixpoint batchFrom (later : bool) (items : list A) (results : list (option R))
    : M (list (option R)) :=
  match items with
  | [] => mret results
  | item :: items =>
      (* Add delay between requests to respect rate limits *)
      (if later then sleep delay else mret tt);;
      results ←
        try_catch
          (result ← stage item;
           mret (results ++ [result]))
          (fun error => mret (results ++ [None]));
      batchFrom true items results
  end.

End ServiceBatch.

(** ** Scored results *)

(** What a property lookup on the object literal of
    [normalizeLanguageCode] yields besides a string: for the key
    ["constructor"] or ["__proto__"] the lookup finds a member of
    [Object.prototype]. *)
Inductive Looked :=
| Code (code : string)
| Inherited (property : string).

Module ScoredLyrics.
Record t := mk {
  result : option LyricsResult.t;
  confidence : Q
}.
End ScoredLyrics.

Module ScoredTranslation.
Record t := mk {
  result : option TranslationResult.t;
  quality : Q
}.
End ScoredTranslation.

Module Attempt.
Record t := mk {
  result : TranslationResult.t;
  quality : Q
}.
End Attempt.

(** ** services/freeAudioRecognition.ts *)

Module FreeAudioRecognitionService.
Section WithHost.
Variable host : Host.

Definition services : list AudioService := [acrCloud; auddIo].

Definition recognizeWithACRCloud (audioBuffer : list Byte.byte)
    : M (option AudioRecognitionResult.t) :=
  let config := FREE_API_CONFIGS.audioRecognition (env host) acrCloud in
  if negb (Js.truthy (apiKey config)) || negb (Js.truthy (accessKey config))
     || negb (Js.truthy (accessSecret config)) then
    throw (Error "ACRCloud API credentials not configured")
  else
    response ← fetch acrCloudNet;
    if negb (ok response) then
      throw (Error ("ACRCloud API error: " +:+ pretty (status response)))
    else
      data ← responseJson response;
      if negb (bool_decide (ACRCloud.status_code data = 0)) then
        throw (Error ("ACRCloud recognition failed: " +:+ ACRCloud.status_msg data))
      else
        match mjoin (ACRCloud.metadata data) ≫= head with
        | None => mret None
        | Some music =>
            mret (Some
              {| AudioRecognitionResult.title := Some (ACRCloud.title music);
                 AudioRecognitionResult.artist := head (ACRCloud.artists music);
                 AudioRecognitionResult.album := ACRCloud.album music;
                 AudioRecognitionResult.duration :=
                   if bool_decide (ACRCloud.duration_ms music = 0) then None
                   else Some (inject_Z (ACRCloud.duration_ms music) / 1000)%Q;
                 AudioRecognitionResult.confidence :=
                   Some (inject_Z (ACRCloud.score music) / 100)%Q;
                 AudioRecognitionResult.source := "ACRCloud" |})
        end.

Definition recognizeWithAudD (audioBuffer : list Byte.byte)
    : M (option AudioRecognitionResult.t) :=
  let config := FREE_API_CONFIGS.audioRecognition (env host) auddIo in
  if negb (Js.truthy (apiKey config)) then
    throw (Error "AudD.io API key not configured")
  else
    response ← fetch auddIoNet;
    if negb (ok response) then
      throw (Error ("AudD.io API error: " +:+ pretty (status response)))
    else
      data ← responseJson response;
      match AudD.result data with
      | Some result =>
          if negb (String.eqb (AudD.status data) "success") then mret None
          else
            mret (Some
              {| AudioRecognitionResult.title := Some (AudD.title result);
                 AudioRecognitionResult.artist := Some (AudD.artist result);
                 AudioRecognitionResult.album := AudD.album result;
                 AudioRecognitionResult.duration := None;
                 AudioRecognitionResult.confidence := Some (8 # 10)%Q;
                 AudioRecognitionResult.source := "AudD.io" |})
      | None => mret None
      end.

(** The [switch (serviceName)] of [recognizeAudio]. *)
Definition adapter (audioBuffer : list Byte.byte) (serviceName : AudioService)
    : M (option AudioRecognitionResult.t) :=
  match serviceName with
  | acrCloud => recognizeWithACRCloud audioBuffer
  | auddIo => recognizeWithAudD audioBuffer
  end.

Definition pushError (e : ServiceError.t) : M unit :=
  modify (set_audioErrors (fun errors => errors ++ [e])).

Definition recognizeAudio (audioBuffer : list Byte.byte)
    : M (option AudioRecognitionResult.t) :=
  modify (set_audioErrors (fun _ => []));;
  dispatch audioServiceName "audioRecognition_"
    (FREE_API_CONFIGS.audioRecognition (env host))
    (adapter audioBuffer) (fun _ => true) pushError services.

Definition getErrors : M (list ServiceError.t) := gets audioErrors.

(** Utility method to check if any service is available *)
Definition hasAvailableService : M bool :=
  someAllowed audioServiceName "audioRecognition_"
    (FREE_API_CONFIGS.audioRecognition (env host)) services.

(** Batch recognition for multiple audio segments *)
Definition batchRecognize (audioBuffers : list (list Byte.byte))
    : M (list (option AudioRecognitionResult.t)) :=
  batchFrom recognizeAudio 1000 false audioBuffers [].

Definition getRateLimitStatus : M (list (string * RateLimitStatus.t)) :=
  rateLimitStatus audioServiceName "audioRecognition_" services [].

End WithHost.
End FreeAudioRecognitionService.

(** ** services/freeLyricsService.ts *)

Module FreeLyricsService.
Section WithHost.
Variable host : Host.

Definition services : list LyricsService := [lyricsOvh; musixmatch; lyricsApi].

Definition getLyricsFromOvh (artist title : string) : M (option LyricsResult.t) :=
  evaluate (encodeURIComponent host artist);;
  evaluate (encodeURIComponent host title);;
  response ← fetch lyricsOvhNet;
  if negb (ok response) then
    if bool_decide (status response = 404) then
      mret None (* Lyrics not found *)
    else throw (Error ("Lyrics.ovh API error: " +:+ pretty (status response)))
  else
    data ← responseJson response;
    match LyricsOvh.lyrics data with
    | Some lyrics =>
        if negb (Js.truthy lyrics)
           || from_option Js.truthy false (LyricsOvh.error data) then mret None
        else
          mret (Some {| LyricsResult.lyrics := Js.trim lyrics;
                        LyricsResult.title := title;
                        LyricsResult.artist := artist;
                        LyricsResult.source := "Lyrics.ovh" |})
    | None => mret None
    end.

Definition getLyricsFromMusixmatch (artist title : string)
    : M (option LyricsResult.t) :=
  let config := FREE_API_CONFIGS.lyrics (env host) musixmatch in
  if negb (Js.truthy (apiKey config)) then
    throw (Error "Musixmatch API key not configured")
  else
    (* First, search for the track *)
    evaluate (encodeURIComponent host artist);;
    evaluate (encodeURIComponent host title);;
    searchResponse ← fetch musixmatchSearchNet;
    if negb (ok searchResponse) then
      throw (Error ("Musixmatch search error: " +:+ pretty (status searchResponse)))
    else
      searchData ← responseJson searchResponse;
      match Musixmatch.track searchData with
      | None => mret None
      | Some track =>
          (* Get lyrics for the track *)
          lyricsResponse ← fetch musixmatchLyricsNet;
          if negb (ok lyricsResponse) then
            throw (Error ("Musixmatch lyrics error: "
                          +:+ pretty (status lyricsResponse)))
          else
            lyricsData ← responseJson lyricsResponse;
            match Musixmatch.lyrics_body lyricsData with
            | Some lyrics =>
                if negb (bool_decide (Musixmatch.status_code lyricsData = 200))
                then mret None
                else
                  (* Remove Musixmatch watermark *)
                  let cleanLyrics := Js.trim (removeWatermark host lyrics) in
                  mret (Some
                    {| LyricsResult.lyrics := cleanLyrics;
                       LyricsResult.title := Js.or (Musixmatch.track_name track) title;
                       LyricsResult.artist := Js.or (Musixmatch.artist_name track) artist;
                       LyricsResult.source := "Musixmatch" |})
            | None => mret None
            end
      end.

Definition getLyricsFromLyricsApi (artist title : string)
    : M (option LyricsResult.t) :=
  let searchQuery := artist +:+ " " +:+ title in
  evaluate (encodeURIComponent host searchQuery);;
  try_catch
    (response ← fetch lyricsApiNet;
     if negb (ok response) then
       if bool_decide (status response = 404) then mret None
       else throw (Error ("Lyrics API error: " +:+ pretty (status response)))
     else
       data ← responseJson response;
       match LyricsApi.lyrics data with
       | Some lyrics =>
           if negb (Js.truthy lyrics) then mret None
           else
             mret (Some {| LyricsResult.lyrics := Js.trim lyrics;
                           LyricsResult.title := title;
                           LyricsResult.artist := artist;
                           LyricsResult.source := "LyricsAPI" |})
       | None => mret None
       end)
    (fun error =>
       (* This service might not always be available, so fail silently *)
       mret None).

(** The [switch (serviceName)] of [getLyrics]. *)
Definition adapter (cleanArtist cleanTitle : string) (serviceName : LyricsService)
    : M (option LyricsResult.t) :=
  match serviceName with
  | lyricsOvh => getLyricsFromOvh cleanArtist cleanTitle
  | musixmatch => getLyricsFromMusixmatch cleanArtist cleanTitle
  | lyricsApi => getLyricsFromLyricsApi cleanArtist cleanTitle
  end.

Definition pushError (e : ServiceError.t) : M unit :=
  modify (set_lyricsErrors (fun errors => errors ++ [e])).

(** [result && result.lyrics.trim().length > 0] *)
Definition populated (result : LyricsResult.t) : bool :=
  bool_decide (0 < Js.length (Js.trim (LyricsResult.lyrics result))).

Definition getLyrics (artist title : string) : M (option LyricsResult.t) :=
  modify (set_lyricsErrors (fun _ => []));;
  (* Clean and normalize inputs *)
  let cleanArtist := cleanSearchTerm host artist in
  let cleanTitle := cleanSearchTerm host title in
  dispatch lyricsServiceName "lyrics_" (FREE_API_CONFIGS.lyrics (env host))
    (adapter cleanArtist cleanTitle) populated pushError services.

Definition getErrors : M (list ServiceError.t) := gets lyricsErrors.

Definition hasAvailableService : M bool :=
  someAllowed lyricsServiceName "lyrics_" (FREE_API_CONFIGS.lyrics (env host))
    services.

(** Alternative method to search for lyrics with fuzzy matching *)
Definition searchLyrics (query : string) : M (list LyricsResult.t) :=
  (* Extract potential artist and title from query *)
  let parts := Js.split " - " query in
  let '(artist, title) :=
    if bool_decide (2 <= length parts)%nat then
      (Js.trim (default "" (head parts)), Js.trim (Js.join " - " (drop 1 parts)))
    else
      (* Try to guess format *)
      let words := Js.split " " query in
      if bool_decide (2 < length words)%nat then
        (* Assume first word is artist, rest is title *)
        (default "" (head words), Js.join " " (drop 1 words))
      else ("", query) in
  (* Try with extracted artist and title *)
  results ←
    (if Js.truthy artist && Js.truthy title then
       result ← getLyrics artist title;
       mret (match result with Some r => [r] | None => [] end)
     else mret []);
  (* Try with reversed order *)
  if Js.truthy artist && Js.truthy title && bool_decide (length results = 0%nat) then
    result ← getLyrics title artist;
    mret (results ++ match result with Some r => [r] | None => [] end)
  else mret results.

(** Batch lyrics fetching; a request is its [{ artist, title }]. *)
Definition batchGetLyrics (requests : list (string * string))
    : M (list (option LyricsResult.t)) :=
  batchFrom (fun '(artist, title) => getLyrics artist title) 500 false requests [].

Definition getRateLimitStatus : M (list (string * RateLimitStatus.t)) :=
  rateLimitStatus lyricsServiceName "lyrics_" services [].


(** Get lyrics with confidence scoring *)
Definition getLyricsWithConfidence (artist title : string) : M ScoredLyrics.t :=
  result ← getLyrics artist title;
  match result with
  | None => mret {| ScoredLyrics.result := None; ScoredLyrics.confidence := 0 |}
  | Some r =>
      let confidence := (5 # 10)%Q in (* Base confidence *)
      (* Increase confidence based on lyrics length *)
      let confidence :=
        if bool_decide (100 < Js.length (LyricsResult.lyrics r))
        then (confidence + (2 # 10))%Q else confidence in
      let confidence :=
        if bool_decide (500 < Js.length (LyricsResult.lyrics r))
        then (confidence + (2 # 10))%Q else confidence in
      (* Increase confidence if source is more reliable *)
      let confidence :=
        if String.eqb (LyricsResult.source r) "Musixmatch"
        then (confidence + (1 # 10))%Q else confidence in
      (* Decrease confidence if lyrics seem incomplete *)
      let confidence :=
        if Js.includes (LyricsResult.lyrics r) "..."
           || bool_decide (Js.length (LyricsResult.lyrics r) < 50)
        then (confidence - (2 # 10))%Q else confidence in
      mret {| ScoredLyrics.result := Some r;
              ScoredLyrics.confidence :=
                Js.mathMin 1 (Js.mathMax 0 confidence) |}
  end.

End WithHost.
End FreeLyricsService.

(** ** services/freeTranslationService.ts *)

Module FreeTranslationService.
Section WithHost.
Variable host : Host.

Definition services : list TranslationService :=
  [myMemory; libreTranslate; googleTranslateFree].

Definition translateWithMyMemory (text targetLanguage sourceLanguage : string)
    : M (option TranslationResult.t) :=
  evaluate (encodeURIComponent host text);;
  response ← fetch myMemoryNet;
  if negb (ok response) then
    throw (Error ("MyMemory API error: " +:+ pretty (status response)))
  else
    data ← responseJson response;
    if negb (bool_decide (MyMemory.responseStatus data = 200))
       || negb (from_option Js.truthy false (MyMemory.translatedText data)) then
      throw (Error ("MyMemory translation failed: "
                    +:+ Js.orUndefined (MyMemory.responseDetails data) "Unknown error"))
    else
      mret (Some
        {| TranslationResult.translatedText := default "" (MyMemory.translatedText data);
           TranslationResult.sourceLanguage :=
             if String.eqb sourceLanguage "auto" then detectLanguage host text
             else sourceLanguage;
           TranslationResult.targetLanguage := targetLanguage;
           TranslationResult.source := "MyMemory" |}).

Definition translateWithLibreTranslate (text targetLanguage sourceLanguage : string)
    : M (option TranslationResult.t) :=
  response ← fetch libreTranslateNet;
  if negb (ok response) then
    if bool_decide (status response = 429) then
      throw (Error "LibreTranslate rate limit exceeded")
    else throw (Error ("LibreTranslate API error: " +:+ pretty (status response)))
  else
    data ← responseJson response;
    if negb (Js.truthy (LibreTranslate.translatedText data)) then
      throw (Error "LibreTranslate returned empty translation")
    else
      mret (Some
        {| TranslationResult.translatedText := LibreTranslate.translatedText data;
           TranslationResult.sourceLanguage :=
             Js.orUndefined (LibreTranslate.detectedLanguage data) sourceLanguage;
           TranslationResult.targetLanguage := targetLanguage;
           TranslationResult.source := "LibreTranslate" |}).

Definition translateWithGoogleFree (text targetLanguage sourceLanguage : string)
    : M (option TranslationResult.t) :=
  response ← fetch googleTranslateNet;
  if negb (ok response) then
    throw (Error ("Google Translate API error: " +:+ pretty (status response)))
  else
    data ← responseJson response;
    match GoogleTranslate.sentences data with
    | None => throw (Error "Invalid Google Translate response format")
    | Some items =>
        let translatedText :=
          Js.join ""
            (omap (fun item => match head item with
                               | Some s => if Js.truthy s then Some s else None
                               | None => None
                               end) items) in
        let detectedLang := Js.orUndefined (GoogleTranslate.detected data) sourceLanguage in
        mret (Some
          {| TranslationResult.translatedText := Js.trim translatedText;
             TranslationResult.sourceLanguage := detectedLang;
             TranslationResult.targetLanguage := targetLanguage;
             TranslationResult.source := "Google Translate (Free)" |})
    end.

Definition isSentenceEnd (c : ascii) : bool :=
  bool_decide (c = "."%char \/ c = "!"%char \/ c = "?"%char).

(** [text.split(/[.!?]+/)]: [current] is the piece being read,
    [inSeparator] tells that the previous character was a separator. *)
Fixpoint splitSentences (text current : string) (inSeparator : bool) : list string :=
  match text with
  | EmptyString => [current]
  | String c text =>
      if isSentenceEnd c then
        if inSeparator then splitSentences text "" true
        else current :: splitSentences text "" true
      else splitSentences text (current +:+ String c "") false
  end.

(** The [for (const sentence of sentences)] loop of
    [splitTextIntoChunks] and the push after it. *)
Fixpoint chunkSentences (maxChunkSize : Z) (sentences chunks : list string)
    (currentChunk : string) : list string :=
  match sentences with
  | [] => if Js.truthy currentChunk then chunks ++ [currentChunk +:+ "."] else chunks
  | sentence :: sentences =>
      let trimmedSentence := Js.trim sentence in
      if negb (Js.truthy trimmedSentence) then
        chunkSentences maxChunkSize sentences chunks currentChunk
      else if bool_decide (Js.length currentChunk + Js.length trimmedSentence + 1
                           <= maxChunkSize) then
        chunkSentences maxChunkSize sentences chunks
          (currentChunk +:+ (if Js.truthy currentChunk then ". " else "")
           +:+ trimmedSentence)
      else
        chunkSentences maxChunkSize sentences
          (if Js.truthy currentChunk then chunks ++ [currentChunk +:+ "."] else chunks)
          trimmedSentence
  end.

(** Split text into manageable chunks for translation *)
Definition splitTextIntoChunks (text : string) (maxChunkSize : Z) : list string :=
  if bool_decide (Js.length text <= maxChunkSize) then [text]
  else chunkSentences maxChunkSize (splitSentences text "" false) [] "".

Definition isSupportedLanguage (languageCode : string) : bool :=
  existsb (fun lang => String.eqb (fst lang) languageCode)
    SUPPORTED_LANGUAGES.translation.

(** The [switch (serviceName)] of [translateText]. *)
Definition adapter (chunk targetLanguage sourceLanguage : string)
    (serviceName : TranslationService) : M (option TranslationResult.t) :=
  match serviceName with
  | myMemory => translateWithMyMemory chunk targetLanguage sourceLanguage
  | libreTranslate => translateWithLibreTranslate chunk targetLanguage sourceLanguage
  | googleTranslateFree => translateWithGoogleFree chunk targetLanguage sourceLanguage
  end.

Definition pushError (e : ServiceError.t) : M unit :=
  modify (set_translationErrors (fun errors => errors ++ [e])).

(** The [for (const chunk of chunks)] loop of [translateText]; [several]
    is [chunks.length > 1].  [None] is the [return null] of a chunk that
    no provider translated; otherwise the translated chunks and the
    source language after the last chunk. *)
Fixpoint translateChunks (several : bool) (targetLanguage : string)
    (chunks translatedChunks : list string) (sourceLanguage : string)
    : M (option (list string * string)) :=
  match chunks with
  | [] => mret (Some (translatedChunks, sourceLanguage))
  | chunk :: chunks =>
      chunkResult ←
        dispatch translationServiceName "translation_" FREE_API_CONFIGS.translation
          (adapter chunk targetLanguage sourceLanguage) (fun _ => true)
          pushError services;
      match chunkResult with
      | None => mret None (* Failed to translate this chunk *)
      | Some chunkResult =>
          (* Add delay between chunks to respect rate limits *)
          (if several then sleep 1000 else mret tt);;
          translateChunks several targetLanguage chunks
            (translatedChunks ++ [TranslationResult.translatedText chunkResult])
            (* Use detected language for subsequent chunks *)
            (TranslationResult.sourceLanguage chunkResult)
      end
  end.

Definition translateText (text targetLanguage : string) (sourceLanguage : option string)
    : M (option TranslationResult.t) :=
  let sourceLanguage := default "auto" sourceLanguage in
  modify (set_translationErrors (fun _ => []));;
  (* Validate target language *)
  if negb (isSupportedLanguage targetLanguage) then
    throw (Error ("Unsupported target language: " +:+ targetLanguage))
  else
    (* Split long text into chunks *)
    let chunks := splitTextIntoChunks text 1000 in
    translated ←
      translateChunks (bool_decide (1 < length chunks)%nat) targetLanguage
        chunks [] sourceLanguage;
    match translated with
    | None => mret None
    | Some (translatedChunks, sourceLanguage) =>
        if bool_decide (length translatedChunks = 0%nat) then mret None
        else
          mret (Some
            {| TranslationResult.translatedText := Js.join (String "010" "") translatedChunks;
               TranslationResult.sourceLanguage := sourceLanguage;
               TranslationResult.targetLanguage := targetLanguage;
               TranslationResult.source :=
                 if bool_decide (0 < length translatedChunks)%nat
                 then "Combined" else "Unknown" |})
    end.

Definition getErrors : M (list ServiceError.t) := gets translationErrors.

Definition hasAvailableService : M bool :=
  someAllowed translationServiceName "translation_" FREE_API_CONFIGS.translation
    services.

(** Batch translation for multiple texts *)
Definition batchTranslate (texts : list string) (targetLanguage : string)
    (sourceLanguage : option string) : M (list (option TranslationResult.t)) :=
  let sourceLanguage := default "auto" sourceLanguage in
  batchFrom (fun text => translateText text targetLanguage (Some sourceLanguage))
    2000 false texts [].

Definition getRateLimitStatus : M (list (string * RateLimitStatus.t)) :=
  rateLimitStatus translationServiceName "translation_" services [].


(** Language code conversion utilities *)
Definition normalizedCodes : list (string * string) :=
  [ ("zh-cn", "zh"); ("zh-tw", "zh"); ("pt-br", "pt"); ("pt-pt", "pt");
    ("en-us", "en"); ("en-gb", "en") ].

Definition normalizeLanguageCode (code : string) : Looked :=
  let key := Js.toLowerCase code in
  match snd <$> head (filter (fun entry => bool_decide (fst entry = key)) normalizedCodes) with
  | Some normalized => Code normalized
  | None =>
      if bool_decide (key = "constructor" \/ key = "__proto__") then Inherited key
      else Code key
  end.

(** Quality assessment for translations *)
Definition getTranslationWithQuality (text targetLanguage : string)
    (sourceLanguage : option string) : M ScoredTranslation.t :=
  let sourceLanguage := default "auto" sourceLanguage in
  result ← translateText text targetLanguage (Some sourceLanguage);
  match result with
  | None => mret {| ScoredTranslation.result := None; ScoredTranslation.quality := 0 |}
  | Some r =>
      let quality := (5 # 10)%Q in (* Base quality score *)
      (* Assess quality based on various factors *)
      let originalLength := Js.length text in
      let translatedLength := Js.length (TranslationResult.translatedText r) in
      (* Reasonable length ratio indicates good translation; the ratio
         is [Infinity] or [NaN] for an empty text, and neither lies
         strictly between 0.3 and 3 *)
      let quality :=
        if negb (bool_decide (originalLength = 0))
           && Js.lessThan (3 # 10)
                (inject_Z translatedLength / inject_Z originalLength)
           && Js.lessThan
                (inject_Z translatedLength / inject_Z originalLength) 3
        then (quality + (2 # 10))%Q else quality in
      (* Check if translation contains original text (poor translation indicator) *)
      let quality :=
        if negb (Js.includes (Js.toLowerCase (TranslationResult.translatedText r))
                   (String.substring 0 20 (Js.toLowerCase text)))
        then (quality + (1 # 10))%Q else quality in
      (* Check for common translation artifacts *)
      let quality :=
        if negb (Js.includes (TranslationResult.translatedText r) "???")
           && negb (Js.includes (TranslationResult.translatedText r) "[")
           && negb (Js.includes (TranslationResult.translatedText r) "{")
        then (quality + (1 # 10))%Q else quality in
      (* Boost quality for more reliable services *)
      let quality :=
        if String.eqb (TranslationResult.source r) "MyMemory"
        then (quality + (1 # 10))%Q else quality in
      mret {| ScoredTranslation.result := Some r;
              ScoredTranslation.quality :=
                Js.mathMin 1 (Js.mathMax 0 quality) |}
  end.

(** [attempts.sort((a, b) => b.quality - a.quality)]: the stable sort by
    descending quality, as an insertion of each attempt behind the
    attempts that are at least as good. *)
Fixpoint insertByQuality (a : Attempt.t) (sorted : list Attempt.t) : list Attempt.t :=
  match sorted with
  | [] => [a]
  | b :: sorted =>
      if Js.lessThan (Attempt.quality b) (Attempt.quality a)
      then a :: b :: sorted
      else b :: insertByQuality a sorted
  end.

Definition sortByQuality (attempts : list Attempt.t) : list Attempt.t :=
  foldl (fun sorted a => insertByQuality a sorted) [] attempts.

(** One iteration of the [for] loop of [translateWithBestQuality]. *)
Definition tryService (text targetLanguage sourceLanguage : string)
    (attempts : list Attempt.t) (serviceName : TranslationService)
    : M (list Attempt.t) :=
  try_catch
    (let config := FREE_API_CONFIGS.translation serviceName in
     let key := "translation_" +:+ translationServiceName serviceName in
     allowed ← isAllowed key config;
     if negb allowed then mret attempts
     else
       noteInvoked key;;
       result ← adapter text targetLanguage sourceLanguage serviceName;
       attempts ←
         match result with
         | Some r =>
             qualityAssessment ←
               getTranslationWithQuality text targetLanguage (Some sourceLanguage);
             if bool_decide (is_Some (ScoredTranslation.result qualityAssessment)) then
               recordRequest key;;
               mret (attempts ++
                       [{| Attempt.result := r;
                           Attempt.quality := ScoredTranslation.quality qualityAssessment |}])
             else mret attempts
         | None => mret attempts
         end;
       (* Small delay between service attempts *)
       sleep 500;;
       mret attempts)
    (fun error =>
       (* Continue with next service *)
       mret attempts).

(** The [for (const serviceName of this.services)] loop of
    [translateWithBestQuality]. *)
Fixpoint collectAttempts (text targetLanguage sourceLanguage : string)
    (services : list TranslationService) (attempts : list Attempt.t)
    : M (list Attempt.t) :=
  match services with
  | [] => mret attempts
  | serviceName :: services =>
      attempts ← tryService text targetLanguage sourceLanguage attempts serviceName;
      collectAttempts text targetLanguage sourceLanguage services attempts
  end.

(** Translate with multiple services and return best result *)
Definition translateWithBestQuality (text targetLanguage : string)
    (sourceLanguage : option string) : M (option TranslationResult.t) :=
  let sourceLanguage := default "auto" sourceLanguage in
  attempts ←
    collectAttempts text targetLanguage sourceLanguage
      services [];
  if bool_decide (length attempts = 0%nat) then mret None
  else
    (* Return the translation with the highest quality score *)
    mret (Attempt.result <$> head (sortByQuality attempts)).

End WithHost.
End FreeTranslationService.

(** ** services/lyricsTranslatorService.ts *)

Module LyricsTranslationPipeline.
Record t := mk {
  audioRecognition : option AudioRecognitionResult.t;
  lyrics : option LyricsResult.t;
  translation : option TranslationResult.t;
  errors : list ServiceError.t;
  processingTime : Z;
  confidence : Q
}.

Definition set_audioRecognition (v : option AudioRecognitionResult.t) (r : t) : t :=
  mk v (lyrics r) (translation r) (errors r) (processingTime r) (confidence r).
Definition set_lyrics (v : option LyricsResult.t) (r : t) : t :=
  mk (audioRecognition r) v (translation r) (errors r) (processingTime r) (confidence r).
Definition set_translation (v : option TranslationResult.t) (r : t) : t :=
  mk (audioRecognition r) (lyrics r) v (errors r) (processingTime r) (confidence r).
(** [result.errors.push(e)] *)
Definition push_error (e : ServiceError.t) (r : t) : t :=
  mk (audioRecognition r) (lyrics r) (translation r) (errors r ++ [e])
    (processingTime r) (confidence r).
Definition set_processingTime (v : Z) (r : t) : t :=
  mk (audioRecognition r) (lyrics r) (translation r) (errors r) v (confidence r).
Definition set_confidence (v : Q) (r : t) : t :=
  mk (audioRecognition r) (lyrics r) (translation r) (errors r) (processingTime r) v.
End LyricsTranslationPipeline.

Module SongInfo.
Record t := mk {
  artist : string;
  title : string
}.
End SongInfo.

Module TranslationOptions.
Record t := mk {
  targetLanguage : string;
  sourceLanguage : option string;
  skipAudioRecognition : bool; (* [undefined] counts as [false] *)
  manualSongInfo : option SongInfo.t;
  qualityThreshold : option Q
}.
End TranslationOptions.

Module BatchRequest.
Record t := mk {
  artist : string;
  title : string;
  targetLanguage : string;
  sourceLanguage : option string
}.
End BatchRequest.

Module ServiceStatus.
Record t := mk {
  audioRecognition : list (string * RateLimitStatus.t);
  lyrics : list (string * RateLimitStatus.t);
  translation : list (string * RateLimitStatus.t);
  availableAudioRecognition : bool; (* [availability.audioRecognition] *)
  availableLyrics : bool;           (* [availability.lyrics] *)
  availableTranslation : bool       (* [availability.translation] *)
}.
End ServiceStatus.

Inductive HealthStatus := healthy | degraded | unhealthy.

Module Health.
Record t := mk {
  status : HealthStatus;
  audioRecognition : bool;
  lyrics : bool;
  translation : bool;
  details : list string
}.
End Health.

Module LyricsTranslatorService.
Section WithHost.
Variable host : Host.

Import LyricsTranslationPipeline.

(** The state of a pipeline method: its local [result] object and the
    world. *)
Abbreviation P := (SE (LyricsTranslationPipeline.t * World)).

Definition maxRetries : nat := 2.
Definition retryDelay : Z := 1000.

Definition plainError (service error : string) : ServiceError.t :=
  {| ServiceError.service := service; ServiceError.error := error;
     ServiceError.code := None; ServiceError.retryAfter := None |}.

(** The retry loop of [recognizeAudioWithRetry], [getLyricsWithRetry]
    and [translateWithRetry]:
    [for (let attempt = 0; attempt < this.maxRetries; attempt++)]
    around a [try] that returns a result that passes [accepted], and a
    [catch] that waits unless the attempt was the last.  [remaining] is
    [maxRetries - attempt]. *)
Fixpoint withRetry {R} (stage : M (option R)) (accepted : R -> bool)
    (remaining : nat) : M (option R) :=
  match remaining with
  | O => mret None
  | S remaining =>
      returned ←
        try_catch
          (result ← stage;
           match result with
           | Some r => if accepted r then mret (Some r) else mret None
           | None => mret None
           end)
          (fun error =>
             (if bool_decide (remaining = O) then mret tt
              else sleep retryDelay);;
             mret None);
      match returned with
      | Some r => mret (Some r)
      | None => withRetry stage accepted remaining
      end
  end.

Definition recognizeAudioWithRetry (audioBuffer : list Byte.byte)
    : M (option AudioRecognitionResult.t) :=
  withRetry (FreeAudioRecognitionService.recognizeAudio host audioBuffer)
    (fun _ => true) maxRetries.

Definition getLyricsWithRetry (artist title : string) : M (option LyricsResult.t) :=
  withRetry (FreeLyricsService.getLyrics host artist title)
    FreeLyricsService.populated maxRetries.

Definition translateWithRetry (text targetLanguage : string)
    (sourceLanguage : option string) : M (option TranslationResult.t) :=
  withRetry (FreeTranslationService.translateText host text targetLanguage sourceLanguage)
    (fun result =>
       bool_decide (0 < Js.length (Js.trim (TranslationResult.translatedText result))))
    maxRetries.

Definition Qlt_bool (a b : Q) : bool := negb (Qle_bool b a).
Definition Qmax (a b : Q) : Q := if Qle_bool a b then b else a.
Definition Qmin (a b : Q) : Q := if Qle_bool a b then a else b.

Definition calculateOverallConfidence (result : LyricsTranslationPipeline.t) : Q :=
  let confidence := (5 # 10)%Q in (* Base confidence *)
  (* Audio recognition confidence *)
  let confidence :=
    match audioRecognition result ≫= AudioRecognitionResult.confidence with
    | Some c =>
        if Qeq_bool c 0 then confidence else Qmax confidence (c * (3 # 10))%Q
    | None => confidence
    end in
  (* Lyrics quality indicators *)
  let confidence :=
    match lyrics result with
    | Some l =>
        let confidence :=
          if bool_decide (100 < Js.length (LyricsResult.lyrics l))
          then (confidence + (1 # 10))%Q else confidence in
        let confidence :=
          if bool_decide (500 < Js.length (LyricsResult.lyrics l))
          then (confidence + (1 # 10))%Q else confidence in
        if String.eqb (LyricsResult.source l) "Musixmatch"
        then (confidence + (5 # 100))%Q else confidence
    | None => confidence
    end in
  (* Translation quality indicators *)
  let confidence :=
    match translation result with
    | Some t =>
        let lyricsLength :=
          match lyrics result with
          | Some l => if bool_decide (Js.length (LyricsResult.lyrics l) = 0) then 1
                      else Js.length (LyricsResult.lyrics l)
          | None => 1
          end in
        let lengthRatio :=
          (inject_Z (Js.length (TranslationResult.translatedText t))
           / inject_Z lyricsLength)%Q in
        let confidence :=
          if Qlt_bool (3 # 10) lengthRatio && Qlt_bool lengthRatio 3
          then (confidence + (1 # 10))%Q else confidence in
        if String.eqb (TranslationResult.source t) "MyMemory"
        then (confidence + (5 # 100))%Q else confidence
    | None => confidence
    end in
  (* Penalize for errors *)
  let confidence :=
    (confidence - inject_Z (Z.of_nat (length (errors result))) * (1 # 10))%Q in
  Qmin 1 (Qmax 0 confidence).

(** [result.processingTime = Date.now() - startTime] *)
Definition stampProcessingTime (startTime : Z) : P unit :=
  now ← liftS dateNow;
  modifyLocal (set_processingTime (now - startTime)).

(** The [try] block of [translateFromAudio].  Its value tells whether a
    [return result] inside the block was executed. *)
Definition translateFromAudioBody (startTime : Z) (audioBuffer : list Byte.byte)
    (options : TranslationOptions.t) : P bool :=
  (* Step 1: Audio Recognition (if not skipped) *)
  returned ←
    (if negb (TranslationOptions.skipAudioRecognition options)
        && negb (bool_decide (is_Some (TranslationOptions.manualSongInfo options)))
     then
       recognized ← liftS (recognizeAudioWithRetry audioBuffer);
       modifyLocal (set_audioRecognition recognized);;
       match recognized with
       | None =>
           modifyLocal (push_error
             (plainError "audioRecognition"
                "Failed to recognize audio from all available services"));;
           stampProcessingTime startTime;;
           mret true
       | Some _ => mret false
       end
     else mret false : P bool);
  if returned : bool then mret true
  else
    (* Step 2: Get Lyrics *)
    result ← getLocal;
    let songInfo :=
      match TranslationOptions.manualSongInfo options with
      | Some manual => manual
      | None =>
          {| SongInfo.artist :=
               Js.orUndefined
                 (audioRecognition result ≫= AudioRecognitionResult.artist) "";
             SongInfo.title :=
               Js.orUndefined
                 (audioRecognition result ≫= AudioRecognitionResult.title) "" |}
      end in
    if negb (Js.truthy (SongInfo.artist songInfo))
       || negb (Js.truthy (SongInfo.title songInfo)) then
      modifyLocal (push_error
        (plainError "lyrics" "Missing artist or title information"));;
      stampProcessingTime startTime;;
      mret true
    else
      fetched ← liftS (getLyricsWithRetry (SongInfo.artist songInfo)
                         (SongInfo.title songInfo));
      modifyLocal (set_lyrics fetched);;
      match fetched with
      | None =>
          modifyLocal (push_error
            (plainError "lyrics"
               "Failed to fetch lyrics from all available services"));;
          stampProcessingTime startTime;;
          mret true
      | Some lyrics_ =>
          (* Step 3: Translation *)
          translated ←
            liftS (translateWithRetry (LyricsResult.lyrics lyrics_)
                     (TranslationOptions.targetLanguage options)
                     (TranslationOptions.sourceLanguage options));
          modifyLocal (set_translation translated);;
          match translated with
          | None =>
              modifyLocal (push_error
                (plainError "translation"
                   "Failed to translate lyrics from all available services"));;
              stampProcessingTime startTime;;
              mret true
          | Some _ =>
              (* Calculate overall confidence *)
              modifyLocal (fun result =>
                set_confidence (calculateOverallConfidence result) result);;
              mret false
          end
      end.

(** Complete pipeline: Audio Recognition -> Lyrics Fetching -> Translation *)
Definition translateFromAudio (audioBuffer : list Byte.byte)
    (options : TranslationOptions.t) : M LyricsTranslationPipeline.t :=
  startTime ← dateNow;
  withLocal
    {| audioRecognition := None; lyrics := None; translation := None;
       errors := []; processingTime := 0; confidence := 0 |}
    (returned ←
       try_catch (translateFromAudioBody startTime audioBuffer options)
         (fun error =>
            modifyLocal (push_error
              (plainError "pipeline" (Js.messageOr "Unknown pipeline error" error)));;
            mret false);
     if returned : bool then getLocal
     else
       stampProcessingTime startTime;;
       getLocal).

(** Simplified pipeline: Manual Song Info -> Lyrics -> Translation *)
Definition translateFromSongInfo (artist title targetLanguage : string)
    (sourceLanguage : option string) : M LyricsTranslationPipeline.t :=
  translateFromAudio []
    {| TranslationOptions.targetLanguage := targetLanguage;
       TranslationOptions.sourceLanguage := sourceLanguage;
       TranslationOptions.skipAudioRecognition := true;
       TranslationOptions.manualSongInfo :=
         Some {| SongInfo.artist := artist; SongInfo.title := title |};
       TranslationOptions.qualityThreshold := None |}.

(** Direct lyrics translation (when you already have lyrics) *)
Definition translateLyricsOnly (lyrics_ targetLanguage : string)
    (sourceLanguage : option string) (songInfo : option SongInfo.t)
    : M LyricsTranslationPipeline.t :=
  startTime ← dateNow;
  withLocal
    {| audioRecognition := None;
       lyrics := Some
         {| LyricsResult.lyrics := lyrics_;
            LyricsResult.artist :=
              Js.orUndefined (SongInfo.artist <$> songInfo) "Unknown Artist";
            LyricsResult.title :=
              Js.orUndefined (SongInfo.title <$> songInfo) "Unknown Title";
            LyricsResult.source := "Manual" |};
       translation := None;
       errors := []; processingTime := 0; confidence := 0 |}
    (try_catch
       (translated ← liftS (translateWithRetry lyrics_ targetLanguage sourceLanguage);
        modifyLocal (set_translation translated);;
        (if bool_decide (is_Some translated) then mret tt
         else
           modifyLocal (push_error
             (plainError "translation"
                "Failed to translate lyrics from all available services")));;
        modifyLocal (fun result =>
          set_confidence (calculateOverallConfidence result) result))
       (fun error =>
          modifyLocal (push_error
            (plainError "translation" (Js.messageOr "Translation failed" error))));;
     stampProcessingTime startTime;;
     getLocal).

(** The [for] loop of [batchTranslate] from item [i] on; [requests] are
    the items [i..], [results] the outcomes pushed so far. *)
Fixpoint batchTranslateFrom (requests : list BatchRequest.t)
    (results : list LyricsTranslationPipeline.t)
    : M (list LyricsTranslationPipeline.t) :=
  match requests with
  | [] => mret results
  | request :: requests =>
      results ←
        try_catch
          (result ← translateFromSongInfo (BatchRequest.artist request)
                      (BatchRequest.title request)
                      (BatchRequest.targetLanguage request)
                      (BatchRequest.sourceLanguage request);
           mret (results ++ [result]))
          (fun error =>
             mret (results ++
               [{| audioRecognition := None; lyrics := None; translation := None;
                   errors := [plainError "pipeline"
                                (Js.messageOr "Batch processing failed" error)];
                   processingTime := 0; confidence := 0 |}]));
      (* Add delay between batch requests *)
      (if bool_decide (requests <> []) then sleep 2000 else mret tt);;
      batchTranslateFrom requests results
  end.

(** Batch processing for multiple songs *)
Definition batchTranslate (requests : list BatchRequest.t)
    : M (list LyricsTranslationPipeline.t) :=
  batchTranslateFrom requests [].

(** Get all errors from the last operation *)
Definition getAllErrors : M (list ServiceError.t) :=
  audio ← FreeAudioRecognitionService.getErrors;
  lyrics_ ← FreeLyricsService.getErrors;
  translation_ ← FreeTranslationService.getErrors;
  mret (audio ++ lyrics_ ++ translation_).

(** Health check for all services *)
Definition healthCheck : M Health.t :=
  audioRecognition_ ← FreeAudioRecognitionService.hasAvailableService host;
  lyrics_ ← FreeLyricsService.hasAvailableService host;
  translation_ ← FreeTranslationService.hasAvailableService;
  let availableServices :=
    length (filter (fun b => b = true) [audioRecognition_; lyrics_; translation_]) in
  let details :=
    (if negb audioRecognition_ then ["Audio recognition services unavailable"] else [])
    ++ (if negb lyrics_ then ["Lyrics services unavailable"] else [])
    ++ (if negb translation_ then ["Translation services unavailable"] else []) in
  let status :=
    if bool_decide (availableServices = 3%nat) then healthy
    else if bool_decide (1 <= availableServices)%nat then degraded
    else unhealthy in
  mret {| Health.status := status;
          Health.audioRecognition := audioRecognition_;
          Health.lyrics := lyrics_;
          Health.translation := translation_;
          Health.details := details |}.

(** Get service status and rate limits *)
Definition getServiceStatus : M ServiceStatus.t :=
  audioRecognition_ ← FreeAudioRecognitionService.getRateLimitStatus;
  lyrics_ ← FreeLyricsService.getRateLimitStatus;
  translation_ ← FreeTranslationService.getRateLimitStatus;
  availableAudioRecognition ← FreeAudioRecognitionService.hasAvailableService host;
  availableLyrics ← FreeLyricsService.hasAvailableService host;
  availableTranslation ← FreeTranslationService.hasAvailableService;
  mret {| ServiceStatus.audioRecognition := audioRecognition_;
          ServiceStatus.lyrics := lyrics_;
          ServiceStatus.translation := translation_;
          ServiceStatus.availableAudioRecognition := availableAudioRecognition;
          ServiceStatus.availableLyrics := availableLyrics;
          ServiceStatus.availableTranslation := availableTranslation |}.

End WithHost.
End LyricsTranslatorService.

(** ** hooks/useLyricsTranslator.ts

    The state of the hook and its actions.  [setState(update)] applies
    [update] to the state; an action is followed on its own, from the
    state and the world it starts in to those it ends in. *)

Module Step.
Inductive t := idle | recognizing | fetchingLyrics | translating | complete | error.

#[global] Instance eq_dec : EqDecision t.
Proof. solve_decision. Defined.
End Step.

Module Availability.
Record t := mk {
  audioRecognition : bool;
  lyrics : bool;
  translation : bool
}.
End Availability.

Module UseLyricsTranslatorState.
Record t := mk {
  (* Current operation states *)
  isRecognizing : bool;
  isFetchingLyrics : bool;
  isTranslating : bool;
  (* Results *)
  result : option LyricsTranslationPipeline.t;
  (* Error handling *)
  errors : list ServiceError.t;
  (* Service status *)
  serviceStatus : Availability.t;
  (* Progress tracking *)
  currentStep : Step.t;
  progress : Z
}.

Definition initial : t :=
  {| isRecognizing := false;
     isFetchingLyrics := false;
     isTranslating := false;
     result := None;
     errors := [];
     serviceStatus :=
       {| Availability.audioRecognition := false;
          Availability.lyrics := false;
          Availability.translation := false |};
     currentStep := Step.idle;
     progress := 0 |}.
End UseLyricsTranslatorState.

Module useLyricsTranslator.
Section WithHost.
Variable host : Host.

Import UseLyricsTranslatorState.

(** An action of the hook: the state of the hook beside the world. *)
Definition Action (A : Type) : Type := SE (UseLyricsTranslatorState.t * World) A.

Definition setState (update : UseLyricsTranslatorState.t -> UseLyricsTranslatorState.t)
    : Action unit :=
  modifyLocal update.

(** [setState(prev => ({ ...prev, result: null, errors: [] }))] *)
Definition clearResult : Action unit :=
  setState (fun prev =>
    {| isRecognizing := isRecognizing prev;
       isFetchingLyrics := isFetchingLyrics prev;
       isTranslating := isTranslating prev;
       result := None;
       errors := [];
       serviceStatus := serviceStatus prev;
       currentStep := currentStep prev;
       progress := progress prev |}).

(** Update progress and step *)
Definition updateProgress (step : Step.t) (progress_ : Z) : Action unit :=
  setState (fun prev =>
    {| isRecognizing := bool_decide (step = Step.recognizing);
       isFetchingLyrics := bool_decide (step = Step.fetchingLyrics);
       isTranslating := bool_decide (step = Step.translating);
       result := result prev;
       errors := errors prev;
       serviceStatus := serviceStatus prev;
       currentStep := step;
       progress := progress_ |}).

(** [{ service, error: errorMessage }] appended in a [catch] of the hook *)
Definition caught (service : string) (error : Exn) : ServiceError.t :=
  LyricsTranslatorService.plainError service (Js.messageOr "Unknown error" error).

(** Main translation from audio *)
Definition translateFromAudio (audioBuffer : list Byte.byte)
    (options : TranslationOptions.t) : Action unit :=
  try_catch
    (clearResult;;
     updateProgress Step.recognizing 10;;
     result_ ← liftS (LyricsTranslatorService.translateFromAudio host audioBuffer options);
     updateProgress Step.complete 100;;
     setState (fun prev =>
       {| isRecognizing := false;
          isFetchingLyrics := false;
          isTranslating := false;
          result := Some result_;
          errors := LyricsTranslationPipeline.errors result_;
          serviceStatus := serviceStatus prev;
          currentStep :=
            if bool_decide (is_Some (LyricsTranslationPipeline.translation result_))
            then Step.complete else Step.error;
          progress := progress prev |}))
    (fun error =>
       setState (fun prev =>
         {| isRecognizing := false;
            isFetchingLyrics := false;
            isTranslating := false;
            result := result prev;
            errors := errors prev ++ [caught "pipeline" error];
            serviceStatus := serviceStatus prev;
            currentStep := Step.error;
            progress := progress prev |})).

(** Translation from song info *)
Definition translateFromSongInfo (artist title targetLanguage : string)
    (sourceLanguage : option string) : Action unit :=
  try_catch
    (clearResult;;
     updateProgress Step.fetchingLyrics 33;;
     result_ ← liftS (LyricsTranslatorService.translateFromSongInfo host artist title
                        targetLanguage sourceLanguage);
     updateProgress Step.complete 100;;
     setState (fun prev =>
       {| isRecognizing := isRecognizing prev;
          isFetchingLyrics := false;
          isTranslating := false;
          result := Some result_;
          errors := LyricsTranslationPipeline.errors result_;
          serviceStatus := serviceStatus prev;
          currentStep :=
            if bool_decide (is_Some (LyricsTranslationPipeline.translation result_))
            then Step.complete else Step.error;
          progress := progress prev |}))
    (fun error =>
       setState (fun prev =>
         {| isRecognizing := isRecognizing prev;
            isFetchingLyrics := false;
            isTranslating := false;
            result := result prev;
            errors := errors prev ++ [caught "pipeline" error];
            serviceStatus := serviceStatus prev;
            currentStep := Step.error;
            progress := progress prev |})).

(** Direct lyrics translation *)
Definition translateLyricsOnly (lyrics_ targetLanguage : string)
    (sourceLanguage : option string) : Action unit :=
  try_catch
    (clearResult;;
     updateProgress Step.translating 50;;
     result_ ← liftS (LyricsTranslatorService.translateLyricsOnly host lyrics_
                        targetLanguage sourceLanguage None);
     updateProgress Step.complete 100;;
     setState (fun prev =>
       {| isRecognizing := isRecognizing prev;
          isFetchingLyrics := isFetchingLyrics prev;
          isTranslating := false;
          result := Some result_;
          errors := LyricsTranslationPipeline.errors result_;
          serviceStatus := serviceStatus prev;
          currentStep :=
            if bool_decide (is_Some (LyricsTranslationPipeline.translation result_))
            then Step.complete else Step.error;
          progress := progress prev |}))
    (fun error =>
       setState (fun prev =>
         {| isRecognizing := isRecognizing prev;
            isFetchingLyrics := isFetchingLyrics prev;
            isTranslating := false;
            result := result prev;
            errors := errors prev ++ [caught "pipeline" error];
            serviceStatus := serviceStatus prev;
            currentStep := Step.error;
            progress := progress prev |})).

(** [results.find(r => r.translation) || results[0]] *)
Definition successfulResult (results : list LyricsTranslationPipeline.t)
    : option LyricsTranslationPipeline.t :=
  match
    head (filter (fun r => is_Some (LyricsTranslationPipeline.translation r)) results)
  with
  | Some r => Some r
  | None => head results
  end.

(** Batch translation *)
Definition batchTranslate (requests : list BatchRequest.t) : Action unit :=
  try_catch
    (clearResult;;
     updateProgress Step.fetchingLyrics 20;;
     results ← liftS (LyricsTranslatorService.batchTranslate host requests);
     updateProgress Step.complete 100;;
     (* For batch results, we'll store the first successful result or the
        first result with errors *)
     let allErrors := concat (map LyricsTranslationPipeline.errors results) in
     setState (fun prev =>
       {| isRecognizing := isRecognizing prev;
          isFetchingLyrics := false;
          isTranslating := false;
          result := successfulResult results;
          errors := allErrors;
          serviceStatus := serviceStatus prev;
          currentStep :=
            if bool_decide
                 (is_Some (successfulResult results
                           ≫= LyricsTranslationPipeline.translation))
            then Step.complete else Step.error;
          progress := progress prev |}))
    (fun error =>
       setState (fun prev =>
         {| isRecognizing := isRecognizing prev;
            isFetchingLyrics := false;
            isTranslating := false;
            result := result prev;
            errors := errors prev ++ [caught "batch" error];
            serviceStatus := serviceStatus prev;
            currentStep := Step.error;
            progress := progress prev |})).

(** Reset state *)
Definition reset : Action unit := setState (fun _ => initial).

(** Check service status *)
Definition checkServiceStatus : Action unit :=
  try_catch
    (healthCheck ← liftS (LyricsTranslatorService.healthCheck host);
     setState (fun prev =>
       {| isRecognizing := isRecognizing prev;
          isFetchingLyrics := isFetchingLyrics prev;
          isTranslating := isTranslating prev;
          result := result prev;
          errors := errors prev;
          serviceStatus :=
            {| Availability.audioRecognition := Health.audioRecognition healthCheck;
               Availability.lyrics := Health.lyrics healthCheck;
               Availability.translation := Health.translation healthCheck |};
          currentStep := currentStep prev;
          progress := progress prev |}))
    (fun error => mret tt).

End WithHost.
End useLyricsTranslator.

(** ** Vocabulary of the properties *)

(** What one provider contributed to a run of the fallback loop. *)
Inductive Outcome (R : Type) :=
| Denied (retryAfter : Num) (* refused by the rate limiter, adapter not called *)
| Failed (error : Exn)      (* the adapter threw *)
| Missed                    (* the adapter returned null or an unpopulated result *)
| Succeeded (r : R).        (* the adapter returned a populated result *)
Arguments Denied {R} retryAfter.
Arguments Failed {R} error.
Arguments Missed {R}.
Arguments Succeeded {R} r.

Module Trace.
Section WithNames.
Context {N R : Type}.
Variable nameOf : N -> string.
Variable prefix : string.

Definition key (n : N) : string := prefix +:+ nameOf n.

(** The [ServiceError] that the loop records for an outcome. *)
Definition errorsOf (entry : N * Outcome R) : list ServiceError.t :=
  match snd entry with
  | Denied retryAfter =>
      [{| ServiceError.service := nameOf (fst entry);
          ServiceError.error := "Rate limit exceeded";
          ServiceError.code := None;
          ServiceError.retryAfter := Some retryAfter |}]
  | Failed error =>
      [{| ServiceError.service := nameOf (fst entry);
          ServiceError.error := Js.messageOr "Unknown error" error;
          ServiceError.code := None;
          ServiceError.retryAfter := None |}]
  | Missed | Succeeded _ => []
  end.

(** The provider keys whose adapter was entered. *)
Definition invokedOf (entry : N * Outcome R) : list string :=
  match snd entry with
  | Denied _ => []
  | Failed _ | Missed | Succeeded _ => [key (fst entry)]
  end.

Definition succeeded (entry : N * Outcome R) : Prop :=
  exists r, snd entry = Succeeded r.

End WithNames.
End Trace.

(** The rate limiter's record of one key. *)
Definition rl_at (k : string) (w : World) : option RateLimitInfo * option (list Z) :=
  (limits (rateLimiter w) !! k, requestCounts (rateLimiter w) !! k).

(** [stage] ran the fallback loop over [services] from [w]: it returned
    normally; the providers [tried] are an initial segment of [services]
    in order, all but possibly the last without success; the errors
    recorded and the adapters entered are those of [tried]; a result is
    what the adapter of the last tried provider returned, after which
    [recordRequest] ran for it and nothing else; without a result every
    provider was tried; the providers after the last tried one were not
    consulted at all. *)
Definition first_success {N R} (nameOf : N -> string) (prefix : string)
    (services : list N) (adapter : N -> M (option R)) (populated : R -> bool)
    (errs : World -> list ServiceError.t) (olderrs : list ServiceError.t)
    (stage : M (option R)) (w : World) : Prop :=
  exists (tried : list (N * Outcome R)) (untried : list N)
         (result : option R) (w' : World),
    stage w = (Normal result, w')
    /\ services = map fst tried ++ untried
    /\ errs w' = olderrs ++ flat_map (Trace.errorsOf nameOf) tried
    /\ invoked w' = invoked w ++ flat_map (Trace.invokedOf nameOf prefix) tried
    /\ (forall q, q ∈ untried ->
          rl_at (Trace.key nameOf prefix q) w' = rl_at (Trace.key nameOf prefix q) w
          /\ (Trace.key nameOf prefix q ∉ flat_map (Trace.invokedOf nameOf prefix) tried)
          /\ Forall (fun e => ServiceError.service e <> nameOf q)
               (flat_map (Trace.errorsOf nameOf) tried))
    /\ match result with
       | Some r =>
           exists earlier p w1 w2,
             tried = earlier ++ [(p, Succeeded r)]
             /\ Forall (fun entry => ~ Trace.succeeded entry) earlier
             /\ adapter p w1 = (Normal (Some r), w2)
             /\ populated r = true
             /\ w' = snd (recordRequest (Trace.key nameOf prefix p) w2)
       | None =>
           untried = [] /\ Forall (fun entry => ~ Trace.succeeded entry) tried
       end.

(** The fallback loop, provider by provider. *)
Section Consulted.

Context {N R : Type}.
Variable nameOf : N -> string.
Variable prefix : string.
Variable configOf : N -> ServiceConfig.
Variable adapter : N -> M (option R).
Variable populated : R -> bool.
Variable pushError : ServiceError.t -> M unit.

(** What [isAllowed] answers for the provider [n] in [w], and the rate
    limiter it leaves. *)
Definition checked (n : N) (w : World) : bool * RateLimiter :=
  RL.isAllowed (clock w) (prefix +:+ nameOf n) (configOf n) (rateLimiter w).

(** The world after that call of [isAllowed]. *)
Definition afterCheck (n : N) (w : World) : World :=
  set_rateLimiter (fun _ => snd (checked n w)) w.

(** The world in which the adapter of [n] is called. *)
Definition atAdapter (n : N) (w : World) : World :=
  set_invoked (fun l => l ++ [prefix +:+ nameOf n]) (afterCheck n w).

(** The wait that the error of a denied provider carries. *)
Definition retryAfterOf (n : N) (w : World) : Num :=
  RL.getRetryAfter (clock w) (prefix +:+ nameOf n) (configOf n) (snd (checked n w)).

(** The iteration of the loop for the provider [n] from [w] had the
    outcome [o] and ended in [w']: what the rate limiter answered, what
    the adapter did in the world it was called in, which error was
    pushed and whether [recordRequest] ran. *)
Definition attempted (n : N) (w : World) (o : Outcome R) (w' : World) : Prop :=
  match o with
  | Denied retryAfter =>
      fst (checked n w) = false
      /\ retryAfter = retryAfterOf n w
      /\ pushError
           {| ServiceError.service := nameOf n;
              ServiceError.error := "Rate limit exceeded";
              ServiceError.code := None;
              ServiceError.retryAfter := Some retryAfter |}
           (afterCheck n w)
         = (Normal tt, w')
  | Failed error =>
      fst (checked n w) = true
      /\ exists w1,
           adapter n (atAdapter n w) = (Thrown error, w1)
           /\ pushError
                {| ServiceError.service := nameOf n;
                   ServiceError.error := Js.messageOr "Unknown error" error;
                   ServiceError.code := None;
                   ServiceError.retryAfter := None |}
                w1
              = (Normal tt, w')
  | Missed =>
      fst (checked n w) = true
      /\ exists result,
           adapter n (atAdapter n w) = (Normal result, w')
           /\ from_option populated false result = false
  | Succeeded r =>
      fst (checked n w) = true
      /\ exists w1,
           adapter n (atAdapter n w) = (Normal (Some r), w1)
           /\ populated r = true
           /\ w' = snd (recordRequest (prefix +:+ nameOf n) w1)
  end.

(** The iterations for [tried], one after the other, lead from [w] to
    [w']. *)
Fixpoint consulted (w : World) (tried : list (N * Outcome R)) (w' : World) : Prop :=
  match tried with
  | [] => w' = w
  | entry :: tried =>
      exists w1, attempted (fst entry) w (snd entry) w1 /\ consulted w1 tried w'
  end.

(** [stage] ran the fallback loop over [services], the loop starting in
    [start]: as [first_success], and every outcome in [tried] is what
    the rate limiter and the adapter of that provider did in the world
    that the providers before it left. *)
Definition served (services : list N) (errs : World -> list ServiceError.t)
    (olderrs : list ServiceError.t) (start : World) (stage : M (option R))
    (w : World) : Prop :=
  exists (tried : list (N * Outcome R)) (untried : list N)
         (result : option R) (w' : World),
    stage w = (Normal result, w')
    /\ consulted start tried w'
    /\ services = map fst tried ++ untried
    /\ errs w' = olderrs ++ flat_map (Trace.errorsOf nameOf) tried
    /\ invoked w' = invoked w ++ flat_map (Trace.invokedOf nameOf prefix) tried
    /\ (forall q, q ∈ untried ->
          rl_at (Trace.key nameOf prefix q) w' = rl_at (Trace.key nameOf prefix q) w
          /\ (Trace.key nameOf prefix q ∉ flat_map (Trace.invokedOf nameOf prefix) tried)
          /\ Forall (fun e => ServiceError.service e <> nameOf q)
               (flat_map (Trace.errorsOf nameOf) tried))
    /\ match result with
       | Some r =>
           exists earlier p,
             tried = earlier ++ [(p, Succeeded r)]
             /\ Forall (fun entry => ~ Trace.succeeded entry) earlier
       | None =>
           untried = [] /\ Forall (fun entry => ~ Trace.succeeded entry) tried
       end.

End Consulted.

(** An adapter only talks to the network: it leaves the rate limiter,
    the error lists of the services and the log of entered adapters as
    they are. *)
Definition adapter_frame {A} (m : M A) : Prop :=
  forall w,
    rateLimiter (snd (m w)) = rateLimiter w
    /\ audioErrors (snd (m w)) = audioErrors w
    /\ lyricsErrors (snd (m w)) = lyricsErrors w
    /\ translationErrors (snd (m w)) = translationErrors w
    /\ invoked (snd (m w)) = invoked w.

(** [m] always returns normally. *)
Definition total {S A} (m : SE S A) : Prop :=
  forall s, exists a s', m s = (Normal a, s').

(** The [source] tag with which the adapter of each provider labels its
    results. *)
Definition audioSourceTag (s : AudioService) : string :=
  match s with
  | acrCloud => "ACRCloud"
  | auddIo => "AudD.io"
  end.

Definition lyricsSourceTag (s : LyricsService) : string :=
  match s with
  | lyricsOvh => "Lyrics.ovh"
  | musixmatch => "Musixmatch"
  | lyricsApi => "LyricsAPI"
  end.

Definition translationSourceTag (s : TranslationService) : string :=
  match s with
  | myMemory => "MyMemory"
  | libreTranslate => "LibreTranslate"
  | googleTranslateFree => "Google Translate (Free)"
  end.

(** Every result that [m] returns satisfies [P]. *)
Definition returns_only {S R} (P : R -> Prop) (m : SE S (option R)) : Prop :=
  forall s r s', m s = (Normal (Some r), s') -> P r.

(** Running [m] from [s] ends in a completion and a state that satisfy
    [Q]. *)
Definition wp {S A} (m : SE S A) (s : S) (Q : Completion A -> S -> Prop) : Prop :=
  Q (fst (m s)) (snd (m s)).

(** The stage names under which the orchestrator reports a failure. *)
Definition stageNames : list string :=
  ["audioRecognition"; "lyrics"; "translation"; "pipeline"].

(** The errors of an outcome describe its failure: an outcome with a
    translation has no error, an outcome without one has exactly one
    error, which names the stage that failed (or the pipeline). *)
Definition describes_failure (outcome : LyricsTranslationPipeline.t) : Prop :=
  match LyricsTranslationPipeline.translation outcome with
  | Some _ => LyricsTranslationPipeline.errors outcome = []
  | None =>
      exists e, LyricsTranslationPipeline.errors outcome = [e]
                /\ ServiceError.service e ∈ stageNames
  end.

(** What the [try] block of [translateFromAudio] leaves in [result]:
    after a [return] inside the block one error and no translation, at
    its end a translation and no error. *)
Definition body_post (c : Completion bool)
    (ls : LyricsTranslationPipeline.t * World) : Prop :=
  match c with
  | Normal true =>
      LyricsTranslationPipeline.translation (fst ls) = None
      /\ exists e, LyricsTranslationPipeline.errors (fst ls) = [e]
                   /\ ServiceError.service e ∈ stageNames
  | Normal false =>
      LyricsTranslationPipeline.translation (fst ls) <> None
      /\ LyricsTranslationPipeline.errors (fst ls) = []
  | Thrown e =>
      LyricsTranslationPipeline.translation (fst ls) = None
      /\ LyricsTranslationPipeline.errors (fst ls) = []
  end.

(** The outcome of a request without artist or title: the fatal
    missing-song-info error and nothing else. *)
Definition missingSongInfoOutcome : LyricsTranslationPipeline.t :=
  {| LyricsTranslationPipeline.audioRecognition := None;
     LyricsTranslationPipeline.lyrics := None;
     LyricsTranslationPipeline.translation := None;
     LyricsTranslationPipeline.errors :=
       [LyricsTranslatorService.plainError "lyrics"
          "Missing artist or title information"];
     LyricsTranslationPipeline.processingTime := 0;
     LyricsTranslationPipeline.confidence := 0 |}.

(** [outcomes] are the outcomes of the song-info pipeline run on each of
    [requests] in turn, from [w] to [w'], with the fixed delay between
    consecutive items. *)
Inductive batch_run (host : Host)
  : list BatchRequest.t -> World -> list LyricsTranslationPipeline.t -> World -> Prop :=
| batch_run_nil w : batch_run host [] w [] w
| batch_run_cons request requests w outcome w1 outcomes w' :
    LyricsTranslatorService.translateFromSongInfo host
      (BatchRequest.artist request) (BatchRequest.title request)
      (BatchRequest.targetLanguage request) (BatchRequest.sourceLanguage request) w
    = (Normal outcome, w1) ->
    batch_run host requests
      (if bool_decide (requests <> []) then set_clock (fun t => t + 2000) w1 else w1)
      outcomes w' ->
    batch_run host (request :: requests) w (outcome :: outcomes) w'.

(** The retry loop with [maxRetries = 2], unrolled: the stage is run; an
    accepted result is returned at once; otherwise (a clean null, a
    result that is not accepted, or an exception, the latter followed by
    the retry delay) the stage is run once more, and its accepted
    result or null is returned. *)
Definition lastAttempt {R} (stage : M (option R)) (accepted : R -> bool)
    : M (option R) :=
  fun w =>
    match stage w with
    | (Normal (Some r), w') => (Normal (if accepted r then Some r else None), w')
    | (Normal None, w') => (Normal None, w')
    | (Thrown _, w') => (Normal None, w')
    end.

Definition twoAttempts {R} (stage : M (option R)) (accepted : R -> bool)
    : M (option R) :=
  fun w =>
    match stage w with
    | (Normal (Some r), w') =>
        if accepted r then (Normal (Some r), w')
        else lastAttempt stage accepted w'
    | (Normal None, w') => lastAttempt stage accepted w'
    | (Thrown _, w') =>
        lastAttempt stage accepted
          (set_clock (fun t => t + LyricsTranslatorService.retryDelay) w')
    end.

(** [m] leaves the component [f] of the state as it is. *)
Definition keeps {S X A} (f : S -> X) (m : SE S A) : Prop :=
  forall s, wp m s (fun _ s' => f s' = f s).

(** Two worlds that differ at most in the error lists of the services. *)
Definition same_but_errors (w1 w2 : World) : Prop :=
  clock w1 = clock w2 /\ rateLimiter w1 = rateLimiter w2 /\ net w1 = net w2
  /\ fetches w1 = fetches w2 /\ invoked w1 = invoked w2.

(** [m] cannot tell related states apart: from related states it ends
    with the same completion in related states. *)
Definition respects {S A} (R : S -> S -> Prop) (m : SE S A) : Prop :=
  forall s1 s2, R s1 s2 ->
    fst (m s1) = fst (m s2) /\ R (snd (m s1)) (snd (m s2)).

(** The relation on the states of a pipeline method: the same local
    [result], related worlds. *)
Definition with_local {L S} (R : S -> S -> Prop) (ls1 ls2 : L * S) : Prop :=
  fst ls1 = fst ls2 /\ R (snd ls1) (snd ls2).

(** Four statements of the specification that the code does not
    satisfy, put in terms of the model. *)

(** A clean null of the first attempt is returned without another
    attempt. *)
Definition null_is_not_retried (host : Host) : Prop :=
  forall artist title w w1,
    FreeLyricsService.getLyrics host artist title w = (Normal None, w1) ->
    LyricsTranslatorService.getLyricsWithRetry host artist title w = (Normal None, w1).

(** The source of a translation names one of the translation
    providers. *)
Definition translation_source_names_provider (host : Host) : Prop :=
  forall text targetLanguage sourceLanguage w r w',
    FreeTranslationService.translateText host text targetLanguage sourceLanguage w
    = (Normal (Some r), w') ->
    exists p, TranslationResult.source r = translationSourceTag p.

(** Two processes that agree on the rate limiter (and on clock and
    network) cannot be told apart after the next pipeline run. *)
Definition only_rate_limiter_survives (host : Host) : Prop :=
  forall lyrics_ targetLanguage sourceLanguage songInfo w1 w2,
    rateLimiter w1 = rateLimiter w2 -> clock w1 = clock w2 ->
    net w1 = net w2 -> fetches w1 = fetches w2 ->
    fst (LyricsTranslatorService.getAllErrors
           (snd (LyricsTranslatorService.translateLyricsOnly host lyrics_
                   targetLanguage sourceLanguage songInfo w1)))
    = fst (LyricsTranslatorService.getAllErrors
             (snd (LyricsTranslatorService.translateLyricsOnly host lyrics_
                     targetLanguage sourceLanguage songInfo w2))).

(** The errors of an outcome describe every failure of the run: for
    every error that a stage service recorded for one of its providers
    during the run (an exception of the adapter, a denial by the rate
    limiter), the outcome has an entry under the name of that
    provider. *)
Definition outcome_describes_every_failure (host : Host) : Prop :=
  forall artist title targetLanguage sourceLanguage w outcome w',
    audioErrors w = [] -> lyricsErrors w = [] -> translationErrors w = [] ->
    LyricsTranslatorService.translateFromSongInfo host artist title targetLanguage
      sourceLanguage w = (Normal outcome, w') ->
    forall e, e ∈ audioErrors w' ++ lyricsErrors w' ++ translationErrors w' ->
      exists e', e' ∈ LyricsTranslationPipeline.errors outcome
                 /\ ServiceError.service e' = ServiceError.service e.

(** Vocabulary of the further properties. *)

(** [c] is an [isAllowed] call for [key]. *)
Definition consults (key : string) (c : RL.Call) : bool :=
  match c with
  | RL.CallIsAllowed _ k => bool_decide (k = key)
  | RL.CallRecordRequest _ _ => false
  end.

(** What every run of the limiter maintains for a key, whatever the
    clock does: an unseen key has no window, the window holds at most
    the limit, [remaining] is not negative and not more than the room
    left in the stored window. *)
Definition limiter_bounded (key : string) (config : ServiceConfig)
    (rl : RateLimiter) : Prop :=
  (limits rl !! key = None -> RL.recorded key rl = [])
  /\ Z.of_nat (length (RL.recorded key rl)) <= Z.max 0 (requests (rateLimit config))
  /\ 0 <= RL.getRemainingRequests key rl
  /\ RL.getRemainingRequests key rl + Z.of_nat (length (RL.recorded key rl))
     <= Z.max 0 (requests (rateLimit config)).

(** The provider [n] has room at the clock of [w]: fewer timestamps than
    its limit lie within its window. *)
Definition hasRoom {N} (nameOf : N -> string) (prefix : string)
    (configOf : N -> ServiceConfig) (w : World) (n : N) : bool :=
  bool_decide
    (Z.of_nat (length (RL.surviving (clock w) (prefix +:+ nameOf n) (configOf n)
                         (rateLimiter w)))
     < requests (rateLimit (configOf n))).

(** [check] ran [hasAvailableService] over [services] from [w]: it tells
    whether some provider has room; nothing but the rate limiter
    changes; and what the limiter counts changes for one provider only,
    the first with room, by one timestamp. *)
Definition books_first_with_room {N} `{EqDecision N} (nameOf : N -> string)
    (prefix : string) (configOf : N -> ServiceConfig) (services : list N)
    (check : M bool) (w : World) : Prop :=
  let room := hasRoom nameOf prefix configOf w in
  exists w',
    check w = (Normal (existsb room services), w')
    /\ w' = set_rateLimiter (fun _ => rateLimiter w') w
    /\ forall q, q ∈ services ->
         RL.surviving (clock w) (prefix +:+ nameOf q) (configOf q) (rateLimiter w')
         = RL.surviving (clock w) (prefix +:+ nameOf q) (configOf q) (rateLimiter w)
           ++ (if decide (head (filter room services) = Some q) then [clock w] else []).

(** The status of one provider as the limiter reports it in [w]. *)
Definition statusIn (w : World) (prefix name : string) : string * RateLimitStatus.t :=
  (name,
   {| RateLimitStatus.remaining :=
        RL.getRemainingRequests (prefix +:+ name) (rateLimiter w);
      RateLimitStatus.resetTime :=
        RL.getResetTime (clock w) (prefix +:+ name) (rateLimiter w) |}).

(** The sentences that [splitTextIntoChunks] keeps: the pieces between
    runs of [.], [!] and [?], trimmed, without the empty ones. *)
Definition sentencesOf (text : string) : list string :=
  filter (fun sentence => Js.truthy sentence)
    (map Js.trim (FreeTranslationService.splitSentences text "" false)).

(** What the [try] block of [translateFromAudio] leaves in [result]
    besides the errors: after a [return] inside the block no confidence
    and the elapsed time, at its end a confidence of at least one half. *)
Definition body_stamped (startTime : Z) (c : Completion bool)
    (ls : LyricsTranslationPipeline.t * World) : Prop :=
  match c with
  | Normal true =>
      LyricsTranslationPipeline.translation (fst ls) = None
      /\ LyricsTranslationPipeline.confidence (fst ls) = 0%Q
      /\ LyricsTranslationPipeline.processingTime (fst ls) = clock (snd ls) - startTime
  | Normal false =>
      LyricsTranslationPipeline.translation (fst ls) <> None
      /\ ((1 # 2) <= LyricsTranslationPipeline.confidence (fst ls) <= 1)%Q
  | Thrown _ =>
      LyricsTranslationPipeline.translation (fst ls) = None
      /\ LyricsTranslationPipeline.confidence (fst ls) = 0%Q
  end.

(** The outcome of a pipeline run from [w] to [w']: the elapsed time,
    and a confidence that is 0 without a translation and at least one
    half with one. *)
Definition stamped (w : World) (outcome : LyricsTranslationPipeline.t) (w' : World)
    : Prop :=
  LyricsTranslationPipeline.processingTime outcome = clock w' - clock w
  /\ match LyricsTranslationPipeline.translation outcome with
     | None => LyricsTranslationPipeline.confidence outcome = 0%Q
     | Some _ => ((1 # 2) <= LyricsTranslationPipeline.confidence outcome <= 1)%Q
     end.

(** [m] makes at most [k] requests: it calls [fetch] at most [k] times. *)
Definition spends {A} (k : nat) (m : M A) : Prop :=
  forall w, (fetches w <= fetches (snd (m w)) <= fetches w + k)%nat.

(** No operation of the hook is shown as running. *)
Definition settled (state : UseLyricsTranslatorState.t) : Prop :=
  UseLyricsTranslatorState.isRecognizing state = false
  /\ UseLyricsTranslatorState.isFetchingLyrics state = false
  /\ UseLyricsTranslatorState.isTranslating state = false.

(** The state in which an action of the hook leaves [outcome]. *)
Definition shows (outcome : LyricsTranslationPipeline.t)
    (before after : UseLyricsTranslatorState.t) : Prop :=
  UseLyricsTranslatorState.result after = Some outcome
  /\ UseLyricsTranslatorState.errors after = LyricsTranslationPipeline.errors outcome
  /\ UseLyricsTranslatorState.currentStep after
     = (if bool_decide (is_Some (LyricsTranslationPipeline.translation outcome))
        then Step.complete else Step.error)
  /\ UseLyricsTranslatorState.progress after = 100
  /\ UseLyricsTranslatorState.serviceStatus after
     = UseLyricsTranslatorState.serviceStatus before
  /\ settled after.

(** Where the error entry [e] of a stage comes from, if it is an entry
    for the provider [n]: the rate limiter denied the provider, or the
    adapter of the provider threw. *)
Definition recordedFor {N R} (nameOf : N -> string) (adapter : N -> M (option R))
    (n : N) (e : ServiceError.t) : Prop :=
  ServiceError.service e = nameOf n
  /\ ServiceError.code e = None
  /\ ((ServiceError.error e = "Rate limit exceeded"
       /\ is_Some (ServiceError.retryAfter e))
      \/ (ServiceError.retryAfter e = None
          /\ exists w0 w1 exn,
               adapter n w0 = (Thrown exn, w1)
               /\ ServiceError.error e = Js.messageOr "Unknown error" exn)).

(** No reply of the network takes a negative time. *)
Definition causal (w : World) : Prop := forall n, 0 <= latency (net w) n.

(** From [w] to [w'] the clock does not go back, on a network whose
    replies take no negative time. *)
Definition onward (w w' : World) : Prop :=
  causal w -> causal w' /\ clock w <= clock w'.

(** [m] never sets the clock back; [world] is the world within the
    state of [m]. *)
Definition advances {S A} (world : S -> World) (m : SE S A) : Prop :=
  forall s, wp m s (fun _ s' => onward (world s) (world s')).

(** ** Concrete hosts, networks and worlds *)

Module Examples.

(** No credentials configured; the regular-expression helpers do
    nothing. *)
Definition bareHost : Host :=
  {| env := mkEnv "" "" "" "" "";
     cleanSearchTerm := fun term => term;
     removeWatermark := fun lyrics => lyrics;
     detectLanguage := fun _ => "en";
     encodeURIComponent := fun s => Normal s |}.

(** As [bareHost], with a Musixmatch key. *)
Definition keyedHost : Host :=
  {| env := mkEnv "" "" "" "" "0123456789abcdef";
     cleanSearchTerm := fun term => term;
     removeWatermark := fun lyrics => lyrics;
     detectLanguage := fun _ => "en";
     encodeURIComponent := fun s => Normal s |}.

Definition unreachable {A} : nat -> Completion (Response A) :=
  fun _ => Thrown (Error "Network request failed").

(** Every request fails. *)
Definition offline : Network :=
  {| acrCloudNet := unreachable; auddIoNet := unreachable;
     lyricsOvhNet := unreachable; musixmatchSearchNet := unreachable;
     musixmatchLyricsNet := unreachable; lyricsApiNet := unreachable;
     myMemoryNet := unreachable; libreTranslateNet := unreachable;
     googleTranslateNet := unreachable; latency := fun _ => 0 |}.

(** No lyrics provider knows the song: 404 from Lyrics.ovh and from the
    lyrics API, an empty track list from Musixmatch. *)
Definition lyricsNotFound : Network :=
  {| acrCloudNet := unreachable; auddIoNet := unreachable;
     lyricsOvhNet := fun _ =>
       Normal (mkResponse false 404 (Normal (LyricsOvh.mkResponse None (Some "No lyrics found"))));
     musixmatchSearchNet := fun _ =>
       Normal (mkResponse true 200 (Normal (Musixmatch.mkSearch None)));
     musixmatchLyricsNet := unreachable;
     lyricsApiNet := fun _ =>
       Normal (mkResponse false 404 (Normal (LyricsApi.mkResponse None)));
     myMemoryNet := unreachable; libreTranslateNet := unreachable;
     googleTranslateNet := unreachable; latency := fun _ => 120 |}.

(** Musixmatch has the song. *)
Definition musixmatchHasIt : Network :=
  {| acrCloudNet := unreachable; auddIoNet := unreachable;
     lyricsOvhNet := unreachable;
     musixmatchSearchNet := fun _ =>
       Normal (mkResponse true 200
         (Normal (Musixmatch.mkSearch (Some (Musixmatch.mkTrack 42 "Yesterday" "The Beatles")))));
     musixmatchLyricsNet := fun _ =>
       Normal (mkResponse true 200
         (Normal (Musixmatch.mkResponse 200 (Some "Yesterday, all my troubles seemed so far away"))));
     lyricsApiNet := unreachable;
     myMemoryNet := unreachable; libreTranslateNet := unreachable;
     googleTranslateNet := unreachable; latency := fun _ => 120 |}.

(** MyMemory translates. *)
Definition myMemoryTranslates : Network :=
  {| acrCloudNet := unreachable; auddIoNet := unreachable;
     lyricsOvhNet := unreachable; musixmatchSearchNet := unreachable;
     musixmatchLyricsNet := unreachable; lyricsApiNet := unreachable;
     myMemoryNet := fun _ =>
       Normal (mkResponse true 200
         (Normal (MyMemory.mkResponse (Some "Ayer") 200 None)));
     libreTranslateNet := unreachable;
     googleTranslateNet := unreachable; latency := fun _ => 120 |}.

(** A process that has just started, at clock [now]. *)
Definition fresh (now : Z) (network : Network) : World :=
  {| clock := now; rateLimiter := RL.empty; audioErrors := []; lyricsErrors := [];
     translationErrors := []; net := network; fetches := 0; invoked := [] |}.

(** A rate limiter in which Lyrics.ovh has used its 1000 requests of the
    day, all at time 0. *)
Definition ovhExhausted : RateLimiter :=
  {| limits := {[ "lyrics_lyricsOvh" :=
                    {| remaining := 0; resetTime := Fin 86400000; lastRequest := 0 |} ]};
     requestCounts := {[ "lyrics_lyricsOvh" := replicate 1000 0 ]} |}.

Definition smallConfig : ServiceConfig :=
  {| apiKey := ""; accessKey := ""; accessSecret := "";
     baseUrl := "https://example.org";
     rateLimit := {| requests := 5; window := 1000 |};
     retryAttempts := 2; timeout := 8000 |}.

End Examples.


(** * Properties *)

(** ** Rate limiter *)

Section RateLimiterFacts.

Implicit Types (rl : RateLimiter) (l h : list Z) (now T : Z).

Lemma prune_app now win l1 l2 :
  RL.prune now win (l1 ++ l2) = RL.prune now win l1 ++ RL.prune now win l2.
Proof. apply filter_app. Qed.

Lemma prune_prune now now' win l :
  now' <= now -> RL.prune now win (RL.prune now' win l) = RL.prune now win l.
Proof.
  intros Hle. unfold RL.prune. induction l as [|t l IH]; [done|].
  rewrite !filter_cons. destruct (decide (now' - t < win)) as [H1|H1].
  - rewrite filter_cons. destruct (decide (now - t < win)); by rewrite IH.
  - rewrite IH. destruct (decide (now - t < win)); [lia | done].
Qed.

Lemma prune_length now win l : (length (RL.prune now win l) <= length l)%nat.
Proof. apply length_filter. Qed.

Lemma prune_elem now win l t :
  t ∈ RL.prune now win l <-> now - t < win /\ t ∈ l.
Proof. unfold RL.prune. by rewrite list_elem_of_filter. Qed.

Lemma prune_drops now win l t :
  t ∈ l -> ~ now - t < win ->
  (length (RL.prune now win l) < length l)%nat.
Proof.
  intros Hin Hout. induction l as [|x l IH]; [by apply elem_of_nil in Hin|].
  unfold RL.prune in *. rewrite filter_cons.
  apply elem_of_cons in Hin as [->|Hin].
  - destruct (decide (now - x < win)); [done|].
    simpl. pose proof (length_filter (fun t => now - t < win) l). lia.
  - specialize (IH Hin). destruct (decide (now - x < win)); simpl; lia.
Qed.

Lemma min_list_elem l m : JsNum.min_list l = Fin m -> m ∈ l.
Proof.
  revert m. induction l as [|t l IH]; intros m; simpl; [done|].
  destruct (JsNum.min_list l) as [m'|] eqn:E; intros [= <-].
  - destruct (Z.min_spec t m') as [[_ ->]|[_ ->]]; [left | right; by apply IH].
  - left.
Qed.

Lemma min_list_nonempty l : l <> [] -> exists m, JsNum.min_list l = Fin m.
Proof.
  destruct l as [|t l]; [done|]. intros _. simpl.
  destruct (JsNum.min_list l); eauto.
Qed.

Lemma isAllowed_fst now key config rl :
  fst (RL.isAllowed now key config rl) =
  bool_decide (Z.of_nat (length (RL.surviving now key config rl))
               < requests (rateLimit config)).
Proof.
  unfold RL.isAllowed, RL.surviving, RL.recorded.
  destruct (limits rl !! key) as [li|] eqn:E; simpl.
  - case_decide; case_bool_decide; simpl; first [done | lia].
  - rewrite lookup_insert_eq. simpl.
    case_decide; case_bool_decide; simpl in *; first [done | lia].
Qed.

Lemma isAllowed_recorded now key config rl :
  RL.recorded key (snd (RL.isAllowed now key config rl)) =
  RL.surviving now key config rl ++
  (if fst (RL.isAllowed now key config rl) then [now] else []).
Proof.
  unfold RL.isAllowed, RL.surviving, RL.recorded.
  destruct (limits rl !! key) as [li|] eqn:E; simpl.
  - case_decide; simpl; rewrite lookup_insert_eq; simpl; by rewrite ?app_nil_r.
  - rewrite lookup_insert_eq. simpl.
    case_decide; simpl; rewrite lookup_insert_eq; simpl; by rewrite ?app_nil_r.
Qed.

Lemma isAllowed_known now key config rl :
  is_Some (limits (snd (RL.isAllowed now key config rl)) !! key).
Proof.
  unfold RL.isAllowed.
  destruct (limits rl !! key) as [li|] eqn:E; simpl;
    case_decide; simpl; rewrite lookup_insert_eq; eauto.
Qed.

Lemma isAllowed_other now key key' config rl :
  key <> key' ->
  limits (snd (RL.isAllowed now key config rl)) !! key' = limits rl !! key'
  /\ requestCounts (snd (RL.isAllowed now key config rl)) !! key'
     = requestCounts rl !! key'.
Proof.
  intros Hne. unfold RL.isAllowed.
  destruct (limits rl !! key) as [li|] eqn:E; simpl;
    case_decide; simpl; by rewrite !lookup_insert_ne.
Qed.

Lemma recordRequest_requestCounts now key rl :
  requestCounts (RL.recordRequest now key rl) = requestCounts rl.
Proof.
  unfold RL.recordRequest. destruct (limits rl !! key); [|done].
  by case_decide.
Qed.

Lemma recordRequest_known now key key' rl :
  is_Some (limits (RL.recordRequest now key rl) !! key')
  <-> is_Some (limits rl !! key').
Proof.
  unfold RL.recordRequest. destruct (limits rl !! key) as [li|] eqn:E; [|done].
  case_decide; [|done]. simpl.
  destruct (decide (key = key')) as [<-|Hne].
  - rewrite lookup_insert_eq, E. split; eauto.
  - by rewrite lookup_insert_ne.
Qed.

End RateLimiterFacts.

Section SlidingWindow.

Variable cfg : string -> ServiceConfig.
Variable key : string.

Let win := window (rateLimit (cfg key)).
Let max := requests (rateLimit (cfg key)).

Lemma window_inv_weaken rl h T T' :
  T <= T' -> RL.window_inv key (cfg key) rl h T -> RL.window_inv key (cfg key) rl h T'.
Proof.
  intros Hle (H1 & H2 & H3 & H4). repeat split; [done| |by intros; apply H3; lia|done].
  eapply Forall_impl; [exact H2|]. simpl. intros; lia.
Qed.

Lemma window_inv_surviving rl h T now :
  RL.window_inv key (cfg key) rl h T ->
  RL.surviving now key (cfg key) rl = RL.prune now win (RL.recorded key rl).
Proof.
  intros (H1 & _). unfold RL.surviving.
  destruct (limits rl !! key); [done|]. by rewrite H1.
Qed.

Lemma window_inv_step rl h T c :
  RL.window_inv key (cfg key) rl h T -> T <= RL.call_time c ->
  RL.window_inv key (cfg key) (RL.step cfg rl c)
    (h ++ RL.admitted cfg [c] key rl) (RL.call_time c).
Proof.
  intros Hinv Hle. pose proof Hinv as (H1 & H2 & H3 & H4).
  destruct c as [t k|t k]; simpl in *.
  - destruct (decide (k = key)) as [->|Hne].
    + pose proof (isAllowed_recorded t key (cfg key) rl) as Hrec.
      pose proof (isAllowed_fst t key (cfg key) rl) as Hfst.
      rewrite (window_inv_surviving _ _ _ _ Hinv) in Hrec, Hfst.
      repeat split.
      * intros Hnone. destruct (isAllowed_known t key (cfg key) rl) as [? Hs].
        congruence.
      * apply Forall_app. split.
        -- eapply Forall_impl; [exact H2|]. simpl; intros; lia.
        -- destruct (fst _); simpl; repeat constructor. lia.
      * intros now Hnow. rewrite Hrec, !prune_app, prune_prune by lia.
        rewrite H3 by lia. f_equal. rewrite app_nil_r. by destruct (fst _).
      * rewrite Hrec. destruct (fst _) eqn:E.
        -- right. symmetry in Hfst. apply bool_decide_eq_true in Hfst.
           rewrite length_app. simpl. fold max. fold win in Hfst. lia.
        -- rewrite app_nil_r. destruct H4 as [H4|H4].
           ++ left. by rewrite H4.
           ++ right. pose proof (prune_length t win (RL.recorded key rl)). fold max. lia.
    + destruct (isAllowed_other t k key (cfg k) rl Hne) as [Hl Hr].
      rewrite !app_nil_r.
      pose proof (window_inv_weaken rl h T t Hle Hinv) as Hw.
      unfold RL.window_inv, RL.recorded in *. by rewrite Hl, Hr.
  - rewrite !app_nil_r. unfold RL.window_inv, RL.recorded in *.
    rewrite recordRequest_requestCounts.
    repeat split; [|eapply Forall_impl; [exact H2|]; simpl; intros; lia
                   |intros; apply H3; lia|done].
    intros Hnone. apply H1. apply eq_None_not_Some. intros Hs.
    apply (recordRequest_known t k key rl) in Hs. rewrite Hnone in Hs.
    by destruct Hs.
Qed.

Lemma window_inv_run calls : forall rl h T now,
  RL.window_inv key (cfg key) rl h T ->
  Forall (fun t => T <= t) (map RL.call_time calls) ->
  RL.monotone_until now (map RL.call_time calls) ->
  T <= now ->
  exists T', T' <= now /\
    RL.window_inv key (cfg key) (RL.run cfg calls rl)
      (h ++ RL.admitted cfg calls key rl) T'.
Proof.
  induction calls as [|c calls IH]; intros rl h T now Hinv Hall Hmono Hnow; simpl.
  - exists T. by rewrite app_nil_r.
  - simpl in Hmono. destruct Hmono as (Hc & Hlater & Hmono).
    apply Forall_cons in Hall as [HT _].
    pose proof (window_inv_step rl h T c Hinv HT) as Hstep.
    destruct (IH (RL.step cfg rl c) _ _ now Hstep Hlater Hmono Hc) as (T' & HT' & Hinv').
    exists T'. split; [done|].
    simpl in Hinv'. rewrite app_nil_r in Hinv'. by rewrite <- app_assoc in Hinv'.
Qed.

Lemma window_inv_empty T : RL.window_inv key (cfg key) RL.empty [] T.
Proof. repeat split; auto. Qed.

Lemma window_inv_reachable calls now :
  RL.monotone_until now (map RL.call_time calls) ->
  exists T, T <= now /\
    RL.window_inv key (cfg key) (RL.run cfg calls RL.empty)
      (RL.admitted cfg calls key RL.empty) T.
Proof.
  intros Hmono.
  destruct calls as [|c calls].
  - exists now. split; [lia|]. apply window_inv_empty.
  - pose proof Hmono as (Hc & Hlater & _).
    apply (window_inv_run (c :: calls) RL.empty [] (RL.call_time c) now);
      [apply window_inv_empty| |done|done].
    constructor; [lia|done].
Qed.

End SlidingWindow.

(** Every configured provider has a limit of at least one request and a
    positive window. *)
Lemma configured_limits_positive (e : Env) :
  (forall s, 0 < requests (rateLimit (FREE_API_CONFIGS.audioRecognition e s))
             /\ 0 < window (rateLimit (FREE_API_CONFIGS.audioRecognition e s)))
  /\ (forall s, 0 < requests (rateLimit (FREE_API_CONFIGS.lyrics e s))
                /\ 0 < window (rateLimit (FREE_API_CONFIGS.lyrics e s)))
  /\ (forall s, 0 < requests (rateLimit (FREE_API_CONFIGS.translation s))
                /\ 0 < window (rateLimit (FREE_API_CONFIGS.translation s))).
Proof. split_and!; intros []; by vm_compute. Qed.

(** C1. Sliding-window admission.  Take any run of the limiter from its
    initial state in which the clock never runs backwards, and let [h]
    be the timestamps that [isAllowed] admitted for [key] so far.  Then
    the next [isAllowed] at [now] admits exactly when strictly fewer than
    [maxRequests] timestamps of [h] lie strictly within the trailing
    window ([now - t < windowMillis], so a timestamp exactly one window
    old no longer counts).  Consequently, when exactly [maxRequests]
    (at least one) admitted calls lie within the window, the call is
    denied and [getRetryAfter] is positive and at most [windowMillis];
    and once the window has elapsed past the oldest recorded timestamp
    the call is admitted again. *)
Theorem sliding_window_admission
    (cfg : string -> ServiceConfig) (calls : list RL.Call) (key : string) (now : Z) :
  RL.monotone_until now (map RL.call_time calls) ->
  let rl := RL.run cfg calls RL.empty in
  let h := RL.admitted cfg calls key RL.empty in
  let win := window (rateLimit (cfg key)) in
  let max := requests (rateLimit (cfg key)) in
  let inWindow := RL.prune now win h in
  (fst (RL.isAllowed now key (cfg key) rl) = true
   <-> Z.of_nat (length inWindow) < max)
  /\ (0 < max -> Z.of_nat (length inWindow) = max ->
      fst (RL.isAllowed now key (cfg key) rl) = false
      /\ exists v,
           RL.getRetryAfter now key (cfg key)
             (snd (RL.isAllowed now key (cfg key) rl)) = Fin v
           /\ 0 < v <= win)
  /\ (forall oldest,
        JsNum.min_list (RL.recorded key rl) = Fin oldest ->
        oldest + win <= now ->
        fst (RL.isAllowed now key (cfg key) rl) = true).
Proof.
  intros Hmono rl h win max inWindow.
  destruct (window_inv_reachable cfg key calls now Hmono) as (T & HT & Hinv).
  fold rl h in Hinv. pose proof Hinv as (H1 & H2 & H3 & H4).
  pose proof (isAllowed_fst now key (cfg key) rl) as Hfst.
  pose proof (isAllowed_recorded now key (cfg key) rl) as Hrec.
  rewrite (window_inv_surviving _ _ _ _ _ now Hinv) in Hfst, Hrec.
  specialize (H3 now HT). rewrite H3 in Hfst, Hrec.
  change (RL.prune now (window (rateLimit (cfg key))) h) with inWindow in Hfst, Hrec, H3.
  change (requests (rateLimit (cfg key))) with max in Hfst, H4.
  change (window (rateLimit (cfg key))) with win in H3.
  split; [|split].
  - rewrite Hfst. apply bool_decide_eq_true.
  - intros Hpos Hfull.
    assert (fst (RL.isAllowed now key (cfg key) rl) = false) as Hdeny.
    { rewrite Hfst. apply bool_decide_eq_false. lia. }
    split; [done|].
    rewrite Hdeny, app_nil_r in Hrec.
    unfold RL.getRetryAfter.
    change (default [] (requestCounts (RL.isAllowed now key (cfg key) rl).2 !! key))
      with (RL.recorded key (RL.isAllowed now key (cfg key) rl).2).
    rewrite Hrec.
    change (requests (rateLimit (cfg key))) with max.
    change (window (rateLimit (cfg key))) with win.
    case_decide; [lia|].
    destruct (min_list_nonempty inWindow) as [m Hm].
    { intros E. rewrite E in Hfull. simpl in Hfull. lia. }
    rewrite Hm. simpl. exists (Z.max 0 (m + win - now)). split; [done|].
    apply min_list_elem in Hm. apply prune_elem in Hm as [Hm1 Hm2].
    rewrite Forall_forall in H2. specialize (H2 m Hm2). simpl in H2. lia.
  - intros oldest Hmin Hold.
    rewrite Hfst. apply bool_decide_eq_true.
    apply min_list_elem in Hmin.
    pose proof (prune_drops now win _ oldest Hmin ltac:(lia)) as Hdrop.
    rewrite H3 in Hdrop.
    destruct H4 as [H4|H4].
    + rewrite H4 in Hmin. by apply elem_of_nil in Hmin.
    + lia.
Qed.

(** The statement of C1 at a run of two admitted calls under a limit of
    two requests per second: the third call, 20 ms after the first, is
    denied with a positive retry-after. *)
Lemma sliding_window_admission_witness :
  let cfg := fun _ : string =>
    mkServiceConfig "" "" "" "https://example.org" (mkRateLimit 2 1000) 2 8000 in
  let calls := [RL.CallIsAllowed 0 "lyrics_lyricsOvh"; RL.CallIsAllowed 10 "lyrics_lyricsOvh"] in
  fst (RL.isAllowed 20 "lyrics_lyricsOvh" (cfg "lyrics_lyricsOvh")
         (RL.run cfg calls RL.empty)) = false
  /\ exists v,
       RL.getRetryAfter 20 "lyrics_lyricsOvh" (cfg "lyrics_lyricsOvh")
         (snd (RL.isAllowed 20 "lyrics_lyricsOvh" (cfg "lyrics_lyricsOvh")
                 (RL.run cfg calls RL.empty))) = Fin v
       /\ 0 < v <= 1000.
Proof.
  intros cfg calls.
  refine (proj1 (proj2 (sliding_window_admission cfg calls "lyrics_lyricsOvh" 20 _)) _ _).
  - simpl. repeat split; repeat constructor; lia.
  - reflexivity.
  - vm_compute. reflexivity.
Defined.

(** ** Computations *)

Lemma bind_run {S A B} (m : SE S A) (f : A -> SE S B) (s : S) :
  (m ≫= f) s = match m s with
               | (Normal a, s') => f a s'
               | (Thrown e, s') => (Thrown e, s')
               end.
Proof. reflexivity. Qed.

(** ** Adapters only talk to the network *)

Lemma adapter_frame_ret {A} (a : A) : adapter_frame (mret a).
Proof. by intros w. Qed.

Lemma adapter_frame_throw {A} (e : Exn) : adapter_frame (throw e : M A).
Proof. by intros w. Qed.

Lemma adapter_frame_fetch {A} (endpoint : Network -> nat -> Completion (Response A)) :
  adapter_frame (fetch endpoint).
Proof. by intros w. Qed.

Lemma adapter_frame_json {A} (response : Response A) :
  adapter_frame (responseJson response).
Proof. by intros w. Qed.

Lemma adapter_frame_evaluate {A} (c : Completion A) : adapter_frame (evaluate c : M A).
Proof. by intros w. Qed.

Lemma adapter_frame_bind {A B} (m : M A) (f : A -> M B) :
  adapter_frame m -> (forall a, adapter_frame (f a)) -> adapter_frame (m ≫= f).
Proof.
  intros Hm Hf w. rewrite bind_run. specialize (Hm w).
  destruct (m w) as [[a|e] w1]; simpl in *; [|done].
  specialize (Hf a w1). destruct Hm as (<- & <- & <- & <- & <-). exact Hf.
Qed.

Lemma adapter_frame_try_catch {A} (body : M A) (handler : Exn -> M A) :
  adapter_frame body -> (forall e, adapter_frame (handler e)) ->
  adapter_frame (try_catch body handler).
Proof.
  intros Hm Hf w. unfold try_catch. specialize (Hm w).
  destruct (body w) as [[a|e] w1]; simpl in *; [done|].
  specialize (Hf e w1). destruct Hm as (<- & <- & <- & <- & <-). exact Hf.
Qed.

Ltac frame :=
  repeat first
    [ apply adapter_frame_ret
    | apply adapter_frame_throw
    | apply adapter_frame_fetch
    | apply adapter_frame_json
    | apply adapter_frame_evaluate
    | apply adapter_frame_bind; [|intros ?]
    | apply adapter_frame_try_catch; [|intros ?]
    | match goal with
      | |- adapter_frame (if ?b then _ else _) => destruct b
      | |- adapter_frame (match ?x with _ => _ end) => destruct x
      end ].

Lemma audio_adapter_frame host audioBuffer serviceName :
  adapter_frame (FreeAudioRecognitionService.adapter host audioBuffer serviceName).
Proof.
  destruct serviceName; simpl;
    unfold FreeAudioRecognitionService.recognizeWithACRCloud,
      FreeAudioRecognitionService.recognizeWithAudD; frame.
Qed.

Lemma lyrics_adapter_frame host artist title serviceName :
  adapter_frame (FreeLyricsService.adapter host artist title serviceName).
Proof.
  destruct serviceName; simpl;
    unfold FreeLyricsService.getLyricsFromOvh,
      FreeLyricsService.getLyricsFromMusixmatch,
      FreeLyricsService.getLyricsFromLyricsApi; frame.
Qed.

Lemma translation_adapter_frame host chunk targetLanguage sourceLanguage serviceName :
  adapter_frame
    (FreeTranslationService.adapter host chunk targetLanguage sourceLanguage serviceName).
Proof.
  destruct serviceName; simpl;
    unfold FreeTranslationService.translateWithMyMemory,
      FreeTranslationService.translateWithLibreTranslate,
      FreeTranslationService.translateWithGoogleFree; frame.
Qed.

(** ** The fallback loop *)

Section DispatchFacts.

Context {N R : Type}.
Variable nameOf : N -> string.
Variable prefix : string.
Variable configOf : N -> ServiceConfig.
Variable adapter : N -> M (option R).
Variable populated : R -> bool.
Variable pushError : ServiceError.t -> M unit.
Variable errs : World -> list ServiceError.t.

Hypothesis adapter_ok : forall n, adapter_frame (adapter n).
Hypothesis errs_frame : forall w w',
  audioErrors w' = audioErrors w -> lyricsErrors w' = lyricsErrors w ->
  translationErrors w' = translationErrors w -> errs w' = errs w.
Hypothesis push_ok : forall e w, exists w',
  pushError e w = (Normal tt, w') /\ errs w' = errs w ++ [e]
  /\ rateLimiter w' = rateLimiter w /\ invoked w' = invoked w.

Local Abbreviation key := (Trace.key nameOf prefix).
Local Abbreviation attempt1 := (attempt nameOf prefix configOf adapter populated pushError).
Local Abbreviation dispatch1 := (dispatch nameOf prefix configOf adapter populated pushError).

Lemma rl_at_eq k w w' : rateLimiter w' = rateLimiter w -> rl_at k w' = rl_at k w.
Proof. unfold rl_at. by intros ->. Qed.

Lemma rl_at_isAllowed k k' config w :
  k <> k' ->
  rl_at k' (set_rateLimiter
              (fun _ => snd (RL.isAllowed (clock w) k config (rateLimiter w))) w)
  = rl_at k' w.
Proof.
  intros Hne. unfold rl_at. simpl.
  destruct (isAllowed_other (clock w) k k' config (rateLimiter w) Hne) as [-> ->].
  done.
Qed.

Lemma rl_at_recordRequest k k' now w :
  k <> k' ->
  rl_at k' (set_rateLimiter (RL.recordRequest now k) w) = rl_at k' w.
Proof.
  intros Hne. unfold rl_at. simpl. rewrite recordRequest_requestCounts.
  f_equal. unfold RL.recordRequest.
  destruct (limits (rateLimiter w) !! k); [|done].
  case_decide; [|done]. simpl. by rewrite lookup_insert_ne.
Qed.

(** One iteration of the loop. *)
Lemma attempt_outcome n w :
  exists (o : Outcome R) (w' : World),
    attempt1 n w = (Normal (match o with Succeeded r => Some r | _ => None end), w')
    /\ errs w' = errs w ++ Trace.errorsOf nameOf (n, o)
    /\ invoked w' = invoked w ++ Trace.invokedOf nameOf prefix (n, o)
    /\ (forall k, key n <> k -> rl_at k w' = rl_at k w)
    /\ (forall r, o = Succeeded r ->
          exists w1 w2, adapter n w1 = (Normal (Some r), w2)
                        /\ populated r = true
                        /\ w' = snd (recordRequest (key n) w2)).
Proof.
  unfold attempt, try_catch. rewrite bind_run.
  unfold isAllowed at 1. fold (key n).
  destruct (RL.isAllowed (clock w) (key n) (configOf n) (rateLimiter w))
    as [allowed rl1] eqn:Eallowed.
  set (w1 := set_rateLimiter (fun _ => rl1) w).
  assert (Hw1 : forall k, key n <> k -> rl_at k w1 = rl_at k w).
  { intros k Hk. subst w1.
    replace rl1 with (snd (RL.isAllowed (clock w) (key n) (configOf n) (rateLimiter w)))
      by (by rewrite Eallowed).
    by apply rl_at_isAllowed. }
  assert (He1 : errs w1 = errs w) by (by apply errs_frame).
  destruct allowed; simpl.
  - (* admitted: the adapter is called *)
    rewrite bind_run. simpl. rewrite bind_run.
    set (w2 := set_invoked (fun l => l ++ [key n]) w1).
    pose proof (adapter_ok n w2) as (Hrl & Ha & Hl & Ht & Hinv).
    destruct (adapter n w2) as [[[r|]|e] w3] eqn:Eadapter; simpl in *.
    + destruct (populated r) eqn:Epop.
      * rewrite bind_run. simpl.
        exists (Succeeded r), (set_rateLimiter (RL.recordRequest (clock w3) (key n)) w3).
        repeat split.
        -- rewrite app_nil_r. rewrite <- He1. apply errs_frame; simpl; congruence.
        -- simpl. by rewrite Hinv.
        -- intros k Hk. rewrite rl_at_recordRequest by done.
           rewrite (rl_at_eq k w2 w3 Hrl). by apply Hw1.
        -- intros r' [= <-]. by exists w2, w3.
      * exists Missed, w3. repeat split.
        -- rewrite app_nil_r. rewrite <- He1. apply errs_frame; simpl; congruence.
        -- simpl. by rewrite Hinv.
        -- intros k Hk. rewrite (rl_at_eq k w2 w3 Hrl). by apply Hw1.
        -- intros r' [=].
    + exists Missed, w3. repeat split.
      * rewrite app_nil_r. rewrite <- He1. apply errs_frame; simpl; congruence.
      * simpl. by rewrite Hinv.
      * intros k Hk. rewrite (rl_at_eq k w2 w3 Hrl). by apply Hw1.
      * intros r' [=].
    + rewrite bind_run.
      destruct (push_ok
        {| ServiceError.service := nameOf n;
           ServiceError.error := Js.messageOr "Unknown error" e;
           ServiceError.code := None; ServiceError.retryAfter := None |} w3)
        as (w4 & -> & He4 & Hrl4 & Hinv4).
      exists (Failed e), w4. repeat split.
      * rewrite He4. simpl. f_equal. rewrite <- He1. apply errs_frame; simpl; congruence.
      * simpl. by rewrite Hinv4, Hinv.
      * intros k Hk. rewrite (rl_at_eq k w3 w4 Hrl4), (rl_at_eq k w2 w3 Hrl).
        by apply Hw1.
      * intros r' [=].
  - (* denied *)
    rewrite bind_run. simpl. rewrite bind_run.
    destruct (push_ok
      {| ServiceError.service := nameOf n;
         ServiceError.error := "Rate limit exceeded";
         ServiceError.code := None;
         ServiceError.retryAfter :=
           Some (RL.getRetryAfter (clock w) (key n) (configOf n) rl1) |} w1)
      as (w4 & -> & He4 & Hrl4 & Hinv4).
    exists (Denied (RL.getRetryAfter (clock w) (key n) (configOf n) rl1)), w4.
    repeat split.
    + rewrite He4. simpl. by rewrite He1.
    + simpl. by rewrite Hinv4, app_nil_r.
    + intros k Hk. rewrite (rl_at_eq k w1 w4 Hrl4). by apply Hw1.
    + intros r' [=].
Qed.

(** An iteration for a provider that the rate limiter denies: the error
    with the retry-after is recorded, the adapter is not entered, the
    loop goes on. *)
Lemma attempt_denied n w :
  fst (RL.isAllowed (clock w) (key n) (configOf n) (rateLimiter w)) = false ->
  exists w',
    attempt1 n w = (Normal None, w')
    /\ errs w' = errs w ++
         [{| ServiceError.service := nameOf n;
             ServiceError.error := "Rate limit exceeded";
             ServiceError.code := None;
             ServiceError.retryAfter :=
               Some (RL.getRetryAfter (clock w) (key n) (configOf n)
                       (snd (RL.isAllowed (clock w) (key n) (configOf n)
                               (rateLimiter w)))) |}]
    /\ invoked w' = invoked w
    /\ rateLimiter w'
       = snd (RL.isAllowed (clock w) (key n) (configOf n) (rateLimiter w)).
Proof.
  intros Hdenied. unfold attempt, try_catch. rewrite bind_run.
  unfold isAllowed at 1. fold (key n).
  destruct (RL.isAllowed (clock w) (key n) (configOf n) (rateLimiter w))
    as [allowed rl1] eqn:Eallowed.
  simpl in Hdenied. subst allowed. simpl.
  rewrite bind_run. simpl. rewrite bind_run.
  destruct (push_ok
    {| ServiceError.service := nameOf n;
       ServiceError.error := "Rate limit exceeded";
       ServiceError.code := None;
       ServiceError.retryAfter :=
         Some (RL.getRetryAfter (clock w) (key n) (configOf n) rl1) |}
    (set_rateLimiter (fun _ => rl1) w))
    as (w4 & -> & He4 & Hrl4 & Hinv4).
  exists w4. split_and!; [done| |done|done].
  rewrite He4. f_equal. by apply errs_frame.
Qed.

Lemma key_ne_name n q : key n <> key q -> nameOf n <> nameOf q.
Proof. unfold Trace.key. intros H E. apply H. by rewrite E. Qed.

(** The whole loop: it stops at the first success, in the order of the
    list. *)
Lemma dispatch_first_success services :
  NoDup (map key services) ->
  forall w,
    first_success nameOf prefix services adapter populated errs (errs w)
      (dispatch1 services) w.
Proof.
  induction services as [|n rest IH]; intros Hnodup w.
  - exists [], [], None, w. simpl. rewrite !app_nil_r.
    split_and!; try done. intros q Hq. by apply elem_of_nil in Hq.
  - simpl in Hnodup. apply NoDup_cons in Hnodup as [Hn Hrest].
    assert (Hfresh : forall q, q ∈ rest -> key n <> key q).
    { intros q Hq E. apply Hn. rewrite E. by apply list_elem_of_fmap_2. }
    destruct (attempt_outcome n w) as (o & w1 & Erun & Herr & Hinv & Hrl & Hsucc).
    assert (Hdone : forall r, o = Succeeded r ->
      first_success nameOf prefix (n :: rest) adapter populated errs (errs w)
        (dispatch1 (n :: rest)) w).
    { intros r ->. destruct (Hsucc r eq_refl) as (wa & wb & Ea & Hp & Hw).
      exists [(n, Succeeded r)], rest, (Some r), w1. simpl.
      rewrite bind_run, Erun. rewrite !app_nil_r. split_and!; try done.
      - rewrite Herr. unfold Trace.errorsOf. simpl. by rewrite app_nil_r.
      - intros q Hq. split_and!.
        + by apply Hrl, Hfresh.
        + intros Hin. apply list_elem_of_singleton in Hin. by apply (Hfresh q Hq).
        + constructor.
      - exists [], n, wa, wb. by split_and!. }
    assert (Hnext : (match o with Succeeded r => Some r | _ => None end) = None ->
      first_success nameOf prefix (n :: rest) adapter populated errs (errs w)
        (dispatch1 (n :: rest)) w).
    { intros Enone.
      assert (Hns : ~ Trace.succeeded (n, o)).
      { intros [r Hr]. simpl in Hr. by rewrite Hr in Enone. }
      destruct (IH Hrest w1)
        as (tried & untried & result & w' & Erun' & Hsplit & Herr' & Hinv' & Hun & Hres).
      exists ((n, o) :: tried), untried, result, w'. simpl.
      rewrite bind_run, Erun, Enone. split_and!.
      - done.
      - by rewrite Hsplit.
      - by rewrite Herr', Herr, <- app_assoc.
      - by rewrite Hinv', Hinv, <- app_assoc.
      - intros q Hq. destruct (Hun q Hq) as (H1 & H2 & H3).
        assert (key n <> key q) as Hne.
        { apply Hfresh. rewrite Hsplit. apply elem_of_app. by right. }
        split_and!.
        + rewrite H1. by apply Hrl.
        + intros Hin. apply elem_of_app in Hin as [Hin|Hin]; [|done].
          unfold Trace.invokedOf in Hin. simpl in Hin.
          destruct o; simpl in Hin;
            first [ by apply elem_of_nil in Hin
                  | apply list_elem_of_singleton in Hin; by apply Hne ].
        + apply key_ne_name in Hne. apply Forall_app. split; [|done].
          unfold Trace.errorsOf. simpl. destruct o; repeat constructor; simpl; done.
      - destruct result as [r|].
        + destruct Hres as (earlier & p & wa & wb & -> & Hearlier & Ea & Hp & Hw).
          exists ((n, o) :: earlier), p, wa, wb. split_and!; try done.
          by constructor.
        + destruct Hres as [-> Hall]. split; [done|]. by constructor. }
    destruct o; [by apply Hnext..|by eapply Hdone].
Qed.

End DispatchFacts.

(** ** Source tags of the adapters *)

Lemma returns_only_ret {S R} (P : R -> Prop) (o : option R) :
  (forall r, o = Some r -> P r) -> returns_only P (mret o : SE S (option R)).
Proof. intros H s r s' [= -> _]. by apply H. Qed.

Lemma returns_only_throw {S R} (P : R -> Prop) (e : Exn) :
  returns_only P (throw e : SE S (option R)).
Proof. by intros s r s'. Qed.

Lemma returns_only_bind {S A R} (P : R -> Prop) (m : SE S A) (f : A -> SE S (option R)) :
  (forall a, returns_only P (f a)) -> returns_only P (m ≫= f).
Proof.
  intros Hf s r s'. rewrite bind_run. destruct (m s) as [[a|e] s1]; [|done].
  apply Hf.
Qed.

Lemma returns_only_try_catch {S R} (P : R -> Prop) (body : SE S (option R))
    (handler : Exn -> SE S (option R)) :
  returns_only P body -> (forall e, returns_only P (handler e)) ->
  returns_only P (try_catch body handler).
Proof.
  intros Hb Hh s r s'. unfold try_catch.
  destruct (body s) as [[a|e] s1] eqn:E.
  - intros [= -> ->]. by eapply Hb.
  - apply Hh.
Qed.

Ltac returns_only :=
  repeat first
    [ apply returns_only_throw
    | apply returns_only_ret; intros ? [=]; subst; try done
    | apply returns_only_bind; intros ?
    | apply returns_only_try_catch; [|intros ?]
    | match goal with
      | |- returns_only _ (if ?b then _ else _) => destruct b
      | |- returns_only _ (match ?x with _ => _ end) => destruct x
      end ].

Lemma audio_adapter_source host audioBuffer serviceName :
  returns_only
    (fun r => AudioRecognitionResult.source r = audioSourceTag serviceName)
    (FreeAudioRecognitionService.adapter host audioBuffer serviceName).
Proof.
  destruct serviceName; simpl;
    unfold FreeAudioRecognitionService.recognizeWithACRCloud,
      FreeAudioRecognitionService.recognizeWithAudD; returns_only.
Qed.

Lemma lyrics_adapter_source host artist title serviceName :
  returns_only (fun r => LyricsResult.source r = lyricsSourceTag serviceName)
    (FreeLyricsService.adapter host artist title serviceName).
Proof.
  destruct serviceName; simpl;
    unfold FreeLyricsService.getLyricsFromOvh,
      FreeLyricsService.getLyricsFromMusixmatch,
      FreeLyricsService.getLyricsFromLyricsApi; returns_only.
Qed.

Lemma translation_adapter_source host chunk targetLanguage sourceLanguage serviceName :
  returns_only
    (fun r => TranslationResult.source r = translationSourceTag serviceName)
    (FreeTranslationService.adapter host chunk targetLanguage sourceLanguage serviceName).
Proof.
  destruct serviceName; simpl;
    unfold FreeTranslationService.translateWithMyMemory,
      FreeTranslationService.translateWithLibreTranslate,
      FreeTranslationService.translateWithGoogleFree; returns_only.
Qed.

(** ** The recognition and lyrics stages *)

Lemma audio_push_ok (e : ServiceError.t) (w : World) :
  exists w',
    FreeAudioRecognitionService.pushError e w = (Normal tt, w')
    /\ audioErrors w' = audioErrors w ++ [e]
    /\ rateLimiter w' = rateLimiter w /\ invoked w' = invoked w.
Proof. by eexists. Qed.

Lemma lyrics_push_ok (e : ServiceError.t) (w : World) :
  exists w',
    FreeLyricsService.pushError e w = (Normal tt, w')
    /\ lyricsErrors w' = lyricsErrors w ++ [e]
    /\ rateLimiter w' = rateLimiter w /\ invoked w' = invoked w.
Proof. by eexists. Qed.

Lemma translation_push_ok (e : ServiceError.t) (w : World) :
  exists w',
    FreeTranslationService.pushError e w = (Normal tt, w')
    /\ translationErrors w' = translationErrors w ++ [e]
    /\ rateLimiter w' = rateLimiter w /\ invoked w' = invoked w.
Proof. by eexists. Qed.

Lemma audio_keys_NoDup :
  NoDup (map (Trace.key audioServiceName "audioRecognition_")
           FreeAudioRecognitionService.services).
Proof. apply (bool_decide_unpack _). by vm_compute. Qed.

Lemma lyrics_keys_NoDup :
  NoDup (map (Trace.key lyricsServiceName "lyrics_") FreeLyricsService.services).
Proof. apply (bool_decide_unpack _). by vm_compute. Qed.

Lemma translation_keys_NoDup :
  NoDup (map (Trace.key translationServiceName "translation_")
           FreeTranslationService.services).
Proof. apply (bool_decide_unpack _). by vm_compute. Qed.

(** A stage that clears its error list and then runs the loop. *)
Lemma first_success_after_reset {N R} (nameOf : N -> string) (prefix : string)
    (services : list N) (adapter : N -> M (option R)) (populated : R -> bool)
    (errs : World -> list ServiceError.t) (stage stage' : M (option R))
    (w w0 : World) :
  stage w = stage' w0 -> invoked w0 = invoked w -> rateLimiter w0 = rateLimiter w ->
  first_success nameOf prefix services adapter populated errs (errs w0) stage' w0 ->
  first_success nameOf prefix services adapter populated errs (errs w0) stage w.
Proof.
  intros Hrun Hinv Hrl
    (tried & untried & result & w' & Erun & Hsplit & Herr & Hinv' & Hun & Hres).
  exists tried, untried, result, w'. split_and!; try done.
  - by rewrite Hrun.
  - by rewrite <- Hinv.
  - intros q Hq. destruct (Hun q Hq) as (H1 & H2 & H3). split_and!; try done.
    rewrite H1. by apply rl_at_eq.
Qed.

Lemma recognizeAudio_first_success host audioBuffer w :
  first_success audioServiceName "audioRecognition_"
    FreeAudioRecognitionService.services
    (FreeAudioRecognitionService.adapter host audioBuffer) (fun _ => true)
    audioErrors [] (FreeAudioRecognitionService.recognizeAudio host audioBuffer) w.
Proof.
  apply (first_success_after_reset _ _ _ _ _ audioErrors _
           (dispatch audioServiceName "audioRecognition_"
              (FREE_API_CONFIGS.audioRecognition (env host))
              (FreeAudioRecognitionService.adapter host audioBuffer) (fun _ => true)
              FreeAudioRecognitionService.pushError
              FreeAudioRecognitionService.services)
           w (set_audioErrors (fun _ => []) w)); try done.
  apply dispatch_first_success.
  - apply audio_adapter_frame.
  - by intros ? ? ->.
  - apply audio_push_ok.
  - apply audio_keys_NoDup.
Qed.

Lemma getLyrics_first_success host artist title w :
  first_success lyricsServiceName "lyrics_" FreeLyricsService.services
    (FreeLyricsService.adapter host (cleanSearchTerm host artist)
       (cleanSearchTerm host title))
    FreeLyricsService.populated lyricsErrors []
    (FreeLyricsService.getLyrics host artist title) w.
Proof.
  apply (first_success_after_reset _ _ _ _ _ lyricsErrors _
           (dispatch lyricsServiceName "lyrics_" (FREE_API_CONFIGS.lyrics (env host))
              (FreeLyricsService.adapter host (cleanSearchTerm host artist)
                 (cleanSearchTerm host title))
              FreeLyricsService.populated FreeLyricsService.pushError
              FreeLyricsService.services)
           w (set_lyricsErrors (fun _ => []) w)); try done.
  apply dispatch_first_success.
  - apply lyrics_adapter_frame.
  - by intros ? ? _ ->.
  - apply lyrics_push_ok.
  - apply lyrics_keys_NoDup.
Qed.

Section DispatchServed.

Context {N R : Type}.
Variable nameOf : N -> string.
Variable prefix : string.
Variable configOf : N -> ServiceConfig.
Variable adapter : N -> M (option R).
Variable populated : R -> bool.
Variable pushError : ServiceError.t -> M unit.
Variable errs : World -> list ServiceError.t.

Hypothesis adapter_ok : forall n, adapter_frame (adapter n).
Hypothesis errs_frame : forall w w',
  audioErrors w' = audioErrors w -> lyricsErrors w' = lyricsErrors w ->
  translationErrors w' = translationErrors w -> errs w' = errs w.
Hypothesis push_ok : forall e w, exists w',
  pushError e w = (Normal tt, w') /\ errs w' = errs w ++ [e]
  /\ rateLimiter w' = rateLimiter w /\ invoked w' = invoked w.

Local Abbreviation key := (Trace.key nameOf prefix).
Local Abbreviation attempt1 := (attempt nameOf prefix configOf adapter populated pushError).
Local Abbreviation dispatch1 := (dispatch nameOf prefix configOf adapter populated pushError).
Local Abbreviation attempted1 := (attempted nameOf prefix configOf adapter populated pushError).
Local Abbreviation consulted1 := (consulted nameOf prefix configOf adapter populated pushError).

(** One iteration of the loop, with what decided its outcome. *)
Lemma attempt_attempted n w :
  exists (o : Outcome R) (w' : World),
    attempt1 n w = (Normal (match o with Succeeded r => Some r | _ => None end), w')
    /\ attempted1 n w o w'
    /\ errs w' = errs w ++ Trace.errorsOf nameOf (n, o)
    /\ invoked w' = invoked w ++ Trace.invokedOf nameOf prefix (n, o)
    /\ (forall k, key n <> k -> rl_at k w' = rl_at k w).
Proof.
  unfold attempt, try_catch, attempted, atAdapter, afterCheck, retryAfterOf, checked.
  rewrite bind_run. unfold isAllowed at 1. fold (key n).
  destruct (RL.isAllowed (clock w) (key n) (configOf n) (rateLimiter w))
    as [allowed rl1] eqn:Eallowed.
  cbn [fst snd].
  set (w1 := set_rateLimiter (fun _ => rl1) w).
  assert (Hw1 : forall k, key n <> k -> rl_at k w1 = rl_at k w).
  { intros k Hk. subst w1.
    replace rl1 with (snd (RL.isAllowed (clock w) (key n) (configOf n) (rateLimiter w)))
      by (by rewrite Eallowed).
    by apply rl_at_isAllowed. }
  assert (He1 : errs w1 = errs w) by (by apply errs_frame).
  destruct allowed; cbn [negb].
  - (* admitted: the adapter is called *)
    rewrite bind_run. cbn [noteInvoked modify]. rewrite bind_run.
    set (w2 := set_invoked (fun l => l ++ [key n]) w1).
    pose proof (adapter_ok n w2) as (Hrl & Ha & Hl & Ht & Hinv).
    destruct (adapter n w2) as [[[r|]|e] w3] eqn:Eadapter; simpl in *.
    + destruct (populated r) eqn:Epop.
      * rewrite bind_run. cbn [recordRequest].
        exists (Succeeded r), (set_rateLimiter (RL.recordRequest (clock w3) (key n)) w3).
        split; [done|]. split; [split; [done|by exists w3]|]. split_and!.
        -- cbn. rewrite app_nil_r, <- He1. apply errs_frame; simpl; congruence.
        -- cbn. by rewrite Hinv.
        -- intros k Hk. rewrite rl_at_recordRequest by done.
           rewrite (rl_at_eq k w2 w3 Hrl). by apply Hw1.
      * exists Missed, w3.
        split; [done|]. split; [split; [done|]; exists (Some r); by split|]. split_and!.
        -- cbn. rewrite app_nil_r, <- He1. apply errs_frame; simpl; congruence.
        -- cbn. by rewrite Hinv.
        -- intros k Hk. rewrite (rl_at_eq k w2 w3 Hrl). by apply Hw1.
    + exists Missed, w3.
      split; [done|]. split; [split; [done|]; exists None; by split|]. split_and!.
      * cbn. rewrite app_nil_r, <- He1. apply errs_frame; simpl; congruence.
      * cbn. by rewrite Hinv.
      * intros k Hk. rewrite (rl_at_eq k w2 w3 Hrl). by apply Hw1.
    + rewrite bind_run.
      destruct (push_ok
        {| ServiceError.service := nameOf n;
           ServiceError.error := Js.messageOr "Unknown error" e;
           ServiceError.code := None; ServiceError.retryAfter := None |} w3)
        as (w4 & Hpush & He4 & Hrl4 & Hinv4).
      rewrite Hpush. exists (Failed e), w4.
      split; [done|]. split; [split; [done|by exists w3]|]. split_and!.
      * rewrite He4. cbn. f_equal. rewrite <- He1. apply errs_frame; simpl; congruence.
      * cbn. by rewrite Hinv4, Hinv.
      * intros k Hk. rewrite (rl_at_eq k w3 w4 Hrl4), (rl_at_eq k w2 w3 Hrl).
        by apply Hw1.
  - (* denied *)
    rewrite bind_run. simpl. rewrite bind_run.
    destruct (push_ok
      {| ServiceError.service := nameOf n;
         ServiceError.error := "Rate limit exceeded";
         ServiceError.code := None;
         ServiceError.retryAfter :=
           Some (RL.getRetryAfter (clock w) (key n) (configOf n) rl1) |} w1)
      as (w4 & Hpush & He4 & Hrl4 & Hinv4).
    rewrite Hpush.
    exists (Denied (RL.getRetryAfter (clock w) (key n) (configOf n) rl1)), w4.
    split; [done|]. split; [by split_and!|]. split_and!.
    + rewrite He4. cbn. by rewrite He1.
    + cbn. by rewrite Hinv4, app_nil_r.
    + intros k Hk. rewrite (rl_at_eq k w1 w4 Hrl4). by apply Hw1.
Qed.


(** The whole loop: it stops at the first success, in the order of the
    list, and every outcome is what the limiter and the adapter did. *)
Lemma dispatch_served services :
  NoDup (map key services) ->
  forall w,
    served nameOf prefix configOf adapter populated pushError services errs (errs w) w
      (dispatch1 services) w.
Proof.
  induction services as [|n rest IH]; intros Hnodup w.
  - exists [], [], None, w. simpl. rewrite !app_nil_r.
    split_and!; try done. intros q Hq. by apply elem_of_nil in Hq.
  - simpl in Hnodup. apply NoDup_cons in Hnodup as [Hn Hrest].
    assert (Hfresh : forall q, q ∈ rest -> key n <> key q).
    { intros q Hq E. apply Hn. rewrite E. by apply list_elem_of_fmap_2. }
    destruct (attempt_attempted n w) as (o & w1 & Erun & Hstep & Herr & Hinv & Hrl).
    assert (Hdone : forall r, o = Succeeded r ->
      served nameOf prefix configOf adapter populated pushError (n :: rest) errs (errs w)
        w (dispatch1 (n :: rest)) w).
    { intros r ->.
      exists [(n, Succeeded r)], rest, (Some r), w1. cbn [dispatch].
      rewrite bind_run, Erun. split_and!; try done.
      - by exists w1.
      - intros q Hq. split_and!.
        + by apply Hrl, Hfresh.
        + simpl. intros Hin.
          apply list_elem_of_singleton in Hin. by apply (Hfresh q Hq).
        + constructor.
      - by exists [], n. }
    assert (Hnext : (match o with Succeeded r => Some r | _ => None end) = None ->
      served nameOf prefix configOf adapter populated pushError (n :: rest) errs (errs w)
        w (dispatch1 (n :: rest)) w).
    { intros Enone.
      assert (Hns : ~ Trace.succeeded (n, o)).
      { intros [r Hr]. simpl in Hr. by rewrite Hr in Enone. }
      destruct (IH Hrest w1)
        as (tried & untried & result & w' & Erun' & Hsteps & Hsplit & Herr' & Hinv' & Hun
            & Hres).
      exists ((n, o) :: tried), untried, result, w'. cbn [dispatch].
      rewrite bind_run, Erun, Enone. split_and!.
      - done.
      - by exists w1.
      - simpl. by rewrite Hsplit.
      - simpl. by rewrite Herr', Herr, <- app_assoc.
      - simpl. by rewrite Hinv', Hinv, <- app_assoc.
      - intros q Hq. destruct (Hun q Hq) as (H1 & H2 & H3).
        assert (key n <> key q) as Hne.
        { apply Hfresh. rewrite Hsplit. apply elem_of_app. by right. }
        split_and!.
        + rewrite H1. by apply Hrl.
        + simpl. intros Hin. apply elem_of_app in Hin as [Hin|Hin]; [|done].
          unfold Trace.invokedOf in Hin. simpl in Hin.
          destruct o; simpl in Hin;
            first [ by apply elem_of_nil in Hin
                  | apply list_elem_of_singleton in Hin; by apply Hne ].
        + apply key_ne_name in Hne. simpl. apply Forall_app. split; [|done].
          unfold Trace.errorsOf. simpl. destruct o; repeat constructor; simpl; done.
      - destruct result as [r|].
        + destruct Hres as (earlier & p & -> & Hearlier).
          exists ((n, o) :: earlier), p. split; [done|]. by constructor.
        + destruct Hres as [-> Hall]. split; [done|]. by constructor. }
    destruct o; [by apply Hnext..|by eapply Hdone].
Qed.

End DispatchServed.

(** A stage that clears its error list and then runs the loop. *)
Lemma served_after_reset {N R} (nameOf : N -> string) (prefix : string)
    (configOf : N -> ServiceConfig) (adapter : N -> M (option R)) (populated : R -> bool)
    (pushError : ServiceError.t -> M unit) (services : list N)
    (errs : World -> list ServiceError.t) (stage stage' : M (option R))
    (w w0 : World) :
  stage w = stage' w0 -> invoked w0 = invoked w -> rateLimiter w0 = rateLimiter w ->
  served nameOf prefix configOf adapter populated pushError services errs (errs w0) w0
    stage' w0 ->
  served nameOf prefix configOf adapter populated pushError services errs (errs w0) w0
    stage w.
Proof.
  intros Hrun Hinv Hrl
    (tried & untried & result & w' & Erun & Hsteps & Hsplit & Herr & Hinv' & Hun & Hres).
  exists tried, untried, result, w'. split_and!; try done.
  - by rewrite Hrun.
  - by rewrite <- Hinv.
  - intros q Hq. destruct (Hun q Hq) as (H1 & H2 & H3). split_and!; try done.
    rewrite H1. by apply rl_at_eq.
Qed.

Lemma recognizeAudio_served host audioBuffer w :
  served audioServiceName "audioRecognition_"
    (FREE_API_CONFIGS.audioRecognition (env host))
    (FreeAudioRecognitionService.adapter host audioBuffer) (fun _ => true)
    FreeAudioRecognitionService.pushError
    FreeAudioRecognitionService.services audioErrors []
    (set_audioErrors (fun _ => []) w)
    (FreeAudioRecognitionService.recognizeAudio host audioBuffer) w.
Proof.
  apply (served_after_reset _ _ _ _ _ _ _ audioErrors _
           (dispatch audioServiceName "audioRecognition_"
              (FREE_API_CONFIGS.audioRecognition (env host))
              (FreeAudioRecognitionService.adapter host audioBuffer) (fun _ => true)
              FreeAudioRecognitionService.pushError
              FreeAudioRecognitionService.services)
           w (set_audioErrors (fun _ => []) w)); try done.
  apply dispatch_served.
  - apply audio_adapter_frame.
  - by intros ? ? ->.
  - apply audio_push_ok.
  - apply audio_keys_NoDup.
Qed.

Lemma getLyrics_served host artist title w :
  served lyricsServiceName "lyrics_" (FREE_API_CONFIGS.lyrics (env host))
    (FreeLyricsService.adapter host (cleanSearchTerm host artist)
       (cleanSearchTerm host title))
    FreeLyricsService.populated FreeLyricsService.pushError
    FreeLyricsService.services lyricsErrors []
    (set_lyricsErrors (fun _ => []) w)
    (FreeLyricsService.getLyrics host artist title) w.
Proof.
  apply (served_after_reset _ _ _ _ _ _ _ lyricsErrors _
           (dispatch lyricsServiceName "lyrics_" (FREE_API_CONFIGS.lyrics (env host))
              (FreeLyricsService.adapter host (cleanSearchTerm host artist)
                 (cleanSearchTerm host title))
              FreeLyricsService.populated FreeLyricsService.pushError
              FreeLyricsService.services)
           w (set_lyricsErrors (fun _ => []) w)); try done.
  apply dispatch_served.
  - apply lyrics_adapter_frame.
  - by intros ? ? _ ->.
  - apply lyrics_push_ok.
  - apply lyrics_keys_NoDup.
Qed.

(** The scenario of the claim, for the lyrics stage: the first provider
    is denied, the second returns a populated result. *)
Lemma denied_then_success (host : Host) artist title w r w2 :
  let adapter := FreeLyricsService.adapter host (cleanSearchTerm host artist)
                   (cleanSearchTerm host title) in
  let configOf := FREE_API_CONFIGS.lyrics (env host) in
  let start := set_lyricsErrors (fun _ => []) w in
  let denial :=
    {| ServiceError.service := "lyricsOvh";
       ServiceError.error := "Rate limit exceeded";
       ServiceError.code := None;
       ServiceError.retryAfter :=
         Some (retryAfterOf lyricsServiceName "lyrics_" configOf lyricsOvh start) |} in
  let next :=
    snd (FreeLyricsService.pushError denial
           (afterCheck lyricsServiceName "lyrics_" configOf lyricsOvh start)) in
  fst (checked lyricsServiceName "lyrics_" configOf lyricsOvh start) = false ->
  fst (checked lyricsServiceName "lyrics_" configOf musixmatch next) = true ->
  adapter musixmatch (atAdapter lyricsServiceName "lyrics_" configOf musixmatch next)
  = (Normal (Some r), w2) ->
  FreeLyricsService.populated r = true ->
  let w' := snd (recordRequest "lyrics_musixmatch" w2) in
  FreeLyricsService.getLyrics host artist title w = (Normal (Some r), w')
  /\ LyricsResult.source r = "Musixmatch"
  /\ lyricsErrors w' = [denial]
  /\ invoked w' = invoked w ++ ["lyrics_musixmatch"]
  /\ rl_at "lyrics_lyricsApi" w' = rl_at "lyrics_lyricsApi" w.
Proof.
  intros adapter configOf start denial next HA HB Hadapter Hpop w'.
  destruct (getLyrics_served host artist title w)
    as (tried & untried & result & wend & Erun & Hsteps & Hsplit & Herr & Hinv & Hun & Hres).
  fold adapter configOf start in Hsteps.
  assert (tried = [(lyricsOvh, Denied (retryAfterOf lyricsServiceName "lyrics_" configOf
                                         lyricsOvh start));
                   (musixmatch, Succeeded r)]
          /\ wend = w') as [-> ->].
  { destruct tried as [|[n1 o1] t1].
    { destruct result; [by destruct Hres as ([|] & ? & [=] & _)|].
      by destruct Hres as [-> _]. }
    cbn [map fst app] in Hsplit. injection Hsplit as <- Hsplit.
    destruct Hsteps as (w1 & Hstep1 & Hsteps). cbn [fst snd] in Hstep1.
    destruct o1 as [ra| | |]; cbn [attempted] in Hstep1;
      try (destruct Hstep1 as [Hc _]; congruence).
    destruct Hstep1 as (_ & -> & Hpush).
    change (lyricsServiceName lyricsOvh) with "lyricsOvh" in Hpush.
    assert (w1 = next) as -> by (unfold next, denial; by rewrite Hpush).
    destruct t1 as [|[n2 o2] t2].
    { destruct result; [by destruct Hres as ([|? [|]] & ? & [=] & _)|].
      by destruct Hres as [-> _]. }
    cbn [map fst app] in Hsplit. injection Hsplit as <- Hsplit.
    destruct Hsteps as (w3 & Hstep2 & Hsteps). cbn [fst snd] in Hstep2.
    destruct o2 as [ra| | |r']; cbn [attempted] in Hstep2.
    - destruct Hstep2 as [Hc _]. congruence.
    - destruct Hstep2 as (_ & ? & Hc & _). congruence.
    - destruct Hstep2 as (_ & r0 & Hc & Hmiss).
      rewrite Hadapter in Hc. injection Hc as <- _. cbn in Hmiss. congruence.
    - destruct Hstep2 as (_ & w4 & Hc & _ & ->).
      rewrite Hadapter in Hc. injection Hc as <- <-.
      destruct result as [r''|].
      + destruct Hres as (earlier & p & Heq & Hearlier).
        destruct earlier as [|a [|b earlier]].
        * by destruct t2.
        * cbn [app] in Heq. injection Heq as _ Heq.
          destruct t2; [|by destruct t2].
          by cbn in Hsteps; subst.
        * cbn [app] in Heq. injection Heq as _ Heq _.
          apply Forall_cons in Hearlier as [_ Hearlier].
          apply Forall_cons in Hearlier as [Hb _]. exfalso. apply Hb.
          rewrite <- Heq. by eexists.
      + destruct Hres as [_ Hall].
        apply Forall_cons in Hall as [_ Hall]. apply Forall_cons in Hall as [Hb _].
        exfalso. apply Hb. by eexists. }
  assert (result = Some r) as ->.
  { destruct result as [r''|].
    - destruct Hres as (earlier & p & Heq & _).
      destruct earlier as [|a [|b earlier]]; cbn [app] in Heq; try done.
      + by injection Heq as _ _ <-.
      + by destruct earlier.
    - destruct Hres as [_ Hall].
      apply Forall_cons in Hall as [_ Hall]. apply Forall_cons in Hall as [Hb _].
      exfalso. apply Hb. by eexists. }
  split; [done|]. split.
  { by eapply (lyrics_adapter_source host _ _ musixmatch). }
  split; [exact Herr|]. split; [exact Hinv|].
  assert (untried = [lyricsApi]) as ->.
  { cbn in Hsplit. by injection Hsplit. }
  apply (Hun lyricsApi). by apply list_elem_of_singleton.
Qed.


(** ** Postconditions *)

Section Wp.

Context {S : Type}.

Lemma wp_run {A} (m : SE S A) s Q c s' : m s = (c, s') -> wp m s Q <-> Q c s'.
Proof. unfold wp. by intros ->. Qed.

Lemma wp_elim {A} (m : SE S A) s Q :
  wp m s Q -> exists c s', m s = (c, s') /\ Q c s'.
Proof. unfold wp. intros H. exists (fst (m s)), (snd (m s)). by destruct (m s). Qed.

Lemma wp_mono {A} (m : SE S A) s (Q Q' : Completion A -> S -> Prop) :
  wp m s Q -> (forall c s', Q c s' -> Q' c s') -> wp m s Q'.
Proof. unfold wp. auto. Qed.

Lemma wp_ret {A} (a : A) s (Q : Completion A -> S -> Prop) :
  Q (Normal a) s -> wp (mret a) s Q.
Proof. done. Qed.

Lemma wp_throw {A} (e : Exn) s (Q : Completion A -> S -> Prop) :
  Q (Thrown e) s -> wp (throw e) s Q.
Proof. done. Qed.

Lemma wp_gets {A} (f : S -> A) s (Q : Completion A -> S -> Prop) :
  Q (Normal (f s)) s -> wp (gets f) s Q.
Proof. done. Qed.

Lemma wp_modify (f : S -> S) s (Q : Completion unit -> S -> Prop) :
  Q (Normal tt) (f s) -> wp (modify f) s Q.
Proof. done. Qed.

Lemma wp_bind {A B} (m : SE S A) (f : A -> SE S B) s Q :
  wp m s (fun c s' => match c with
                      | Normal a => wp (f a) s' Q
                      | Thrown e => Q (Thrown e) s'
                      end) ->
  wp (m ≫= f) s Q.
Proof. unfold wp. rewrite bind_run. by destruct (m s) as [[a|e] s']. Qed.

Lemma wp_try_catch {A} (body : SE S A) (handler : Exn -> SE S A) s Q :
  wp body s (fun c s' => match c with
                         | Normal a => Q (Normal a) s'
                         | Thrown e => wp (handler e) s' Q
                         end) ->
  wp (try_catch body handler) s Q.
Proof. unfold wp, try_catch. by destruct (body s) as [[a|e] s']. Qed.

Lemma wp_if {A} (b : bool) (m1 m2 : SE S A) s Q :
  (b = true -> wp m1 s Q) -> (b = false -> wp m2 s Q) ->
  wp (if b then m1 else m2) s Q.
Proof. destruct b; auto. Qed.

Lemma wp_liftS {L A} (m : SE S A) (l : L) s (Q : Completion A -> L * S -> Prop) :
  wp m s (fun c s' => Q c (l, s')) -> wp (liftS m) (l, s) Q.
Proof. unfold wp, liftS. by destruct (m s). Qed.

Lemma wp_getLocal {L} (l : L) (s : S) (Q : Completion L -> L * S -> Prop) :
  Q (Normal l) (l, s) -> wp getLocal (l, s) Q.
Proof. done. Qed.

Lemma wp_modifyLocal {L} (f : L -> L) (l : L) (s : S)
    (Q : Completion unit -> L * S -> Prop) :
  Q (Normal tt) (f l, s) -> wp (modifyLocal f) (l, s) Q.
Proof. done. Qed.

Lemma wp_withLocal {L A} (init : L) (p : SE (L * S) A) s (Q : Completion A -> S -> Prop) :
  wp p (init, s) (fun c ls => Q c (snd ls)) -> wp (withLocal init p) s Q.
Proof. unfold wp, withLocal. by destruct (p (init, s)) as [c [l s']]. Qed.

(** Whatever a computation does, it ends somehow. *)
Lemma wp_any {A} (m : SE S A) s (Q : Completion A -> S -> Prop) :
  (forall c s', Q c s') -> wp m s Q.
Proof. unfold wp. auto. Qed.

End Wp.

Lemma wp_stampProcessingTime startTime (l : LyricsTranslationPipeline.t) (w : World)
    (Q : Completion unit -> LyricsTranslationPipeline.t * World -> Prop) :
  Q (Normal tt) (LyricsTranslationPipeline.set_processingTime (clock w - startTime) l, w) ->
  wp (LyricsTranslatorService.stampProcessingTime startTime) (l, w) Q.
Proof. done. Qed.

(** Symbolic execution of straight-line code. *)
Ltac wp_step :=
  lazymatch goal with
  | |- wp (mbind _ _) _ _ => apply wp_bind
  | |- wp (try_catch _ _) _ _ => apply wp_try_catch
  | |- wp (mret _) _ _ => apply wp_ret
  | |- wp (throw _) _ _ => apply wp_throw
  | |- wp getLocal _ _ => apply wp_getLocal
  | |- wp (modifyLocal _) _ _ => apply wp_modifyLocal
  | |- wp (LyricsTranslatorService.stampProcessingTime _) _ _ =>
      apply wp_stampProcessingTime
  | |- wp (withLocal _ _) _ _ => apply wp_withLocal
  | |- wp (gets _) _ _ => apply wp_gets
  | |- wp (modify _) _ _ => apply wp_modify
  | |- wp (sleep _) _ _ => apply wp_modify
  | |- wp dateNow _ _ => apply wp_gets
  end; cbv beta iota.

Ltac wp_steps := repeat wp_step.

#[global] Opaque wp.

(** ** The pipeline never throws *)

Section Pipeline.

Variable host : Host.

Import LyricsTranslationPipeline.

Lemma stage_error service error l :
  service ∈ stageNames ->
  errors l = [] ->
  exists e, errors (push_error (LyricsTranslatorService.plainError service error) l) = [e]
            /\ ServiceError.service e ∈ stageNames.
Proof. intros Hin Hl. eexists. simpl. rewrite Hl. by split. Qed.

Ltac stage_failed :=
  split; [done|apply stage_error; [unfold stageNames; set_solver|done]].

Lemma translateFromAudioBody_post startTime audioBuffer options l w :
  translation l = None -> errors l = [] ->
  wp (LyricsTranslatorService.translateFromAudioBody host startTime audioBuffer options)
    (l, w) body_post.
Proof.
  intros Hl He. unfold LyricsTranslatorService.translateFromAudioBody.
  wp_step. apply wp_if; intros _.
  - wp_step. apply wp_liftS, wp_any. intros [[r|]|e] w1; [| |done].
    + wp_steps. apply wp_if; intros _.
      * wp_steps. stage_failed.
      * wp_steps. apply wp_liftS, wp_any. intros [[lr|]|e] w2; [| |done].
        -- wp_steps. apply wp_liftS, wp_any. intros [[tr|]|e] w3; [| |done].
           ++ by wp_steps.
           ++ wp_steps. stage_failed.
        -- wp_steps. stage_failed.
    + wp_steps. stage_failed.
  - wp_steps. apply wp_if; intros _.
    + wp_steps. stage_failed.
    + wp_steps. apply wp_liftS, wp_any. intros [[lr|]|e] w2; [| |done].
      * wp_steps. apply wp_liftS, wp_any. intros [[tr|]|e] w3; [| |done].
        -- by wp_steps.
        -- wp_steps. stage_failed.
      * wp_steps. stage_failed.
Qed.

Lemma translateFromAudio_returns audioBuffer options w :
  wp (LyricsTranslatorService.translateFromAudio host audioBuffer options) w
    (fun c _ => exists outcome, c = Normal outcome /\ describes_failure outcome).
Proof.
  unfold LyricsTranslatorService.translateFromAudio. wp_steps.
  eapply wp_mono; [by apply translateFromAudioBody_post|].
  intros [[|]|e] [l w'] Hpost; simpl in Hpost; wp_steps.
  - exists l. split; [done|]. unfold describes_failure.
    destruct Hpost as [-> Hpost]. exact Hpost.
  - eexists. split; [done|]. unfold describes_failure. simpl.
    destruct Hpost as [Ht He]. by destruct (translation l).
  - eexists. split; [done|]. unfold describes_failure. simpl.
    destruct Hpost as [-> He].
    apply stage_error; [unfold stageNames; set_solver|done].
Qed.

Lemma translateFromSongInfo_returns artist title targetLanguage sourceLanguage w :
  wp (LyricsTranslatorService.translateFromSongInfo host artist title targetLanguage
        sourceLanguage) w
    (fun c _ => exists outcome, c = Normal outcome /\ describes_failure outcome).
Proof. apply translateFromAudio_returns. Qed.

Lemma translateLyricsOnly_returns lyrics_ targetLanguage sourceLanguage songInfo w :
  wp (LyricsTranslatorService.translateLyricsOnly host lyrics_ targetLanguage
        sourceLanguage songInfo) w
    (fun c _ => exists outcome, c = Normal outcome /\ describes_failure outcome).
Proof.
  unfold LyricsTranslatorService.translateLyricsOnly. wp_steps.
  apply wp_liftS, wp_any. intros [[tr|]|e] w1; wp_steps.
  - rewrite bool_decide_true by eauto. wp_steps.
    eexists. by split.
  - rewrite bool_decide_false by (by intros [? ?]). wp_steps.
    eexists. split; [done|]. unfold describes_failure. simpl.
    eexists. split; [done|]. unfold stageNames. set_solver.
  - eexists. split; [done|]. unfold describes_failure. simpl.
    eexists. split; [done|]. unfold stageNames. set_solver.
Qed.

Lemma batchTranslateFrom_returns requests : forall results w,
  Forall describes_failure results ->
  wp (LyricsTranslatorService.batchTranslateFrom host requests results) w
    (fun c _ => exists outcomes, c = Normal outcomes /\ Forall describes_failure outcomes).
Proof.
  induction requests as [|request requests IH]; intros results w Hall; simpl.
  - wp_steps. by exists results.
  - wp_steps.
    eapply wp_mono; [apply translateFromSongInfo_returns|].
    intros c w1 (outcome & -> & Hout). wp_steps.
    apply wp_if; intros _; wp_steps; apply IH;
      (apply Forall_app; split; [done|by constructor]).
Qed.


End Pipeline.


(** ** Batch mode *)

Section Batch.

Variable host : Host.

Import LyricsTranslationPipeline.

Lemma translateFromSongInfo_missing request w :
  BatchRequest.artist request = "" \/ BatchRequest.title request = "" ->
  LyricsTranslatorService.translateFromSongInfo host
    (BatchRequest.artist request) (BatchRequest.title request)
    (BatchRequest.targetLanguage request) (BatchRequest.sourceLanguage request) w
  = (Normal missingSongInfoOutcome, w).
Proof.
  intros Hbad.
  assert (negb (Js.truthy (BatchRequest.artist request))
          || negb (Js.truthy (BatchRequest.title request)) = true) as Hb.
  { destruct Hbad as [-> | ->]; simpl; [done|apply orb_true_r]. }
  unfold LyricsTranslatorService.translateFromSongInfo,
    LyricsTranslatorService.translateFromAudio,
    LyricsTranslatorService.translateFromAudioBody.
  cbn. rewrite Hb.
  unfold missingSongInfoOutcome. cbv -[Z.sub]. by rewrite Z.sub_diag.
Qed.

Lemma batchTranslateFrom_run requests : forall results w,
  exists outcomes w',
    LyricsTranslatorService.batchTranslateFrom host requests results w
    = (Normal (results ++ outcomes), w')
    /\ batch_run host requests w outcomes w'.
Proof.
  induction requests as [|request requests IH]; intros results w.
  - exists [], w. simpl. rewrite app_nil_r. split; [done|constructor].
  - destruct (wp_elim _ _ _
      (translateFromSongInfo_returns host (BatchRequest.artist request)
         (BatchRequest.title request) (BatchRequest.targetLanguage request)
         (BatchRequest.sourceLanguage request) w))
      as (c & w1 & E & outcome & -> & _).
    destruct (IH (results ++ [outcome])
                (if bool_decide (requests <> [])
                 then set_clock (fun t => t + 2000) w1 else w1))
      as (outcomes & w' & Erest & Hrest).
    exists (outcome :: outcomes), w'. split.
    + simpl. rewrite bind_run. unfold try_catch. rewrite bind_run, E. simpl.
      rewrite bind_run.
      rewrite <- app_assoc in Erest. simpl in Erest. rewrite <- Erest.
      by destruct (bool_decide (requests <> [])).
    + by econstructor.
Qed.

Lemma batch_run_length requests w outcomes w' :
  batch_run host requests w outcomes w' -> length outcomes = length requests.
Proof. induction 1; simpl; congruence. Qed.

Lemma app_cons_not_nil {A} (l1 l2 : list A) (x : A) : l1 ++ x :: l2 <> [].
Proof. by destruct l1. Qed.

(** A batch around a request without artist or title splits at that
    request. *)
Lemma batch_run_split pre : forall bad post w outcomes w',
  BatchRequest.artist bad = "" \/ BatchRequest.title bad = "" ->
  batch_run host (pre ++ bad :: post) w outcomes w' ->
  exists before after wmid,
    outcomes = before ++ missingSongInfoOutcome :: after
    /\ batch_run host (pre ++ [bad]) w (before ++ [missingSongInfoOutcome]) wmid
    /\ batch_run host post
         (if bool_decide (post <> []) then set_clock (fun t => t + 2000) wmid else wmid)
         after w'.
Proof.
  induction pre as [|request pre IH]; intros bad post w outcomes w' Hbad Hrun.
  - simpl in Hrun. inversion Hrun as [|? ? ? outcome w1 after ? E Hpost]; subst.
    rewrite (translateFromSongInfo_missing bad w Hbad) in E.
    injection E as <- <-.
    exists [], after, w. split_and!; [done| |done].
    simpl. econstructor; [by apply translateFromSongInfo_missing|].
    rewrite bool_decide_false by (by intros H; apply H). constructor.
  - simpl in Hrun. inversion Hrun as [|? ? ? outcome w1 outcomes' ? E Hrun']; subst.
    rewrite bool_decide_true in Hrun' by apply app_cons_not_nil.
    destruct (IH _ _ _ _ _ Hbad Hrun') as (before & after & wmid & -> & Hpre & Hpost).
    exists (outcome :: before), after, wmid. split_and!; [done| |done].
    simpl. econstructor; [exact E|].
    by rewrite bool_decide_true by apply app_cons_not_nil.
Qed.

(** C9. Batch isolation.  [batchTranslate] returns normally with exactly
    one outcome per request, in input order: the outcomes are those of
    the song-info pipeline run on each request in turn.  A request with
    an empty artist or title yields the outcome that holds the fatal
    missing-song-info error, without changing the world; hence, wherever
    such a request stands in the list, the requests after it are
    processed by the pipeline as usual, from the state that the requests
    before it left. *)
Theorem batch_isolation :
  (forall requests w, exists outcomes w',
     LyricsTranslatorService.batchTranslate host requests w = (Normal outcomes, w')
     /\ length outcomes = length requests
     /\ batch_run host requests w outcomes w')
  /\ (forall request w,
        BatchRequest.artist request = "" \/ BatchRequest.title request = "" ->
        LyricsTranslatorService.translateFromSongInfo host
          (BatchRequest.artist request) (BatchRequest.title request)
          (BatchRequest.targetLanguage request) (BatchRequest.sourceLanguage request) w
        = (Normal missingSongInfoOutcome, w))
  /\ (forall pre bad post w,
        BatchRequest.artist bad = "" \/ BatchRequest.title bad = "" ->
        exists before after wmid w',
          LyricsTranslatorService.batchTranslate host (pre ++ bad :: post) w
          = (Normal (before ++ missingSongInfoOutcome :: after), w')
          /\ batch_run host (pre ++ [bad]) w (before ++ [missingSongInfoOutcome]) wmid
          /\ batch_run host post
               (if bool_decide (post <> [])
                then set_clock (fun t => t + 2000) wmid else wmid)
               after w').
Proof.
  split_and!.
  - intros requests w.
    destruct (batchTranslateFrom_run requests [] w) as (outcomes & w' & E & Hrun).
    exists outcomes, w'. split_and!; [done| |done].
    by eapply batch_run_length.
  - apply translateFromSongInfo_missing.
  - intros pre bad post w Hbad.
    destruct (batchTranslateFrom_run (pre ++ bad :: post) [] w)
      as (outcomes & w' & E & Hrun).
    destruct (batch_run_split pre bad post w outcomes w' Hbad Hrun)
      as (before & after & wmid & -> & Hpre & Hpost).
    by exists before, after, wmid, w'.
Qed.

End Batch.

(** ** Unsupported target language *)

Section Unsupported.

Variable host : Host.

Import LyricsTranslationPipeline.

Lemma isSupportedLanguage_false languageCode :
  languageCode ∉ map fst SUPPORTED_LANGUAGES.translation ->
  FreeTranslationService.isSupportedLanguage languageCode = false.
Proof.
  intros Hnot. unfold FreeTranslationService.isSupportedLanguage.
  apply not_true_is_false. intros H.
  apply existsb_exists in H as ([code name] & Hin & Heq).
  apply String.eqb_eq in Heq. simpl in Heq. subst. apply Hnot.
  apply list_elem_of_In in Hin. by apply (list_elem_of_fmap_2 fst) in Hin.
Qed.

(** [translateText] rejects the language before it consults a provider,
    on both attempts of the retry loop; one retry delay passes. *)
Lemma translateWithRetry_unsupported text targetLanguage sourceLanguage w :
  FreeTranslationService.isSupportedLanguage targetLanguage = false ->
  LyricsTranslatorService.translateWithRetry host text targetLanguage sourceLanguage w
  = (Normal None,
     set_clock (fun t => t + LyricsTranslatorService.retryDelay)
       (set_translationErrors (fun _ => []) w)).
Proof.
  intros H.
  unfold LyricsTranslatorService.translateWithRetry, LyricsTranslatorService.maxRetries,
    FreeTranslationService.translateText.
  simpl. rewrite H. simpl. reflexivity.
Qed.

(** C10. Unsupported target language at the public interface.  For a
    target language that is not in the supported-languages list,
    [translateLyricsOnly] returns normally; the outcome has no
    translation, the single error of the failed translation stage, and
    the caller's lyrics with source "Manual"; no provider adapter was
    entered, nothing was fetched, and the rate limiter is unchanged. *)
Theorem unsupported_target_language lyrics_ targetLanguage sourceLanguage songInfo w :
  targetLanguage ∉ map fst SUPPORTED_LANGUAGES.translation ->
  exists outcome w',
    LyricsTranslatorService.translateLyricsOnly host lyrics_ targetLanguage
      sourceLanguage songInfo w = (Normal outcome, w')
    /\ translation outcome = None
    /\ errors outcome =
         [LyricsTranslatorService.plainError "translation"
            "Failed to translate lyrics from all available services"]
    /\ lyrics outcome =
         Some {| LyricsResult.lyrics := lyrics_;
                 LyricsResult.artist :=
                   Js.orUndefined (SongInfo.artist <$> songInfo) "Unknown Artist";
                 LyricsResult.title :=
                   Js.orUndefined (SongInfo.title <$> songInfo) "Unknown Title";
                 LyricsResult.source := "Manual" |}
    /\ rateLimiter w' = rateLimiter w
    /\ invoked w' = invoked w
    /\ fetches w' = fetches w.
Proof.
  intros Hnot. apply isSupportedLanguage_false in Hnot.
  cut (wp (LyricsTranslatorService.translateLyricsOnly host lyrics_ targetLanguage
             sourceLanguage songInfo) w
         (fun c w' => exists outcome, c = Normal outcome
            /\ translation outcome = None
            /\ errors outcome =
                 [LyricsTranslatorService.plainError "translation"
                    "Failed to translate lyrics from all available services"]
            /\ lyrics outcome =
                 Some {| LyricsResult.lyrics := lyrics_;
                         LyricsResult.artist :=
                           Js.orUndefined (SongInfo.artist <$> songInfo) "Unknown Artist";
                         LyricsResult.title :=
                           Js.orUndefined (SongInfo.title <$> songInfo) "Unknown Title";
                         LyricsResult.source := "Manual" |}
            /\ rateLimiter w' = rateLimiter w
            /\ invoked w' = invoked w
            /\ fetches w' = fetches w)).
  { intros H. apply wp_elim in H as (c & w' & E & outcome & -> & H).
    by exists outcome, w'. }
  unfold LyricsTranslatorService.translateLyricsOnly. wp_steps.
  apply wp_liftS.
  apply (wp_run _ _ _ _ _ (translateWithRetry_unsupported lyrics_ targetLanguage
                             sourceLanguage w Hnot)).
  wp_steps. rewrite bool_decide_false by (by intros [? ?]). wp_steps.
  eexists. by split_and!.
Qed.

End Unsupported.

(** ** recordRequest and the remaining counter *)

(** After an admitted call [remaining] is the limit minus the number of
    booked timestamps. *)
Lemma isAllowed_remaining now key config rl :
  fst (RL.isAllowed now key config rl) = true ->
  RL.getRemainingRequests key (snd (RL.isAllowed now key config rl))
  = requests (rateLimit config)
    - Z.of_nat (length (RL.recorded key (snd (RL.isAllowed now key config rl)))).
Proof.
  unfold RL.isAllowed, RL.getRemainingRequests, RL.recorded.
  destruct (limits rl !! key) as [li|] eqn:E; simpl;
    case_decide; simpl; try done; intros _;
    rewrite !lookup_insert_eq; simpl; rewrite ?length_app; simpl; lia.
Qed.

(** [recordRequest] leaves the window alone and takes one more from a
    positive [remaining]. *)
Lemma recordRequest_remaining now key rl :
  RL.recorded key (RL.recordRequest now key rl) = RL.recorded key rl
  /\ RL.getRemainingRequests key (RL.recordRequest now key rl)
     = if decide (0 < RL.getRemainingRequests key rl)
       then RL.getRemainingRequests key rl - 1
       else RL.getRemainingRequests key rl.
Proof.
  unfold RL.recorded. rewrite recordRequest_requestCounts. split; [done|].
  unfold RL.recordRequest, RL.getRemainingRequests.
  destruct (limits rl !! key) as [li|] eqn:E; simpl.
  - destruct (decide (0 < remaining li)); simpl;
      [by rewrite lookup_insert_eq | by rewrite E].
  - rewrite E. by destruct (decide (0 < 0)).
Qed.

(** C4. [recordRequest] after an admitted [isAllowed], evaluated on a
    fresh limiter with a limit of 5 requests per second: one timestamp
    is booked, [isAllowed] leaves [remaining] at 5 - 1 = 4, and
    [recordRequest] takes it down to 3, one less than the limit minus
    the booked timestamps. *)
Theorem recordRequest_decrements_again :
  let key := "lyrics_lyricsOvh" in
  let admitted := RL.isAllowed 0 key Examples.smallConfig RL.empty in
  let rl := RL.recordRequest 0 key (snd admitted) in
  fst admitted = true
  /\ RL.recorded key rl = [0]
  /\ RL.getRemainingRequests key (snd admitted) = 4
  /\ RL.getRemainingRequests key rl = 3
  /\ RL.getRemainingRequests key rl
     <> requests (rateLimit Examples.smallConfig) - Z.of_nat (length (RL.recorded key rl)).
Proof. by vm_compute. Qed.

(** ** Health check *)

(** The health check makes no network call and enters no adapter; its
    status counts the available categories. *)
Lemma healthCheck_no_network host w :
  exists h w',
    LyricsTranslatorService.healthCheck host w = (Normal h, w')
    /\ fetches w' = fetches w /\ invoked w' = invoked w /\ clock w' = clock w
    /\ Health.status h =
         match Health.audioRecognition h, Health.lyrics h, Health.translation h with
         | true, true, true => healthy
         | false, false, false => unhealthy
         | _, _, _ => degraded
         end.
Proof.
  assert (Hsome : forall {N} (nameOf : N -> string) prefix configOf services w,
    exists b w', someAllowed nameOf prefix configOf services w = (Normal b, w')
      /\ fetches w' = fetches w /\ invoked w' = invoked w /\ clock w' = clock w).
  { intros N nameOf prefix configOf services.
    induction services as [|n services IH]; intros w0; simpl.
    - by exists false, w0.
    - rewrite bind_run. unfold isAllowed at 1.
      destruct (RL.isAllowed _ _ _ _) as [[|] rl1].
      + eexists _, _. by split_and!.
      + destruct (IH (set_rateLimiter (fun _ => rl1) w0)) as (b & w' & -> & ? & ? & ?).
        by exists b, w'. }
  unfold LyricsTranslatorService.healthCheck,
    FreeAudioRecognitionService.hasAvailableService,
    FreeLyricsService.hasAvailableService,
    FreeTranslationService.hasAvailableService.
  destruct (Hsome _ audioServiceName "audioRecognition_"
              (FREE_API_CONFIGS.audioRecognition (env host))
              FreeAudioRecognitionService.services w)
    as (a & w1 & E1 & F1 & I1 & C1).
  destruct (Hsome _ lyricsServiceName "lyrics_" (FREE_API_CONFIGS.lyrics (env host))
              FreeLyricsService.services w1)
    as (l & w2 & E2 & F2 & I2 & C2).
  destruct (Hsome _ translationServiceName "translation_" FREE_API_CONFIGS.translation
              FreeTranslationService.services w2)
    as (t & w3 & E3 & F3 & I3 & C3).
  rewrite bind_run, E1, bind_run, E2, bind_run, E3.
  eexists _, w3. split; [done|]. split_and!; try congruence.
  by destruct a, l, t.
Qed.

(** C7. [healthCheck] evaluated on a process that has just started (no
    credentials, clock at 7): it reports [healthy], and the rate limiter
    that held no record at all now holds a booked timestamp and a
    decremented [remaining] for the first provider of each category. *)
Theorem healthCheck_books_slots :
  let w := Examples.fresh 7 Examples.offline in
  let run := LyricsTranslatorService.healthCheck Examples.bareHost w in
  Health.status <$> (match fst run with Normal h => Some h | Thrown _ => None end)
  = Some healthy
  /\ rateLimiter w = RL.empty
  /\ map_to_list (requestCounts (rateLimiter (snd run)))
     = [("audioRecognition_acrCloud", [7]); ("lyrics_lyricsOvh", [7]);
        ("translation_myMemory", [7])]
  /\ RL.getRemainingRequests "audioRecognition_acrCloud" (rateLimiter (snd run)) = 499
  /\ RL.getRemainingRequests "lyrics_lyricsOvh" (rateLimiter (snd run)) = 999
  /\ RL.getRemainingRequests "translation_myMemory" (rateLimiter (snd run)) = 999
  /\ rateLimiter (snd run) <> rateLimiter w.
Proof.
  vm_compute. split_and!; try reflexivity. discriminate.
Qed.

(** ** Stage retry *)

Lemma withRetry_twoAttempts {R} (stage : M (option R)) (accepted : R -> bool) w :
  LyricsTranslatorService.withRetry stage accepted LyricsTranslatorService.maxRetries w
  = twoAttempts stage accepted w.
Proof.
  unfold LyricsTranslatorService.maxRetries, twoAttempts, lastAttempt. simpl.
  rewrite bind_run. unfold try_catch at 1. rewrite bind_run.
  destruct (stage w) as [[[r|]|e] w1]; simpl.
  - destruct (accepted r); simpl; [done|].
    rewrite bind_run. unfold try_catch. rewrite bind_run.
    destruct (stage w1) as [[[r'|]|e'] w2]; simpl; [by destruct (accepted r')|done..].
  - rewrite bind_run. unfold try_catch. rewrite bind_run.
    destruct (stage w1) as [[[r'|]|e'] w2]; simpl; [by destruct (accepted r')|done..].
  - rewrite bind_run. unfold try_catch. rewrite bind_run.
    destruct (stage _) as [[[r'|]|e'] w2]; simpl; [by destruct (accepted r')|done..].
Qed.

Lemma first_success_total {N R} (nameOf : N -> string) prefix services
    (adapter : N -> M (option R)) populated errs olderrs (stage : M (option R)) :
  (forall w, first_success nameOf prefix services adapter populated errs olderrs stage w) ->
  total stage.
Proof.
  intros H w. destruct (H w) as (_ & _ & result & w' & E & _). by exists result, w'.
Qed.

(** A clean "not found" is retried: no lyrics provider knows the song,
    none fails, [getLyrics] returns null without any error, and
    [getLyricsWithRetry] runs the whole fallback list a second time (six
    adapter calls instead of three). *)
Lemma clean_null_is_retried : ~ null_is_not_retried Examples.keyedHost.
Proof.
  intros H.
  specialize (H "The Beatles" "Yesterday" (Examples.fresh 0 Examples.lyricsNotFound)
                (snd (FreeLyricsService.getLyrics Examples.keyedHost "The Beatles"
                        "Yesterday" (Examples.fresh 0 Examples.lyricsNotFound)))).
  assert (E : FreeLyricsService.getLyrics Examples.keyedHost "The Beatles" "Yesterday"
                (Examples.fresh 0 Examples.lyricsNotFound)
              = (Normal None,
                 snd (FreeLyricsService.getLyrics Examples.keyedHost "The Beatles"
                        "Yesterday" (Examples.fresh 0 Examples.lyricsNotFound))))
    by (vm_compute; reflexivity).
  apply H in E.
  apply (f_equal (fun run => length (invoked (snd run)))) in E.
  vm_compute in E. discriminate.
Qed.

(** C8, amended.  Each stage wrapper makes at most two attempts: it
    returns the first attempt's result when that is populated, and
    otherwise makes exactly one more attempt, whether the first attempt
    returned a clean null or threw; the fixed delay is waited only after
    an exception.  The recognition and the lyrics stage never throw, so
    for them the second attempt always follows a null. *)
Theorem stage_retry_two_attempts (host : Host) :
  (forall audioBuffer w,
     LyricsTranslatorService.recognizeAudioWithRetry host audioBuffer w
     = twoAttempts (FreeAudioRecognitionService.recognizeAudio host audioBuffer)
         (fun _ => true) w)
  /\ (forall artist title w,
        LyricsTranslatorService.getLyricsWithRetry host artist title w
        = twoAttempts (FreeLyricsService.getLyrics host artist title)
            FreeLyricsService.populated w)
  /\ (forall text targetLanguage sourceLanguage w,
        LyricsTranslatorService.translateWithRetry host text targetLanguage
          sourceLanguage w
        = twoAttempts
            (FreeTranslationService.translateText host text targetLanguage sourceLanguage)
            (fun result =>
               bool_decide
                 (0 < Js.length (Js.trim (TranslationResult.translatedText result))))
            w)
  /\ (forall audioBuffer,
        total (FreeAudioRecognitionService.recognizeAudio host audioBuffer))
  /\ (forall artist title, total (FreeLyricsService.getLyrics host artist title)).
Proof.
  split_and!.
  - intros. apply withRetry_twoAttempts.
  - intros. apply withRetry_twoAttempts.
  - intros. apply withRetry_twoAttempts.
  - intros audioBuffer. eapply first_success_total.
    apply recognizeAudio_first_success.
  - intros artist title. eapply first_success_total.
    apply getLyrics_first_success.
Qed.

(** ** Source tags of the stage results *)

(** The result of a stage built on the fallback loop carries whatever
    every result of the winning adapter carries, and that adapter is the
    last one entered. *)
Lemma first_success_result {N R} (nameOf : N -> string) prefix services
    (adapter : N -> M (option R)) populated errs olderrs (stage : M (option R))
    (P : N -> R -> Prop) w r w' :
  first_success nameOf prefix services adapter populated errs olderrs stage w ->
  (forall p, returns_only (P p) (adapter p)) ->
  stage w = (Normal (Some r), w') ->
  exists p, last (invoked w') = Some (Trace.key nameOf prefix p) /\ P p r.
Proof.
  intros (tried & untried & result & w1 & E & _ & _ & Hinv & _ & Hres) Hadapter Erun.
  rewrite Erun in E. injection E as <- <-.
  destruct Hres as (earlier & p & wa & wb & -> & _ & Ea & _ & _).
  exists p. split; [|by eapply Hadapter].
  rewrite Hinv, flat_map_app. simpl. rewrite app_assoc.
  apply last_snoc.
Qed.

Lemma translateText_source host text targetLanguage sourceLanguage :
  returns_only (fun r => TranslationResult.source r = "Combined")
    (FreeTranslationService.translateText host text targetLanguage sourceLanguage).
Proof.
  unfold FreeTranslationService.translateText.
  apply returns_only_bind; intros _.
  destruct (negb _); [apply returns_only_throw|].
  apply returns_only_bind; intros [[translatedChunks language]|];
    [|by apply returns_only_ret].
  case_bool_decide as Hlen; [by apply returns_only_ret|].
  apply returns_only_ret. intros r [= <-]. simpl.
  rewrite bool_decide_true; [done|]. destruct translatedChunks; simpl in *; [done|lia].
Qed.

(** The translation of a short text by MyMemory comes back tagged
    "Combined", which is the tag of no provider. *)
Lemma translation_source_is_combined :
  ~ translation_source_names_provider Examples.bareHost.
Proof.
  intros H.
  destruct (H "Yesterday" "es" None (Examples.fresh 0 Examples.myMemoryTranslates)
              {| TranslationResult.translatedText := "Ayer";
                 TranslationResult.sourceLanguage := "en";
                 TranslationResult.targetLanguage := "es";
                 TranslationResult.source := "Combined" |}
              (snd (FreeTranslationService.translateText Examples.bareHost "Yesterday"
                      "es" None (Examples.fresh 0 Examples.myMemoryTranslates))))
    as [p Hp].
  - vm_compute. reflexivity.
  - by destruct p.
Qed.

(** C6, amended.  A populated result of the recognition stage and of
    the lyrics stage carries the source tag of the provider whose
    adapter returned it, the last one entered; so does every result of
    a translation adapter.  The result of the translation stage is
    tagged "Combined". *)
Theorem stage_result_source (host : Host) :
  (forall audioBuffer w r w',
     FreeAudioRecognitionService.recognizeAudio host audioBuffer w
     = (Normal (Some r), w') ->
     exists p,
       last (invoked w') = Some (Trace.key audioServiceName "audioRecognition_" p)
       /\ AudioRecognitionResult.source r = audioSourceTag p)
  /\ (forall artist title w r w',
        FreeLyricsService.getLyrics host artist title w = (Normal (Some r), w') ->
        exists p,
          last (invoked w') = Some (Trace.key lyricsServiceName "lyrics_" p)
          /\ LyricsResult.source r = lyricsSourceTag p)
  /\ (forall chunk targetLanguage sourceLanguage p w r w',
        FreeTranslationService.adapter host chunk targetLanguage sourceLanguage p w
        = (Normal (Some r), w') ->
        TranslationResult.source r = translationSourceTag p)
  /\ (forall text targetLanguage sourceLanguage w r w',
        FreeTranslationService.translateText host text targetLanguage sourceLanguage w
        = (Normal (Some r), w') ->
        TranslationResult.source r = "Combined").
Proof.
  split_and!.
  - intros audioBuffer w r w' E.
    eapply (first_success_result _ _ _ _ _ _ _ _
              (fun p r => AudioRecognitionResult.source r = audioSourceTag p));
      [apply recognizeAudio_first_success|apply audio_adapter_source|exact E].
  - intros artist title w r w' E.
    eapply (first_success_result _ _ _ _ _ _ _ _
              (fun p r => LyricsResult.source r = lyricsSourceTag p));
      [apply getLyrics_first_success|apply lyrics_adapter_source|exact E].
  - intros chunk targetLanguage sourceLanguage p w r w' E.
    by eapply translation_adapter_source.
  - intros text targetLanguage sourceLanguage w r w' E.
    by eapply translateText_source.
Qed.

(** ** What a run leaves behind *)

Section Keeps.

Context {S X : Type}.
Variable f : S -> X.

Lemma keeps_intro {A} (m : SE S A) : (forall s, f (snd (m s)) = f s) -> keeps f m.
Proof.
  intros H s. destruct (m s) as [c s'] eqn:E.
  apply (wp_run _ _ _ _ _ E). specialize (H s). by rewrite E in H.
Qed.

Lemma keeps_elim {A} (m : SE S A) s : keeps f m -> f (snd (m s)) = f s.
Proof.
  intros H. destruct (wp_elim _ _ _ (H s)) as (c & s' & E & Hf). by rewrite E.
Qed.

Lemma keeps_ret {A} (a : A) : keeps f (mret a).
Proof. intros s. by apply wp_ret. Qed.

Lemma keeps_throw {A} (e : Exn) : keeps f (throw e : SE S A).
Proof. intros s. by apply wp_throw. Qed.

Lemma keeps_gets {A} (g : S -> A) : keeps f (gets g).
Proof. intros s. by apply wp_gets. Qed.

Lemma keeps_modify (g : S -> S) : (forall s, f (g s) = f s) -> keeps f (modify g).
Proof. intros H s. by apply wp_modify. Qed.

Lemma keeps_bind {A B} (m : SE S A) (k : A -> SE S B) :
  keeps f m -> (forall a, keeps f (k a)) -> keeps f (m ≫= k).
Proof.
  intros Hm Hk s. apply wp_bind. eapply wp_mono; [apply Hm|].
  intros [a|e] s1 E; [|done].
  eapply wp_mono; [apply Hk|]. simpl. intros; congruence.
Qed.

Lemma keeps_try_catch {A} (body : SE S A) (handler : Exn -> SE S A) :
  keeps f body -> (forall e, keeps f (handler e)) -> keeps f (try_catch body handler).
Proof.
  intros Hm Hk s. apply wp_try_catch. eapply wp_mono; [apply Hm|].
  intros [a|e] s1 E; [done|].
  eapply wp_mono; [apply Hk|]. simpl. intros; congruence.
Qed.

Lemma keeps_withLocal {L A} (init : L) (p : SE (L * S) A) :
  keeps (fun ls => f (snd ls)) p -> keeps f (withLocal init p).
Proof. intros Hp s. apply wp_withLocal. apply Hp. Qed.

Lemma keeps_liftS {L A} (m : SE S A) :
  keeps f m -> keeps (fun ls : L * S => f (snd ls)) (liftS m).
Proof. intros Hm [l s]. apply wp_liftS. apply Hm. Qed.

Lemma keeps_getLocal {L} : keeps (fun ls : L * S => f (snd ls)) getLocal.
Proof. intros [l s]. by apply wp_getLocal. Qed.

Lemma keeps_modifyLocal {L} (g : L -> L) :
  keeps (fun ls : L * S => f (snd ls)) (modifyLocal g).
Proof. intros [l s]. by apply wp_modifyLocal. Qed.

End Keeps.

(** The components that only the error handling of a service writes. *)
Section KeepsWorld.

Context {X : Type}.
Variable f : World -> X.
Hypothesis f_clock : forall g w, f (set_clock g w) = f w.
Hypothesis f_rateLimiter : forall g w, f (set_rateLimiter g w) = f w.
Hypothesis f_fetches : forall g w, f (set_fetches g w) = f w.
Hypothesis f_invoked : forall g w, f (set_invoked g w) = f w.

Lemma keeps_sleep ms : keeps f (sleep ms).
Proof. by apply keeps_modify. Qed.

Lemma keeps_isAllowed key config : keeps f (isAllowed key config).
Proof.
  apply keeps_intro. intros w. unfold isAllowed.
  destruct (RL.isAllowed _ _ _ _). simpl. apply f_rateLimiter.
Qed.

Lemma keeps_recordRequest key : keeps f (recordRequest key).
Proof. apply keeps_intro. intros w. apply f_rateLimiter. Qed.

Lemma keeps_getRetryAfter key config : keeps f (getRetryAfter key config).
Proof. by apply keeps_intro. Qed.

Lemma keeps_noteInvoked key : keeps f (noteInvoked key).
Proof. by apply keeps_modify. Qed.

Lemma keeps_withRetry {R} (stage : M (option R)) accepted n :
  keeps f stage -> keeps f (LyricsTranslatorService.withRetry stage accepted n).
Proof.
  intros Hstage. induction n as [|n IH]; simpl; [apply keeps_ret|].
  apply keeps_bind.
  - apply keeps_try_catch.
    + apply keeps_bind; [done|]. intros [r|]; [|apply keeps_ret].
      destruct (accepted r); apply keeps_ret.
    + intros e. apply keeps_bind; [|intros; apply keeps_ret].
      case_bool_decide; [apply keeps_ret|apply keeps_sleep].
  - intros [r|]; [apply keeps_ret|apply IH].
Qed.

Section KeepsDispatch.

Context {N R : Type}.
Variable nameOf : N -> string.
Variable prefix : string.
Variable configOf : N -> ServiceConfig.
Variable adapter : N -> M (option R).
Variable populated : R -> bool.
Variable pushError : ServiceError.t -> M unit.

Hypothesis adapter_keeps : forall n, keeps f (adapter n).
Hypothesis push_keeps : forall e, keeps f (pushError e).

Lemma keeps_dispatch services :
  keeps f (dispatch nameOf prefix configOf adapter populated pushError services).
Proof.
  induction services as [|n services IH]; simpl; [apply keeps_ret|].
  apply keeps_bind; [|intros [r|]; [apply keeps_ret|apply IH]].
  unfold attempt. apply keeps_try_catch.
  - apply keeps_bind; [apply keeps_isAllowed|]. intros [|]; simpl.
    + apply keeps_bind; [apply keeps_noteInvoked|]. intros _.
      apply keeps_bind; [apply adapter_keeps|]. intros [r|]; [|apply keeps_ret].
      destruct (populated r); [|apply keeps_ret].
      apply keeps_bind; [apply keeps_recordRequest|]. intros _. apply keeps_ret.
    + apply keeps_bind; [apply keeps_getRetryAfter|]. intros retryAfter.
      apply keeps_bind; [apply push_keeps|]. intros _. apply keeps_ret.
  - intros e. apply keeps_bind; [apply push_keeps|]. intros _. apply keeps_ret.
Qed.

End KeepsDispatch.

End KeepsWorld.

Lemma adapter_frame_keeps_audio {A} (m : M A) : adapter_frame m -> keeps audioErrors m.
Proof. intros H. apply keeps_intro. intros w. apply (H w). Qed.

Lemma adapter_frame_keeps_lyrics {A} (m : M A) : adapter_frame m -> keeps lyricsErrors m.
Proof. intros H. apply keeps_intro. intros w. apply (H w). Qed.

Section Survival.

Variable host : Host.

(** The lyrics stage leaves the error list of the recognition service
    alone. *)
Lemma getLyrics_keeps_audioErrors artist title :
  keeps audioErrors (FreeLyricsService.getLyrics host artist title).
Proof.
  unfold FreeLyricsService.getLyrics.
  apply keeps_bind; [by apply keeps_modify|]. intros _.
  apply keeps_dispatch;
    [done|done
    |intros n; apply adapter_frame_keeps_audio, lyrics_adapter_frame
    |intros e; by apply keeps_modify].
Qed.

(** The translation stage leaves the error lists of the other two
    services alone. *)
Lemma translateChunks_keeps {X} (f : World -> X) several targetLanguage chunks :
  (forall g w, f (set_clock g w) = f w) ->
  (forall g w, f (set_rateLimiter g w) = f w) ->
  (forall g w, f (set_invoked g w) = f w) ->
  (forall g w, f (set_translationErrors g w) = f w) ->
  (forall chunk sourceLanguage n,
     keeps f (FreeTranslationService.adapter host chunk targetLanguage sourceLanguage n)) ->
  forall translatedChunks sourceLanguage,
    keeps f (FreeTranslationService.translateChunks host several targetLanguage
               chunks translatedChunks sourceLanguage).
Proof.
  intros Hc Hr Hi Ht Ha.
  induction chunks as [|chunk chunks IH]; intros translatedChunks sourceLanguage;
    cbn [FreeTranslationService.translateChunks].
  - apply keeps_ret.
  - apply keeps_bind.
    + apply keeps_dispatch; [done|done|done|intros e; by apply keeps_modify].
    + intros [r|]; [|apply keeps_ret].
      apply keeps_bind; [|intros _; apply IH].
      destruct several; [by apply keeps_sleep|apply keeps_ret].
Qed.

Lemma translateText_keeps_audioErrors text targetLanguage sourceLanguage :
  keeps audioErrors
    (FreeTranslationService.translateText host text targetLanguage sourceLanguage).
Proof.
  unfold FreeTranslationService.translateText.
  apply keeps_bind; [by apply keeps_modify|]. intros _.
  destruct (negb _); [apply keeps_throw|].
  apply keeps_bind.
  - apply translateChunks_keeps; try done.
    intros. apply adapter_frame_keeps_audio, translation_adapter_frame.
  - intros [[translatedChunks language]|]; [|apply keeps_ret].
    case_bool_decide; apply keeps_ret.
Qed.

Lemma translateText_keeps_lyricsErrors text targetLanguage sourceLanguage :
  keeps lyricsErrors
    (FreeTranslationService.translateText host text targetLanguage sourceLanguage).
Proof.
  unfold FreeTranslationService.translateText.
  apply keeps_bind; [by apply keeps_modify|]. intros _.
  destruct (negb _); [apply keeps_throw|].
  apply keeps_bind.
  - apply translateChunks_keeps; try done.
    intros. apply adapter_frame_keeps_lyrics, translation_adapter_frame.
  - intros [[translatedChunks language]|]; [|apply keeps_ret].
    case_bool_decide; apply keeps_ret.
Qed.

Lemma keeps_stampProcessingTime {X} (f : World -> X) startTime :
  keeps (fun ls => f (snd ls)) (LyricsTranslatorService.stampProcessingTime startTime).
Proof.
  unfold LyricsTranslatorService.stampProcessingTime.
  apply keeps_bind; [apply keeps_liftS, keeps_gets|].
  intros now. apply keeps_modifyLocal.
Qed.

Ltac keeps_local :=
  repeat first
    [ apply keeps_ret
    | apply keeps_getLocal
    | apply keeps_modifyLocal
    | apply keeps_stampProcessingTime
    | apply keeps_bind; [|intros ?]
    | apply keeps_try_catch; [|intros ?]
    | match goal with
      | |- keeps _ (if ?b then _ else _) => destruct b
      | |- keeps _ (match ?x with _ => _ end) => destruct x
      end ].

Lemma translateLyricsOnly_keeps {X} (f : World -> X) lyrics_ targetLanguage
    sourceLanguage songInfo :
  keeps f (LyricsTranslatorService.translateWithRetry host lyrics_ targetLanguage
             sourceLanguage) ->
  keeps f (LyricsTranslatorService.translateLyricsOnly host lyrics_ targetLanguage
             sourceLanguage songInfo).
Proof.
  intros Htranslate. unfold LyricsTranslatorService.translateLyricsOnly.
  apply keeps_bind; [apply keeps_gets|]. intros startTime.
  apply keeps_withLocal.
  apply keeps_bind; [|intros _; keeps_local].
  apply keeps_try_catch; [|intros e; keeps_local].
  apply keeps_bind; [by apply keeps_liftS|]. intros translated. keeps_local.
Qed.

Lemma translateFromSongInfo_keeps_audioErrors artist title targetLanguage sourceLanguage :
  keeps audioErrors
    (LyricsTranslatorService.translateFromSongInfo host artist title targetLanguage
       sourceLanguage).
Proof.
  unfold LyricsTranslatorService.translateFromSongInfo,
    LyricsTranslatorService.translateFromAudio.
  apply keeps_bind; [apply keeps_gets|]. intros startTime.
  apply keeps_withLocal.
  apply keeps_bind; [|intros returned; keeps_local].
  apply keeps_try_catch; [|intros e; keeps_local].
  unfold LyricsTranslatorService.translateFromAudioBody. simpl.
  apply keeps_bind; [apply keeps_ret|]. intros returned.
  destruct returned; [apply keeps_ret|].
  apply keeps_bind; [apply keeps_getLocal|]. intros result.
  destruct (negb _ || negb _); [keeps_local|].
  apply keeps_bind.
  { apply keeps_liftS, keeps_withRetry; try done.
    apply getLyrics_keeps_audioErrors. }
  intros fetched. apply keeps_bind; [apply keeps_modifyLocal|]. intros _.
  destruct fetched as [lyrics_|]; [|keeps_local].
  apply keeps_bind.
  { apply keeps_liftS, keeps_withRetry; try done.
    apply translateText_keeps_audioErrors. }
  intros translated. keeps_local.
Qed.

End Survival.

(** ** The error lists are only written *)

Section Respects.

Context {S : Type}.
Variable R : S -> S -> Prop.

Lemma respects_ret {A} (a : A) : respects R (mret a).
Proof. by intros s1 s2 H. Qed.

Lemma respects_throw {A} (e : Exn) : respects R (throw e : SE S A).
Proof. by intros s1 s2 H. Qed.

Lemma respects_gets {A} (f : S -> A) :
  (forall s1 s2, R s1 s2 -> f s1 = f s2) -> respects R (gets f).
Proof. intros Hf s1 s2 H. simpl. split; [|done]. f_equal. by apply Hf. Qed.

Lemma respects_modify (g : S -> S) :
  (forall s1 s2, R s1 s2 -> R (g s1) (g s2)) -> respects R (modify g).
Proof. intros Hg s1 s2 H. simpl. split; [done|]. by apply Hg. Qed.

Lemma respects_bind {A B} (m : SE S A) (k : A -> SE S B) :
  respects R m -> (forall a, respects R (k a)) -> respects R (m ≫= k).
Proof.
  intros Hm Hk s1 s2 H. rewrite !bind_run. destruct (Hm s1 s2 H) as [Hc Hs].
  destruct (m s1) as [c1 s1'], (m s2) as [c2 s2']. simpl in *. subst c2.
  destruct c1 as [a|e]; [by apply Hk|done].
Qed.

Lemma respects_try_catch {A} (body : SE S A) (handler : Exn -> SE S A) :
  respects R body -> (forall e, respects R (handler e)) ->
  respects R (try_catch body handler).
Proof.
  intros Hm Hk s1 s2 H. unfold try_catch. destruct (Hm s1 s2 H) as [Hc Hs].
  destruct (body s1) as [c1 s1'], (body s2) as [c2 s2']. simpl in *. subst c2.
  destruct c1 as [a|e]; [done|by apply Hk].
Qed.

Lemma respects_withLocal {L A} (init : L) (p : SE (L * S) A) :
  respects (with_local R) p -> respects R (withLocal init p).
Proof.
  intros Hp s1 s2 H. unfold withLocal.
  destruct (Hp (init, s1) (init, s2)) as [Hc [_ Hs]]; [by split|].
  destruct (p (init, s1)) as [c1 [l1 s1']], (p (init, s2)) as [c2 [l2 s2']].
  by simpl in *.
Qed.

Lemma respects_liftS {L A} (m : SE S A) :
  respects R m -> respects (with_local R) (liftS m : SE (L * S) A).
Proof.
  intros Hm [l1 s1] [l2 s2] [Hl H]. simpl in *. subst l2. unfold liftS.
  destruct (Hm s1 s2 H) as [Hc Hs].
  destruct (m s1) as [c1 s1'], (m s2) as [c2 s2']. by simpl in *.
Qed.

Lemma respects_getLocal {L} : respects (with_local R) (getLocal : SE (L * S) L).
Proof. intros [l1 s1] [l2 s2] [Hl H]. simpl in *. by subst l2. Qed.

Lemma respects_modifyLocal {L} (g : L -> L) :
  respects (with_local R) (modifyLocal g : SE (L * S) unit).
Proof. intros [l1 s1] [l2 s2] [Hl H]. simpl in *. by subst l2. Qed.

End Respects.

Ltac respects_step :=
  first
    [ apply respects_ret
    | apply respects_throw
    | apply respects_getLocal
    | apply respects_modifyLocal
    | apply respects_bind; [|intros ?]
    | apply respects_try_catch; [|intros ?]
    | match goal with
      | |- respects _ (if ?b then _ else _) => destruct b
      | |- respects _ (match ?x with _ => _ end) => destruct x
      end ].

Section Blind.

Lemma blind_fetch {A} (endpoint : Network -> nat -> Completion (Response A)) :
  respects same_but_errors (fetch endpoint).
Proof.
  intros w1 w2 (Hc & Hr & Hn & Hf & Hi). unfold fetch, same_but_errors. simpl.
  rewrite Hc, Hr, Hn, Hf, Hi. by split_and!.
Qed.

Lemma blind_json {A} (response : Response A) :
  respects same_but_errors (responseJson response).
Proof. by intros w1 w2 H. Qed.

Lemma blind_evaluate {A} (c : Completion A) :
  respects same_but_errors (evaluate c : M A).
Proof. by intros w1 w2 H. Qed.

Lemma blind_dateNow : respects same_but_errors dateNow.
Proof. apply respects_gets. by intros w1 w2 (Hc & _). Qed.

Lemma blind_sleep ms : respects same_but_errors (sleep ms).
Proof.
  apply respects_modify. intros w1 w2 (Hc & Hr & Hn & Hf & Hi).
  unfold same_but_errors. simpl. rewrite Hc. by split_and!.
Qed.

Lemma blind_isAllowed key config : respects same_but_errors (isAllowed key config).
Proof.
  intros w1 w2 (Hc & Hr & Hn & Hf & Hi). unfold isAllowed. rewrite Hc, Hr.
  destruct (RL.isAllowed _ _ _ _) as [allowed rl]. by split.
Qed.

Lemma blind_recordRequest key : respects same_but_errors (recordRequest key).
Proof.
  intros w1 w2 (Hc & Hr & Hn & Hf & Hi). unfold recordRequest, same_but_errors. simpl.
  rewrite Hc, Hr. by split_and!.
Qed.

Lemma blind_getRetryAfter key config :
  respects same_but_errors (getRetryAfter key config).
Proof.
  intros w1 w2 (Hc & Hr & Hn & Hf & Hi). unfold getRetryAfter. simpl.
  rewrite Hc, Hr. by split.
Qed.

Lemma blind_noteInvoked key : respects same_but_errors (noteInvoked key).
Proof.
  apply respects_modify. intros w1 w2 (Hc & Hr & Hn & Hf & Hi).
  unfold same_but_errors. simpl. rewrite Hi. by split_and!.
Qed.

Lemma blind_set_audioErrors g : respects same_but_errors (modify (set_audioErrors g)).
Proof. apply respects_modify. by intros w1 w2 H. Qed.

Lemma blind_set_lyricsErrors g : respects same_but_errors (modify (set_lyricsErrors g)).
Proof. apply respects_modify. by intros w1 w2 H. Qed.

Lemma blind_set_translationErrors g :
  respects same_but_errors (modify (set_translationErrors g)).
Proof. apply respects_modify. by intros w1 w2 H. Qed.

End Blind.

Ltac blind :=
  repeat first
    [ apply blind_fetch
    | apply blind_json
    | apply blind_evaluate
    | apply blind_dateNow
    | apply blind_sleep
    | apply blind_isAllowed
    | apply blind_recordRequest
    | apply blind_getRetryAfter
    | apply blind_noteInvoked
    | apply blind_set_audioErrors
    | apply blind_set_lyricsErrors
    | apply blind_set_translationErrors
    | respects_step ].

Section BlindStages.

Variable host : Host.

Lemma blind_dispatch {N R} (nameOf : N -> string) prefix configOf
    (adapter : N -> M (option R)) populated pushError services :
  (forall n, respects same_but_errors (adapter n)) ->
  (forall e, respects same_but_errors (pushError e)) ->
  respects same_but_errors
    (dispatch nameOf prefix configOf adapter populated pushError services).
Proof.
  intros Hadapter Hpush.
  induction services as [|n services IH]; cbn [dispatch]; [apply respects_ret|].
  apply respects_bind; [|intros [r|]; [apply respects_ret|apply IH]].
  unfold attempt. blind; first [apply Hadapter|apply Hpush].
Qed.

Lemma blind_audio_adapter audioBuffer n :
  respects same_but_errors (FreeAudioRecognitionService.adapter host audioBuffer n).
Proof.
  destruct n; simpl;
    unfold FreeAudioRecognitionService.recognizeWithACRCloud,
      FreeAudioRecognitionService.recognizeWithAudD; blind.
Qed.

Lemma blind_lyrics_adapter artist title n :
  respects same_but_errors (FreeLyricsService.adapter host artist title n).
Proof.
  destruct n; simpl;
    unfold FreeLyricsService.getLyricsFromOvh,
      FreeLyricsService.getLyricsFromMusixmatch,
      FreeLyricsService.getLyricsFromLyricsApi; blind.
Qed.

Lemma blind_translation_adapter chunk targetLanguage sourceLanguage n :
  respects same_but_errors
    (FreeTranslationService.adapter host chunk targetLanguage sourceLanguage n).
Proof.
  destruct n; simpl;
    unfold FreeTranslationService.translateWithMyMemory,
      FreeTranslationService.translateWithLibreTranslate,
      FreeTranslationService.translateWithGoogleFree; blind.
Qed.

Lemma blind_recognizeAudio audioBuffer :
  respects same_but_errors (FreeAudioRecognitionService.recognizeAudio host audioBuffer).
Proof.
  unfold FreeAudioRecognitionService.recognizeAudio.
  apply respects_bind; [apply blind_set_audioErrors|]. intros _.
  apply blind_dispatch; [apply blind_audio_adapter|].
  intros e. apply blind_set_audioErrors.
Qed.

Lemma blind_getLyrics artist title :
  respects same_but_errors (FreeLyricsService.getLyrics host artist title).
Proof.
  unfold FreeLyricsService.getLyrics.
  apply respects_bind; [apply blind_set_lyricsErrors|]. intros _.
  apply blind_dispatch; [apply blind_lyrics_adapter|].
  intros e. apply blind_set_lyricsErrors.
Qed.

Lemma blind_translateChunks several targetLanguage chunks :
  forall translatedChunks sourceLanguage,
    respects same_but_errors
      (FreeTranslationService.translateChunks host several targetLanguage chunks
         translatedChunks sourceLanguage).
Proof.
  induction chunks as [|chunk chunks IH]; intros translatedChunks sourceLanguage;
    cbn [FreeTranslationService.translateChunks]; [apply respects_ret|].
  apply respects_bind.
  - apply blind_dispatch; [apply blind_translation_adapter|].
    intros e. apply blind_set_translationErrors.
  - intros [r|]; [|apply respects_ret].
    apply respects_bind; [|intros _; apply IH].
    destruct several; [apply blind_sleep|apply respects_ret].
Qed.

Lemma blind_translateText text targetLanguage sourceLanguage :
  respects same_but_errors
    (FreeTranslationService.translateText host text targetLanguage sourceLanguage).
Proof.
  unfold FreeTranslationService.translateText.
  apply respects_bind; [apply blind_set_translationErrors|]. intros _.
  destruct (negb _); [apply respects_throw|].
  apply respects_bind; [apply blind_translateChunks|].
  intros [[translatedChunks language]|]; [|apply respects_ret].
  case_bool_decide; apply respects_ret.
Qed.

Lemma blind_withRetry {R} (stage : M (option R)) accepted n :
  respects same_but_errors stage ->
  respects same_but_errors (LyricsTranslatorService.withRetry stage accepted n).
Proof.
  intros Hstage. induction n as [|n IH]; cbn [LyricsTranslatorService.withRetry];
    [apply respects_ret|].
  apply respects_bind; [|intros [r|]; [apply respects_ret|apply IH]].
  apply respects_try_catch.
  - apply respects_bind; [done|]. intros [r|]; [|apply respects_ret].
    destruct (accepted r); apply respects_ret.
  - intros e. apply respects_bind; [|intros; apply respects_ret].
    case_bool_decide; [apply respects_ret|apply blind_sleep].
Qed.

Lemma blind_stampProcessingTime startTime :
  respects (with_local same_but_errors)
    (LyricsTranslatorService.stampProcessingTime startTime).
Proof.
  unfold LyricsTranslatorService.stampProcessingTime.
  apply respects_bind; [apply respects_liftS, blind_dateNow|].
  intros now. apply respects_modifyLocal.
Qed.

Ltac blind_local :=
  repeat first
    [ apply blind_stampProcessingTime
    | apply respects_liftS, blind_withRetry
    | apply blind_recognizeAudio
    | apply blind_getLyrics
    | apply blind_translateText
    | respects_step ].

Lemma blind_translateFromAudio audioBuffer options :
  respects same_but_errors
    (LyricsTranslatorService.translateFromAudio host audioBuffer options).
Proof.
  unfold LyricsTranslatorService.translateFromAudio,
    LyricsTranslatorService.translateFromAudioBody,
    LyricsTranslatorService.recognizeAudioWithRetry,
    LyricsTranslatorService.getLyricsWithRetry,
    LyricsTranslatorService.translateWithRetry.
  apply respects_bind; [apply blind_dateNow|]. intros startTime.
  apply respects_withLocal. blind_local.
Qed.

Lemma blind_translateLyricsOnly lyrics_ targetLanguage sourceLanguage songInfo :
  respects same_but_errors
    (LyricsTranslatorService.translateLyricsOnly host lyrics_ targetLanguage
       sourceLanguage songInfo).
Proof.
  unfold LyricsTranslatorService.translateLyricsOnly,
    LyricsTranslatorService.translateWithRetry.
  apply respects_bind; [apply blind_dateNow|]. intros startTime.
  apply respects_withLocal. blind_local.
Qed.

Lemma blind_batchTranslateFrom requests : forall results,
  respects same_but_errors
    (LyricsTranslatorService.batchTranslateFrom host requests results).
Proof.
  induction requests as [|request requests IH]; intros results;
    cbn [LyricsTranslatorService.batchTranslateFrom]; [apply respects_ret|].
  apply respects_bind.
  - apply respects_try_catch; [|intros e; apply respects_ret].
    apply respects_bind; [apply blind_translateFromAudio|].
    intros result. apply respects_ret.
  - intros results'. apply respects_bind; [|intros _; apply IH].
    case_bool_decide; [apply blind_sleep|apply respects_ret].
Qed.

End BlindStages.

(** C5.  The rate limiter is not the only state that a pipeline run
    leaves to the next one.  Without credentials and without network, a
    run of [translateFromAudio] fails in the recognition stage, which
    records one error for each of its two providers.  After a later run
    of [translateLyricsOnly], [getAllErrors] returns these two errors in
    front of the three that the translation providers caused in that
    run, as if they were errors of the last operation: the process that
    kept them and the process that differs only in having empty error
    lists are told apart. *)
Lemma errors_of_an_earlier_run_survive :
  let w1 :=
    snd (LyricsTranslatorService.translateFromAudio Examples.bareHost []
           (TranslationOptions.mk "es" None false None None)
           (Examples.fresh 0 Examples.offline)) in
  let w2 :=
    snd (LyricsTranslatorService.translateLyricsOnly Examples.bareHost "la la" "es"
           None None w1) in
  let failed service error :=
    {| ServiceError.service := service; ServiceError.error := error;
       ServiceError.code := None; ServiceError.retryAfter := None |} in
  audioErrors w1
  = [failed "acrCloud" "ACRCloud API credentials not configured";
     failed "auddIo" "AudD.io API key not configured"]
  /\ fst (LyricsTranslatorService.getAllErrors w2)
     = Normal (audioErrors w1
               ++ [failed "myMemory" "Network request failed";
                   failed "libreTranslate" "Network request failed";
                   failed "googleTranslateFree" "Network request failed"])
  /\ ~ only_rate_limiter_survives Examples.bareHost.
Proof.
  split; [vm_compute; reflexivity|]. split; [vm_compute; reflexivity|].
  intros H.
  pose proof (fun w1 =>
    H "la la" "es" None None w1 (set_audioErrors (fun _ => []) w1)
      eq_refl eq_refl eq_refl eq_refl) as H'.
  clear H.
  specialize (H' (snd (LyricsTranslatorService.translateFromAudio Examples.bareHost []
                         (TranslationOptions.mk "es" None false None None)
                         (Examples.fresh 0 Examples.offline)))).
  revert H'. vm_compute. discriminate.
Qed.

(** X30. What a run does with the error lists of the stage services.
    A service clears its list only at the entry of its own stage: a run
    of [translateLyricsOnly] returns the error lists of the recognition
    and of the lyrics service as it found them, a run of
    [translateFromSongInfo] that of the recognition service, and each
    stage starts from an empty list whatever the list held before.  The
    pipeline writes the lists and never reads them: two processes that
    differ at most in these lists get the same outcome from the next
    run, and the same rate limiter. *)
Theorem error_lists_survive (host : Host) :
  (forall lyrics_ targetLanguage sourceLanguage songInfo w,
     let w' := snd (LyricsTranslatorService.translateLyricsOnly host lyrics_
                      targetLanguage sourceLanguage songInfo w) in
     audioErrors w' = audioErrors w /\ lyricsErrors w' = lyricsErrors w)
  /\ (forall artist title targetLanguage sourceLanguage w,
        audioErrors (snd (LyricsTranslatorService.translateFromSongInfo host artist
                            title targetLanguage sourceLanguage w))
        = audioErrors w)
  /\ (forall audioBuffer g w,
        FreeAudioRecognitionService.recognizeAudio host audioBuffer (set_audioErrors g w)
        = FreeAudioRecognitionService.recognizeAudio host audioBuffer w)
  /\ (forall artist title g w,
        FreeLyricsService.getLyrics host artist title (set_lyricsErrors g w)
        = FreeLyricsService.getLyrics host artist title w)
  /\ (forall text targetLanguage sourceLanguage g w,
        FreeTranslationService.translateText host text targetLanguage sourceLanguage
          (set_translationErrors g w)
        = FreeTranslationService.translateText host text targetLanguage sourceLanguage w)
  /\ (forall audioBuffer options,
        respects same_but_errors
          (LyricsTranslatorService.translateFromAudio host audioBuffer options))
  /\ (forall lyrics_ targetLanguage sourceLanguage songInfo,
        respects same_but_errors
          (LyricsTranslatorService.translateLyricsOnly host lyrics_ targetLanguage
             sourceLanguage songInfo))
  /\ (forall requests,
        respects same_but_errors (LyricsTranslatorService.batchTranslate host requests)).
Proof.
  split_and!.
  - intros lyrics_ targetLanguage sourceLanguage songInfo w. split.
    + apply keeps_elim, translateLyricsOnly_keeps, keeps_withRetry; try done.
      apply translateText_keeps_audioErrors.
    + apply keeps_elim, translateLyricsOnly_keeps, keeps_withRetry; try done.
      apply translateText_keeps_lyricsErrors.
  - intros artist title targetLanguage sourceLanguage w.
    apply keeps_elim, translateFromSongInfo_keeps_audioErrors.
  - reflexivity.
  - reflexivity.
  - reflexivity.
  - exact (blind_translateFromAudio host).
  - exact (blind_translateLyricsOnly host).
  - intros requests. unfold LyricsTranslatorService.batchTranslate.
    exact (blind_batchTranslateFrom host requests []).
Qed.

(** ** The statements at concrete inputs *)

(** The scenario of C2 evaluated: Lyrics.ovh has used up its quota,
    Musixmatch has the song.  The result comes from Musixmatch, the only
    error is the rate-limit error of Lyrics.ovh, the only adapter
    entered is that of Musixmatch, and the lyrics API, which comes last,
    has no rate-limit record. *)
Example rate_limited_then_success :
  let w := {| clock := 10; rateLimiter := Examples.ovhExhausted; audioErrors := [];
              lyricsErrors := []; translationErrors := [];
              net := Examples.musixmatchHasIt; fetches := 0; invoked := [] |} in
  let run := FreeLyricsService.getLyrics Examples.keyedHost "The Beatles" "Yesterday" w in
  (LyricsResult.source <$> (match fst run with Normal r => r | Thrown _ => None end))
  = Some "Musixmatch"
  /\ lyricsErrors (snd run)
     = [{| ServiceError.service := "lyricsOvh";
           ServiceError.error := "Rate limit exceeded";
           ServiceError.code := None;
           ServiceError.retryAfter := Some (Fin 86399990) |}]
  /\ invoked (snd run) = ["lyrics_musixmatch"]
  /\ rl_at "lyrics_lyricsApi" (snd run) = (None, None)
  /\ RL.recorded "lyrics_musixmatch" (rateLimiter (snd run)) = [10].
Proof. vm_compute. by split_and!. Qed.



Lemma batch_isolation_witness :
  exists before after wmid w',
    LyricsTranslatorService.batchTranslate Examples.keyedHost
      ([BatchRequest.mk "Queen" "Bohemian Rhapsody" "es" None]
       ++ BatchRequest.mk "" "" "fr" None
       :: [BatchRequest.mk "The Beatles" "Yesterday" "de" None])
      (Examples.fresh 0 Examples.musixmatchHasIt)
    = (Normal (before ++ missingSongInfoOutcome :: after), w')
    /\ batch_run Examples.keyedHost
         ([BatchRequest.mk "Queen" "Bohemian Rhapsody" "es" None]
          ++ [BatchRequest.mk "" "" "fr" None])
         (Examples.fresh 0 Examples.musixmatchHasIt)
         (before ++ [missingSongInfoOutcome]) wmid
    /\ batch_run Examples.keyedHost
         [BatchRequest.mk "The Beatles" "Yesterday" "de" None]
         (if bool_decide ([BatchRequest.mk "The Beatles" "Yesterday" "de" None] <> [])
          then set_clock (fun t => t + 2000) wmid else wmid)
         after w'.
Proof.
  apply (proj2 (proj2 (batch_isolation Examples.keyedHost))).
  left. reflexivity.
Defined.

Lemma unsupported_target_language_witness :
  exists outcome w',
    LyricsTranslatorService.translateLyricsOnly Examples.bareHost "la la" "tlh" None None
      (Examples.fresh 0 Examples.myMemoryTranslates) = (Normal outcome, w')
    /\ LyricsTranslationPipeline.translation outcome = None
    /\ LyricsTranslationPipeline.errors outcome =
         [LyricsTranslatorService.plainError "translation"
            "Failed to translate lyrics from all available services"]
    /\ LyricsTranslationPipeline.lyrics outcome =
         Some {| LyricsResult.lyrics := "la la";
                 LyricsResult.artist := "Unknown Artist";
                 LyricsResult.title := "Unknown Title";
                 LyricsResult.source := "Manual" |}
    /\ rateLimiter w' = rateLimiter (Examples.fresh 0 Examples.myMemoryTranslates)
    /\ invoked w' = invoked (Examples.fresh 0 Examples.myMemoryTranslates)
    /\ fetches w' = fetches (Examples.fresh 0 Examples.myMemoryTranslates).
Proof.
  apply (unsupported_target_language Examples.bareHost "la la" "tlh" None None).
  apply (bool_decide_unpack _). vm_compute. exact I.
Defined.

Lemma stage_retry_two_attempts_witness :
  LyricsTranslatorService.getLyricsWithRetry Examples.keyedHost "The Beatles" "Yesterday"
    (Examples.fresh 0 Examples.lyricsNotFound)
  = twoAttempts (FreeLyricsService.getLyrics Examples.keyedHost "The Beatles" "Yesterday")
      FreeLyricsService.populated (Examples.fresh 0 Examples.lyricsNotFound).
Proof.
  exact (proj1 (proj2 (stage_retry_two_attempts Examples.keyedHost))
           "The Beatles" "Yesterday" (Examples.fresh 0 Examples.lyricsNotFound)).
Defined.

Lemma stage_result_source_witness :
  TranslationResult.source
    {| TranslationResult.translatedText := "Ayer";
       TranslationResult.sourceLanguage := "en";
       TranslationResult.targetLanguage := "es";
       TranslationResult.source := "Combined" |}
  = "Combined".
Proof.
  apply (proj2 (proj2 (proj2 (stage_result_source Examples.bareHost)))
           "Yesterday" "es" None (Examples.fresh 0 Examples.myMemoryTranslates) _
           (snd (FreeTranslationService.translateText Examples.bareHost "Yesterday"
                   "es" None (Examples.fresh 0 Examples.myMemoryTranslates)))).
  vm_compute. reflexivity.
Defined.

Lemma error_lists_survive_witness :
  let w :=
    snd (LyricsTranslatorService.translateFromAudio Examples.bareHost []
           (TranslationOptions.mk "es" None false None None)
           (Examples.fresh 0 Examples.offline)) in
  let w' :=
    snd (LyricsTranslatorService.translateLyricsOnly Examples.bareHost "la la" "es"
           None None w) in
  audioErrors w' = audioErrors w /\ lyricsErrors w' = lyricsErrors w.
Proof.
  intros w. exact (proj1 (error_lists_survive Examples.bareHost) "la la" "es" None None w).
Defined.

(** * Further properties of the services *)

Lemma surviving_isAllowed now t key config rl :
  RL.surviving now key config (snd (RL.isAllowed t key config rl))
  = RL.prune now (window (rateLimit config))
      (RL.surviving t key config rl
       ++ (if fst (RL.isAllowed t key config rl) then [t] else [])).
Proof.
  unfold RL.surviving at 1.
  destruct (isAllowed_known t key config rl) as [li ->].
  by rewrite isAllowed_recorded.
Qed.

Lemma surviving_other now t k key config config' rl :
  k <> key ->
  RL.surviving now key config (snd (RL.isAllowed t k config' rl))
  = RL.surviving now key config rl.
Proof.
  intros Hne. destruct (isAllowed_other t k key config' rl Hne) as [Hl Hr].
  unfold RL.surviving, RL.recorded. by rewrite Hl, Hr.
Qed.

Lemma surviving_recordRequest now t k key config rl :
  RL.surviving now key config (RL.recordRequest t k rl)
  = RL.surviving now key config rl.
Proof.
  unfold RL.surviving, RL.recorded. rewrite recordRequest_requestCounts.
  pose proof (recordRequest_known t k key rl) as Hk.
  destruct (limits (RL.recordRequest t k rl) !! key) as [?|] eqn:E1,
           (limits rl !! key) as [?|] eqn:E2; try done.
  - destruct Hk as [Hk _]. destruct Hk as [? ?]; [eauto|done].
  - destruct Hk as [_ Hk]. destruct Hk as [? ?]; [eauto|done].
Qed.

Section OwnKey.

Variable cfg : string -> ServiceConfig.
Variable key : string.

(** Two limiters that agree on what [isAllowed] reads for [key]. *)
Let agree (rl1 rl2 : RateLimiter) : Prop :=
  forall now, RL.surviving now key (cfg key) rl1 = RL.surviving now key (cfg key) rl2.



Lemma agree_admitted calls : forall rl1 rl2,
  agree rl1 rl2 ->
  RL.admitted cfg calls key rl1 = RL.admitted cfg (filter (consults key) calls) key rl2
  /\ agree (RL.run cfg calls rl1) (RL.run cfg (filter (consults key) calls) rl2).
Proof.
  induction calls as [|c calls IH]; intros rl1 rl2 Hag; [done|].
  rewrite filter_cons. destruct c as [t k|t k]; simpl.
  - case_bool_decide as Hk; simpl.
    + subst k. rewrite decide_True by done.
      assert (fst (RL.isAllowed t key (cfg key) rl1)
              = fst (RL.isAllowed t key (cfg key) rl2)) as Hfst.
      { by rewrite !isAllowed_fst, (Hag t). }
      destruct (IH (snd (RL.isAllowed t key (cfg key) rl1))
                   (snd (RL.isAllowed t key (cfg key) rl2))) as [IH1 IH2].
      { intros now. by rewrite !surviving_isAllowed, (Hag t), Hfst. }
      split; [|exact IH2]. rewrite decide_True by done. by rewrite Hfst, IH1.
    + rewrite decide_False by done. simpl.
      apply IH. intros now. rewrite surviving_other by done. apply Hag.
  - apply IH. intros now. rewrite surviving_recordRequest. apply Hag.
Qed.

End OwnKey.

(** X1. Keys are independent, and [recordRequest] never changes an
    admission: in any run of the limiter from its initial state, the
    calls of [isAllowed] for [key] that are admitted, and the answer to
    the next [isAllowed] for [key], are those of the run that consists
    of the [isAllowed] calls for [key] alone. *)
Theorem admission_depends_on_own_key
    (cfg : string -> ServiceConfig) (calls : list RL.Call) (key : string) (now : Z) :
  let own := filter (consults key) calls in
  RL.admitted cfg calls key RL.empty = RL.admitted cfg own key RL.empty
  /\ fst (RL.isAllowed now key (cfg key) (RL.run cfg calls RL.empty))
     = fst (RL.isAllowed now key (cfg key) (RL.run cfg own RL.empty)).
Proof.
  intros own.
  destruct (agree_admitted cfg key calls RL.empty RL.empty) as [H1 H2]; [done|].
  split; [exact H1|]. by rewrite !isAllowed_fst, (H2 now).
Qed.

(** ** Bounds *)

Lemma isAllowed_remaining_after now key config rl :
  RL.getRemainingRequests key (snd (RL.isAllowed now key config rl))
  = if fst (RL.isAllowed now key config rl)
    then requests (rateLimit config)
         - Z.of_nat (length (RL.surviving now key config rl)) - 1
    else 0.
Proof.
  unfold RL.isAllowed, RL.getRemainingRequests, RL.surviving, RL.recorded.
  destruct (limits rl !! key) as [li|] eqn:E; simpl;
    case_decide; simpl; rewrite !lookup_insert_eq; simpl; done.
Qed.

Lemma getRemainingRequests_other now key key' config rl :
  key <> key' ->
  RL.getRemainingRequests key' (snd (RL.isAllowed now key config rl))
  = RL.getRemainingRequests key' rl.
Proof.
  intros Hne. unfold RL.getRemainingRequests.
  by destruct (isAllowed_other now key key' config rl Hne) as [-> _].
Qed.

Lemma recordRequest_remaining_other now key key' rl :
  key <> key' ->
  RL.getRemainingRequests key' (RL.recordRequest now key rl)
  = RL.getRemainingRequests key' rl.
Proof.
  intros Hne. unfold RL.getRemainingRequests, RL.recordRequest.
  destruct (limits rl !! key) as [li|]; [|done].
  case_decide; [|done]. simpl. by rewrite lookup_insert_ne.
Qed.

Lemma surviving_length now key config rl :
  (length (RL.surviving now key config rl) <= length (RL.recorded key rl))%nat.
Proof.
  unfold RL.surviving. destruct (limits rl !! key).
  - apply prune_length.
  - simpl. lia.
Qed.

Lemma limiter_bounded_step (cfg : string -> ServiceConfig) key rl c :
  limiter_bounded key (cfg key) rl ->
  limiter_bounded key (cfg key) (RL.step cfg rl c).
Proof.
  intros (H1 & H2 & H3 & H4). destruct c as [t k|t k]; simpl.
  - destruct (decide (k = key)) as [->|Hne].
    + pose proof (isAllowed_fst t key (cfg key) rl) as Hfst.
      pose proof (surviving_length t key (cfg key) rl) as Hlen.
      unfold limiter_bounded.
      rewrite isAllowed_recorded, isAllowed_remaining_after.
      split.
      { intros Hnone. destruct (isAllowed_known t key (cfg key) rl) as [? Hs].
        congruence. }
      destruct (fst (RL.isAllowed t key (cfg key) rl)); symmetry in Hfst.
      * apply bool_decide_eq_true in Hfst. rewrite length_app. simpl. lia.
      * apply bool_decide_eq_false in Hfst. rewrite app_nil_r. lia.
    + destruct (isAllowed_other t k key (cfg k) rl Hne) as [Hl Hr].
      unfold limiter_bounded, RL.recorded in *.
      rewrite Hl, Hr, (getRemainingRequests_other t k key (cfg k) rl Hne). done.
  - unfold limiter_bounded.
    destruct (decide (k = key)) as [->|Hne].
    + destruct (recordRequest_remaining t key rl) as [-> ->].
      split.
      { intros Hnone. apply H1. apply eq_None_not_Some. intros Hs.
        apply (recordRequest_known t key key rl) in Hs. rewrite Hnone in Hs.
        by destruct Hs. }
      case_decide; lia.
    + unfold RL.recorded in *.
      rewrite recordRequest_requestCounts, (recordRequest_remaining_other t k key rl Hne).
      split; [|done].
      intros Hnone. apply H1. apply eq_None_not_Some. intros Hs.
      apply (recordRequest_known t k key rl) in Hs. rewrite Hnone in Hs.
      by destruct Hs.
Qed.

Lemma limiter_bounded_run (cfg : string -> ServiceConfig) key calls : forall rl,
  limiter_bounded key (cfg key) rl ->
  limiter_bounded key (cfg key) (RL.run cfg calls rl).
Proof.
  induction calls as [|c calls IH]; intros rl H; [done|].
  simpl. apply IH. by apply limiter_bounded_step.
Qed.

Lemma limiter_bounded_empty key config : limiter_bounded key config RL.empty.
Proof.
  unfold limiter_bounded, RL.recorded, RL.getRemainingRequests, RL.empty. simpl.
  rewrite !lookup_empty. simpl. split_and!; [done|lia..].
Qed.

(** X2. Bounded bookkeeping.  After any run from the initial state,
    whatever the clock readings, the limiter stores for a key at most as
    many timestamps as the key's limit, [getRemainingRequests] is never
    negative, and it never exceeds the room left in the stored
    window. *)
Theorem limiter_state_bounded
    (cfg : string -> ServiceConfig) (calls : list RL.Call) (key : string) :
  let rl := RL.run cfg calls RL.empty in
  let max := requests (rateLimit (cfg key)) in
  Z.of_nat (length (RL.recorded key rl)) <= Z.max 0 max
  /\ 0 <= RL.getRemainingRequests key rl
  /\ RL.getRemainingRequests key rl + Z.of_nat (length (RL.recorded key rl))
     <= Z.max 0 max.
Proof.
  intros rl max.
  destruct (limiter_bounded_run cfg key calls RL.empty (limiter_bounded_empty _ _))
    as (_ & H2 & H3 & H4).
  done.
Qed.

(** ** Retry-after *)

Lemma min_list_le l m : JsNum.min_list l = Fin m -> Forall (fun t => m <= t) l.
Proof.
  revert m. induction l as [|t l IH]; intros m; simpl; [constructor|].
  destruct (JsNum.min_list l) as [m'|] eqn:E; intros [= <-].
  - constructor; [lia|]. eapply Forall_impl; [by apply IH|]. simpl. intros; lia.
  - destruct l as [|t' l]; [by repeat constructor|].
    simpl in E. by destruct (JsNum.min_list l).
Qed.

Lemma prune_all now win l :
  Forall (fun t => now - t < win) l -> RL.prune now win l = l.
Proof.
  unfold RL.prune. induction 1 as [|t l Ht _ IH]; [done|].
  rewrite filter_cons, decide_True by done. by rewrite IH.
Qed.

Lemma getRetryAfter_zero now key config rl :
  limiter_bounded key config rl ->
  RL.getRetryAfter now key config rl = Fin 0
  <-> fst (RL.isAllowed now key config rl) = true.
Proof.
  intros (H1 & H2 & _). rewrite isAllowed_fst, bool_decide_eq_true.
  pose proof (surviving_length now key config rl) as Hlen.
  unfold RL.getRetryAfter. fold (RL.recorded key rl).
  case_decide as Hroom; [split; [lia|done]|].
  destruct (RL.recorded key rl) as [|t0 l0] eqn:Hrec.
  { simpl in *. split; [done|]. lia. }
  assert (exists li, limits rl !! key = Some li) as [li Hli].
  { destruct (limits rl !! key) eqn:E; [eauto|]. by specialize (H1 eq_refl). }
  assert (RL.surviving now key config rl
          = RL.prune now (window (rateLimit config)) (t0 :: l0)) as Hsurv.
  { unfold RL.surviving. by rewrite Hli, Hrec. }
  rewrite Hsurv in *.
  destruct (min_list_nonempty (t0 :: l0)) as [m Hm]; [done|].
  rewrite Hm. simpl JsNum.max0_sub.
  pose proof (min_list_elem _ _ Hm) as Hin.
  pose proof (min_list_le _ _ Hm) as Hle.
  split.
  - intros [= Hz].
    pose proof (prune_drops now (window (rateLimit config)) _ m Hin ltac:(lia)).
    lia.
  - intros Hlt. f_equal.
    destruct (decide (m + window (rateLimit config) - now <= 0)) as [|Hpos]; [lia|].
    rewrite prune_all in Hlt; [lia|].
    eapply Forall_impl; [exact Hle|]. simpl. intros; lia.
Qed.

(** X3. [getRetryAfter] and [isAllowed] agree: after any run from the
    initial state, [getRetryAfter] at [now] is 0 exactly when
    [isAllowed] at [now] admits. *)
Theorem retry_after_zero_iff_admitted
    (cfg : string -> ServiceConfig) (calls : list RL.Call) (key : string) (now : Z) :
  let rl := RL.run cfg calls RL.empty in
  RL.getRetryAfter now key (cfg key) rl = Fin 0
  <-> fst (RL.isAllowed now key (cfg key) rl) = true.
Proof.
  intros rl. apply getRetryAfter_zero.
  apply limiter_bounded_run, limiter_bounded_empty.
Qed.

(** ** Reset *)

(** X4. [reset] makes a key unseen: afterwards
    [getRemainingRequests] is 0 (not the limit), [getResetTime] is the
    current time and [getRetryAfter] is 0; the next [isAllowed] (for a
    limit of at least one) admits and starts a new window of one
    timestamp, with [remaining] one below the limit and the reset time
    one window ahead; no other key is touched. *)
Theorem reset_forgets_key
    (rl : RateLimiter) (key : string) (config : ServiceConfig) (now : Z) :
  0 < requests (rateLimit config) ->
  let rl' := RL.reset key rl in
  let next := RL.isAllowed now key config rl' in
  RL.getRemainingRequests key rl' = 0
  /\ RL.getResetTime now key rl' = Fin now
  /\ RL.getRetryAfter now key config rl' = Fin 0
  /\ fst next = true
  /\ RL.recorded key (snd next) = [now]
  /\ RL.getRemainingRequests key (snd next) = requests (rateLimit config) - 1
  /\ RL.getResetTime now key (snd next) = Fin (now + window (rateLimit config))
  /\ (forall key', key' <> key ->
        limits rl' !! key' = limits rl !! key'
        /\ requestCounts rl' !! key' = requestCounts rl !! key').
Proof.
  intros Hpos rl' next.
  assert (limits rl' !! key = None) as Hl by apply lookup_delete_eq.
  assert (requestCounts rl' !! key = None) as Hr by apply lookup_delete_eq.
  assert (RL.surviving now key config rl' = []) as Hs.
  { unfold RL.surviving. by rewrite Hl. }
  assert (fst next = true) as Hfst.
  { unfold next. rewrite isAllowed_fst, Hs. apply bool_decide_eq_true. simpl. lia. }
  split_and!.
  - unfold RL.getRemainingRequests. by rewrite Hl.
  - unfold RL.getResetTime. by rewrite Hl.
  - unfold RL.getRetryAfter. rewrite Hr. simpl. by rewrite decide_True by lia.
  - done.
  - unfold next in *. by rewrite isAllowed_recorded, Hs, Hfst.
  - unfold next in *. rewrite isAllowed_remaining_after, Hs, Hfst. simpl. lia.
  - unfold next, RL.getResetTime, RL.isAllowed. rewrite Hl. simpl.
    rewrite lookup_insert_eq. simpl.
    case_decide; simpl; [lia|]. by rewrite lookup_insert_eq.
  - intros key' Hne. unfold rl', RL.reset. simpl.
    by rewrite !lookup_delete_ne.
Qed.

Lemma reset_forgets_key_witness :
  let rl := Examples.ovhExhausted in
  let config := FREE_API_CONFIGS.lyrics (env Examples.bareHost) lyricsOvh in
  fst (RL.isAllowed 5 "lyrics_lyricsOvh" config rl) = false
  /\ fst (RL.isAllowed 5 "lyrics_lyricsOvh" config (RL.reset "lyrics_lyricsOvh" rl)) = true.
Proof.
  intros rl config. split; [by vm_compute|].
  apply (reset_forgets_key rl "lyrics_lyricsOvh" config 5). by vm_compute.
Defined.

(** ** The reset time after a denial *)

Lemma getResetTime_denied now now' key config rl :
  fst (RL.isAllowed now key config rl) = false ->
  RL.getResetTime now' key (snd (RL.isAllowed now key config rl))
  = JsNum.add (JsNum.min_list (RL.surviving now key config rl))
      (window (rateLimit config)).
Proof.
  unfold RL.isAllowed, RL.getResetTime, RL.surviving, RL.recorded.
  destruct (limits rl !! key) as [li|] eqn:E; simpl;
    case_decide; simpl; try done; intros _;
    rewrite !lookup_insert_eq; simpl; done.
Qed.

(** X5. The reset time after a denial.  When [isAllowed] at [now]
    denies a key (limit at least one) after any run from the initial
    state, [getResetTime] is from then on an instant [r] later than
    [now], [getRetryAfter] at [now] is [r - now], and as long as nothing
    else is recorded [isAllowed] admits the key again exactly from [r]
    on. *)
Theorem reset_time_after_denial
    (cfg : string -> ServiceConfig) (calls : list RL.Call) (key : string) (now : Z) :
  let rl := RL.run cfg calls RL.empty in
  let rl' := snd (RL.isAllowed now key (cfg key) rl) in
  0 < requests (rateLimit (cfg key)) ->
  fst (RL.isAllowed now key (cfg key) rl) = false ->
  exists r,
    (forall now', RL.getResetTime now' key rl' = Fin r)
    /\ now < r
    /\ RL.getRetryAfter now key (cfg key) rl' = Fin (r - now)
    /\ (forall t, now <= t ->
          fst (RL.isAllowed t key (cfg key) rl') = true <-> r <= t).
Proof.
  intros rl rl' Hpos Hdeny.
  pose proof (limiter_bounded_run cfg key calls RL.empty (limiter_bounded_empty _ _))
    as (H1 & H2 & _). fold rl in H1, H2.
  pose proof (surviving_length now key (cfg key) rl) as Hlen.
  pose proof (isAllowed_fst now key (cfg key) rl) as Hfst.
  rewrite Hdeny in Hfst. symmetry in Hfst. apply bool_decide_eq_false in Hfst.
  set (valid := RL.surviving now key (cfg key) rl) in *.
  set (win := window (rateLimit (cfg key))) in *.
  assert (Z.of_nat (length valid) = requests (rateLimit (cfg key))) as Hfull by lia.
  destruct (min_list_nonempty valid) as [m Hm].
  { intros E. rewrite E in Hfull. simpl in Hfull. lia. }
  pose proof (min_list_elem _ _ Hm) as Hin.
  pose proof (min_list_le _ _ Hm) as Hle.
  assert (Forall (fun t => now - t < win) valid) as Hvalid.
  { apply Forall_forall. intros t Ht. unfold valid, RL.surviving in Ht.
    by apply prune_elem in Ht as [? _]. }
  assert (now - m < win) as Hm_in.
  { rewrite Forall_forall in Hvalid. by apply Hvalid. }
  assert (RL.recorded key rl' = valid) as Hrec.
  { unfold rl'. by rewrite isAllowed_recorded, Hdeny, app_nil_r. }
  exists (m + win). split_and!.
  - intros now'. unfold rl'. rewrite getResetTime_denied by done.
    fold valid. by rewrite Hm.
  - lia.
  - unfold RL.getRetryAfter. fold (RL.recorded key rl'). rewrite Hrec.
    rewrite decide_False by lia. rewrite Hm. simpl. f_equal. fold win. lia.
  - intros t Ht. rewrite isAllowed_fst, bool_decide_eq_true.
    unfold rl'. rewrite surviving_isAllowed. fold valid win.
    rewrite Hdeny, app_nil_r.
    split.
    + intros Hlt. destruct (decide (m + win <= t)) as [|Hnot]; [done|].
      rewrite prune_all in Hlt; [lia|].
      eapply Forall_impl; [exact Hle|]. simpl. intros; lia.
    + intros Hr.
      pose proof (prune_drops t win valid m Hin ltac:(lia)). lia.
Qed.

Lemma reset_time_after_denial_witness :
  let cfg := fun _ : string =>
    mkServiceConfig "" "" "" "https://example.org" (mkRateLimit 2 1000) 2 8000 in
  let calls := [RL.CallIsAllowed 0 "lyrics_lyricsOvh"; RL.CallIsAllowed 10 "lyrics_lyricsOvh"] in
  exists r,
    (forall now', RL.getResetTime now' "lyrics_lyricsOvh"
       (snd (RL.isAllowed 20 "lyrics_lyricsOvh" (cfg "lyrics_lyricsOvh")
               (RL.run cfg calls RL.empty))) = Fin r)
    /\ 20 < r
    /\ RL.getRetryAfter 20 "lyrics_lyricsOvh" (cfg "lyrics_lyricsOvh")
         (snd (RL.isAllowed 20 "lyrics_lyricsOvh" (cfg "lyrics_lyricsOvh")
                 (RL.run cfg calls RL.empty))) = Fin (r - 20)
    /\ (forall t, 20 <= t ->
          fst (RL.isAllowed t "lyrics_lyricsOvh" (cfg "lyrics_lyricsOvh")
                 (snd (RL.isAllowed 20 "lyrics_lyricsOvh" (cfg "lyrics_lyricsOvh")
                         (RL.run cfg calls RL.empty)))) = true <-> r <= t).
Proof.
  intros cfg calls.
  apply (reset_time_after_denial cfg calls "lyrics_lyricsOvh" 20).
  - by vm_compute.
  - by vm_compute.
Defined.

(** ** Availability checks and status reports *)

Section SomeAllowed.

Context {N : Type} `{EqDecision N}.
Variable nameOf : N -> string.
Variable prefix : string.
Variable configOf : N -> ServiceConfig.

Hypothesis windows_positive : forall n, 0 < window (rateLimit (configOf n)).

Local Abbreviation key := (Trace.key nameOf prefix).

Lemma surviving_surviving now k config rl :
  RL.prune now (window (rateLimit config)) (RL.surviving now k config rl)
  = RL.surviving now k config rl.
Proof. unfold RL.surviving. apply prune_prune. lia. Qed.

Lemma someAllowed_books services : forall w (room : N -> bool),
  NoDup (map key services) ->
  (forall q, q ∈ services -> room q = hasRoom nameOf prefix configOf w q) ->
  exists w',
    someAllowed nameOf prefix configOf services w = (Normal (existsb room services), w')
    /\ w' = set_rateLimiter (fun _ => rateLimiter w') w
    /\ (forall k config, k ∉ map key services ->
          RL.surviving (clock w) k config (rateLimiter w')
          = RL.surviving (clock w) k config (rateLimiter w))
    /\ (forall q, q ∈ services ->
          RL.surviving (clock w) (key q) (configOf q) (rateLimiter w')
          = RL.surviving (clock w) (key q) (configOf q) (rateLimiter w)
            ++ (if decide (head (filter room services) = Some q)
                then [clock w] else [])).
Proof.
  induction services as [|n services IH]; intros w room Hnd Hroom.
  - exists w. split_and!; [done|by destruct w|done|].
    intros q Hq. by apply elem_of_nil in Hq.
  - change (map key (n :: services)) with (key n :: map key services) in *.
    apply NoDup_cons in Hnd as [Hn Hnd].
    cbn [someAllowed existsb].
    rewrite bind_run. unfold isAllowed at 1.
    pose proof (isAllowed_fst (clock w) (key n) (configOf n) (rateLimiter w)) as Hfst.
    pose proof (Hroom n ltac:(left)) as Hn_room. unfold hasRoom in Hn_room.
    change (prefix +:+ nameOf n) with (key n) in Hn_room.
    rewrite <- Hn_room in Hfst.
    change (prefix +:+ nameOf n) with (key n).
    destruct (RL.isAllowed (clock w) (key n) (configOf n) (rateLimiter w))
      as [allowed rl1] eqn:Hcall.
    simpl in Hfst. subst allowed.
    assert (rl1 = snd (RL.isAllowed (clock w) (key n) (configOf n) (rateLimiter w)))
      as Hrl1 by by rewrite Hcall.
    assert (fst (RL.isAllowed (clock w) (key n) (configOf n) (rateLimiter w)) = room n)
      as Hfst by by rewrite Hcall.
    rewrite filter_cons.
    destruct (room n) eqn:Hrn; cbn [orb].
    + rewrite decide_True by done. cbn [head].
      eexists. split_and!; [done|done|..].
      * intros k config Hk. simpl. rewrite Hrl1.
        apply surviving_other. intros E. apply Hk. rewrite <- E. left.
      * intros q Hq. simpl. rewrite Hrl1.
        destruct (decide (Some n = Some q)) as [[= <-]|Hne].
        -- rewrite surviving_isAllowed, Hfst, prune_app, surviving_surviving.
           f_equal. unfold RL.prune. rewrite filter_cons, decide_True; [done|].
           specialize (windows_positive n). lia.
        -- rewrite app_nil_r. apply elem_of_cons in Hq as [->|Hq]; [done|].
           apply surviving_other. intros E. apply Hn. rewrite E.
           by apply (list_elem_of_fmap_2 key).
    + rewrite decide_False by (intros []).
      set (w1 := set_rateLimiter (fun _ => rl1) w).
      destruct (IH w1 room Hnd) as (w' & Hrun & Hw' & Hout & Hin).
      { intros q Hq. rewrite (Hroom q ltac:(by right)). unfold hasRoom. simpl.
        rewrite Hrl1, surviving_other; [done|].
        intros E. apply Hn. rewrite E. by apply (list_elem_of_fmap_2 key). }
      exists w'. split_and!.
      * exact Hrun.
      * rewrite Hw' at 1. by destruct w.
      * intros k config Hk. simpl in Hout. rewrite Hout.
        -- simpl. rewrite Hrl1. apply surviving_other.
           intros E. apply Hk. rewrite <- E. left.
        -- intros Hk'. apply Hk. by right.
      * intros q Hq. apply elem_of_cons in Hq as [->|Hq].
        -- simpl in Hout. rewrite Hout by done. simpl. rewrite Hrl1.
           rewrite surviving_isAllowed, Hfst, app_nil_r, surviving_surviving.
           destruct (decide (head (filter room services) = Some n)) as [Hhd|]; [|by rewrite app_nil_r].
           exfalso. apply Hn. apply (list_elem_of_fmap_2 key).
           apply head_Some_elem_of in Hhd. by apply list_elem_of_filter in Hhd as [_ ?].
        -- simpl in Hin. rewrite (Hin q Hq). simpl. f_equal.
           rewrite Hrl1. apply surviving_other.
           intros E. apply Hn. rewrite E. by apply (list_elem_of_fmap_2 key).
Qed.

Lemma someAllowed_books_first_with_room services check w :
  NoDup (map key services) ->
  check = someAllowed nameOf prefix configOf services ->
  books_first_with_room nameOf prefix configOf services check w.
Proof.
  intros Hnd ->.
  destruct (someAllowed_books services w (hasRoom nameOf prefix configOf w) Hnd)
    as (w' & Hrun & Hw' & _ & Hin); [done|].
  by exists w'.
Qed.

End SomeAllowed.

(** X6. [hasAvailableService] of each service tells whether some
    provider has room, changes nothing but the rate limiter, and books
    one request: what the limiter counts at the current time changes
    for the first provider with room only, by one timestamp. *)
Theorem hasAvailableService_books_first_with_room (host : Host) (w : World) :
  books_first_with_room audioServiceName "audioRecognition_"
    (FREE_API_CONFIGS.audioRecognition (env host)) FreeAudioRecognitionService.services
    (FreeAudioRecognitionService.hasAvailableService host) w
  /\ books_first_with_room lyricsServiceName "lyrics_"
       (FREE_API_CONFIGS.lyrics (env host)) FreeLyricsService.services
       (FreeLyricsService.hasAvailableService host) w
  /\ books_first_with_room translationServiceName "translation_"
       FREE_API_CONFIGS.translation FreeTranslationService.services
       FreeTranslationService.hasAvailableService w.
Proof.
  destruct (configured_limits_positive (env host)) as (Ha & Hl & Ht).
  split_and!.
  - apply someAllowed_books_first_with_room;
      [apply Ha | apply audio_keys_NoDup | done].
  - apply someAllowed_books_first_with_room;
      [apply Hl | apply lyrics_keys_NoDup | done].
  - apply someAllowed_books_first_with_room;
      [apply Ht | apply translation_keys_NoDup | done].
Qed.

Lemma someAllowed_total {N} (nameOf : N -> string) prefix configOf services :
  forall w, exists b w', someAllowed nameOf prefix configOf services w = (Normal b, w').
Proof.
  induction services as [|n services IH]; intros w; simpl.
  - by eexists _, _.
  - rewrite bind_run. unfold isAllowed at 1.
    destruct (RL.isAllowed _ _ _ _) as [[|] rl1]; [by eexists _, _|].
    apply IH.
Qed.

Lemma hasAvailableService_total host w :
  exists a l t w1 w2 w3,
    FreeAudioRecognitionService.hasAvailableService host w = (Normal a, w1)
    /\ FreeLyricsService.hasAvailableService host w1 = (Normal l, w2)
    /\ FreeTranslationService.hasAvailableService w2 = (Normal t, w3).
Proof.
  destruct (someAllowed_total audioServiceName "audioRecognition_"
              (FREE_API_CONFIGS.audioRecognition (env host))
              FreeAudioRecognitionService.services w) as (a & w1 & E1).
  destruct (someAllowed_total lyricsServiceName "lyrics_"
              (FREE_API_CONFIGS.lyrics (env host)) FreeLyricsService.services w1)
    as (l & w2 & E2).
  destruct (someAllowed_total translationServiceName "translation_"
              FREE_API_CONFIGS.translation FreeTranslationService.services w2)
    as (t & w3 & E3).
  by exists a, l, t, w1, w2, w3.
Qed.

Lemma rateLimitStatus_reads {N} (nameOf : N -> string) prefix services :
  forall status w,
    rateLimitStatus nameOf prefix services status w
    = (Normal (status ++ map (fun n => statusIn w prefix (nameOf n)) services), w).
Proof.
  induction services as [|n services IH]; intros status w; simpl.
  - by rewrite app_nil_r.
  - rewrite !bind_run. cbn [getRemainingRequests getResetTime gets]. rewrite bind_run. cbn [getResetTime gets].
    rewrite IH, <- app_assoc. done.
Qed.

(** X7. [getServiceStatus] reports, per provider in configuration
    order, the [remaining] and [resetTime] that the limiter holds
    before the call (0 and the current time for a provider that was
    never consulted); it then checks availability as [healthCheck]
    does, with the same answers and the same effect on the world. *)
Theorem getServiceStatus_reports_before_booking (host : Host) (w : World) :
  exists st h,
    LyricsTranslatorService.getServiceStatus host w
    = (Normal st, snd (LyricsTranslatorService.healthCheck host w))
    /\ fst (LyricsTranslatorService.healthCheck host w) = Normal h
    /\ ServiceStatus.audioRecognition st
       = map (statusIn w "audioRecognition_") ["acrCloud"; "auddIo"]
    /\ ServiceStatus.lyrics st
       = map (statusIn w "lyrics_") ["lyricsOvh"; "musixmatch"; "lyricsApi"]
    /\ ServiceStatus.translation st
       = map (statusIn w "translation_") ["myMemory"; "libreTranslate"; "googleTranslateFree"]
    /\ ServiceStatus.availableAudioRecognition st = Health.audioRecognition h
    /\ ServiceStatus.availableLyrics st = Health.lyrics h
    /\ ServiceStatus.availableTranslation st = Health.translation h.
Proof.
  destruct (hasAvailableService_total host w) as (a & l & t & w1 & w2 & w3 & E1 & E2 & E3).
  assert (exists h, LyricsTranslatorService.healthCheck host w = (Normal h, w3)
                    /\ Health.audioRecognition h = a /\ Health.lyrics h = l
                    /\ Health.translation h = t) as (h & Hh & Ha & Hl & Ht).
  { unfold LyricsTranslatorService.healthCheck.
    rewrite bind_run, E1, bind_run, E2, bind_run, E3. by eexists. }
  rewrite Hh. subst a l t.
  unfold LyricsTranslatorService.getServiceStatus,
    FreeAudioRecognitionService.getRateLimitStatus,
    FreeLyricsService.getRateLimitStatus, FreeTranslationService.getRateLimitStatus.
  rewrite bind_run, rateLimitStatus_reads.
  rewrite bind_run, rateLimitStatus_reads.
  rewrite bind_run, rateLimitStatus_reads.
  rewrite bind_run, E1, bind_run, E2, bind_run, E3.
  eexists _, h. split_and!; reflexivity.
Qed.

(** ** Batches of one service *)

Lemma batchFrom_returns {A R} (stage : A -> M (option R)) delay items :
  forall later results w,
  exists out w',
    batchFrom stage delay later items results w = (Normal out, w')
    /\ length out = (length results + length items)%nat.
Proof.
  induction items as [|item items IH]; intros later results w; cbn [batchFrom].
  - exists results, w. split; [done|]. simpl. lia.
  - rewrite bind_run.
    destruct ((if later then sleep delay else mret tt) w) as [c w1] eqn:Hs.
    assert (c = Normal tt) as -> by (by destruct later; injection Hs as <- _).
    rewrite bind_run. unfold try_catch at 1. rewrite bind_run.
    destruct (stage item w1) as [[r|e] w2]; simpl.
    + destruct (IH true (results ++ [r]) w2) as (out & w' & -> & Hlen).
      exists out, w'. split; [done|]. rewrite length_app in Hlen. simpl in *. lia.
    + destruct (IH true (results ++ [None]) w2) as (out & w' & -> & Hlen).
      exists out, w'. split; [done|]. rewrite length_app in Hlen. simpl in *. lia.
Qed.

Lemma translateText_unsupported host text targetLanguage sourceLanguage w :
  FreeTranslationService.isSupportedLanguage targetLanguage = false ->
  FreeTranslationService.translateText host text targetLanguage sourceLanguage w
  = (Thrown (Error ("Unsupported target language: " +:+ targetLanguage)),
     set_translationErrors (fun _ => []) w).
Proof.
  intros H. unfold FreeTranslationService.translateText. rewrite bind_run.
  cbn [modify]. by rewrite H.
Qed.

Lemma batchFrom_all_throw {A R} (stage : A -> M (option R)) delay
    {X} (f : World -> X) items :
  (forall item w, exists e w', stage item w = (Thrown e, w') /\ f w' = f w) ->
  (forall g w, f (set_clock g w) = f w) ->
  forall later results w,
  exists w',
    batchFrom stage delay later items results w
    = (Normal (results ++ replicate (length items) None), w')
    /\ f w' = f w.
Proof.
  intros Hthrow Hclock.
  induction items as [|item items IH]; intros later results w; cbn [batchFrom].
  - exists w. by rewrite app_nil_r.
  - rewrite bind_run.
    destruct ((if later then sleep delay else mret tt) w) as [c w1] eqn:Hs.
    assert (c = Normal tt /\ f w1 = f w) as [-> Hw1].
    { destruct later; injection Hs as <- <-; [|done]. split; [done|]. apply Hclock. }
    rewrite bind_run. unfold try_catch at 1. rewrite bind_run.
    destruct (Hthrow item w1) as (e & w2 & -> & Hw2). simpl.
    destruct (IH true (results ++ [None]) w2) as (w' & -> & Hw').
    exists w'. split; [|congruence].
    by rewrite <- app_assoc.
Qed.

(** X8. The batch methods of the three services ([batchRecognize],
    [batchGetLyrics] and the translation service's [batchTranslate])
    never throw and return one entry per input.  For an unsupported
    target language every entry of [batchTranslate] is [null], and
    neither the rate limiter nor the network was touched. *)
Theorem service_batches_never_throw (host : Host) :
  (forall audioBuffers w, exists results w',
      FreeAudioRecognitionService.batchRecognize host audioBuffers w = (Normal results, w')
      /\ length results = length audioBuffers)
  /\ (forall requests w, exists results w',
        FreeLyricsService.batchGetLyrics host requests w = (Normal results, w')
        /\ length results = length requests)
  /\ (forall texts targetLanguage sourceLanguage w, exists results w',
        FreeTranslationService.batchTranslate host texts targetLanguage sourceLanguage w
        = (Normal results, w')
        /\ length results = length texts)
  /\ (forall texts targetLanguage sourceLanguage w,
        FreeTranslationService.isSupportedLanguage targetLanguage = false ->
        exists w',
          FreeTranslationService.batchTranslate host texts targetLanguage sourceLanguage w
          = (Normal (replicate (length texts) None), w')
          /\ rateLimiter w' = rateLimiter w /\ fetches w' = fetches w
          /\ invoked w' = invoked w).
Proof.
  split_and!.
  - intros audioBuffers w. apply (batchFrom_returns _ _ audioBuffers false [] w).
  - intros requests w. apply (batchFrom_returns _ _ requests false [] w).
  - intros texts targetLanguage sourceLanguage w.
    apply (batchFrom_returns _ _ texts false [] w).
  - intros texts targetLanguage sourceLanguage w Hun.
    unfold FreeTranslationService.batchTranslate.
    destruct (batchFrom_all_throw
                (fun text => FreeTranslationService.translateText host text targetLanguage
                               (Some (default "auto" sourceLanguage)))
                2000 (fun w => (rateLimiter w, fetches w, invoked w)) texts)
      with (later := false) (results := @nil (option TranslationResult.t)) (w := w)
      as (w' & Hrun & Hw').
    + intros text w0. eexists _, _. split; [by apply translateText_unsupported|done].
    + done.
    + exists w'. split; [exact Hrun|]. by injection Hw' as -> -> ->.
Qed.

Lemma service_batches_never_throw_witness :
  exists w',
    FreeTranslationService.batchTranslate Examples.bareHost
      ["Yesterday"; "Let it be"] "tlh" None (Examples.fresh 0 Examples.myMemoryTranslates)
    = (Normal [None; None], w')
    /\ rateLimiter w' = RL.empty /\ fetches w' = 0%nat /\ invoked w' = [].
Proof.
  apply (proj2 (proj2 (proj2 (service_batches_never_throw Examples.bareHost)))
           ["Yesterday"; "Let it be"] "tlh" None (Examples.fresh 0 Examples.myMemoryTranslates)).
  by vm_compute.
Defined.

(** ** Lyrics search *)

Lemma getLyrics_returns host artist title w :
  exists result w',
    FreeLyricsService.getLyrics host artist title w = (Normal result, w')
    /\ from_option (fun r => FreeLyricsService.populated r = true) True result.
Proof.
  destruct (getLyrics_first_success host artist title w)
    as (tried & untried & result & w' & E & _ & _ & _ & _ & Hres).
  exists result, w'. split; [done|].
  destruct result as [r|]; [|done].
  by destruct Hres as (? & ? & ? & ? & _ & _ & _ & ? & _).
Qed.

(** X9. [searchLyrics] never throws and returns at most one result,
    a populated one.  A query without [" - "] and with fewer than three
    space-separated words is not searched at all: the result is empty
    and the world is unchanged. *)
Theorem searchLyrics_results (host : Host) (query : string) (w : World) :
  (exists results w',
      FreeLyricsService.searchLyrics host query w = (Normal results, w')
      /\ (length results <= 1)%nat
      /\ Forall (fun r => FreeLyricsService.populated r = true) results)
  /\ ((length (Js.split " - " query) < 2)%nat ->
      (length (Js.split " " query) <= 2)%nat ->
      FreeLyricsService.searchLyrics host query w = (Normal [], w)).
Proof.
  unfold FreeLyricsService.searchLyrics. split.
  - destruct (if bool_decide (2 <= length (Js.split " - " query))%nat then _ else _)
      as [artist title].
    rewrite bind_run.
    destruct (Js.truthy artist && Js.truthy title); cbn [andb].
    + rewrite bind_run.
      destruct (getLyrics_returns host artist title w) as ([r|] & w1 & -> & Hr); simpl.
      * eexists _, _. split; [done|]. split; [simpl; lia|]. by repeat constructor.
      * rewrite bind_run.
        destruct (getLyrics_returns host title artist w1) as ([r|] & w2 & -> & Hr');
          simpl; eexists _, _; (split; [done|]); (split; [simpl; lia|]);
          by repeat constructor.
    + eexists _, _. split; [done|]. split; [simpl; lia|]. constructor.
  - intros Hparts Hwords.
    rewrite bool_decide_false by lia. rewrite bool_decide_false by lia.
    done.
Qed.

Lemma searchLyrics_results_witness :
  FreeLyricsService.searchLyrics Examples.bareHost "Hey Jude"
    (Examples.fresh 0 Examples.musixmatchHasIt)
  = (Normal [], Examples.fresh 0 Examples.musixmatchHasIt).
Proof.
  apply (proj2 (searchLyrics_results Examples.bareHost "Hey Jude"
                  (Examples.fresh 0 Examples.musixmatchHasIt)));
    vm_compute; lia.
Defined.

(** ** Chunks of a long text *)

Section Strings.

Implicit Types (a b c s sep : string) (l : list string).

Lemma append_assoc a b c : (a +:+ b) +:+ c = a +:+ b +:+ c.
Proof.
  induction a as [|x a IH]; [done|].
  change (String x ((a +:+ b) +:+ c) = String x (a +:+ b +:+ c)). by rewrite IH.
Qed.

Lemma append_nil_r a : a +:+ "" = a.
Proof.
  induction a as [|x a IH]; [done|].
  change (String x (a +:+ "") = String x a). by rewrite IH.
Qed.

Lemma length_append a b : Js.length (a +:+ b) = Js.length a + Js.length b.
Proof.
  unfold Js.length. induction a as [|x a IH];
    [change ("" +:+ b) with b; simpl; lia|].
  change (Z.of_nat (S (String.length (a +:+ b)))
          = Z.of_nat (S (String.length a)) + Z.of_nat (String.length b)). lia.
Qed.

Lemma truthy_length s : Js.truthy s = bool_decide (0 < Js.length s).
Proof. destruct s; [done|]. symmetry. apply bool_decide_eq_true. unfold Js.length. simpl. lia. Qed.

Lemma truthy_append a b : Js.truthy (a +:+ b) = Js.truthy a || Js.truthy b.
Proof. by destruct a. Qed.

Lemma falsy_empty s : Js.truthy s = false -> s = "".
Proof. by destruct s. Qed.

Lemma join_cons sep a b l :
  Js.join sep (a :: b :: l) = a +:+ sep +:+ Js.join sep (b :: l).
Proof. done. Qed.

Lemma join_snoc2 sep l a b :
  Js.join sep (l ++ [a; b]) = Js.join sep (l ++ [a +:+ sep +:+ b]).
Proof.
  induction l as [|x l IH]; [done|].
  destruct l as [|y l]; [done|].
  change (x +:+ sep +:+ Js.join sep ((y :: l) ++ [a; b])
          = x +:+ sep +:+ Js.join sep ((y :: l) ++ [a +:+ sep +:+ b])).
  by rewrite IH.
Qed.

Lemma join_truthy sep a l : Js.truthy a = true -> Js.truthy (Js.join sep (a :: l)) = true.
Proof.
  intros Ha. destruct l as [|b l]; [done|].
  rewrite join_cons, truthy_append, Ha. done.
Qed.

End Strings.

Section Chunks.

Variable maxChunkSize : Z.

Local Abbreviation chunkSentences := (FreeTranslationService.chunkSentences maxChunkSize).

(** The text that is still to be pushed: the current chunk and the
    sentences to come. *)
Let pending (currentChunk : string) (sentences : list string) : string :=
  Js.join ". " (filter (fun s => Js.truthy s) (currentChunk :: map Js.trim sentences)).

Lemma chunkSentences_join sentences : forall chunks currentChunk,
  Js.join " " (chunkSentences sentences chunks currentChunk)
  = Js.join " " (chunks ++ (if Js.truthy (pending currentChunk sentences)
                            then [pending currentChunk sentences +:+ "."] else [])).
Proof.
  induction sentences as [|sentence sentences IH]; intros chunks cur.
  - unfold pending. cbn [FreeTranslationService.chunkSentences map].
    rewrite filter_cons, filter_nil.
    destruct (Js.truthy cur) eqn:Hcur.
    + rewrite decide_True by done. by cbn [Js.join]; rewrite Hcur.
    + rewrite decide_False by (intros []). by rewrite app_nil_r.
  - cbn [FreeTranslationService.chunkSentences].
    assert (pending cur (sentence :: sentences)
            = Js.join ". " (filter (fun s => Js.truthy s)
                              (cur :: Js.trim sentence :: map Js.trim sentences)))
      as Hpend by done.
    destruct (Js.truthy (Js.trim sentence)) eqn:Ht; cbn [negb].
    + set (t := Js.trim sentence) in *.
      set (R := filter (fun s => Js.truthy s) (map Js.trim sentences)).
      assert (forall c, pending c sentences
                = Js.join ". " (filter (fun s => Js.truthy s) [c] ++ R)) as Hp.
      { intros c. unfold pending, R. by rewrite <- filter_app. }
      assert (pending t sentences = Js.join ". " (t :: R)) as Hpt.
      { rewrite Hp, filter_cons, decide_True by (by rewrite Ht). done. }
      assert (Js.truthy (pending t sentences) = true) as Htp.
      { rewrite Hpt. by apply join_truthy. }
      assert (pending cur (sentence :: sentences)
              = if Js.truthy cur then cur +:+ ". " +:+ pending t sentences
                else pending t sentences) as Hsplit.
      { rewrite Hpend, Hpt. rewrite filter_cons.
        destruct (Js.truthy cur) eqn:Hcur.
        - rewrite decide_True by done.
          rewrite filter_cons, decide_True by (by fold t; rewrite Ht). done.
        - rewrite decide_False by (intros []).
          rewrite filter_cons, decide_True by (by fold t; rewrite Ht). done. }
      case_bool_decide as Hfit.
      * rewrite IH. f_equal. f_equal.
        assert (pending (cur +:+ (if Js.truthy cur then ". " else "") +:+ t) sentences
                = pending cur (sentence :: sentences)) as ->; [|done].
        rewrite Hsplit, Hpt, Hp.
        rewrite filter_cons, decide_True, filter_nil.
        2:{ rewrite !truthy_append, Ht. by destruct (Js.truthy cur), (Js.truthy _). }
        cbn [app].
        destruct (Js.truthy cur) eqn:Hcur.
        -- destruct R as [|r R]; [done|].
           rewrite !join_cons. by rewrite !append_assoc.
        -- by rewrite (falsy_empty cur Hcur).
      * rewrite IH, Htp, Hsplit.
        destruct (Js.truthy cur) eqn:Hcur.
        -- rewrite truthy_append, Hcur. cbn [orb].
           rewrite <- app_assoc. cbn [app].
           rewrite join_snoc2. f_equal. f_equal. f_equal.
           by rewrite !append_assoc.
        -- by rewrite Htp.
    + rewrite IH. f_equal. f_equal.
      assert (pending cur (sentence :: sentences) = pending cur sentences) as ->; [|done].
      rewrite Hpend. unfold pending.
      rewrite (filter_cons _ cur), (filter_cons _ cur).
      rewrite (filter_cons _ (Js.trim sentence)), Ht.
      done.
Qed.

Lemma chunkSentences_nil sentences : forall chunks currentChunk,
  chunkSentences sentences chunks currentChunk = []
  <-> chunks = [] /\ Js.truthy currentChunk = false
      /\ filter (fun s => Js.truthy s) (map Js.trim sentences) = [].
Proof.
  induction sentences as [|sentence sentences IH]; intros chunks cur;
    cbn [FreeTranslationService.chunkSentences map].
  - rewrite filter_nil. destruct (Js.truthy cur).
    + split; [|by intros (_ & ? & _)]. intros H. by apply app_nil in H as [_ ?].
    + tauto.
  - rewrite filter_cons.
    destruct (Js.truthy (Js.trim sentence)) eqn:Ht; cbn [negb].
    + rewrite decide_True by done.
      assert (forall chunks' t', Js.truthy t' = true ->
                chunkSentences sentences chunks' t' = [] <-> False) as Hno.
      { intros chunks' t' Ht'. rewrite IH, Ht'. split; [by intros (_ & ? & _)|done]. }
      case_bool_decide.
      * rewrite Hno; [split; [done|by intros (_ & _ & ?)]|].
        rewrite !truthy_append, Ht. by destruct (Js.truthy cur), (Js.truthy _).
      * rewrite Hno by done. split; [done|by intros (_ & _ & ?)].
    + rewrite decide_False by (intros []). apply IH.
Qed.

End Chunks.

(** X10. Chunking a long text only regroups its sentences: joined by
    a blank, the chunks are the non-empty trimmed sentences of the text
    in their order, separated by [". "] and closed by ["."] (every run
    of [.], [!] and [?] has become one full stop); there is no chunk
    exactly when the text has no sentence. *)
Theorem chunks_regroup_sentences (text : string) (maxChunkSize : Z) :
  maxChunkSize < Js.length text ->
  let chunks := FreeTranslationService.splitTextIntoChunks text maxChunkSize in
  Js.join " " chunks
  = match sentencesOf text with
    | [] => ""
    | sentences => Js.join ". " sentences +:+ "."
    end
  /\ (chunks = [] <-> sentencesOf text = []).
Proof.
  intros Hlong chunks. unfold chunks, FreeTranslationService.splitTextIntoChunks.
  rewrite bool_decide_false by lia.
  split.
  - rewrite chunkSentences_join. cbn [app].
    rewrite filter_cons, decide_False by (intros []). fold (sentencesOf text).
    destruct (sentencesOf text) as [|s l] eqn:E; [done|].
    rewrite join_truthy; [done|].
    assert (s ∈ sentencesOf text) as Hs by (rewrite E; left).
    apply list_elem_of_filter in Hs as [Hs _]. by destruct (Js.truthy s).
  - rewrite chunkSentences_nil. unfold sentencesOf. tauto.
Qed.

Lemma chunks_regroup_sentences_witness :
  Js.join " " (FreeTranslationService.splitTextIntoChunks
                 "Help! I need somebody.  Help?  Not just anybody" 24)
  = "Help. I need somebody. Help. Not just anybody.".
Proof.
  apply (chunks_regroup_sentences "Help! I need somebody.  Help?  Not just anybody" 24).
  by vm_compute.
Defined.


Section ChunkLengths.

Variable maxChunkSize : Z.
Variable known : list string.

(** A chunk is within the limit plus two, or a single sentence. *)
Let fine (chunk : string) : Prop :=
  Js.length chunk <= maxChunkSize + 2
  \/ exists sentence, sentence ∈ known /\ chunk = sentence +:+ ".".

Lemma chunkSentences_lengths sentences : forall chunks currentChunk,
  Forall fine chunks ->
  (Js.truthy currentChunk = true ->
   Js.length currentChunk <= maxChunkSize + 1 \/ currentChunk ∈ known) ->
  Forall (fun s => Js.truthy (Js.trim s) = true -> Js.trim s ∈ known) sentences ->
  Forall fine
    (FreeTranslationService.chunkSentences maxChunkSize sentences chunks currentChunk).
Proof.
  assert (Hpush : forall chunks cur,
    Forall fine chunks ->
    (Js.truthy cur = true -> Js.length cur <= maxChunkSize + 1 \/ cur ∈ known) ->
    Forall fine (if Js.truthy cur then chunks ++ [cur +:+ "."] else chunks)).
  { intros chunks cur Hchunks Hcur. destruct (Js.truthy cur); [|done].
    apply Forall_app. split; [done|]. constructor; [|constructor].
    destruct (Hcur eq_refl) as [Hlen|Hin]; [left|right; eauto].
    rewrite length_append. change (Js.length ".") with 1. lia. }
  induction sentences as [|sentence sentences IH]; intros chunks cur Hchunks Hcur Hall;
    cbn [FreeTranslationService.chunkSentences].
  - by apply Hpush.
  - apply Forall_cons in Hall as [Hs Hall].
    destruct (Js.truthy (Js.trim sentence)) eqn:Ht; cbn [negb]; [|by apply IH].
    case_bool_decide as Hfit.
    + apply IH; [done| |done]. intros _. left.
      rewrite !length_append.
      destruct (Js.truthy cur); [change (Js.length ". ") with 2|change (Js.length "") with 0];
        lia.
    + apply IH; [by apply Hpush| |done]. intros _. right. by apply Hs.
Qed.

End ChunkLengths.

(** X11. Every chunk is at most [maxChunkSize + 2] characters long,
    unless it is a single sentence with its closing ["."]: a sentence is
    never split, however long it is. *)
Theorem chunk_length_bound (text : string) (maxChunkSize : Z) :
  Forall (fun chunk =>
            Js.length chunk <= maxChunkSize + 2
            \/ exists sentence,
                 sentence ∈ sentencesOf text /\ chunk = sentence +:+ ".")
    (FreeTranslationService.splitTextIntoChunks text maxChunkSize).
Proof.
  unfold FreeTranslationService.splitTextIntoChunks.
  case_bool_decide as Hshort.
  - constructor; [left; lia|constructor].
  - apply chunkSentences_lengths; [constructor|done|].
    apply Forall_forall. intros s Hs Ht. unfold sentencesOf.
    apply list_elem_of_filter. split; [by rewrite Ht|].
    by apply (list_elem_of_fmap_2 Js.trim).
Qed.

(** ** The translation stage on a supported language *)

Lemma translation_dispatch_returns host chunk targetLanguage sourceLanguage w :
  exists result w',
    dispatch translationServiceName "translation_" FREE_API_CONFIGS.translation
      (FreeTranslationService.adapter host chunk targetLanguage sourceLanguage)
      (fun _ => true) FreeTranslationService.pushError
      FreeTranslationService.services w
    = (Normal result, w').
Proof.
  destruct (dispatch_first_success translationServiceName "translation_"
              FREE_API_CONFIGS.translation
              (FreeTranslationService.adapter host chunk targetLanguage sourceLanguage)
              (fun _ => true) FreeTranslationService.pushError translationErrors
              (translation_adapter_frame host chunk targetLanguage sourceLanguage)
              ltac:(by intros ? ? _ _ ->) translation_push_ok
              FreeTranslationService.services translation_keys_NoDup w)
    as (_ & _ & result & w' & E & _).
  by exists result, w'.
Qed.

Lemma translateChunks_returns host several targetLanguage chunks :
  forall translatedChunks sourceLanguage w,
  exists out w',
    FreeTranslationService.translateChunks host several targetLanguage chunks
      translatedChunks sourceLanguage w = (Normal out, w')
    /\ forall translated language, out = Some (translated, language) ->
         exists pieces, translated = translatedChunks ++ pieces
                        /\ length pieces = length chunks.
Proof.
  induction chunks as [|chunk chunks IH]; intros translatedChunks sourceLanguage w;
    cbn [FreeTranslationService.translateChunks].
  - eexists _, _. split; [done|]. intros ? ? [= <- <-]. exists []. by rewrite app_nil_r.
  - rewrite bind_run.
    destruct (translation_dispatch_returns host chunk targetLanguage sourceLanguage w)
      as ([r|] & w1 & ->); [|by eexists _, _].
    rewrite bind_run.
    destruct ((if several then sleep 1000 else mret tt) w1) as [c w2] eqn:Hs.
    assert (c = Normal tt) as -> by (by destruct several; injection Hs as <- _).
    destruct (IH (translatedChunks ++ [TranslationResult.translatedText r])
                (TranslationResult.sourceLanguage r) w2) as (out & w' & -> & Hout).
    exists out, w'. split; [done|]. intros translated language ->.
    destruct (Hout _ _ eq_refl) as (pieces & -> & Hlen).
    exists (TranslationResult.translatedText r :: pieces).
    rewrite <- app_assoc. split; [done|]. simpl. lia.
Qed.

(** X12. For a supported target language [translateText] never
    throws.  A result echoes the target language, and its text consists
    of as many translated pieces as the text has chunks, joined by line
    feeds; when the text has no chunk (a long text without a sentence)
    the result is [null] and no provider is consulted. *)
Theorem translateText_supported (host : Host) (text targetLanguage : string)
    (sourceLanguage : option string) (w : World) :
  FreeTranslationService.isSupportedLanguage targetLanguage = true ->
  let chunks := FreeTranslationService.splitTextIntoChunks text 1000 in
  exists result w',
    FreeTranslationService.translateText host text targetLanguage sourceLanguage w
    = (Normal result, w')
    /\ (chunks = [] -> result = None /\ w' = set_translationErrors (fun _ => []) w)
    /\ (forall r, result = Some r ->
          TranslationResult.targetLanguage r = targetLanguage
          /\ exists pieces,
               TranslationResult.translatedText r = Js.join (String "010" "") pieces
               /\ length pieces = length chunks).
Proof.
  intros Hsup chunks. unfold FreeTranslationService.translateText.
  rewrite bind_run. cbn [modify]. rewrite Hsup. cbn [negb].
  rewrite bind_run. fold chunks.
  destruct (translateChunks_returns host (bool_decide (1 < length chunks)%nat)
              targetLanguage chunks [] (default "auto" sourceLanguage)
              (set_translationErrors (fun _ => []) w))
    as (out & w' & Hrun & Hout).
  rewrite Hrun.
  assert (chunks = [] ->
          out = Some ([], default "auto" sourceLanguage)
          /\ w' = set_translationErrors (fun _ => []) w) as Hempty.
  { intros Hchunks. revert Hrun. rewrite Hchunks.
    cbn [FreeTranslationService.translateChunks]. by intros [= <- <-]. }
  destruct out as [[translated language]|].
  - destruct (Hout _ _ eq_refl) as (pieces & -> & Hlen). cbn [app].
    destruct (bool_decide (length pieces = 0%nat)) eqn:Hnone.
    + eexists _, _. split; [done|]. split; [|done].
      intros Hchunks. by destruct (Hempty Hchunks) as [_ ->].
    + eexists _, _. split; [done|]. split.
      * intros Hchunks. destruct (Hempty Hchunks) as [[= Hp _] _].
        apply bool_decide_eq_false in Hnone. by rewrite Hp in Hnone.
      * intros r [= <-]. split; [done|]. by exists pieces.
  - eexists _, _. split; [done|]. split; [|done].
    intros Hchunks. by destruct (Hempty Hchunks) as [? _].
Qed.

Lemma translateText_supported_witness :
  exists result w',
    FreeTranslationService.translateText Examples.bareHost "Yesterday" "es" None
      (Examples.fresh 0 Examples.myMemoryTranslates)
    = (Normal result, w')
    /\ (forall r, result = Some r ->
          TranslationResult.targetLanguage r = "es"
          /\ exists pieces,
               TranslationResult.translatedText r = Js.join (String "010" "") pieces
               /\ length pieces = 1%nat).
Proof.
  destruct (translateText_supported Examples.bareHost "Yesterday" "es" None
              (Examples.fresh 0 Examples.myMemoryTranslates) eq_refl)
    as (result & w' & Hrun & _ & Hres).
  by exists result, w'.
Defined.

(** ** Configuration checks *)

(** X13. [validateApiKeys] tells what the keyed adapters will do:
    when it reports ACRCloud, AudD.io or Musixmatch as not configured,
    the adapter throws its "not configured" error without any request;
    when it reports the provider as configured, the adapter sends a
    request, except that the Musixmatch adapter throws, without a
    request, what [encodeURIComponent] throws on the artist or on the
    title. *)
Theorem validateApiKeys_matches_adapters (host : Host) :
  let keys := validateApiKeys (env host) in
  (forall audioBuffer w,
      if ApiKeys.acrCloud keys
      then fetches (snd (FreeAudioRecognitionService.recognizeWithACRCloud host audioBuffer w))
           = S (fetches w)
      else FreeAudioRecognitionService.recognizeWithACRCloud host audioBuffer w
           = (Thrown (Error "ACRCloud API credentials not configured"), w))
  /\ (forall audioBuffer w,
        if ApiKeys.auddIo keys
        then fetches (snd (FreeAudioRecognitionService.recognizeWithAudD host audioBuffer w))
             = S (fetches w)
        else FreeAudioRecognitionService.recognizeWithAudD host audioBuffer w
             = (Thrown (Error "AudD.io API key not configured"), w))
  /\ (forall artist title w,
        if ApiKeys.musixmatch keys
        then match encodeURIComponent host artist, encodeURIComponent host title with
             | Normal _, Normal _ =>
                 (fetches w < fetches (snd (FreeLyricsService.getLyricsFromMusixmatch host
                                              artist title w)))%nat
             | Thrown error, _ | Normal _, Thrown error =>
                 FreeLyricsService.getLyricsFromMusixmatch host artist title w
                 = (Thrown error, w)
             end
        else FreeLyricsService.getLyricsFromMusixmatch host artist title w
             = (Thrown (Error "Musixmatch API key not configured"), w)).
Proof.
  intros keys. unfold keys, validateApiKeys. cbn [ApiKeys.acrCloud ApiKeys.auddIo ApiKeys.musixmatch].
  split_and!.
  - intros audioBuffer w.
    unfold FreeAudioRecognitionService.recognizeWithACRCloud.
    cbn [FREE_API_CONFIGS.audioRecognition apiKey accessKey accessSecret].
    destruct (Js.truthy (ACRCLOUD_API_KEY (env host))),
      (Js.truthy (ACRCLOUD_ACCESS_KEY (env host))),
      (Js.truthy (ACRCLOUD_ACCESS_SECRET (env host))); cbn [andb orb negb]; try done.
    rewrite bind_run. unfold fetch at 1.
    destruct (acrCloudNet (net w) (fetches w)) as [response|e]; [|done].
    destruct (negb (ok response)); [done|].
    rewrite bind_run. unfold responseJson at 1.
    destruct (json response) as [data|e]; [|done].
    destruct (negb _); [done|]. by destruct (mjoin _ ≫= head).
  - intros audioBuffer w.
    unfold FreeAudioRecognitionService.recognizeWithAudD.
    cbn [FREE_API_CONFIGS.audioRecognition apiKey].
    destruct (Js.truthy (AUDD_API_KEY (env host))); cbn [negb]; [|done].
    rewrite bind_run. unfold fetch at 1.
    destruct (auddIoNet (net w) (fetches w)) as [response|e]; [|done].
    destruct (negb (ok response)); [done|].
    rewrite bind_run. unfold responseJson at 1.
    destruct (json response) as [data|e]; [|done].
    destruct (AudD.result data); [|done]. by destruct (negb _).
  - intros artist title w.
    unfold FreeLyricsService.getLyricsFromMusixmatch.
    cbn [FREE_API_CONFIGS.lyrics apiKey].
    destruct (Js.truthy (MUSIXMATCH_API_KEY (env host))); cbn [negb]; [|done].
    rewrite bind_run. unfold evaluate at 1.
    destruct (encodeURIComponent host artist) as [encodedArtist|e]; [|done].
    rewrite bind_run. unfold evaluate at 1.
    destruct (encodeURIComponent host title) as [encodedTitle|e]; [|done].
    rewrite bind_run. unfold fetch at 1.
    destruct (musixmatchSearchNet (net w) (fetches w)) as [response|e]; [|simpl; lia].
    destruct (negb (ok response)); [simpl; lia|].
    rewrite bind_run. unfold responseJson at 1.
    destruct (json response) as [data|e]; [|simpl; lia].
    destruct (Musixmatch.track data) as [track|]; [|simpl; lia].
    rewrite bind_run. unfold fetch at 1. cbn [fetches set_fetches set_clock net].
    destruct (musixmatchLyricsNet _ _) as [response2|e]; [|simpl; lia].
    destruct (negb (ok response2)); [simpl; lia|].
    rewrite bind_run. unfold responseJson at 1.
    destruct (json response2) as [data2|e]; [|simpl; lia].
    destruct (Musixmatch.lyrics_body data2); [|simpl; lia].
    destruct (negb _); simpl; lia.
Qed.

(** X14. [validateEnvironment]: [valid] is truthy exactly when
    [validateApiKeys] finds a recognition provider configured; it is
    the boolean [true] exactly when there is no warning, which is when
    all three keyed providers are configured; it is never the boolean
    [false]; with a warning, a truthy [valid] is the value of
    [ACRCLOUD_ACCESS_SECRET] or of [AUDD_API_KEY] itself.  There are at
    most four warnings, and no more recommendations than warnings. *)
Theorem validateEnvironment_valid (p : ProcessEnv.t) :
  let report := validateEnvironment p in
  let keys := validateApiKeys (ProcessEnv.toEnv p) in
  JsValue.truthy (EnvironmentReport.valid report)
  = ApiKeys.acrCloud keys || ApiKeys.auddIo keys
  /\ (EnvironmentReport.valid report = JsValue.boolean true
      <-> EnvironmentReport.warnings report = [])
  /\ (EnvironmentReport.warnings report = []
      <-> ApiKeys.acrCloud keys && ApiKeys.auddIo keys && ApiKeys.musixmatch keys = true)
  /\ EnvironmentReport.valid report <> JsValue.boolean false
  /\ (EnvironmentReport.warnings report <> [] ->
      JsValue.truthy (EnvironmentReport.valid report) = true ->
      EnvironmentReport.valid report
      = JsValue.ofVariable (ProcessEnv.ACRCLOUD_ACCESS_SECRET p)
      \/ EnvironmentReport.valid report
         = JsValue.ofVariable (ProcessEnv.AUDD_API_KEY p))
  /\ (length (EnvironmentReport.recommendations report)
      <= length (EnvironmentReport.warnings report) <= 4)%nat.
Proof.
  destruct p as [a b c d e].
  destruct a as [[|? ?]|], b as [[|? ?]|], c as [[|? ?]|], d as [[|? ?]|], e as [[|? ?]|];
    cbn; split_and!;
    first [ reflexivity | lia | discriminate
          | split; intros; first [ reflexivity | discriminate ]
          | intros; first [ by left | by right | discriminate | exfalso; congruence ] ].
Qed.

(** ** Confidence *)

Section Confidence.

Import LyricsTranslationPipeline.

Local Open Scope Q_scope.

Lemma Qmax_l a b : a <= LyricsTranslatorService.Qmax a b.
Proof.
  unfold LyricsTranslatorService.Qmax. destruct (Qle_bool a b) eqn:E.
  - by apply Qle_bool_iff.
  - apply Qle_refl.
Qed.

Lemma Qmax_r a b : b <= LyricsTranslatorService.Qmax a b.
Proof.
  unfold LyricsTranslatorService.Qmax. destruct (Qle_bool a b) eqn:E.
  - apply Qle_refl.
  - apply Qlt_le_weak, Qnot_le_lt. intros H. apply Qle_bool_iff in H. congruence.
Qed.

Lemma Qmin_bounds a b x : x <= a -> x <= b -> x <= LyricsTranslatorService.Qmin a b.
Proof. unfold LyricsTranslatorService.Qmin. by destruct (Qle_bool a b). Qed.

Lemma Qmin_l a b : LyricsTranslatorService.Qmin a b <= a.
Proof.
  unfold LyricsTranslatorService.Qmin. destruct (Qle_bool a b) eqn:E.
  - apply Qle_refl.
  - apply Qlt_le_weak, Qnot_le_lt. intros H. apply Qle_bool_iff in H. congruence.
Qed.

Lemma add_if_le (b : bool) (c d : Q) : 0 <= d -> c <= (if b then c + d else c).
Proof. destruct b; lra. Qed.

Ltac grows :=
  repeat first
    [ apply Qle_refl
    | match goal with
      | |- _ <= match ?o with Some _ => _ | None => _ end => destruct o
      | |- _ <= (if ?b then _ + _ else _) =>
          eapply Qle_trans; [|apply add_if_le; lra]
      | |- _ <= (if ?b then _ else _) => destruct b
      | |- _ <= LyricsTranslatorService.Qmax _ _ =>
          eapply Qle_trans; [|apply Qmax_l]
      end ].

Lemma calculateOverallConfidence_bounds result :
  0 <= LyricsTranslatorService.calculateOverallConfidence result <= 1
  /\ (1 # 2) - inject_Z (Z.of_nat (length (errors result))) * (1 # 10)
     <= LyricsTranslatorService.calculateOverallConfidence result.
Proof.
  unfold LyricsTranslatorService.calculateOverallConfidence. cbv zeta.
  split; [split|].
  - apply Qmin_bounds; [lra|apply Qmax_l].
  - apply Qmin_l.
  - assert (0 <= inject_Z (Z.of_nat (length (errors result)))) as Hn.
    { change 0 with (inject_Z 0). rewrite <- Zle_Qle. lia. }
    apply Qmin_bounds; [lra|].
    eapply Qle_trans; [|apply Qmax_r].
    apply Qplus_le_compat; [|apply Qle_refl].
    grows; lra.
Qed.

Lemma calculateOverallConfidence_no_errors result :
  errors result = [] ->
  (1 # 2) <= LyricsTranslatorService.calculateOverallConfidence result <= 1.
Proof.
  intros He. destruct (calculateOverallConfidence_bounds result) as [[_ Hhi] Hlo].
  rewrite He in Hlo. change (inject_Z (Z.of_nat (length (@nil ServiceError.t)))) with 0 in Hlo.
  split; [lra|done].
Qed.

End Confidence.

Section Stamps.

Variable host : Host.

Import LyricsTranslationPipeline.

Lemma translateFromAudioBody_stamped startTime audioBuffer options l w :
  translation l = None -> errors l = [] -> confidence l = 0%Q ->
  wp (LyricsTranslatorService.translateFromAudioBody host startTime audioBuffer options)
    (l, w) (body_stamped startTime).
Proof.
  intros Hl He Hc. unfold LyricsTranslatorService.translateFromAudioBody.
  assert (Hdone : forall l', errors l' = [] ->
            ((1 # 2) <= LyricsTranslatorService.calculateOverallConfidence l' <= 1)%Q).
  { apply calculateOverallConfidence_no_errors. }
  wp_step. apply wp_if; intros _.
  - wp_step. apply wp_liftS, wp_any. intros [[r|]|e] w1; [| |done].
    + wp_steps. apply wp_if; intros _.
      * by wp_steps.
      * wp_steps. apply wp_liftS, wp_any. intros [[lr|]|e] w2; [| |done].
        -- wp_steps. apply wp_liftS, wp_any. intros [[tr|]|e] w3; [| |done].
           ++ wp_steps. split; [done|]. by apply Hdone.
           ++ by wp_steps.
        -- by wp_steps.
    + by wp_steps.
  - wp_steps. apply wp_if; intros _.
    + by wp_steps.
    + wp_steps. apply wp_liftS, wp_any. intros [[lr|]|e] w2; [| |done].
      * wp_steps. apply wp_liftS, wp_any. intros [[tr|]|e] w3; [| |done].
        -- wp_steps. split; [done|]. by apply Hdone.
        -- by wp_steps.
      * by wp_steps.
Qed.

Lemma translateFromAudio_stamped audioBuffer options w :
  wp (LyricsTranslatorService.translateFromAudio host audioBuffer options) w
    (fun c w' => exists outcome, c = Normal outcome /\ stamped w outcome w').
Proof.
  unfold LyricsTranslatorService.translateFromAudio. wp_steps.
  eapply wp_mono; [by apply translateFromAudioBody_stamped|].
  intros [[|]|e] [l w'] Hpost; simpl in Hpost; wp_steps.
  - exists l. split; [done|]. destruct Hpost as (Ht & Hc & Hp).
    unfold stamped. by rewrite Ht.
  - eexists. split; [done|]. destruct Hpost as [Ht Hc].
    unfold stamped. simpl. split; [done|]. by destruct (translation l).
  - eexists. split; [done|]. destruct Hpost as [Ht Hc].
    unfold stamped. simpl. split; [done|]. by rewrite Ht.
Qed.

End Stamps.

(** X15. Every outcome of [translateFromAudio] and of
    [translateFromSongInfo] carries the time that elapsed on the clock
    as [processingTime]; its [confidence] is 0 when there is no
    translation, and between 0.5 and 1 when there is one. *)
Theorem outcome_is_stamped (host : Host) :
  (forall audioBuffer options w, exists outcome w',
      LyricsTranslatorService.translateFromAudio host audioBuffer options w
      = (Normal outcome, w')
      /\ stamped w outcome w')
  /\ (forall artist title targetLanguage sourceLanguage w, exists outcome w',
        LyricsTranslatorService.translateFromSongInfo host artist title targetLanguage
          sourceLanguage w = (Normal outcome, w')
        /\ stamped w outcome w').
Proof.
  split.
  - intros audioBuffer options w.
    destruct (wp_elim _ _ _ (translateFromAudio_stamped host audioBuffer options w))
      as (c & w' & E & outcome & -> & H).
    by exists outcome, w'.
  - intros artist title targetLanguage sourceLanguage w.
    unfold LyricsTranslatorService.translateFromSongInfo.
    destruct (wp_elim _ _ _ (translateFromAudio_stamped host []
      {| TranslationOptions.targetLanguage := targetLanguage;
         TranslationOptions.sourceLanguage := sourceLanguage;
         TranslationOptions.skipAudioRecognition := true;
         TranslationOptions.manualSongInfo :=
           Some {| SongInfo.artist := artist; SongInfo.title := title |};
         TranslationOptions.qualityThreshold := None |} w))
      as (c & w' & E & outcome & -> & H).
    by exists outcome, w'.
Qed.

Section LyricsOnly.

Variable host : Host.

Import LyricsTranslationPipeline.

Lemma withRetry_returns {R} (stage : M (option R)) (accepted : R -> bool) w :
  exists result w',
    LyricsTranslatorService.withRetry stage accepted LyricsTranslatorService.maxRetries w
    = (Normal result, w').
Proof.
  rewrite withRetry_twoAttempts. unfold twoAttempts, lastAttempt.
  destruct (stage w) as [[[r|]|e] w1].
  - destruct (accepted r); [by eexists _, _|].
    destruct (stage w1) as [[[r'|]|e'] w2]; by eexists _, _.
  - destruct (stage w1) as [[[r'|]|e'] w2]; by eexists _, _.
  - destruct (stage _) as [[[r'|]|e'] w2]; by eexists _, _.
Qed.

Lemma translateLyricsOnly_stamped lyrics_ targetLanguage sourceLanguage songInfo w :
  wp (LyricsTranslatorService.translateLyricsOnly host lyrics_ targetLanguage
        sourceLanguage songInfo) w
    (fun c w' => exists outcome,
       c = Normal outcome
       /\ processingTime outcome = clock w' - clock w
       /\ ((4 # 10) <= confidence outcome <= 1)%Q
       /\ (translation outcome <> None -> ((1 # 2) <= confidence outcome)%Q)).
Proof.
  unfold LyricsTranslatorService.translateLyricsOnly. wp_steps.
  apply wp_liftS.
  destruct (withRetry_returns
              (FreeTranslationService.translateText host lyrics_ targetLanguage sourceLanguage)
              (fun result =>
                 bool_decide (0 < Js.length (Js.trim (TranslationResult.translatedText result))))
              w) as (result & w1 & Hrun).
  apply (wp_run _ _ _ _ _ Hrun).
  destruct result as [tr|]; wp_steps.
  - rewrite bool_decide_true by eauto. wp_steps.
    eexists. split; [done|]. cbn [processingTime confidence translation set_processingTime set_confidence set_translation].
    split; [done|].
    match goal with |- context [LyricsTranslatorService.calculateOverallConfidence ?l] =>
      destruct (calculateOverallConfidence_no_errors l eq_refl) as [Hlo Hhi] end.
    split; [split; [lra|done]|done].
  - rewrite bool_decide_false by (by intros [? ?]). wp_steps.
    eexists. split; [done|]. cbn [processingTime confidence translation set_processingTime set_confidence set_translation push_error].
    split; [done|].
    match goal with |- context [LyricsTranslatorService.calculateOverallConfidence ?l] =>
      destruct (calculateOverallConfidence_bounds l) as [[_ Hhi] Hlo] end.
    cbn [errors app length push_error set_translation] in Hlo.
    change (inject_Z (Z.of_nat 1)) with 1%Q in Hlo.
    split; [split; [lra|done]|done].
Qed.

End LyricsOnly.

(** X16. [translateLyricsOnly] never throws, stamps the elapsed
    time, and always computes a confidence: at least 0.4 even when the
    translation failed (where the audio pipeline reports 0), at least
    0.5 with a translation, at most 1. *)
Theorem translateLyricsOnly_confidence (host : Host) (lyrics_ targetLanguage : string)
    (sourceLanguage : option string) (songInfo : option SongInfo.t) (w : World) :
  exists outcome w',
    LyricsTranslatorService.translateLyricsOnly host lyrics_ targetLanguage
      sourceLanguage songInfo w = (Normal outcome, w')
    /\ LyricsTranslationPipeline.processingTime outcome = clock w' - clock w
    /\ ((4 # 10) <= LyricsTranslationPipeline.confidence outcome <= 1)%Q
    /\ (LyricsTranslationPipeline.translation outcome <> None ->
        ((1 # 2) <= LyricsTranslationPipeline.confidence outcome)%Q).
Proof.
  destruct (wp_elim _ _ _
    (translateLyricsOnly_stamped host lyrics_ targetLanguage sourceLanguage songInfo w))
    as (c & w' & E & outcome & -> & H).
  by exists outcome, w'.
Qed.

(** X17. The recognition confidence does not count: as long as it
    is at most 1 (ACRCloud's score out of 100, the fixed 0.8 of
    AudD.io), [calculateOverallConfidence] gives the same value as
    without any recognition result, because 0.3 times the confidence
    stays below the base of 0.5. *)
Theorem audio_confidence_is_ignored (result : LyricsTranslationPipeline.t) :
  (forall recognized c,
      LyricsTranslationPipeline.audioRecognition result = Some recognized ->
      AudioRecognitionResult.confidence recognized = Some c -> (c <= 1)%Q) ->
  LyricsTranslatorService.calculateOverallConfidence result
  = LyricsTranslatorService.calculateOverallConfidence
      (LyricsTranslationPipeline.set_audioRecognition None result).
Proof.
  intros Hle. unfold LyricsTranslatorService.calculateOverallConfidence.
  destruct result as [[recognized|] ly tr er pt cf]; [|done].
  cbn [LyricsTranslationPipeline.audioRecognition LyricsTranslationPipeline.lyrics
       LyricsTranslationPipeline.translation LyricsTranslationPipeline.errors
       LyricsTranslationPipeline.set_audioRecognition mbind option_bind].
  destruct (AudioRecognitionResult.confidence recognized) as [c|] eqn:Hc; [|done].
  specialize (Hle recognized c eq_refl Hc).
  destruct (Qeq_bool c 0); [done|].
  assert (LyricsTranslatorService.Qmax (5 # 10) (c * (3 # 10)) = (5 # 10)%Q) as ->; [|done].
  unfold LyricsTranslatorService.Qmax.
  destruct (Qle_bool (5 # 10) (c * (3 # 10))) eqn:E; [|done].
  apply Qle_bool_iff in E. lra.
Qed.

Lemma audio_confidence_is_ignored_witness :
  let recognized :=
    {| AudioRecognitionResult.title := Some "Yesterday";
       AudioRecognitionResult.artist := Some "The Beatles";
       AudioRecognitionResult.album := None;
       AudioRecognitionResult.duration := None;
       AudioRecognitionResult.confidence := Some (97 # 100)%Q;
       AudioRecognitionResult.source := "ACRCloud" |} in
  let result :=
    {| LyricsTranslationPipeline.audioRecognition := Some recognized;
       LyricsTranslationPipeline.lyrics := None;
       LyricsTranslationPipeline.translation := None;
       LyricsTranslationPipeline.errors := [];
       LyricsTranslationPipeline.processingTime := 0;
       LyricsTranslationPipeline.confidence := 0 |} in
  LyricsTranslatorService.calculateOverallConfidence result
  = LyricsTranslatorService.calculateOverallConfidence
      (LyricsTranslationPipeline.set_audioRecognition None result).
Proof.
  intros recognized result. apply (audio_confidence_is_ignored result).
  intros ? c [= <-] [= <-]. by vm_compute.
Defined.

(** ** Options of the audio pipeline *)

(** X18. With [manualSongInfo], [translateFromAudio] is
    [translateFromSongInfo] on that song: the audio buffer and
    [skipAudioRecognition] are not looked at.  With
    [skipAudioRecognition] and no [manualSongInfo] it returns the
    missing-song-info outcome at once, and the world is unchanged. *)
Theorem manual_song_info_bypasses_recognition (host : Host)
    (audioBuffer : list Byte.byte) (options : TranslationOptions.t) (w : World) :
  match TranslationOptions.manualSongInfo options with
  | Some songInfo =>
      LyricsTranslatorService.translateFromAudio host audioBuffer options w
      = LyricsTranslatorService.translateFromSongInfo host
          (SongInfo.artist songInfo) (SongInfo.title songInfo)
          (TranslationOptions.targetLanguage options)
          (TranslationOptions.sourceLanguage options) w
  | None =>
      TranslationOptions.skipAudioRecognition options = true ->
      LyricsTranslatorService.translateFromAudio host audioBuffer options w
      = (Normal missingSongInfoOutcome, w)
  end.
Proof.
  destruct options as [targetLanguage sourceLanguage skip [[artist title]|] threshold];
    cbn [TranslationOptions.manualSongInfo TranslationOptions.skipAudioRecognition
         TranslationOptions.targetLanguage TranslationOptions.sourceLanguage
         SongInfo.artist SongInfo.title].
  - unfold LyricsTranslatorService.translateFromSongInfo,
      LyricsTranslatorService.translateFromAudio,
      LyricsTranslatorService.translateFromAudioBody.
    cbn [TranslationOptions.manualSongInfo TranslationOptions.skipAudioRecognition
         TranslationOptions.targetLanguage TranslationOptions.sourceLanguage].
    rewrite bool_decide_true by eauto. by rewrite !andb_false_r.
  - intros ->.
    unfold LyricsTranslatorService.translateFromAudio,
      LyricsTranslatorService.translateFromAudioBody.
    cbn. unfold missingSongInfoOutcome. cbv -[Z.sub]. by rewrite Z.sub_diag.
Qed.

Lemma manual_song_info_bypasses_recognition_witness :
  LyricsTranslatorService.translateFromAudio Examples.keyedHost []
    {| TranslationOptions.targetLanguage := "es";
       TranslationOptions.sourceLanguage := None;
       TranslationOptions.skipAudioRecognition := true;
       TranslationOptions.manualSongInfo := None;
       TranslationOptions.qualityThreshold := None |}
    (Examples.fresh 0 Examples.musixmatchHasIt)
  = (Normal missingSongInfoOutcome, Examples.fresh 0 Examples.musixmatchHasIt).
Proof.
  apply (manual_song_info_bypasses_recognition Examples.keyedHost []
           {| TranslationOptions.targetLanguage := "es";
              TranslationOptions.sourceLanguage := None;
              TranslationOptions.skipAudioRecognition := true;
              TranslationOptions.manualSongInfo := None;
              TranslationOptions.qualityThreshold := None |}
           (Examples.fresh 0 Examples.musixmatchHasIt)).
  reflexivity.
Defined.

(** ** Requests per stage *)

Section Spends.

Lemma spends_weaken {A} k k' (m : M A) : (k <= k')%nat -> spends k m -> spends k' m.
Proof. intros Hle H w. specialize (H w). lia. Qed.

Lemma spends_ret {A} (a : A) : spends 0 (mret a : M A).
Proof. intros w. simpl. lia. Qed.

Lemma spends_throw {A} (e : Exn) : spends 0 (throw e : M A).
Proof. intros w. simpl. lia. Qed.

Lemma spends_fetch {A} (endpoint : Network -> nat -> Completion (Response A)) :
  spends 1 (fetch endpoint).
Proof. intros w. simpl. lia. Qed.

Lemma spends_json {A} (response : Response A) : spends 0 (responseJson response : M A).
Proof. intros w. simpl. lia. Qed.

Lemma spends_evaluate {A} (c : Completion A) : spends 0 (evaluate c : M A).
Proof. intros w. simpl. lia. Qed.

Lemma spends_modify (g : World -> World) :
  (forall w, fetches (g w) = fetches w) -> spends 0 (modify g).
Proof. intros H w. simpl. rewrite H. lia. Qed.

Lemma spends_isAllowed key config : spends 0 (isAllowed key config).
Proof. intros w. unfold isAllowed. destruct (RL.isAllowed _ _ _ _). simpl. lia. Qed.

Lemma spends_getRetryAfter key config : spends 0 (getRetryAfter key config).
Proof. intros w. simpl. lia. Qed.

Lemma spends_bind {A B} k1 k2 (m : M A) (f : A -> M B) :
  spends k1 m -> (forall a, spends k2 (f a)) -> spends (k1 + k2) (m ≫= f).
Proof.
  intros Hm Hf w. rewrite bind_run. specialize (Hm w).
  destruct (m w) as [[a|e] w1]; simpl in *; [|lia].
  specialize (Hf a w1). lia.
Qed.

Lemma spends_bind0 {A B} k (m : M A) (f : A -> M B) :
  spends 0 m -> (forall a, spends k (f a)) -> spends k (m ≫= f).
Proof. apply (spends_bind 0 k). Qed.

Lemma spends_try_catch {A} k1 k2 (body : M A) (handler : Exn -> M A) :
  spends k1 body -> (forall e, spends k2 (handler e)) ->
  spends (k1 + k2) (try_catch body handler).
Proof.
  intros Hm Hf w. unfold try_catch. specialize (Hm w).
  destruct (body w) as [[a|e] w1]; simpl in *; [lia|].
  specialize (Hf e w1). lia.
Qed.

End Spends.

(** Straight-line adapter code: count the [fetch] calls on the longest
    path. *)
Ltac spends :=
  repeat first
    [ apply spends_ret
    | apply spends_throw
    | apply spends_json
    | apply spends_evaluate
    | apply spends_fetch
    | match goal with
      | |- spends _ (if ?b then _ else _) => destruct b
      | |- spends _ (match ?x with _ => _ end) => destruct x
      | |- spends ?k (mbind _ (fetch _)) =>
          apply (spends_bind 1 (k - 1)); [apply spends_fetch|intros ?]
      | |- spends ?k (mbind _ (evaluate _)) =>
          apply (spends_bind 0 k); [apply spends_evaluate|intros ?]
      | |- spends ?k (mbind _ (responseJson _)) =>
          apply (spends_bind 0 k); [apply spends_json|intros ?]
      | |- spends ?k (try_catch _ _) =>
          apply (spends_try_catch k 0); [|intros ?]
      | |- spends _ (mret _) => eapply spends_weaken; [|apply spends_ret]; simpl; lia
      | |- spends _ (throw _) => eapply spends_weaken; [|apply spends_throw]; simpl; lia
      end ].

Lemma audio_adapter_spends host audioBuffer serviceName :
  spends 1 (FreeAudioRecognitionService.adapter host audioBuffer serviceName).
Proof.
  destruct serviceName; simpl;
    unfold FreeAudioRecognitionService.recognizeWithACRCloud,
      FreeAudioRecognitionService.recognizeWithAudD; spends.
Qed.

Lemma lyrics_adapter_spends host artist title serviceName :
  spends (match serviceName with musixmatch => 2 | _ => 1 end)
    (FreeLyricsService.adapter host artist title serviceName).
Proof.
  destruct serviceName; simpl;
    unfold FreeLyricsService.getLyricsFromOvh,
      FreeLyricsService.getLyricsFromMusixmatch,
      FreeLyricsService.getLyricsFromLyricsApi; spends.
Qed.

Lemma translation_adapter_spends host chunk targetLanguage sourceLanguage serviceName :
  spends 1
    (FreeTranslationService.adapter host chunk targetLanguage sourceLanguage serviceName).
Proof.
  destruct serviceName; simpl;
    unfold FreeTranslationService.translateWithMyMemory,
      FreeTranslationService.translateWithLibreTranslate,
      FreeTranslationService.translateWithGoogleFree; spends.
Qed.

Section SpendsDispatch.

Context {N R : Type}.
Variable nameOf : N -> string.
Variable prefix : string.
Variable configOf : N -> ServiceConfig.
Variable adapter : N -> M (option R).
Variable populated : R -> bool.
Variable pushError : ServiceError.t -> M unit.
Variable cost : N -> nat.

Hypothesis adapter_spends : forall n, spends (cost n) (adapter n).
Hypothesis push_spends : forall e, spends 0 (pushError e).

Lemma spends_attempt n :
  spends (cost n) (attempt nameOf prefix configOf adapter populated pushError n).
Proof.
  unfold attempt.
  eapply spends_weaken; [|apply (spends_try_catch (cost n) 0)]; [lia|..].
  - apply (spends_bind 0 (cost n)); [apply spends_isAllowed|]. intros [|]; simpl.
    + apply (spends_bind 0 (cost n)); [by apply spends_modify|]. intros _.
      replace (cost n) with (cost n + 0)%nat by lia.
      apply spends_bind; [apply adapter_spends|]. intros [r|]; [|apply spends_ret].
      destruct (populated r); [|apply spends_ret].
      apply (spends_bind 0 0); [by apply spends_modify|]. intros _. apply spends_ret.
    + eapply spends_weaken; [|apply (spends_bind 0 0)]; [lia|apply spends_getRetryAfter|].
      intros retryAfter.
      apply (spends_bind 0 0); [apply push_spends|]. intros _. apply spends_ret.
  - intros e. apply (spends_bind 0 0); [apply push_spends|]. intros _. apply spends_ret.
Qed.

Lemma spends_dispatch services :
  spends (sum_list (map cost services))
    (dispatch nameOf prefix configOf adapter populated pushError services).
Proof.
  induction services as [|n services IH]; cbn [dispatch map sum_list sum_list_with];
    [apply spends_ret|].
  apply spends_bind; [apply spends_attempt|].
  intros [r|]; [|apply IH].
  eapply spends_weaken; [|apply spends_ret]. lia.
Qed.

End SpendsDispatch.

Lemma spends_translateChunks host several targetLanguage chunks :
  forall translatedChunks sourceLanguage,
    spends (3 * length chunks)
      (FreeTranslationService.translateChunks host several targetLanguage chunks
         translatedChunks sourceLanguage).
Proof.
  induction chunks as [|chunk chunks IH]; intros translatedChunks sourceLanguage;
    cbn [FreeTranslationService.translateChunks].
  - apply spends_ret.
  - replace (3 * length (chunk :: chunks))%nat with (3 + 3 * length chunks)%nat
      by (simpl; lia).
    apply spends_bind.
    + apply (spends_dispatch _ _ _ _ _ _ (fun _ => 1%nat)).
      * apply translation_adapter_spends.
      * intros e. by apply spends_modify.
    + intros [r|]; [|eapply spends_weaken; [|apply spends_ret]; lia].
      apply spends_bind0; [|intros _; apply IH].
      destruct several; [by apply spends_modify|apply spends_ret].
Qed.

Lemma spends_withRetry {R} k (stage : M (option R)) accepted n :
  spends k stage ->
  spends (n * k) (LyricsTranslatorService.withRetry stage accepted n).
Proof.
  intros Hstage. induction n as [|n IH]; cbn [LyricsTranslatorService.withRetry];
    [apply spends_ret|].
  replace (S n * k)%nat with (k + n * k)%nat by lia.
  apply spends_bind.
  - eapply spends_weaken; [|apply (spends_try_catch k 0)]; [lia|..].
    + eapply spends_weaken; [|apply (spends_bind k 0)]; [lia|done|].
      intros [r|]; [|apply spends_ret]. destruct (accepted r); apply spends_ret.
    + intros e. apply (spends_bind 0 0); [|intros; apply spends_ret].
      case_bool_decide; [apply spends_ret|by apply spends_modify].
  - intros [r|]; [|apply IH]. eapply spends_weaken; [|apply spends_ret]. lia.
Qed.

(** X19. Requests per stage call: [recognizeAudio] sends at most 2
    requests, [getLyrics] at most 4 (Musixmatch takes two),
    [translateText] at most 3 per chunk; the retrying wrappers of the
    orchestrator at most twice as many. *)
Theorem stage_request_budget (host : Host) :
  (forall audioBuffer,
      spends 2 (FreeAudioRecognitionService.recognizeAudio host audioBuffer)
      /\ spends 4 (LyricsTranslatorService.recognizeAudioWithRetry host audioBuffer))
  /\ (forall artist title,
        spends 4 (FreeLyricsService.getLyrics host artist title)
        /\ spends 8 (LyricsTranslatorService.getLyricsWithRetry host artist title))
  /\ (forall text targetLanguage sourceLanguage,
        let chunks := length (FreeTranslationService.splitTextIntoChunks text 1000) in
        spends (3 * chunks)
          (FreeTranslationService.translateText host text targetLanguage sourceLanguage)
        /\ spends (6 * chunks)
             (LyricsTranslatorService.translateWithRetry host text targetLanguage
                sourceLanguage)).
Proof.
  assert (Haudio : forall audioBuffer,
            spends 2 (FreeAudioRecognitionService.recognizeAudio host audioBuffer)).
  { intros audioBuffer. unfold FreeAudioRecognitionService.recognizeAudio.
    apply (spends_bind 0 2); [by apply spends_modify|]. intros _.
    apply (spends_dispatch _ _ _ _ _ _ (fun _ => 1%nat)).
    - apply audio_adapter_spends.
    - intros e. by apply spends_modify. }
  assert (Hlyrics : forall artist title,
            spends 4 (FreeLyricsService.getLyrics host artist title)).
  { intros artist title. unfold FreeLyricsService.getLyrics.
    apply (spends_bind 0 4); [by apply spends_modify|]. intros _.
    apply (spends_dispatch _ _ _ _ _ _
             (fun s => match s with musixmatch => 2%nat | _ => 1%nat end)).
    - apply lyrics_adapter_spends.
    - intros e. by apply spends_modify. }
  assert (Htext : forall text targetLanguage sourceLanguage,
            spends (3 * length (FreeTranslationService.splitTextIntoChunks text 1000))
              (FreeTranslationService.translateText host text targetLanguage
                 sourceLanguage)).
  { intros text targetLanguage sourceLanguage.
    unfold FreeTranslationService.translateText.
    apply spends_bind0; [by apply spends_modify|]. intros _.
    destruct (negb _); [eapply spends_weaken; [|apply spends_throw]; lia|].
    eapply spends_weaken;
      [|apply (spends_bind
                 (3 * length (FreeTranslationService.splitTextIntoChunks text 1000)) 0)];
      [lia|apply spends_translateChunks|].
    intros [[translatedChunks language]|]; [|apply spends_ret].
    case_bool_decide; apply spends_ret. }
  split_and!.
  - intros audioBuffer. split; [done|].
    apply (spends_withRetry 2 _ _ 2), Haudio.
  - intros artist title. split; [done|].
    apply (spends_withRetry 4 _ _ 2), Hlyrics.
  - intros text targetLanguage sourceLanguage chunks. split; [apply Htext|].
    eapply spends_weaken; [|apply (spends_withRetry (3 * chunks) _ _ 2), Htext].
    unfold LyricsTranslatorService.maxRetries. lia.
Qed.

(** ** Lyrics come back trimmed *)

Section Trim.

Implicit Types (s : string).

(** [s] does not begin with white space. *)
Let tight s : Prop :=
  match s with
  | EmptyString => True
  | String c _ => Js.isWhiteSpace c = false
  end.

Lemma trimStart_tight s : tight (Js.trimStart s).
Proof.
  induction s as [|c s IH]; [done|]. simpl.
  destruct (Js.isWhiteSpace c) eqn:E; [done|]. exact E.
Qed.

Lemma tight_trimStart s : tight s -> Js.trimStart s = s.
Proof. destruct s as [|c s]; [done|]. simpl. by intros ->. Qed.

Lemma trimEnd_tight s : tight s -> tight (Js.trimEnd s).
Proof.
  destruct s as [|c s]; [done|]. simpl. intros Hc.
  destruct (Js.trimEnd s); [by rewrite Hc|done].
Qed.

Lemma trimEnd_idem s : Js.trimEnd (Js.trimEnd s) = Js.trimEnd s.
Proof.
  induction s as [|c s IH]; [done|]. simpl.
  destruct (Js.trimEnd s) as [|d t] eqn:E.
  - destruct (Js.isWhiteSpace c) eqn:Hc; [done|]. simpl. by rewrite Hc.
  - change (Js.trimEnd (String c (String d t)))
      with (match Js.trimEnd (String d t) with
            | EmptyString => if Js.isWhiteSpace c then EmptyString else String c EmptyString
            | t' => String c t'
            end).
    by rewrite IH.
Qed.

Lemma trim_idem s : Js.trim (Js.trim s) = Js.trim s.
Proof.
  unfold Js.trim.
  rewrite (tight_trimStart (Js.trimEnd (Js.trimStart s))).
  - apply trimEnd_idem.
  - apply trimEnd_tight, trimStart_tight.
Qed.

End Trim.

Lemma lyrics_adapter_trims host artist title serviceName :
  returns_only (fun r => Js.trim (LyricsResult.lyrics r) = LyricsResult.lyrics r)
    (FreeLyricsService.adapter host artist title serviceName).
Proof.
  destruct serviceName; simpl;
    unfold FreeLyricsService.getLyricsFromOvh,
      FreeLyricsService.getLyricsFromMusixmatch,
      FreeLyricsService.getLyricsFromLyricsApi; returns_only;
    apply trim_idem.
Qed.

Lemma populated_nonempty r :
  FreeLyricsService.populated r = true -> LyricsResult.lyrics r <> "".
Proof.
  unfold FreeLyricsService.populated. intros H E. rewrite E in H.
  by apply bool_decide_eq_true in H.
Qed.

Lemma getLyrics_trimmed host artist title w r w' :
  FreeLyricsService.getLyrics host artist title w = (Normal (Some r), w') ->
  LyricsResult.lyrics r <> "" /\ Js.trim (LyricsResult.lyrics r) = LyricsResult.lyrics r.
Proof.
  intros Hrun.
  pose proof (getLyrics_first_success host artist title w) as Hfs.
  destruct (first_success_result _ _ _ _ _ _ _ _
              (fun _ r => Js.trim (LyricsResult.lyrics r) = LyricsResult.lyrics r)
              _ _ _ Hfs (lyrics_adapter_trims host _ _) Hrun) as (p & _ & Htrim).
  split; [|done].
  destruct (getLyrics_returns host artist title w) as (result & w1 & E & Hpop).
  rewrite Hrun in E. injection E as <- <-. by apply populated_nonempty.
Qed.

Lemma withRetry_result {R} (stage : M (option R)) (accepted : R -> bool) w r w' :
  LyricsTranslatorService.withRetry stage accepted LyricsTranslatorService.maxRetries w
  = (Normal (Some r), w') ->
  exists w0, stage w0 = (Normal (Some r), w') /\ accepted r = true.
Proof.
  rewrite withRetry_twoAttempts. unfold twoAttempts, lastAttempt.
  destruct (stage w) as [[[r0|]|e] w1] eqn:E0.
  - destruct (accepted r0) eqn:Ha.
    + intros [= <- <-]. by exists w.
    + destruct (stage w1) as [[[r1|]|e1] w2] eqn:E1; try done.
      destruct (accepted r1) eqn:Ha1; [|done]. intros [= <- <-]. by exists w1.
  - destruct (stage w1) as [[[r1|]|e1] w2] eqn:E1; try done.
    destruct (accepted r1) eqn:Ha1; [|done]. intros [= <- <-]. by exists w1.
  - destruct (stage (set_clock _ w1)) as [[[r1|]|e1] w2] eqn:E1; try done.
    destruct (accepted r1) eqn:Ha1; [|done]. intros [= <- <-]. by eexists.
Qed.

(** X20. The lyrics that [getLyrics] and [getLyricsWithRetry] return
    are not empty and have no white space at either end. *)
Theorem lyrics_come_back_trimmed (host : Host) (artist title : string)
    (w : World) (r : LyricsResult.t) (w' : World) :
  FreeLyricsService.getLyrics host artist title w = (Normal (Some r), w')
  \/ LyricsTranslatorService.getLyricsWithRetry host artist title w
     = (Normal (Some r), w') ->
  LyricsResult.lyrics r <> ""
  /\ Js.trim (LyricsResult.lyrics r) = LyricsResult.lyrics r.
Proof.
  intros [Hrun|Hrun].
  - by eapply getLyrics_trimmed.
  - apply withRetry_result in Hrun as (w0 & Hrun & _).
    by eapply getLyrics_trimmed.
Qed.

Lemma lyrics_come_back_trimmed_witness :
  exists r w',
    FreeLyricsService.getLyrics Examples.keyedHost "The Beatles" "Yesterday"
      (Examples.fresh 0 Examples.musixmatchHasIt) = (Normal (Some r), w')
    /\ LyricsResult.lyrics r <> ""
    /\ Js.trim (LyricsResult.lyrics r) = LyricsResult.lyrics r.
Proof.
  eexists _, _. split; [by vm_compute|].
  eapply (lyrics_come_back_trimmed Examples.keyedHost "The Beatles" "Yesterday"
            (Examples.fresh 0 Examples.musixmatchHasIt)).
  left. by vm_compute.
Defined.

(** ** Errors of one stage call *)

Lemma tried_errors_sublist {N R} (nameOf : N -> string) (tried : list (N * Outcome R)) :
  map ServiceError.service (flat_map (Trace.errorsOf nameOf) tried)
  `sublist_of` map nameOf (map fst tried).
Proof.
  induction tried as [|[n outcome] tried IH]; [constructor|].
  cbn [flat_map map fst]. rewrite map_app.
  destruct outcome; cbn [Trace.errorsOf snd fst map app ServiceError.service];
    first [by apply sublist_skip | by apply sublist_cons].
Qed.

Lemma first_success_errors {N R} (nameOf : N -> string) prefix services
    (adapter : N -> M (option R)) populated errs (stage : M (option R)) w :
  first_success nameOf prefix services adapter populated errs [] stage w ->
  map ServiceError.service (errs (snd (stage w))) `sublist_of` map nameOf services
  /\ (forall r, fst (stage w) = Normal (Some r) ->
        (length (errs (snd (stage w))) < length services)%nat).
Proof.
  intros (tried & untried & result & w' & E & Hserv & Herrs & _ & _ & Hres).
  rewrite E. cbn [fst snd]. rewrite Herrs, Hserv. cbn [app]. split.
  - rewrite map_app. apply sublist_inserts_r, tried_errors_sublist.
  - intros r [= ->].
    destruct Hres as (earlier & p & w1 & w2 & -> & _).
    rewrite flat_map_app. cbn [flat_map Trace.errorsOf snd]. rewrite !app_nil_r.
    rewrite length_app, length_map, length_app. cbn [length].
    pose proof (sublist_length _ _ (tried_errors_sublist nameOf earlier)) as Hlen.
    rewrite !length_map in Hlen. lia.
Qed.

(** X21. After [recognizeAudio] or [getLyrics], the error list of
    the service names every provider at most once, in configuration
    order; when the stage returned a result, at least one provider has
    no entry. *)
Theorem stage_errors_one_per_provider (host : Host) :
  (forall audioBuffer w,
      let run := FreeAudioRecognitionService.recognizeAudio host audioBuffer w in
      map ServiceError.service (audioErrors (snd run)) `sublist_of` ["acrCloud"; "auddIo"]
      /\ (forall r, fst run = Normal (Some r) -> (length (audioErrors (snd run)) < 2)%nat))
  /\ (forall artist title w,
        let run := FreeLyricsService.getLyrics host artist title w in
        map ServiceError.service (lyricsErrors (snd run))
          `sublist_of` ["lyricsOvh"; "musixmatch"; "lyricsApi"]
        /\ (forall r, fst run = Normal (Some r) ->
              (length (lyricsErrors (snd run)) < 3)%nat)).
Proof.
  split.
  - intros audioBuffer w.
    apply (first_success_errors _ _ _ _ _ _ _ _
             (recognizeAudio_first_success host audioBuffer w)).
  - intros artist title w.
    apply (first_success_errors _ _ _ _ _ _ _ _
             (getLyrics_first_success host artist title w)).
Qed.

(** ** Language codes *)

Lemma toLowerCaseChar_idem c :
  Js.toLowerCaseChar (Js.toLowerCaseChar c) = Js.toLowerCaseChar c.
Proof. by destruct c as [[] [] [] [] [] [] [] []]; vm_compute. Qed.

Lemma toLowerCase_idem s : Js.toLowerCase (Js.toLowerCase s) = Js.toLowerCase s.
Proof.
  induction s as [|c s IH]; [done|].
  cbn [Js.toLowerCase]. by rewrite toLowerCaseChar_idem, IH.
Qed.

Lemma normalizeLanguageCode_key key :
  Js.toLowerCase key = key ->
  FreeTranslationService.normalizeLanguageCode key
  = if bool_decide (key = "zh-cn" \/ key = "zh-tw") then Code "zh"
    else if bool_decide (key = "pt-br" \/ key = "pt-pt") then Code "pt"
    else if bool_decide (key = "en-us" \/ key = "en-gb") then Code "en"
    else if bool_decide (key = "constructor" \/ key = "__proto__") then Inherited key
    else Code key.
Proof.
  intros Hk. unfold FreeTranslationService.normalizeLanguageCode. rewrite Hk.
  destruct (decide (key = "zh-cn")) as [->|H1]; [done|].
  destruct (decide (key = "zh-tw")) as [->|H2]; [done|].
  destruct (decide (key = "pt-br")) as [->|H3]; [done|].
  destruct (decide (key = "pt-pt")) as [->|H4]; [done|].
  destruct (decide (key = "en-us")) as [->|H5]; [done|].
  destruct (decide (key = "en-gb")) as [->|H6]; [done|].
  rewrite (bool_decide_false (key = "zh-cn" \/ key = "zh-tw")) by (by intros [|]).
  rewrite (bool_decide_false (key = "pt-br" \/ key = "pt-pt")) by (by intros [|]).
  rewrite (bool_decide_false (key = "en-us" \/ key = "en-gb")) by (by intros [|]).
  unfold FreeTranslationService.normalizedCodes.
  repeat (rewrite filter_cons_False
            by (cbn [fst]; rewrite bool_decide_false by done; by intros [])).
  by rewrite filter_nil.
Qed.

(** X22. [normalizeLanguageCode] does not look at the case of its
    argument; the string it returns is a fixed point of the function,
    and is the lower-case argument or a supported language; every
    supported language code is returned as it is.  The result is not a
    string for exactly two lower-case arguments, [constructor] and
    [__proto__], for which the lookup in the object literal finds a
    member of [Object.prototype]. *)
Theorem normalizeLanguageCode_canonical (code : string) :
  let key := Js.toLowerCase code in
  FreeTranslationService.normalizeLanguageCode key
  = FreeTranslationService.normalizeLanguageCode code
  /\ (forall normalized,
        FreeTranslationService.normalizeLanguageCode code = Code normalized ->
        FreeTranslationService.normalizeLanguageCode normalized = Code normalized
        /\ (normalized = key
            \/ FreeTranslationService.isSupportedLanguage normalized = true))
  /\ (FreeTranslationService.isSupportedLanguage code = true ->
      FreeTranslationService.normalizeLanguageCode code = Code code)
  /\ (forall property,
        FreeTranslationService.normalizeLanguageCode code = Inherited property <->
        property = key /\ (key = "constructor" \/ key = "__proto__")).
Proof.
  intros key.
  assert (Js.toLowerCase key = key) as Hk by apply toLowerCase_idem.
  assert (FreeTranslationService.normalizeLanguageCode key
          = FreeTranslationService.normalizeLanguageCode code) as Hsame.
  { unfold FreeTranslationService.normalizeLanguageCode. fold key. by rewrite Hk. }
  split_and!.
  - done.
  - intros normalized. rewrite <- Hsame, (normalizeLanguageCode_key key Hk).
    repeat case_bool_decide; intros [= <-]; try (split; [done|by right]).
    split; [|by left].
    rewrite (normalizeLanguageCode_key key Hk).
    by repeat (rewrite bool_decide_false by done).
  - intros Hs. unfold FreeTranslationService.isSupportedLanguage in Hs.
    apply existsb_exists in Hs as [[c name] [Hin Heq]].
    apply String.eqb_eq in Heq. cbn [fst] in Heq. subst c.
    unfold SUPPORTED_LANGUAGES.translation in Hin. cbn [In] in Hin.
    repeat (destruct Hin as [[= <- _]|Hin]; [done|]). done.
  - intros property. rewrite <- Hsame, (normalizeLanguageCode_key key Hk).
    destruct (decide (key = "zh-cn" \/ key = "zh-tw")) as [H1|H1];
      [rewrite bool_decide_true by done; split; [discriminate|];
       intros [_ [Hc|Hc]]; destruct H1 as [H1|H1]; rewrite H1 in Hc; discriminate
      |rewrite bool_decide_false by done].
    destruct (decide (key = "pt-br" \/ key = "pt-pt")) as [H2|H2];
      [rewrite bool_decide_true by done; split; [discriminate|];
       intros [_ [Hc|Hc]]; destruct H2 as [H2|H2]; rewrite H2 in Hc; discriminate
      |rewrite bool_decide_false by done].
    destruct (decide (key = "en-us" \/ key = "en-gb")) as [H3|H3];
      [rewrite bool_decide_true by done; split; [discriminate|];
       intros [_ [Hc|Hc]]; destruct H3 as [H3|H3]; rewrite H3 in Hc; discriminate
      |rewrite bool_decide_false by done].
    destruct (decide (key = "constructor" \/ key = "__proto__")) as [H4|H4];
      [rewrite bool_decide_true by done|rewrite bool_decide_false by done].
    + split; [by intros [= <-]|by intros [-> _]].
    + split; [discriminate|]. by intros [_ H].
Qed.

(** ** Scores *)

(** X23. [getLyricsWithConfidence] never throws and returns what
    [getLyrics] returns; its confidence is 0 exactly when there are no
    lyrics, and between 0.3 and 1 otherwise. *)
Theorem getLyricsWithConfidence_scores (host : Host) (artist title : string) (w : World) :
  exists scored w',
    FreeLyricsService.getLyricsWithConfidence host artist title w = (Normal scored, w')
    /\ FreeLyricsService.getLyrics host artist title w
       = (Normal (ScoredLyrics.result scored), w')
    /\ (ScoredLyrics.result scored = None <-> ScoredLyrics.confidence scored == 0)
    /\ (is_Some (ScoredLyrics.result scored) ->
        ((3 # 10) <= ScoredLyrics.confidence scored <= 1)%Q).
Proof.
  destruct (getLyrics_returns host artist title w) as (result & w' & Hrun & _).
  unfold FreeLyricsService.getLyricsWithConfidence. rewrite bind_run, Hrun.
  destruct result as [r|].
  - eexists _, w'. split; [reflexivity|]. cbn [ScoredLyrics.result ScoredLyrics.confidence].
    split; [done|].
    repeat match goal with
           | |- context [if ?b then _ else _] => destruct b
           end; by vm_compute.
  - eexists _, w'. split; [reflexivity|]. cbn [ScoredLyrics.result ScoredLyrics.confidence].
    split; [done|]. split; [done|]. by intros [? [=]].
Qed.

Lemma translateText_returns host text targetLanguage sourceLanguage w :
  FreeTranslationService.isSupportedLanguage targetLanguage = true ->
  exists result w',
    FreeTranslationService.translateText host text targetLanguage sourceLanguage w
    = (Normal result, w')
    /\ from_option (fun r => TranslationResult.source r = "Combined") True result.
Proof.
  intros Hs.
  destruct (FreeTranslationService.translateText host text targetLanguage sourceLanguage w)
    as [c w'] eqn:Hrun.
  pose proof Hrun as Hrun'.
  unfold FreeTranslationService.translateText in Hrun. cbv zeta in Hrun.
  rewrite bind_run in Hrun. cbn [modify] in Hrun. rewrite Hs in Hrun. cbn [negb] in Hrun.
  rewrite bind_run in Hrun.
  match type of Hrun with
  | context [FreeTranslationService.translateChunks ?h ?s ?t ?c ?tc ?sl ?w0] =>
      destruct (translateChunks_returns h s t c tc sl w0) as (out & w1 & Hc & _)
  end.
  rewrite Hc in Hrun.
  destruct c as [result|e].
  - exists result, w'. split; [done|]. destruct result as [r|]; [|done].
    by eapply translateText_source.
  - destruct out as [[translated language]|]; [|done].
    by destruct (bool_decide (length translated = 0%nat)).
Qed.

(** X24. [getTranslationWithQuality] throws for an unsupported
    target language, as [translateText] does; otherwise it returns what
    [translateText] returns, with a quality that is 0 exactly when
    there is no translation and between 0.5 and 0.9 otherwise: the
    bonus for MyMemory never applies, the source of a result of
    [translateText] being [Combined]. *)
Theorem getTranslationWithQuality_scores (host : Host) (text targetLanguage : string)
    (sourceLanguage : option string) (w : World) :
  (FreeTranslationService.isSupportedLanguage targetLanguage = false ->
   fst (FreeTranslationService.getTranslationWithQuality host text targetLanguage
          sourceLanguage w)
   = Thrown (Error ("Unsupported target language: " +:+ targetLanguage)))
  /\ (FreeTranslationService.isSupportedLanguage targetLanguage = true ->
      exists scored w',
        FreeTranslationService.getTranslationWithQuality host text targetLanguage
          sourceLanguage w = (Normal scored, w')
        /\ FreeTranslationService.translateText host text targetLanguage
             (Some (default "auto" sourceLanguage)) w
           = (Normal (ScoredTranslation.result scored), w')
        /\ (ScoredTranslation.result scored = None <-> ScoredTranslation.quality scored == 0)
        /\ (is_Some (ScoredTranslation.result scored) ->
            ((5 # 10) <= ScoredTranslation.quality scored <= (9 # 10))%Q)).
Proof.
  unfold FreeTranslationService.getTranslationWithQuality. cbv zeta. split; intros Hs.
  - by rewrite bind_run, translateText_unsupported.
  - destruct (translateText_returns host text targetLanguage
                (Some (default "auto" sourceLanguage)) w Hs) as (result & w' & Hrun & Hsrc).
    rewrite bind_run, Hrun. destruct result as [r|].
    + eexists _, w'. split; [reflexivity|].
      cbn [ScoredTranslation.result ScoredTranslation.quality].
      split; [done|]. cbn [from_option] in Hsrc. rewrite Hsrc.
      change (String.eqb "Combined" "MyMemory") with false. cbv iota.
      repeat match goal with
             | |- context [if ?b then _ else _] => destruct b
             end; by vm_compute.
    + eexists _, w'. split; [reflexivity|].
      cbn [ScoredTranslation.result ScoredTranslation.quality].
      split; [done|]. split; [done|]. by intros [? [=]].
Qed.

(** ** The best of several translations *)

Lemma wp_self {S A} (m : SE S A) s : wp m s (fun c s' => m s = (c, s')).
Proof. destruct (m s) as [c s'] eqn:E. by apply (wp_run m s _ c s' E). Qed.

Lemma wp_isAllowed key config w (Q : Completion bool -> World -> Prop) :
  (forall allowed w', Q (Normal allowed) w') -> wp (isAllowed key config) w Q.
Proof.
  intros H. destruct (isAllowed key config w) as [c w'] eqn:E.
  apply (wp_run _ _ _ _ _ E). unfold isAllowed in E.
  destruct (RL.isAllowed _ _ _ _). injection E as <- <-. apply H.
Qed.

Lemma spends_translateText host text targetLanguage sourceLanguage :
  spends (3 * length (FreeTranslationService.splitTextIntoChunks text 1000))
    (FreeTranslationService.translateText host text targetLanguage sourceLanguage).
Proof.
  unfold FreeTranslationService.translateText.
  apply spends_bind0; [by apply spends_modify|]. intros _.
  destruct (negb _); [eapply spends_weaken; [|apply spends_throw]; lia|].
  eapply spends_weaken;
    [|apply (spends_bind
               (3 * length (FreeTranslationService.splitTextIntoChunks text 1000)) 0)];
    [lia|apply spends_translateChunks|].
  intros [[translatedChunks language]|]; [|apply spends_ret].
  case_bool_decide; apply spends_ret.
Qed.

Lemma insertByQuality_elem a b sorted :
  b ∈ FreeTranslationService.insertByQuality a sorted <-> b = a \/ b ∈ sorted.
Proof.
  induction sorted as [|c sorted IH]; cbn [FreeTranslationService.insertByQuality].
  - rewrite list_elem_of_singleton. split; [by left|].
    intros [H|H]; [done|by apply elem_of_nil in H].
  - destruct (Js.lessThan _ _); [apply elem_of_cons|].
    rewrite !elem_of_cons, IH. tauto.
Qed.

Lemma sortByQuality_elem b attempts :
  b ∈ FreeTranslationService.sortByQuality attempts <-> b ∈ attempts.
Proof.
  unfold FreeTranslationService.sortByQuality.
  assert (forall sorted,
            b ∈ foldl (fun sorted a => FreeTranslationService.insertByQuality a sorted)
                  sorted attempts
            <-> b ∈ sorted \/ b ∈ attempts) as H.
  { induction attempts as [|a attempts IH]; intros sorted; cbn [foldl].
    - split; [by left|]. intros [H|H]; [done|by apply elem_of_nil in H].
    - rewrite IH, insertByQuality_elem, elem_of_cons. tauto. }
  rewrite H. split; [|by right]. intros [Hnil|Hin]; [by apply elem_of_nil in Hnil|done].
Qed.

Lemma translation_adapter_target host chunk targetLanguage sourceLanguage serviceName :
  returns_only (fun r => TranslationResult.targetLanguage r = targetLanguage)
    (FreeTranslationService.adapter host chunk targetLanguage sourceLanguage serviceName).
Proof.
  destruct serviceName; simpl;
    unfold FreeTranslationService.translateWithMyMemory,
      FreeTranslationService.translateWithLibreTranslate,
      FreeTranslationService.translateWithGoogleFree; returns_only.
Qed.

Section BestQuality.

Variable host : Host.
Variables text targetLanguage sourceLanguage : string.

Let fromAdapter (a : Attempt.t) : Prop :=
  FreeTranslationService.isSupportedLanguage targetLanguage = true
  /\ exists serviceName w0 w1,
       FreeTranslationService.adapter host text targetLanguage sourceLanguage
         serviceName w0
       = (Normal (Some (Attempt.result a)), w1).

Lemma tryService_run attempts serviceName w :
  Forall fromAdapter attempts ->
  wp (FreeTranslationService.tryService host text targetLanguage sourceLanguage
        attempts serviceName) w
    (fun c _ => exists attempts', c = Normal attempts' /\ Forall fromAdapter attempts').
Proof.
  intros Hall. unfold FreeTranslationService.tryService. cbv zeta.
  apply wp_try_catch, wp_bind, wp_isAllowed. intros allowed w1.
  destruct allowed; cbn [negb]; [|wp_steps; eauto].
  apply wp_bind. unfold noteInvoked. wp_step.
  apply wp_bind. eapply wp_mono; [apply wp_self|]. intros [result|e] w2 Hrun; [|wp_steps; eauto].
  apply wp_bind. destruct result as [r|]; [|wp_steps; eauto].
  apply wp_bind. eapply wp_mono; [apply wp_self|].
  intros [qualityAssessment|e] w3 Hq; [|wp_steps; eauto].
  case_bool_decide; wp_steps; [|eauto].
  eexists. split; [done|]. apply Forall_app. split; [done|].
  apply Forall_singleton. split; [|by eexists _, _, _].
  destruct (FreeTranslationService.isSupportedLanguage targetLanguage) eqn:Hs; [done|].
  unfold FreeTranslationService.getTranslationWithQuality in Hq.
  by rewrite bind_run, translateText_unsupported in Hq.
Qed.

Lemma collectAttempts_run services : forall attempts w,
  Forall fromAdapter attempts ->
  wp (FreeTranslationService.collectAttempts host text targetLanguage sourceLanguage
        services attempts) w
    (fun c _ => exists attempts', c = Normal attempts' /\ Forall fromAdapter attempts').
Proof.
  induction services as [|serviceName services IH]; intros attempts w Hall;
    cbn [FreeTranslationService.collectAttempts]; [wp_steps; eauto|].
  apply wp_bind. eapply wp_mono; [by apply tryService_run|].
  intros c w1 (attempts' & -> & Hall'). by apply IH.
Qed.

Lemma spends_tryService attempts serviceName :
  spends (1 + 3 * length (FreeTranslationService.splitTextIntoChunks text 1000))
    (FreeTranslationService.tryService host text targetLanguage sourceLanguage
       attempts serviceName).
Proof.
  unfold FreeTranslationService.tryService. cbv zeta.
  set (n := (3 * length (FreeTranslationService.splitTextIntoChunks text 1000))%nat).
  eapply spends_weaken; [|apply (spends_try_catch (1 + n) 0)];
    [lia| |intros e; apply spends_ret].
  apply spends_bind0; [apply spends_isAllowed|]. intros allowed.
  destruct (negb allowed); [eapply spends_weaken; [|apply spends_ret]; lia|].
  apply spends_bind0; [by apply spends_modify|]. intros _.
  apply (spends_bind 1 n); [apply translation_adapter_spends|]. intros result.
  eapply spends_weaken; [|apply (spends_bind n 0)]; [lia| |].
  - destruct result as [r|]; [|eapply spends_weaken; [|apply spends_ret]; lia].
    eapply spends_weaken; [|apply (spends_bind n 0)]; [lia| |].
    + unfold FreeTranslationService.getTranslationWithQuality. cbv zeta.
      eapply spends_weaken; [|apply (spends_bind n 0)]; [lia|apply spends_translateText|].
      intros [?|]; apply spends_ret.
    + intros qualityAssessment. case_bool_decide; [|apply spends_ret].
      apply spends_bind0; [by apply spends_modify|]. intros _. apply spends_ret.
  - intros attempts'. apply spends_bind0; [by apply spends_modify|]. intros _.
    apply spends_ret.
Qed.

Lemma spends_collectAttempts services : forall attempts,
  spends (length services
          * (1 + 3 * length (FreeTranslationService.splitTextIntoChunks text 1000)))
    (FreeTranslationService.collectAttempts host text targetLanguage sourceLanguage
       services attempts).
Proof.
  induction services as [|serviceName services IH]; intros attempts;
    cbn [FreeTranslationService.collectAttempts]; [apply spends_ret|].
  eapply spends_weaken; [|apply spends_bind; [apply spends_tryService|intros ?; apply IH]].
  cbn [length]. lia.
Qed.

End BestQuality.

(** X25. [translateWithBestQuality] never throws.  A result is what
    the adapter of one provider returned for the whole text (the text
    is not split into chunks), with that provider's source tag and the
    requested target language.  For an unsupported target language the
    result is [null], whatever the providers answer.  A call sends at
    most 3 + 9n requests, [n] being the number of chunks of the text:
    every provider that answers is followed by a full
    [translateText]. *)
Theorem translateWithBestQuality_result (host : Host) (text targetLanguage : string)
    (sourceLanguage : option string) (w : World) :
  (exists result w',
      FreeTranslationService.translateWithBestQuality host text targetLanguage
        sourceLanguage w = (Normal result, w')
      /\ (FreeTranslationService.isSupportedLanguage targetLanguage = false ->
          result = None)
      /\ (forall r, result = Some r ->
            TranslationResult.targetLanguage r = targetLanguage
            /\ exists serviceName w0 w1,
                 FreeTranslationService.adapter host text targetLanguage
                   (default "auto" sourceLanguage) serviceName w0
                 = (Normal (Some r), w1)
                 /\ TranslationResult.source r = translationSourceTag serviceName))
  /\ spends (3 + 9 * length (FreeTranslationService.splitTextIntoChunks text 1000))
       (FreeTranslationService.translateWithBestQuality host text targetLanguage
          sourceLanguage).
Proof.
  unfold FreeTranslationService.translateWithBestQuality. cbv zeta. split.
  - pose proof (collectAttempts_run host text targetLanguage (default "auto" sourceLanguage)
                  FreeTranslationService.services [] w (Forall_nil_2 _)) as Hrun.
    apply wp_elim in Hrun as (c & w' & Hrun & attempts & -> & Hall).
    rewrite bind_run, Hrun.
    case_bool_decide as Hlen.
    + exists None, w'. by split_and!.
    + destruct (head (FreeTranslationService.sortByQuality attempts)) as [a|] eqn:Hhead.
      * exists (Some (Attempt.result a)), w'. split; [done|].
        apply head_Some_elem_of in Hhead.
        apply (proj1 (sortByQuality_elem _ _)) in Hhead.
        rewrite Forall_forall in Hall.
        destruct (Hall a Hhead) as (Hs & serviceName & w0 & w1 & Had).
        split; [by rewrite Hs|]. intros r [= <-]. split.
        -- by eapply translation_adapter_target.
        -- exists serviceName, w0, w1. split; [done|].
           by eapply translation_adapter_source.
      * exists None, w'. by split_and!.
  - eapply spends_weaken;
      [|apply (spends_bind
                 (3 * (1 + 3 * length (FreeTranslationService.splitTextIntoChunks text 1000)))
                 0)];
      [lia
      |apply (spends_collectAttempts host text targetLanguage _
                FreeTranslationService.services [])|].
    intros attempts. case_bool_decide; apply spends_ret.
Qed.

(** ** The hook *)

Section Hook.

Variable host : Host.

Import UseLyricsTranslatorState.

Lemma wp_call {L A} (call : M A) (l : L) w a w'
    (Q : Completion A -> L * World -> Prop) :
  call w = (Normal a, w') -> Q (Normal a) (l, w') -> wp (liftS call) (l, w) Q.
Proof. intros Hrun HQ. apply wp_liftS. by apply (wp_run _ _ _ _ _ Hrun). Qed.

Ltac hook_steps Hrun :=
  unfold useLyricsTranslator.clearResult, useLyricsTranslator.updateProgress,
    useLyricsTranslator.setState;
  apply wp_try_catch; wp_steps; eapply wp_call; [exact Hrun|]; wp_steps.

Lemma translateFromAudio_shows audioBuffer options state w :
  exists outcome state' w',
    useLyricsTranslator.translateFromAudio host audioBuffer options (state, w)
    = (Normal tt, (state', w'))
    /\ LyricsTranslatorService.translateFromAudio host audioBuffer options w
       = (Normal outcome, w')
    /\ shows outcome state state'.
Proof.
  destruct (wp_elim _ _ _ (translateFromAudio_returns host audioBuffer options w))
    as (c & w' & Hrun & outcome & -> & _).
  assert (wp (useLyricsTranslator.translateFromAudio host audioBuffer options) (state, w)
            (fun c sw => c = Normal tt /\ snd sw = w' /\ shows outcome state (fst sw)))
    as Hwp.
  { unfold useLyricsTranslator.translateFromAudio. hook_steps Hrun. by repeat split. }
  apply wp_elim in Hwp as (c & [state' w''] & Hact & -> & Hw & Hshows).
  cbn [fst snd] in *. subst w''. by exists outcome, state', w'.
Qed.

Lemma translateFromSongInfo_shows artist title targetLanguage sourceLanguage state w :
  exists outcome state' w',
    useLyricsTranslator.translateFromSongInfo host artist title targetLanguage
      sourceLanguage (state, w)
    = (Normal tt, (state', w'))
    /\ LyricsTranslatorService.translateFromSongInfo host artist title targetLanguage
         sourceLanguage w
       = (Normal outcome, w')
    /\ shows outcome state state'.
Proof.
  destruct (wp_elim _ _ _
              (translateFromSongInfo_returns host artist title targetLanguage
                 sourceLanguage w))
    as (c & w' & Hrun & outcome & -> & _).
  assert (wp (useLyricsTranslator.translateFromSongInfo host artist title targetLanguage
                sourceLanguage) (state, w)
            (fun c sw => c = Normal tt /\ snd sw = w' /\ shows outcome state (fst sw)))
    as Hwp.
  { unfold useLyricsTranslator.translateFromSongInfo. hook_steps Hrun. by repeat split. }
  apply wp_elim in Hwp as (c & [state' w''] & Hact & -> & Hw & Hshows).
  cbn [fst snd] in *. subst w''. by exists outcome, state', w'.
Qed.

Lemma translateLyricsOnly_shows lyrics_ targetLanguage sourceLanguage state w :
  exists outcome state' w',
    useLyricsTranslator.translateLyricsOnly host lyrics_ targetLanguage
      sourceLanguage (state, w)
    = (Normal tt, (state', w'))
    /\ LyricsTranslatorService.translateLyricsOnly host lyrics_ targetLanguage
         sourceLanguage None w
       = (Normal outcome, w')
    /\ shows outcome state state'.
Proof.
  destruct (wp_elim _ _ _
              (translateLyricsOnly_returns host lyrics_ targetLanguage
                 sourceLanguage None w))
    as (c & w' & Hrun & outcome & -> & _).
  assert (wp (useLyricsTranslator.translateLyricsOnly host lyrics_ targetLanguage
                sourceLanguage) (state, w)
            (fun c sw => c = Normal tt /\ snd sw = w' /\ shows outcome state (fst sw)))
    as Hwp.
  { unfold useLyricsTranslator.translateLyricsOnly. hook_steps Hrun. by repeat split. }
  apply wp_elim in Hwp as (c & [state' w''] & Hact & -> & Hw & Hshows).
  cbn [fst snd] in *. subst w''. by exists outcome, state', w'.
Qed.

Lemma successfulResult_None results :
  useLyricsTranslator.successfulResult results = None <-> results = [].
Proof.
  unfold useLyricsTranslator.successfulResult.
  destruct (head (filter _ results)) eqn:Hf; [|by destruct results].
  split; [done|]. intros ->. by rewrite filter_nil in Hf.
Qed.

Lemma successfulResult_Some results r :
  useLyricsTranslator.successfulResult results = Some r ->
  r ∈ results
  /\ (is_Some (LyricsTranslationPipeline.translation r)
      <-> exists r', r' ∈ results /\ is_Some (LyricsTranslationPipeline.translation r')).
Proof.
  unfold useLyricsTranslator.successfulResult.
  destruct (head (filter _ results)) as [found|] eqn:Hf.
  - intros [= <-]. apply head_Some_elem_of, list_elem_of_filter in Hf as [Ht Hin].
    split; [done|]. split; [eauto|done].
  - intros Hhead. split; [by apply head_Some_elem_of|].
    apply head_None in Hf. split; [eauto using head_Some_elem_of|].
    intros (r' & Hin & Ht).
    assert (r' ∈ filter (fun r => is_Some (LyricsTranslationPipeline.translation r))
                    results) as Hin' by by apply list_elem_of_filter.
    rewrite Hf in Hin'. by apply elem_of_nil in Hin'.
Qed.

Lemma batchTranslate_shows requests state w :
  exists outcomes state' w',
    useLyricsTranslator.batchTranslate host requests (state, w)
    = (Normal tt, (state', w'))
    /\ batch_run host requests w outcomes w'
    /\ result state' = useLyricsTranslator.successfulResult outcomes
    /\ errors state' = concat (map LyricsTranslationPipeline.errors outcomes)
    /\ currentStep state'
       = (if bool_decide (is_Some (useLyricsTranslator.successfulResult outcomes
                                    ≫= LyricsTranslationPipeline.translation))
          then Step.complete else Step.error)
    /\ progress state' = 100
    /\ serviceStatus state' = serviceStatus state
    /\ settled state'.
Proof.
  destruct (batchTranslateFrom_run host requests [] w) as (outcomes & w' & Hrun & Hbatch).
  cbn [app] in Hrun.
  assert (wp (useLyricsTranslator.batchTranslate host requests) (state, w)
            (fun c sw =>
               c = Normal tt /\ snd sw = w'
               /\ result (fst sw) = useLyricsTranslator.successfulResult outcomes
               /\ errors (fst sw)
                  = concat (map LyricsTranslationPipeline.errors outcomes)
               /\ currentStep (fst sw)
                  = (if bool_decide
                          (is_Some (useLyricsTranslator.successfulResult outcomes
                                    ≫= LyricsTranslationPipeline.translation))
                     then Step.complete else Step.error)
               /\ progress (fst sw) = 100
               /\ serviceStatus (fst sw) = serviceStatus state
               /\ settled (fst sw)))
    as Hwp.
  { unfold useLyricsTranslator.batchTranslate. hook_steps Hrun. by repeat split. }
  apply wp_elim in Hwp as (c & [state' w''] & Hact & -> & Hw & Hrest).
  cbn [fst snd] in *. subst w''. by exists outcomes, state', w'.
Qed.

Lemma checkServiceStatus_shows state w :
  exists health state' w',
    useLyricsTranslator.checkServiceStatus host (state, w) = (Normal tt, (state', w'))
    /\ LyricsTranslatorService.healthCheck host w = (Normal health, w')
    /\ serviceStatus state'
       = {| Availability.audioRecognition := Health.audioRecognition health;
            Availability.lyrics := Health.lyrics health;
            Availability.translation := Health.translation health |}
    /\ (isRecognizing state', isFetchingLyrics state', isTranslating state',
        result state', errors state', currentStep state', progress state')
       = (isRecognizing state, isFetchingLyrics state, isTranslating state,
          result state, errors state, currentStep state, progress state).
Proof.
  destruct (healthCheck_no_network host w) as (health & w' & Hrun & _).
  exists health.
  assert (wp (useLyricsTranslator.checkServiceStatus host) (state, w)
            (fun c sw =>
               c = Normal tt /\ snd sw = w'
               /\ serviceStatus (fst sw)
                  = {| Availability.audioRecognition := Health.audioRecognition health;
                       Availability.lyrics := Health.lyrics health;
                       Availability.translation := Health.translation health |}
               /\ (isRecognizing (fst sw), isFetchingLyrics (fst sw),
                   isTranslating (fst sw), result (fst sw), errors (fst sw),
                   currentStep (fst sw), progress (fst sw))
                  = (isRecognizing state, isFetchingLyrics state, isTranslating state,
                     result state, errors state, currentStep state, progress state)))
    as Hwp.
  { unfold useLyricsTranslator.checkServiceStatus, useLyricsTranslator.setState.
    apply wp_try_catch; wp_steps; eapply wp_call; [exact Hrun|]; wp_steps. done. }
  apply wp_elim in Hwp as (c & [state' w''] & Hact & -> & Hw & Hrest).
  cbn [fst snd] in *. subst w''. by exists state', w'.
Qed.

End Hook.

(** X26. The actions of the hook end in a settled state.  After
    [translateFromAudio], [translateFromSongInfo] or
    [translateLyricsOnly] of the hook, [result] is the outcome of the
    service method of the same name, [errors] are the errors of that
    outcome, [currentStep] is [complete] if the outcome has a
    translation and [error] otherwise, [progress] is 100 in both cases,
    none of the three busy flags is set and [serviceStatus] is as
    before; the [catch] of the action never runs.
    [checkServiceStatus] sets [serviceStatus] to the three flags of
    [healthCheck] and changes nothing else of the state. *)
Theorem hook_actions_settle (host : Host) (state : UseLyricsTranslatorState.t) (w : World) :
  (forall audioBuffer options,
      exists outcome state' w',
        useLyricsTranslator.translateFromAudio host audioBuffer options (state, w)
        = (Normal tt, (state', w'))
        /\ LyricsTranslatorService.translateFromAudio host audioBuffer options w
           = (Normal outcome, w')
        /\ shows outcome state state')
  /\ (forall artist title targetLanguage sourceLanguage,
        exists outcome state' w',
          useLyricsTranslator.translateFromSongInfo host artist title targetLanguage
            sourceLanguage (state, w)
          = (Normal tt, (state', w'))
          /\ LyricsTranslatorService.translateFromSongInfo host artist title
               targetLanguage sourceLanguage w
             = (Normal outcome, w')
          /\ shows outcome state state')
  /\ (forall lyrics_ targetLanguage sourceLanguage,
        exists outcome state' w',
          useLyricsTranslator.translateLyricsOnly host lyrics_ targetLanguage
            sourceLanguage (state, w)
          = (Normal tt, (state', w'))
          /\ LyricsTranslatorService.translateLyricsOnly host lyrics_ targetLanguage
               sourceLanguage None w
             = (Normal outcome, w')
          /\ shows outcome state state')
  /\ (exists health state' w',
        useLyricsTranslator.checkServiceStatus host (state, w)
        = (Normal tt, (state', w'))
        /\ LyricsTranslatorService.healthCheck host w = (Normal health, w')
        /\ UseLyricsTranslatorState.serviceStatus state'
           = {| Availability.audioRecognition := Health.audioRecognition health;
                Availability.lyrics := Health.lyrics health;
                Availability.translation := Health.translation health |}
        /\ (UseLyricsTranslatorState.isRecognizing state',
            UseLyricsTranslatorState.isFetchingLyrics state',
            UseLyricsTranslatorState.isTranslating state',
            UseLyricsTranslatorState.result state',
            UseLyricsTranslatorState.errors state',
            UseLyricsTranslatorState.currentStep state',
            UseLyricsTranslatorState.progress state')
           = (UseLyricsTranslatorState.isRecognizing state,
              UseLyricsTranslatorState.isFetchingLyrics state,
              UseLyricsTranslatorState.isTranslating state,
              UseLyricsTranslatorState.result state,
              UseLyricsTranslatorState.errors state,
              UseLyricsTranslatorState.currentStep state,
              UseLyricsTranslatorState.progress state)).
Proof.
  split_and!; intros.
  - apply translateFromAudio_shows.
  - apply translateFromSongInfo_shows.
  - apply translateLyricsOnly_shows.
  - apply checkServiceStatus_shows.
Qed.

(** X27. [batchTranslate] of the hook.  It ends with [progress] 100
    and no busy flag set; [errors] are the errors of all outcomes of
    the batch, in order; [result] is one of the outcomes, and is [null]
    exactly for an empty batch; [currentStep] is [complete] exactly
    when some outcome of the batch has a translation, and then the
    outcome shown has one; otherwise it is [error], also for an empty
    batch. *)
Theorem hook_batch_shows_first_success (host : Host) (requests : list BatchRequest.t)
    (state : UseLyricsTranslatorState.t) (w : World) :
  exists outcomes state' w',
    useLyricsTranslator.batchTranslate host requests (state, w)
    = (Normal tt, (state', w'))
    /\ batch_run host requests w outcomes w'
    /\ (UseLyricsTranslatorState.result state' = None <-> requests = [])
    /\ (forall shown, UseLyricsTranslatorState.result state' = Some shown ->
          shown ∈ outcomes)
    /\ (UseLyricsTranslatorState.currentStep state' = Step.complete
        \/ UseLyricsTranslatorState.currentStep state' = Step.error)
    /\ (UseLyricsTranslatorState.currentStep state' = Step.complete
        <-> exists outcome,
              outcome ∈ outcomes
              /\ is_Some (LyricsTranslationPipeline.translation outcome))
    /\ (UseLyricsTranslatorState.currentStep state' = Step.complete
        <-> exists shown,
              UseLyricsTranslatorState.result state' = Some shown
              /\ is_Some (LyricsTranslationPipeline.translation shown))
    /\ UseLyricsTranslatorState.errors state'
       = concat (map LyricsTranslationPipeline.errors outcomes)
    /\ UseLyricsTranslatorState.progress state' = 100
    /\ UseLyricsTranslatorState.serviceStatus state'
       = UseLyricsTranslatorState.serviceStatus state
    /\ settled state'.
Proof.
  destruct (batchTranslate_shows host requests state w)
    as (outcomes & state' & w' & Hact & Hbatch & Hresult & Herrors & Hstep
        & Hprogress & Hstatus & Hsettled).
  exists outcomes, state', w'. split; [done|]. split; [done|].
  pose proof (batch_run_length _ _ _ _ _ Hbatch) as Hlen.
  rewrite Hresult, Hstep.
  pose proof (successfulResult_None outcomes) as Hnone.
  pose proof (successfulResult_Some outcomes) as Hsome.
  destruct (useLyricsTranslator.successfulResult outcomes) as [shown|].
  - destruct (Hsome shown eq_refl) as [Hin Hiff]. cbn [mbind option_bind].
    split_and!; try done.
    + split; [done|]. intros ->. destruct outcomes; [by apply elem_of_nil in Hin|done].
    + by intros ? [= <-].
    + destruct (bool_decide _); eauto.
    + destruct (bool_decide _) eqn:Ht.
      * apply bool_decide_eq_true in Ht. split; [intros _; by apply Hiff|done].
      * apply bool_decide_eq_false in Ht. split; [done|].
        intros Hex. by apply Hiff in Hex.
    + destruct (bool_decide _) eqn:Ht.
      * apply bool_decide_eq_true in Ht. split; [eauto|done].
      * apply bool_decide_eq_false in Ht. split; [done|]. by intros (? & [= <-] & ?).
  - cbn [mbind option_bind].
    assert (outcomes = []) as -> by by apply Hnone.
    destruct requests; [|done].
    rewrite bool_decide_false by by intros [? [=]].
    split_and!; try done; eauto.
    + split; [done|]. intros (? & Hin & _). by apply elem_of_nil in Hin.
    + split; [done|]. by intros (? & [=] & _).
Qed.

(** ** Where the error entries come from *)

Section DispatchErrors.

Context {N R : Type}.
Variable nameOf : N -> string.
Variable prefix : string.
Variable configOf : N -> ServiceConfig.
Variable adapter : N -> M (option R).
Variable populated : R -> bool.
Variable pushError : ServiceError.t -> M unit.
Variable errs : World -> list ServiceError.t.

Hypothesis adapter_ok : forall n, adapter_frame (adapter n).
Hypothesis errs_frame : forall w w',
  audioErrors w' = audioErrors w -> lyricsErrors w' = lyricsErrors w ->
  translationErrors w' = translationErrors w -> errs w' = errs w.
Hypothesis push_ok : forall e w, exists w',
  pushError e w = (Normal tt, w') /\ errs w' = errs w ++ [e]
  /\ rateLimiter w' = rateLimiter w /\ invoked w' = invoked w.

Lemma attempt_errors n w :
  exists new,
    errs (snd (attempt nameOf prefix configOf adapter populated pushError n w))
    = errs w ++ new
    /\ Forall (recordedFor nameOf adapter n) new.
Proof.
  unfold attempt, try_catch. rewrite bind_run.
  unfold isAllowed at 1.
  destruct (RL.isAllowed (clock w) (prefix +:+ nameOf n) (configOf n) (rateLimiter w))
    as [allowed rl1] eqn:Eallowed.
  set (w1 := set_rateLimiter (fun _ => rl1) w).
  assert (He1 : errs w1 = errs w) by (by apply errs_frame).
  destruct allowed; simpl.
  - rewrite bind_run. simpl. rewrite bind_run.
    set (w2 := set_invoked (fun l => l ++ [prefix +:+ nameOf n]) w1).
    pose proof (adapter_ok n w2) as (Hrl & Ha & Hl & Ht & Hinv).
    destruct (adapter n w2) as [[[r|]|e] w3] eqn:Eadapter; simpl in *.
    + exists []. split; [|done]. rewrite app_nil_r, <- He1.
      destruct (populated r); simpl; apply errs_frame; simpl; congruence.
    + exists []. split; [|done]. rewrite app_nil_r, <- He1.
      apply errs_frame; simpl; congruence.
    + rewrite bind_run.
      destruct (push_ok
        {| ServiceError.service := nameOf n;
           ServiceError.error := Js.messageOr "Unknown error" e;
           ServiceError.code := None; ServiceError.retryAfter := None |} w3)
        as (w4 & -> & He4 & _). simpl.
      eexists [_]. split.
      * rewrite He4. f_equal. rewrite <- He1. apply errs_frame; simpl; congruence.
      * apply Forall_singleton. split_and!; [done..|]. right. split; [done|].
        by exists w2, w3, e.
  - rewrite bind_run. simpl. rewrite bind_run.
    destruct (push_ok
      {| ServiceError.service := nameOf n;
         ServiceError.error := "Rate limit exceeded";
         ServiceError.code := None;
         ServiceError.retryAfter :=
           Some (RL.getRetryAfter (clock w) (prefix +:+ nameOf n) (configOf n) rl1) |} w1)
      as (w4 & -> & He4 & _). simpl.
    eexists [_]. split; [by rewrite He4, He1|].
    apply Forall_singleton. split_and!; [done..|]. left. by split.
Qed.

Lemma dispatch_errors services : forall w,
  exists new,
    errs (snd (dispatch nameOf prefix configOf adapter populated pushError services w))
    = errs w ++ new
    /\ Forall (fun e => exists n, n ∈ services /\ recordedFor nameOf adapter n e) new.
Proof.
  induction services as [|n services IH]; intros w; cbn [dispatch].
  - exists []. by rewrite app_nil_r.
  - rewrite bind_run. destruct (attempt_errors n w) as (new & Herr & Hnew).
    destruct (attempt nameOf prefix configOf adapter populated pushError n w)
      as [[[r|]|e] w1]; cbn [snd] in *.
    + exists new. split; [done|]. eapply Forall_impl; [done|].
      intros e He. exists n. split; [left|done].
    + destruct (IH w1) as (new' & Herr' & Hnew'). exists (new ++ new').
      split; [by rewrite Herr', Herr, app_assoc|].
      apply Forall_app. split.
      * eapply Forall_impl; [exact Hnew|]. intros e He. exists n. split; [left|done].
      * eapply Forall_impl; [exact Hnew'|]. intros e (q & Hq & He).
        exists q. split; [by right|done].
    + exists new. split; [done|]. eapply Forall_impl; [done|].
      intros e' He. exists n. split; [left|done].
Qed.

End DispatchErrors.

(** The adapter of the lyrics API throws nothing but what
    [encodeURIComponent] throws on the search query, which it builds
    before its [try]. *)
Lemma getLyricsFromLyricsApi_quiet host artist title w exn w' :
  FreeLyricsService.getLyricsFromLyricsApi host artist title w = (Thrown exn, w') ->
  encodeURIComponent host (artist +:+ " " +:+ title) = Thrown exn /\ w' = w.
Proof.
  unfold FreeLyricsService.getLyricsFromLyricsApi. cbv zeta.
  rewrite bind_run. unfold evaluate at 1.
  destruct (encodeURIComponent host (artist +:+ " " +:+ title)) as [encoded|e].
  - unfold try_catch.
    match goal with
    | |- context [match ?b with _ => _ end] => destruct b as [[result|e] w1]
    end; by intros [=].
  - by intros [= <- <-].
Qed.

(** X28. Where the error entries of a stage come from.  Every entry
    that [recognizeAudio] or [getLyrics] leaves in the error list names
    a provider of the stage, has no code, and is either the entry
    [Rate limit exceeded] with its retry-after, or has no retry-after
    and carries the message of an exception that the adapter of that
    provider threw.  The third lyrics provider, whose adapter catches
    whatever its request throws, has no other entry than the rate-limit
    entry and the entry for what [encodeURIComponent] threw on the
    search query, which the adapter builds before its [try]: a failure
    of its request never shows. *)
Theorem stage_errors_provenance (host : Host) :
  (forall audioBuffer w e,
      e ∈ audioErrors (snd (FreeAudioRecognitionService.recognizeAudio host audioBuffer w)) ->
      exists serviceName,
        recordedFor audioServiceName
          (FreeAudioRecognitionService.adapter host audioBuffer) serviceName e)
  /\ (forall artist title w e,
        e ∈ lyricsErrors (snd (FreeLyricsService.getLyrics host artist title w)) ->
        exists serviceName,
          recordedFor lyricsServiceName
            (FreeLyricsService.adapter host (cleanSearchTerm host artist)
               (cleanSearchTerm host title)) serviceName e
          /\ (serviceName = lyricsApi ->
              ServiceError.error e = "Rate limit exceeded"
              \/ exists exn,
                   encodeURIComponent host
                     (cleanSearchTerm host artist +:+ " " +:+ cleanSearchTerm host title)
                   = Thrown exn
                   /\ ServiceError.error e = Js.messageOr "Unknown error" exn)).
Proof.
  split.
  - intros audioBuffer w e.
    unfold FreeAudioRecognitionService.recognizeAudio. rewrite bind_run. cbn [modify].
    destruct (dispatch_errors audioServiceName "audioRecognition_"
                (FREE_API_CONFIGS.audioRecognition (env host))
                (FreeAudioRecognitionService.adapter host audioBuffer) (fun _ => true)
                FreeAudioRecognitionService.pushError audioErrors
                (audio_adapter_frame host audioBuffer)
                ltac:(by intros ? ? ->) audio_push_ok
                FreeAudioRecognitionService.services
                (set_audioErrors (fun _ => []) w))
      as (new & -> & Hnew).
    cbn [app audioErrors set_audioErrors]. intros He.
    rewrite Forall_forall in Hnew. destruct (Hnew e He) as (n & _ & Hn). by exists n.
  - intros artist title w e.
    unfold FreeLyricsService.getLyrics. rewrite bind_run. cbn [modify]. cbv zeta.
    destruct (dispatch_errors lyricsServiceName "lyrics_"
                (FREE_API_CONFIGS.lyrics (env host))
                (FreeLyricsService.adapter host (cleanSearchTerm host artist)
                   (cleanSearchTerm host title))
                FreeLyricsService.populated
                FreeLyricsService.pushError lyricsErrors
                (lyrics_adapter_frame host _ _)
                ltac:(by intros ? ? _ ->) lyrics_push_ok
                FreeLyricsService.services
                (set_lyricsErrors (fun _ => []) w))
      as (new & -> & Hnew).
    cbn [app lyricsErrors set_lyricsErrors]. intros He.
    rewrite Forall_forall in Hnew. destruct (Hnew e He) as (n & _ & Hn).
    exists n. split; [done|]. intros ->.
    destruct Hn as (_ & _ & [[Hrate _]|(_ & w0 & w1 & exn & Hthrown & Hmsg)]);
      [by left|].
    cbn [FreeLyricsService.adapter] in Hthrown.
    apply getLyricsFromLyricsApi_quiet in Hthrown as [Hencode _].
    right. by exists exn.
Qed.

(** ** Time *)

Lemma onward_refl w : onward w w.
Proof. by intros H. Qed.

Lemma onward_trans w1 w2 w3 : onward w1 w2 -> onward w2 w3 -> onward w1 w3.
Proof.
  intros H12 H23 H1. destruct (H12 H1) as [H2 Hc]. destruct (H23 H2) as [H3 Hc'].
  split; [done|lia].
Qed.

Lemma onward_same w w' : net w' = net w -> clock w <= clock w' -> onward w w'.
Proof. intros Hn Hc H. split; [|done]. intros n. rewrite Hn. apply H. Qed.

Section Advances.

Context {S : Type}.
Variable world : S -> World.

Lemma advances_intro {A} (m : SE S A) :
  (forall s, onward (world s) (world (snd (m s)))) -> advances world m.
Proof.
  intros H s. destruct (m s) as [c s'] eqn:E.
  apply (wp_run _ _ _ _ _ E). specialize (H s). by rewrite E in H.
Qed.

Lemma advances_elim {A} (m : SE S A) s :
  advances world m -> onward (world s) (world (snd (m s))).
Proof.
  intros H. destruct (wp_elim _ _ _ (H s)) as (c & s' & E & Hf). by rewrite E.
Qed.

Lemma advances_ret {A} (a : A) : advances world (mret a).
Proof. intros s. apply wp_ret, onward_refl. Qed.

Lemma advances_throw {A} (e : Exn) : advances world (throw e : SE S A).
Proof. intros s. apply wp_throw, onward_refl. Qed.

Lemma advances_gets {A} (g : S -> A) : advances world (gets g).
Proof. intros s. apply wp_gets, onward_refl. Qed.

Lemma advances_modify (g : S -> S) :
  (forall s, onward (world s) (world (g s))) -> advances world (modify g).
Proof. intros H s. by apply wp_modify. Qed.

Lemma advances_bind {A B} (m : SE S A) (k : A -> SE S B) :
  advances world m -> (forall a, advances world (k a)) -> advances world (m ≫= k).
Proof.
  intros Hm Hk s. apply wp_bind. eapply wp_mono; [apply Hm|].
  intros [a|e] s1 E; [|done].
  eapply wp_mono; [apply Hk|]. simpl. eauto using onward_trans.
Qed.

Lemma advances_try_catch {A} (body : SE S A) (handler : Exn -> SE S A) :
  advances world body -> (forall e, advances world (handler e)) ->
  advances world (try_catch body handler).
Proof.
  intros Hm Hk s. apply wp_try_catch. eapply wp_mono; [apply Hm|].
  intros [a|e] s1 E; [done|].
  eapply wp_mono; [apply Hk|]. simpl. eauto using onward_trans.
Qed.

Lemma advances_withLocal {L A} (init : L) (p : SE (L * S) A) :
  advances (fun ls => world (snd ls)) p -> advances world (withLocal init p).
Proof. intros Hp s. apply wp_withLocal. apply (Hp (init, s)). Qed.

Lemma advances_liftS {L A} (m : SE S A) :
  advances world m -> advances (fun ls : L * S => world (snd ls)) (liftS m).
Proof. intros Hm [l s]. apply wp_liftS. apply Hm. Qed.

Lemma advances_getLocal {L} : advances (fun ls : L * S => world (snd ls)) getLocal.
Proof. intros [l s]. apply wp_getLocal, onward_refl. Qed.

Lemma advances_modifyLocal {L} (g : L -> L) :
  advances (fun ls : L * S => world (snd ls)) (modifyLocal g).
Proof. intros [l s]. apply wp_modifyLocal, onward_refl. Qed.

End Advances.

Ltac onward_step :=
  first
    [ apply advances_ret
    | apply advances_throw
    | apply advances_getLocal
    | apply advances_modifyLocal
    | apply advances_gets
    | apply advances_bind; [|intros ?]
    | apply advances_try_catch; [|intros ?]
    | match goal with
      | |- advances _ (if ?b then _ else _) => destruct b
      | |- advances _ (match ?x with _ => _ end) => destruct x
      end ].

Lemma onward_fetch {A} (endpoint : Network -> nat -> Completion (Response A)) :
  advances id (fetch endpoint).
Proof.
  apply advances_intro. intros w H. unfold fetch, id in *. simpl. split; [done|].
  specialize (H (fetches w)). lia.
Qed.

Lemma onward_json {A} (response : Response A) :
  advances id (responseJson response : M A).
Proof. apply advances_intro. intros w. apply onward_refl. Qed.

Lemma onward_evaluate {A} (c : Completion A) : advances id (evaluate c : M A).
Proof. apply advances_intro. intros w. apply onward_refl. Qed.

Lemma onward_sleep ms : 0 <= ms -> advances id (sleep ms).
Proof. intros Hms. apply advances_modify. intros w. apply onward_same; simpl; [done|lia]. Qed.

Lemma onward_isAllowed key config : advances id (isAllowed key config).
Proof.
  apply advances_intro. intros w. unfold isAllowed. destruct (RL.isAllowed _ _ _ _).
  by apply onward_same.
Qed.

Lemma onward_recordRequest key : advances id (recordRequest key).
Proof. apply advances_intro. intros w. by apply onward_same. Qed.

Lemma onward_getRetryAfter key config : advances id (getRetryAfter key config).
Proof. apply advances_intro. intros w. apply onward_refl. Qed.

Lemma onward_noteInvoked key : advances id (noteInvoked key).
Proof. apply advances_modify. intros w. by apply onward_same. Qed.

Ltac onward :=
  repeat first
    [ apply onward_fetch
    | apply onward_json
    | apply onward_evaluate
    | apply onward_isAllowed
    | apply onward_recordRequest
    | apply onward_getRetryAfter
    | apply onward_noteInvoked
    | apply onward_sleep; lia
    | apply advances_modify; intros ?; by apply onward_same
    | onward_step ].

Lemma onward_audio_adapter host audioBuffer serviceName :
  advances id (FreeAudioRecognitionService.adapter host audioBuffer serviceName).
Proof.
  destruct serviceName; simpl;
    unfold FreeAudioRecognitionService.recognizeWithACRCloud,
      FreeAudioRecognitionService.recognizeWithAudD; onward.
Qed.

Lemma onward_lyrics_adapter host artist title serviceName :
  advances id (FreeLyricsService.adapter host artist title serviceName).
Proof.
  destruct serviceName; simpl;
    unfold FreeLyricsService.getLyricsFromOvh,
      FreeLyricsService.getLyricsFromMusixmatch,
      FreeLyricsService.getLyricsFromLyricsApi; onward.
Qed.

Lemma onward_translation_adapter host chunk targetLanguage sourceLanguage serviceName :
  advances id
    (FreeTranslationService.adapter host chunk targetLanguage sourceLanguage serviceName).
Proof.
  destruct serviceName; simpl;
    unfold FreeTranslationService.translateWithMyMemory,
      FreeTranslationService.translateWithLibreTranslate,
      FreeTranslationService.translateWithGoogleFree; onward.
Qed.

Section OnwardDispatch.

Context {N R : Type}.
Variable nameOf : N -> string.
Variable prefix : string.
Variable configOf : N -> ServiceConfig.
Variable adapter : N -> M (option R).
Variable populated : R -> bool.
Variable pushError : ServiceError.t -> M unit.

Hypothesis adapter_onward : forall n, advances id (adapter n).
Hypothesis push_onward : forall e, advances id (pushError e).

Lemma onward_dispatch services :
  advances id (dispatch nameOf prefix configOf adapter populated pushError services).
Proof.
  induction services as [|n services IH]; cbn [dispatch]; [onward|].
  apply advances_bind; [ |intros [r|]; [onward|apply IH]].
  unfold attempt. cbv zeta. onward; first [apply adapter_onward|apply push_onward].
Qed.

End OnwardDispatch.

Lemma onward_withRetry {R} (stage : M (option R)) accepted n :
  advances id stage ->
  advances id (LyricsTranslatorService.withRetry stage accepted n).
Proof.
  intros Hstage. induction n as [|n IH]; cbn [LyricsTranslatorService.withRetry];
    [onward|].
  apply advances_bind; [ |intros [r|]; [onward|apply IH]].
  unfold LyricsTranslatorService.retryDelay. onward. done.
Qed.

Lemma onward_recognizeAudio host audioBuffer :
  advances id (FreeAudioRecognitionService.recognizeAudio host audioBuffer).
Proof.
  unfold FreeAudioRecognitionService.recognizeAudio.
  apply advances_bind; [onward|intros _].
  apply onward_dispatch; [apply onward_audio_adapter|].
  intros e. unfold FreeAudioRecognitionService.pushError. onward.
Qed.

Lemma onward_getLyrics host artist title :
  advances id (FreeLyricsService.getLyrics host artist title).
Proof.
  unfold FreeLyricsService.getLyrics.
  apply advances_bind; [onward|intros _].
  apply onward_dispatch; [apply onward_lyrics_adapter|].
  intros e. unfold FreeLyricsService.pushError. onward.
Qed.

Lemma onward_translateChunks host several targetLanguage chunks :
  forall translatedChunks sourceLanguage,
    advances id
      (FreeTranslationService.translateChunks host several targetLanguage chunks
         translatedChunks sourceLanguage).
Proof.
  induction chunks as [|chunk chunks IH]; intros translatedChunks sourceLanguage;
    cbn [FreeTranslationService.translateChunks]; [onward|].
  apply advances_bind; [ |].
  - apply onward_dispatch; [apply onward_translation_adapter|].
    intros e. unfold FreeTranslationService.pushError. onward.
  - intros [chunkResult|]; [|onward].
    apply advances_bind; [onward|intros _; apply IH].
Qed.

Lemma onward_translateText host text targetLanguage sourceLanguage :
  advances id
    (FreeTranslationService.translateText host text targetLanguage sourceLanguage).
Proof.
  unfold FreeTranslationService.translateText. cbv zeta.
  apply advances_bind; [onward|intros _].
  destruct (negb _); [onward|].
  apply advances_bind; [apply onward_translateChunks|].
  intros [[translatedChunks language]|]; onward.
Qed.

Ltac onward_local :=
  repeat first
    [ apply (advances_liftS id), advances_gets
    | onward_step ].

Lemma onward_stampProcessingTime startTime :
  advances (fun ls => id (snd ls))
    (LyricsTranslatorService.stampProcessingTime startTime).
Proof. unfold LyricsTranslatorService.stampProcessingTime. onward_local. Qed.

Lemma onward_translateFromAudio host audioBuffer options :
  advances id (LyricsTranslatorService.translateFromAudio host audioBuffer options).
Proof.
  unfold LyricsTranslatorService.translateFromAudio.
  apply advances_bind; [apply advances_gets|]. intros startTime.
  apply advances_withLocal.
  pose proof (onward_stampProcessingTime startTime) as Hstamp.
  apply advances_bind; [|intros returned; by onward_local].
  apply advances_try_catch; [|intros e; onward_local].
  unfold LyricsTranslatorService.translateFromAudioBody.
  apply advances_bind.
  { destruct (negb _ && negb _); [|onward_local].
    apply advances_bind.
    { apply (advances_liftS id), onward_withRetry, onward_recognizeAudio. }
    intros recognized. by onward_local. }
  intros returned. destruct returned; [onward_local|].
  apply advances_bind; [apply advances_getLocal|]. intros result. cbv zeta.
  destruct (negb _ || negb _); [by onward_local|].
  apply advances_bind.
  { apply (advances_liftS id), onward_withRetry, onward_getLyrics. }
  intros fetched. apply advances_bind; [apply advances_modifyLocal|]. intros _.
  destruct fetched as [lyrics_|]; [|by onward_local].
  apply advances_bind.
  { apply (advances_liftS id), onward_withRetry, onward_translateText. }
  intros translated. by onward_local.
Qed.

Lemma onward_translateLyricsOnly host lyrics_ targetLanguage sourceLanguage songInfo :
  advances id
    (LyricsTranslatorService.translateLyricsOnly host lyrics_ targetLanguage
       sourceLanguage songInfo).
Proof.
  unfold LyricsTranslatorService.translateLyricsOnly.
  apply advances_bind; [apply advances_gets|]. intros startTime.
  apply advances_withLocal.
  pose proof (onward_stampProcessingTime startTime) as Hstamp.
  apply advances_bind; [|intros _; by onward_local].
  apply advances_try_catch; [|intros e; onward_local].
  apply advances_bind.
  { apply (advances_liftS id), onward_withRetry, onward_translateText. }
  intros translated. onward_local.
Qed.

Section BatchTimes.

Context {A R : Type}.
Variable stage : A -> M (option R).
Variable delay : Z.
Hypothesis stage_onward : forall item, advances id (stage item).
Hypothesis delay_nonneg : 0 <= delay.

Lemma batchFrom_takes items : forall later results w,
  causal w ->
  causal (snd (batchFrom stage delay later items results w))
  /\ clock w + delay * Z.of_nat (length items - (if later then 0 else 1))
     <= clock (snd (batchFrom stage delay later items results w)).
Proof.
  induction items as [|item items IH]; intros later results w Hw; cbn [batchFrom].
  - split; [done|]. destruct later; simpl; lia.
  - rewrite bind_run.
    assert (exists w1,
               (if later then sleep delay else mret tt) w = (Normal tt, w1)
               /\ causal w1
               /\ clock w + (if later then delay else 0) <= clock w1)
      as (w1 & -> & Hw1 & Hc1).
    { destruct later; eexists; (split; [reflexivity|]); simpl; (split; [done|lia]). }
    rewrite bind_run.
    match goal with
    | |- context [try_catch ?body ?handler w1] =>
        assert (advances id (try_catch body handler)) as Hstep
          by (apply advances_try_catch;
              [apply advances_bind; [apply stage_onward|intros ?; apply advances_ret]
              |intros e; apply advances_ret]);
        pose proof (advances_elim id _ w1 Hstep Hw1) as [Hw2 Hc2];
        assert (exists results', fst (try_catch body handler w1) = Normal results')
          as [results' Hnormal]
          by (unfold try_catch; rewrite bind_run;
              destruct (stage item w1) as [[?|?] ?]; simpl; eauto);
        destruct (try_catch body handler w1) as [c w2]
    end.
    cbn [fst snd id] in *. subst c.
    destruct (IH true results' w2 Hw2) as [Hw' Hc']. split; [done|].
    cbn [length]. destruct later; lia.
Qed.

End BatchTimes.

Lemma batchTranslateFrom_takes host requests : forall results w,
  causal w ->
  causal (snd (LyricsTranslatorService.batchTranslateFrom host requests results w))
  /\ clock w + 2000 * Z.of_nat (length requests - 1)
     <= clock (snd (LyricsTranslatorService.batchTranslateFrom host requests results w)).
Proof.
  induction requests as [|request requests IH]; intros results w Hw;
    cbn [LyricsTranslatorService.batchTranslateFrom].
  - split; [done|]. simpl. lia.
  - rewrite bind_run.
    match goal with
    | |- context [try_catch ?body ?handler w] =>
        assert (advances id (try_catch body handler)) as Hstep
          by (apply advances_try_catch;
              [apply advances_bind;
                 [apply onward_translateFromAudio|intros ?; apply advances_ret]
              |intros e; apply advances_ret]);
        pose proof (advances_elim id _ w Hstep Hw) as [Hw1 Hc1];
        assert (exists results', fst (try_catch body handler w) = Normal results')
          as [results' Hnormal]
          by (unfold try_catch; rewrite bind_run;
              match goal with
              | |- context [LyricsTranslatorService.translateFromSongInfo ?h ?a ?t ?l ?s w] =>
                  destruct (LyricsTranslatorService.translateFromSongInfo h a t l s w)
                    as [[?|?] ?]
              end; simpl; eauto);
        destruct (try_catch body handler w) as [c w1]
    end.
    cbn [fst snd id] in *. subst c. rewrite bind_run.
    destruct requests as [|next requests].
    + rewrite bool_decide_false by (by intros H; apply H). cbn. split; [done|lia].
    + rewrite bool_decide_true by done.
      change (sleep 2000 w1) with (Normal tt, set_clock (fun t => t + 2000) w1).
      cbv iota beta.
      destruct (IH results' (set_clock (fun t => t + 2000) w1)) as [Hw' Hc']; [done|].
      split; [done|]. cbn [length clock set_clock] in *. lia.
Qed.

Lemma translateChunks_takes host several targetLanguage chunks :
  forall translatedChunks sourceLanguage w out w',
    causal w ->
    FreeTranslationService.translateChunks host several targetLanguage chunks
      translatedChunks sourceLanguage w = (Normal (Some out), w') ->
    causal w'
    /\ clock w + (if several then 1000 * Z.of_nat (length chunks) else 0) <= clock w'.
Proof.
  induction chunks as [|chunk chunks IH];
    intros translatedChunks sourceLanguage w out w' Hw;
    cbn [FreeTranslationService.translateChunks].
  - intros [= _ <-]. split; [done|]. destruct several; simpl; lia.
  - rewrite bind_run.
    match goal with
    | |- context [dispatch ?n ?p ?c ?a ?pop ?push ?s w] =>
        assert (advances id (dispatch n p c a pop push s)) as Hstep
          by (apply onward_dispatch; [apply onward_translation_adapter|];
              intros e; unfold FreeTranslationService.pushError; onward);
        pose proof (advances_elim id _ w Hstep Hw) as [Hw1 Hc1];
        destruct (dispatch n p c a pop push s w) as [[[chunkResult|]|e] w1]
    end; [|done..].
    cbn [snd id] in *. rewrite bind_run.
    assert (exists w2,
               (if several then sleep 1000 else mret tt) w1 = (Normal tt, w2)
               /\ causal w2
               /\ clock w1 + (if several then 1000 else 0) <= clock w2)
      as (w2 & -> & Hw2 & Hc2).
    { destruct several; eexists; (split; [reflexivity|]); simpl; (split; [done|lia]). }
    intros Hrest. destruct (IH _ _ _ _ _ Hw2 Hrest) as [Hw' Hc'].
    split; [done|]. cbn [length]. destruct several; lia.
Qed.

(** X29. Time.  On a network whose replies take no negative time:
    the [processingTime] of an outcome of [translateFromAudio] or
    [translateLyricsOnly] is not negative; a translation of a text of
    [n > 1] chunks takes at least [n] seconds; a batch of [n] items
    takes at least [n - 1] times the delay of the batch method (1 s for
    [batchRecognize], 0.5 s for [batchGetLyrics], 2 s for the two
    [batchTranslate]). *)
Theorem time_goes_onward (host : Host) (w : World) :
  causal w ->
  (forall audioBuffer options outcome w',
      LyricsTranslatorService.translateFromAudio host audioBuffer options w
      = (Normal outcome, w') ->
      0 <= LyricsTranslationPipeline.processingTime outcome)
  /\ (forall lyrics_ targetLanguage sourceLanguage songInfo outcome w',
        LyricsTranslatorService.translateLyricsOnly host lyrics_ targetLanguage
          sourceLanguage songInfo w
        = (Normal outcome, w') ->
        0 <= LyricsTranslationPipeline.processingTime outcome)
  /\ (forall text targetLanguage sourceLanguage result w',
        FreeTranslationService.translateText host text targetLanguage sourceLanguage w
        = (Normal (Some result), w') ->
        (1 < length (FreeTranslationService.splitTextIntoChunks text 1000))%nat ->
        clock w
        + 1000 * Z.of_nat (length (FreeTranslationService.splitTextIntoChunks text 1000))
        <= clock w')
  /\ (forall audioBuffers,
        clock w + 1000 * Z.of_nat (length audioBuffers - 1)
        <= clock (snd (FreeAudioRecognitionService.batchRecognize host audioBuffers w)))
  /\ (forall requests,
        clock w + 500 * Z.of_nat (length requests - 1)
        <= clock (snd (FreeLyricsService.batchGetLyrics host requests w)))
  /\ (forall texts targetLanguage sourceLanguage,
        clock w + 2000 * Z.of_nat (length texts - 1)
        <= clock (snd (FreeTranslationService.batchTranslate host texts targetLanguage
                         sourceLanguage w)))
  /\ (forall requests,
        clock w + 2000 * Z.of_nat (length requests - 1)
        <= clock (snd (LyricsTranslatorService.batchTranslate host requests w))).
Proof.
  intros Hw. split_and!.
  - intros audioBuffer options outcome w' Hrun.
    pose proof (translateFromAudio_stamped host audioBuffer options w) as Hs.
    apply (wp_run _ _ _ _ _ Hrun) in Hs as (? & [= <-] & Htime & _).
    pose proof (advances_elim id _ w (onward_translateFromAudio host audioBuffer options) Hw)
      as [_ Hc].
    rewrite Hrun in Hc. cbn [snd id] in Hc. lia.
  - intros lyrics_ targetLanguage sourceLanguage songInfo outcome w' Hrun.
    pose proof (translateLyricsOnly_stamped host lyrics_ targetLanguage sourceLanguage
                  songInfo w) as Hs.
    apply (wp_run _ _ _ _ _ Hrun) in Hs as (? & [= <-] & Htime & _).
    pose proof (advances_elim id _ w
                  (onward_translateLyricsOnly host lyrics_ targetLanguage sourceLanguage
                     songInfo) Hw) as [_ Hc].
    rewrite Hrun in Hc. cbn [snd id] in Hc. lia.
  - intros text targetLanguage sourceLanguage result w' Hrun Hseveral.
    unfold FreeTranslationService.translateText in Hrun. cbv zeta in Hrun.
    rewrite bind_run in Hrun. cbn [modify] in Hrun.
    destruct (negb _); [done|]. rewrite bind_run in Hrun.
    rewrite (bool_decide_true _ Hseveral) in Hrun.
    match type of Hrun with
    | context [FreeTranslationService.translateChunks ?h ?s ?t ?c ?tc ?sl ?w0] =>
        destruct (FreeTranslationService.translateChunks h s t c tc sl w0)
          as [[[out|]|e] w1] eqn:Hchunks; [|done..]
    end.
    apply translateChunks_takes in Hchunks as [_ Hc]; [|done].
    destruct out as [translatedChunks language].
    destruct (bool_decide (length translatedChunks = 0%nat)); [done|].
    injection Hrun as _ <-. exact Hc.
  - intros audioBuffers. unfold FreeAudioRecognitionService.batchRecognize.
    by destruct (batchFrom_takes (FreeAudioRecognitionService.recognizeAudio host) 1000
                   (onward_recognizeAudio host) ltac:(lia) audioBuffers false [] w Hw).
  - intros requests. unfold FreeLyricsService.batchGetLyrics.
    refine (proj2 (batchFrom_takes _ 500 _ ltac:(lia) requests false [] w Hw)).
    intros [artist title]. apply onward_getLyrics.
  - intros texts targetLanguage sourceLanguage.
    unfold FreeTranslationService.batchTranslate. cbv zeta.
    refine (proj2 (batchFrom_takes _ 2000 _ ltac:(lia) texts false [] w Hw)).
    intros text. apply onward_translateText.
  - intros requests. unfold LyricsTranslatorService.batchTranslate.
    by destruct (batchTranslateFrom_takes host requests [] w Hw).
Qed.

Lemma time_goes_onward_witness :
  causal (Examples.fresh 0 Examples.lyricsNotFound)
  /\ clock (Examples.fresh 0 Examples.lyricsNotFound) + 2000
     <= clock (snd (LyricsTranslatorService.batchTranslate Examples.bareHost
                      [ {| BatchRequest.artist := "The Beatles";
                           BatchRequest.title := "Yesterday";
                           BatchRequest.targetLanguage := "es";
                           BatchRequest.sourceLanguage := None |};
                        {| BatchRequest.artist := "The Beatles";
                           BatchRequest.title := "Help";
                           BatchRequest.targetLanguage := "es";
                           BatchRequest.sourceLanguage := None |} ]
                      (Examples.fresh 0 Examples.lyricsNotFound))).
Proof.
  assert (causal (Examples.fresh 0 Examples.lyricsNotFound)) as Hw
    by (intros n; simpl; lia).
  split; [exact Hw|].
  destruct (time_goes_onward Examples.bareHost (Examples.fresh 0 Examples.lyricsNotFound) Hw)
    as (_ & _ & _ & _ & _ & _ & Hbatch).
  exact (Hbatch [_; _]).
Defined.
